(** * yam-toolkit: the sequence shuffler (yamshuf.c) and the motif scanner
    (yamscan.c), embedded as Rocq functions.

    Conventions of the embedding.
    - A [uint64_t] is a [Z] reduced with [u64] wherever the C arithmetic can
      wrap; an [int] is a [Z] reduced with [s32].
    - A byte ([unsigned char]) is a [Z] in [0, 256); a sequence is a list of
      bytes; a C array is a list read with [aget] and written with [aset].
    - A [double] is idealised as an exact rational ([Q]); the places where
      IEEE arithmetic differs in kind (division by zero) are written out.
    - The random generator of krng.h is a stream of 64-bit draws. *)

From Stdlib Require Import ZArith Znumtheory QArith Qround Qabs Qpower.
From Stdlib Require Import Lia Lqa List Permutation.
From stdpp Require Import base list gmap strings pretty.
From Stdlib Require Import String Ascii.

Import ListNotations.
Local Open Scope Z_scope.

(** ** Machine integers and arrays *)

Definition u64 (x : Z) : Z := x mod 2 ^ 64.

Definition s32 (x : Z) : Z := (x + 2 ^ 31) mod 2 ^ 32 - 2 ^ 31.

Definition INT_MAX : Z := 2147483647.
Definition INT_MIN : Z := -2147483648.

(** [a[i]], with [d] read outside the array. *)
Definition aget {A} (d : A) (a : list A) (i : Z) : A :=
  if i <? 0 then d else nth (Z.to_nat i) a d.

(** [a[i] = v]; a write outside the array is dropped. *)
Definition aset {A} (a : list A) (i : Z) (v : A) : list A :=
  if i <? 0 then a else <[Z.to_nat i := v]> a.

(** The indices [lo, lo + 1, ..., hi - 1] of a counting [for] loop. *)
Definition upto (lo hi : Z) : list Z := seqZ lo (hi - lo).

(** Bytes of a string literal. *)
Fixpoint bytes_of (s : string) : list Z :=
  match s with
  | EmptyString => []
  | String c s' => Z.of_N (N_of_ascii c) :: bytes_of s'
  end.

(** ** The random generator

    Modelled from the spec: krng.h is not among the sources; the spec only
    assumes a seedable, reproducible 64-bit generator.  A generator state is a
    stream of draws and the number of draws consumed so far. *)

Record krng_t := mk_krng { kr_draws : nat -> Z; kr_pos : nat }.

Definition kr_rand_r (g : krng_t) : Z * krng_t :=
  (u64 (kr_draws g (kr_pos g)), mk_krng (kr_draws g) (S (kr_pos g))).

(** * yamshuf.c *)

Module Yamshuf.

Definition MAX_K : Z := 9.

(** aA = 0, cC = 1, gG = 2, tTuU = 3 *)
Definition char2index_tab : list Z := [
  4; 4; 4; 4; 4; 4; 4; 4; 4; 4; 4; 4; 4; 4; 4; 4;
  4; 4; 4; 4; 4; 4; 4; 4; 4; 4; 4; 4; 4; 4; 4; 4;
  4; 4; 4; 4; 4; 4; 4; 4; 4; 4; 4; 4; 4; 4; 4; 4;
  4; 4; 4; 4; 4; 4; 4; 4; 4; 4; 4; 4; 4; 4; 4; 4;
  4; 0; 4; 1; 4; 4; 4; 2; 4; 4; 4; 4; 4; 4; 4; 4;
  4; 4; 4; 4; 3; 3; 4; 4; 4; 4; 4; 4; 4; 4; 4; 4;
  4; 0; 4; 1; 4; 4; 4; 2; 4; 4; 4; 4; 4; 4; 4; 4;
  4; 4; 4; 4; 3; 3; 4; 4; 4; 4; 4; 4; 4; 4; 4; 4;
  4; 4; 4; 4; 4; 4; 4; 4; 4; 4; 4; 4; 4; 4; 4; 4;
  4; 4; 4; 4; 4; 4; 4; 4; 4; 4; 4; 4; 4; 4; 4; 4;
  4; 4; 4; 4; 4; 4; 4; 4; 4; 4; 4; 4; 4; 4; 4; 4;
  4; 4; 4; 4; 4; 4; 4; 4; 4; 4; 4; 4; 4; 4; 4; 4;
  4; 4; 4; 4; 4; 4; 4; 4; 4; 4; 4; 4; 4; 4; 4; 4;
  4; 4; 4; 4; 4; 4; 4; 4; 4; 4; 4; 4; 4; 4; 4; 4;
  4; 4; 4; 4; 4; 4; 4; 4; 4; 4; 4; 4; 4; 4; 4; 4;
  4; 4; 4; 4; 4; 4; 4; 4; 4; 4; 4; 4; 4; 4; 4; 4 ].

Definition char2index (c : Z) : Z := aget 4 char2index_tab c.

Definition index2dna : list Z := bytes_of "ACGTN".
Definition index2rna : list Z := bytes_of "ACGUN".

Definition pow5_tab : list Z := [
                    1 ;                   5 ;                  25 ;                 125
;                 625 ;                3125 ;               15625 ;               78125
;              390625 ;             1953125 ;             9765625 ;            48828125
;           244140625 ;          1220703125 ;          6103515625 ;         30517578125
;        152587890625 ;        762939453125 ;       3814697265625 ;      19073486328125
;      95367431640625 ;     476837158203125 ;    2384185791015625 ;   11920928955078124
;   59604644775390624 ;  298023223876953152 ; 1490116119384765696 ; 7450580596923828224 ].

Definition pow5 (i : Z) : Z := aget 0 pow5_tab i.

Definition swap (seq : list Z) (i j : Z) : list Z :=
  let tmp := aget 0 seq i in
  aset (aset seq i (aget 0 seq j)) j tmp.

(** [for (i = 0, l = len - 1; i < l; i++) swap(seq, i, i + rand % (l - i))];
    [n] counts the iterations that remain, [l - i]. *)
Fixpoint fisher_yates_loop (n : nat) (i l : Z) (seq : list Z) (g : krng_t)
  : list Z * krng_t :=
  match n with
  | O => (seq, g)
  | S n' =>
      let (r, g') := kr_rand_r g in
      fisher_yates_loop n' (i + 1) l (swap seq i (u64 (i + r mod (l - i)))) g'
  end.

Definition shuffle_fisher_yates (seq : list Z) (len : Z) (g : krng_t)
  : list Z * krng_t :=
  let l := u64 (len - 1) in
  fisher_yates_loop (Z.to_nat l) 0 l seq g.

Definition swap_k (seq : list Z) (i j k : Z) : list Z :=
  fold_left (fun s a => swap s (u64 (i + a)) (u64 (j + a))) (upto 0 k) seq.

(** The loop of [shuffle_linear]; the guard is tested before every round and
    [i] grows by [k >= 1], so [fuel = size] rounds are never exhausted. *)
Fixpoint shuffle_linear_loop (fuel : nat) (i size k : Z) (seq : list Z)
  (g : krng_t) : list Z * krng_t :=
  match fuel with
  | O => (seq, g)
  | S fuel' =>
      if i <? u64 (size - 2 * k + 1) then
        let (x, g') := kr_rand_r g in
        let r := x mod u64 (size - 2 * k + 1 - i) in
        shuffle_linear_loop fuel' (u64 (i + k)) size k
          (swap_k seq i (u64 (i + k + r - r mod k)) k) g'
      else (seq, g)
  end.

Definition shuffle_linear (seq : list Z) (size k : Z) (g : krng_t)
  : list Z * krng_t :=
  shuffle_linear_loop (Z.to_nat size) 0 size k seq g.

Definition chars2kmer (seq : list Z) (k offset : Z) : Z :=
  fold_left
    (fun kmer j =>
       u64 (kmer + pow5 (k - 1 - j) * char2index (aget 0 seq (offset + j))))
    (upto 0 k) 0.

Definition count_kmers (seq : list Z) (size : Z) (kmer_tab : list Z) (k : Z)
  : list Z :=
  fold_left
    (fun tab i =>
       let km := chars2kmer seq k i in aset tab km (u64 (aget 0 tab km + 1)))
    (upto 0 (u64 (size - k + 1))) kmer_tab.

(** [kmers] is the table and [off] the offset the C pointer [kmers] has in
    it.  [r % k4] with [k4 = 0] is undefined in C; here [r mod 0 = r]. *)
Definition cumsum_and_pick_next_letter (kmers : list Z) (off : Z) (g : krng_t)
  : Z * krng_t :=
  let k0 := aget 0 kmers off in
  let k1 := u64 (k0 + aget 0 kmers (off + 1)) in
  let k2 := u64 (k1 + aget 0 kmers (off + 2)) in
  let k3 := u64 (k2 + aget 0 kmers (off + 3)) in
  let k4 := u64 (k3 + aget 0 kmers (off + 4)) in
  let (x, g') := kr_rand_r g in
  let r := x mod k4 in
  (if r <? k0 then 0
   else if r <? k1 then 1
   else if r <? k2 then 2
   else if r <? k3 then 3
   else 4, g').

Definition pick_next_letter (kmers : list Z) (off : Z) (g : krng_t)
  : Z * krng_t :=
  let (x, g') := kr_rand_r g in
  if aget 0 kmers (off + 4) =? 0 then (x mod 4, g')
  else
    let r := x mod aget 0 kmers (off + 4) in
    (if r <? aget 0 kmers off then 0
     else if r <? aget 0 kmers (off + 1) then 1
     else if r <? aget 0 kmers (off + 2) then 2
     else if r <? aget 0 kmers (off + 3) then 3
     else 4, g').

(** [kmer_tab] rows become cumulative, the first [k - 1] characters are
    canonicalised, every later character is drawn from the row of the
    [(k-1)]-mer before it. *)
Definition shuffle_markov (seq : list Z) (size k : Z) (kmer_tab : list Z)
  (is_dna : bool) (g : krng_t) : list Z * krng_t :=
  let index2xna := if is_dna then index2dna else index2rna in
  let tab :=
    fold_left
      (fun t row =>
         let i := 5 * row in
         let t := aset t (i + 1) (u64 (aget 0 t (i + 1) + aget 0 t i)) in
         let t := aset t (i + 2) (u64 (aget 0 t (i + 2) + aget 0 t (i + 1))) in
         let t := aset t (i + 3) (u64 (aget 0 t (i + 3) + aget 0 t (i + 2))) in
         aset t (i + 4) (u64 (aget 0 t (i + 4) + aget 0 t (i + 3))))
      (upto 0 ((pow5 k + 4) / 5)) kmer_tab in
  let seq :=
    fold_left
      (fun s i => aset s i (aget 0 index2xna (char2index (aget 0 s i))))
      (upto 0 (u64 (k - 1))) seq in
  fold_left
    (fun (st : list Z * krng_t) i =>
       let (s, g) := st in
       let previous :=
         fold_left
           (fun p j => u64 (p + char2index (aget 0 s (u64 (i - j))) * pow5 j))
           (rev (upto 1 k)) 0 in
       let (c, g') := pick_next_letter tab previous g in
       (aset s i (aget 0 index2xna c), g'))
    (upto (u64 (k - 1)) size) (seq, g).

Definition COUNT_EDGES (offset : Z) (tab : list Z) : Z :=
  u64 (aget 0 tab offset + aget 0 tab (offset + 1) + aget 0 tab (offset + 2)
       + aget 0 tab (offset + 3) + aget 0 tab (offset + 4)).

(** First [while] of the routing loop: from [u], draw an exit edge at every
    vertex until a routed (invalid) vertex is entered.  The loop has no bound
    of its own, so the model takes [fuel] and answers [None] without it. *)
Fixpoint euler_route (fuel : nat) (u : Z)
  (kmer_tab invalid_vertex next_index euler_path : list Z) (g : krng_t)
  : option (list Z * krng_t) :=
  match fuel with
  | O => None
  | S fuel' =>
      if aget 0 invalid_vertex u =? 0 then
        let (c, g') := cumsum_and_pick_next_letter kmer_tab (u64 (u * 5)) g in
        let euler_path := aset euler_path u c in
        euler_route fuel' (u64 (aget 0 euler_path u + aget 0 next_index u))
          kmer_tab invalid_vertex next_index euler_path g'
      else Some (euler_path, g)
  end.

(** Second [while]: mark every vertex on the path just drawn as routed. *)
Fixpoint euler_mark (fuel : nat) (u : Z)
  (invalid_vertex next_index euler_path : list Z) : option (list Z) :=
  match fuel with
  | O => None
  | S fuel' =>
      if aget 0 invalid_vertex u =? 0 then
        euler_mark fuel' (u64 (aget 0 euler_path u + aget 0 next_index u))
          (aset invalid_vertex u 1) next_index euler_path
      else Some invalid_vertex
  end.

(** The scratch tables of [shuffle_euler] together with the sequence. *)
Record euler_t := mk_euler {
  e_seq : list Z;
  e_kmer_tab : list Z;
  e_invalid_vertex : list Z;
  e_euler_path : list Z;
  e_next_index : list Z
}.

Definition euler_init (seq : list Z) (size k : Z) (kmer_tab : list Z)
  (is_dna : bool) (invalid_vertex euler_path next_index : list Z)
  : euler_t * Z :=
  let index2xna := if is_dna then index2dna else index2rna in
  (* Initialize new sequence with starting vertex and final edge. *)
  let seq :=
    fold_left
      (fun s i => aset s i (aget 0 index2xna (char2index (aget 0 s i))))
      (upto 0 (u64 (k - 1))) seq in
  let seq :=
    aset seq (u64 (size - 1))
      (aget 0 index2xna (char2index (aget 0 seq (u64 (size - 1))))) in
  (* Remove the final edge from the edge pool. *)
  let last_edge := chars2kmer seq k (u64 (size - k)) in
  let kmer_tab := aset kmer_tab last_edge (u64 (aget 0 kmer_tab last_edge - 1)) in
  (* Initialize unavailable vertices. *)
  let invalid_vertex :=
    fold_left
      (fun iv i =>
         if COUNT_EDGES (u64 (5 * i)) kmer_tab =? 0 then aset iv i 1 else iv)
      (upto 0 (pow5 (k - 1))) invalid_vertex in
  (* Reserve the final vertex. *)
  let invalid_vertex :=
    aset invalid_vertex (chars2kmer seq (k - 1) (u64 (size - k + 1))) 1 in
  (* For k > 2, the index of the next vertex from an edge. *)
  let next_index :=
    if 2 <? k then
      fold_left
        (fun ni i => aset ni i (u64 ((i mod pow5 (k - 2)) * 5)))
        (upto 0 (pow5 (k - 1))) next_index
    else next_index in
  (mk_euler seq kmer_tab invalid_vertex euler_path next_index, last_edge).

(** "Find a random Eulerian path through all available vertices.": the two
    [while] loops for the start vertex [i]. *)
Definition euler_route_from (fuel : nat) (st : option (euler_t * krng_t))
  (i : Z) : option (euler_t * krng_t) :=
  match st with
  | None => None
  | Some (e, g) =>
      match euler_route fuel i (e_kmer_tab e) (e_invalid_vertex e)
              (e_next_index e) (e_euler_path e) g with
      | None => None
      | Some (ep, g') =>
          match euler_mark fuel i (e_invalid_vertex e) (e_next_index e) ep with
          | None => None
          | Some iv =>
              Some (mk_euler (e_seq e) (e_kmer_tab e) iv ep (e_next_index e), g')
          end
      end
  end.

Definition euler_route_all (fuel : nat) (k : Z) (e : euler_t) (g : krng_t)
  : option (euler_t * krng_t) :=
  fold_left (euler_route_from fuel) (upto 0 (pow5 (k - 1))) (Some (e, g)).

(** "Remove reserved edges from pool." *)
Definition euler_reserve (k last_edge : Z) (e : euler_t) : euler_t :=
  let tab :=
    fold_left
      (fun t i =>
         let edge := u64 (i * 5 + aget 0 (e_euler_path e) i) in
         if negb (edge =? last_edge) && negb (aget 0 t edge =? 0)
         then aset t edge (u64 (aget 0 t edge - 1)) else t)
      (upto 0 (pow5 (k - 1))) (e_kmer_tab e) in
  mk_euler (e_seq e) tab (e_invalid_vertex e) (e_euler_path e) (e_next_index e).

(** "Walk through Eulerian path, using up all available edges.": the body of
    the loop for the index [i], which writes [seq[i + 1]]. *)
Definition euler_walk_step (k : Z) (is_dna : bool) (st : euler_t * krng_t)
  (i : Z) : euler_t * krng_t :=
  let index2xna := if is_dna then index2dna else index2rna in
  let (e, g) := st in
  let current_vertex := chars2kmer (e_seq e) (k - 1) (u64 (i - k + 2)) in
  let kmer_index := u64 (current_vertex * 5) in
  let '(next_edge, tab, g') :=
    if negb (COUNT_EDGES kmer_index (e_kmer_tab e) =? 0) then
      let (c, g') := cumsum_and_pick_next_letter (e_kmer_tab e) kmer_index g in
      (c, aset (e_kmer_tab e) (u64 (c + kmer_index))
            (u64 (aget 0 (e_kmer_tab e) (u64 (c + kmer_index)) - 1)), g')
    else (aget 0 (e_euler_path e) current_vertex, e_kmer_tab e, g) in
  (mk_euler (aset (e_seq e) (i + 1) (aget 0 index2xna next_edge)) tab
     (e_invalid_vertex e) (e_euler_path e) (e_next_index e), g').

Definition euler_walk (size k : Z) (is_dna : bool) (e : euler_t) (g : krng_t)
  : euler_t * krng_t :=
  fold_left (euler_walk_step k is_dna) (upto (u64 (k - 2)) (u64 (size - 2)))
    (e, g).

Definition shuffle_euler (fuel : nat) (seq : list Z) (size k : Z)
  (kmer_tab : list Z) (is_dna : bool)
  (invalid_vertex euler_path next_index : list Z) (g : krng_t)
  : option (list Z * krng_t) :=
  let (e, last_edge) :=
    euler_init seq size k kmer_tab is_dna invalid_vertex euler_path next_index in
  match euler_route_all fuel k e g with
  | None => None
  | Some (e, g) =>
      let (e, g) := euler_walk size k is_dna (euler_reserve k last_edge e) g in
      Some (e_seq e, g)
  end.

(** [ERASE_ARRAY] on a freshly sized table. *)
Definition zeros (n : Z) : list Z := replicate (Z.to_nat n) 0.

(** One repetition of the default (Eulerian) mode, as [main] runs it: erase
    the four tables, count the k-mers, shuffle. *)
Definition euler_round (fuel : nat) (seq : list Z) (size k : Z)
  (is_dna : bool) (g : krng_t) : option (list Z * krng_t) :=
  let invalid_vertex := zeros (pow5 (k - 1)) in
  let euler_path := zeros (pow5 (k - 1)) in
  let next_index := zeros (pow5 (k - 1)) in
  let kmer_tab := count_kmers seq size (zeros (pow5 k)) k in
  shuffle_euler fuel seq size k kmer_tab is_dna invalid_vertex euler_path
    next_index g.

Definition markov_round (seq : list Z) (size k : Z) (is_dna : bool)
  (g : krng_t) : list Z * krng_t :=
  shuffle_markov seq size k (count_kmers seq size (zeros (pow5 k)) k) is_dna g.

(** ** The driver loop of [main] *)

Record args_t := mk_args {
  arg_k : Z;
  reset_seed : bool;
  use_markov : bool;
  use_linear : bool;
  rna_out : bool;
  arg_v : bool;
  shuf_repeats : Z
}.

(** What kseq hands over for one input record. *)
Record kseq_t := mk_kseq {
  ks_name : string;
  ks_comment : string;
  ks_seq : list Z
}.

(** One call of [write_seq]: the arguments it prints. *)
Record written_t := mk_written {
  w_name : string;
  w_comment : string;
  w_n : Z;
  w_seq : list Z
}.

(** Everything [main] leaves behind: the records written to the output, the
    warnings printed to stderr, the generator. *)
Record out_t := mk_out {
  o_written : list written_t;
  o_warnings : list string;
  o_markov_warned : bool;
  o_krng : krng_t
}.

Definition kr_srand_r (g : krng_t) : krng_t := mk_krng (kr_draws g) 0.

Definition warn_short : string := "! Warning: Sequence too short to shuffle".
Definition warn_markov : string :=
  "! Warning: Markov shuffling of small sequences may generate homopolymer repeats".

(** [while (rep_counter) { shuffle; write_seq; rep_counter--; }]: the sequence
    buffer is shuffled in place, so each repetition starts from the previous
    output.  [reps] is [rep_counter] and [n = total_reps - rep_counter].
    The loop of the source ends when the counter reaches 0, which a negative
    [total_reps] does not; the rounds counted here are those of
    [total_reps >= 0]. *)
Fixpoint rep_loop (shuffle : list Z -> krng_t -> option (list Z * krng_t))
  (reps : nat) (n : Z) (r : kseq_t) (seq : list Z) (g : krng_t)
  : option (list written_t * krng_t) :=
  match reps with
  | O => Some ([], g)
  | S reps' =>
      match shuffle seq g with
      | None => None
      | Some (seq', g') =>
          match rep_loop shuffle reps' (n + 1) r seq' g' with
          | None => None
          | Some (ws, g'') =>
              Some (mk_written (ks_name r) (ks_comment r) n seq' :: ws, g'')
          end
      end
  end.

(** The body of [while ((ret_val = kseq_read(kseq)) >= 0)] for one record.
    [None] only when the routing loop of the Eulerian mode is out of fuel. *)
Definition main_record (fuel : nat) (a : args_t) (r : kseq_t) (o : out_t)
  : option out_t :=
  let seq := ks_seq r in
  let size := Z.of_nat (List.length seq) in
  let total_reps := s32 (shuf_repeats a + 1) in
  let is_dna := negb (rna_out a) in
  let k := u64 (arg_k a) in
  let g := if reset_seed a then kr_srand_r (o_krng o) else o_krng o in
  let run shuffle warned warnings :=
    match rep_loop shuffle (Z.to_nat total_reps) 0 r seq g with
    | None => None
    | Some (ws, g') =>
        Some (mk_out (o_written o ++ ws) (o_warnings o ++ warnings) warned g')
    end in
  if size <? u64 (k * 2) then
    Some (mk_out (o_written o)
            (o_warnings o ++ (if arg_v a then [warn_short] else []))
            (o_markov_warned o) g)
  else if arg_k a =? 1 then
    run (fun s g => Some (shuffle_fisher_yates s size g)) (o_markov_warned o) []
  else if negb (use_linear a) && negb (use_markov a) then
    run (fun s g => euler_round fuel s size k is_dna g) (o_markov_warned o) []
  else if use_linear a then
    run (fun s g => Some (shuffle_linear s size k g)) (o_markov_warned o) []
  else if use_markov a then
    let warn :=
      (size <? 100) && arg_v a && negb (o_markov_warned o) in
    run (fun s g => Some (markov_round s size k is_dna g))
      (warn || o_markov_warned o) (if warn then [warn_markov] else [])
  else Some (mk_out (o_written o) (o_warnings o) (o_markov_warned o) g).

Definition main_loop (fuel : nat) (a : args_t) (rs : list kseq_t) (g : krng_t)
  : option out_t :=
  fold_left
    (fun (st : option out_t) r =>
       match st with
       | None => None
       | Some o => main_record fuel a r o
       end)
    rs (Some (mk_out [] [] false g)).

(** The table of k-mer counts a claim compares: [count_kmers] on a zeroed
    table of [5^k] entries. *)
Definition kmer_counts (seq : list Z) (k : Z) : list Z :=
  count_kmers seq (Z.of_nat (List.length seq)) (zeros (pow5 k)) k.

(** ** Output *)

Definition FASTA_LINE_LEN : Z := 60.

(** The characters of the C string that starts a buffer: up to the first
    NUL. *)
Fixpoint c_string (s : list Z) : list Z :=
  match s with
  | [] => []
  | c :: s' => if c =? 0 then [] else c :: c_string s'
  end.

(** What the conversion [%.*s] prints: at most [prec] characters of a C
    string. *)
Definition printf_prec (prec : Z) (s : list Z) : list Z :=
  take (Z.to_nat prec) (c_string s).

(** [for (i = 0; i < size; i += FASTA_LINE_LEN) fprintf("%.*s\n", ...)]:
    the lines printed from offset [i] on.  [i] grows in every round, so
    [fuel = size] rounds are never used up. *)
Fixpoint write_seq_lines (fuel : nat) (i size : Z) (seq : list Z)
  : list (list Z) :=
  match fuel with
  | O => []
  | S fuel' =>
      if i <? size then
        printf_prec FASTA_LINE_LEN (drop (Z.to_nat i) seq)
        :: write_seq_lines fuel' (u64 (i + FASTA_LINE_LEN)) size seq
      else []
  end.

(** [write_seq]: the header line (without the line feed) and the sequence
    lines. *)
Definition write_seq (seq : list Z) (size : Z) (name comment : string)
  (comment_l n : Z) : string * list (list Z) :=
  let header :=
    if negb (comment_l =? 0) && negb (n =? 0) then
      (">" ++ name ++ " " ++ comment ++ "-" ++ pretty (Z.to_N n))%string
    else if negb (comment_l =? 0) then
      (">" ++ name ++ " " ++ comment)%string
    else if negb (n =? 0) then
      (">" ++ name ++ "-" ++ pretty (Z.to_N n))%string
    else (">" ++ name)%string in
  (header, write_seq_lines (Z.to_nat size) 0 size seq).

End Yamshuf.

(** * yamscan.c *)

Module Yamscan.

Local Open Scope Q_scope.

Definition Qltb (x y : Q) : bool := negb (Qle_bool y x).

(** [x / y > c] on doubles, for finite [x], [y] and [c > 0]: with [y = 0] the
    quotient is [+inf] for [x > 0], [NaN] for [x = 0] and [-inf] for
    [x < 0], so the test holds exactly when [x > 0]. *)
Definition fdiv_gt (x y c : Q) : bool :=
  if Qeq_bool y 0 then Qltb 0 x else Qltb c (x / y).

Definition Qabs_gt (x c : Q) : bool := Qltb c (Qabs x).

Local Open Scope Z_scope.

Definition MAX_NAME_SIZE : Z := 256.
Definition MAX_MOTIF_SIZE : Z := 250.
Definition AMBIGUITY_SCORE : Z := -10000000.
Definition MAX_CDF_SIZE : Z := 2097152.
Definition PWM_INT_MULTIPLIER : Q := 1000 # 1.

Definition char2maskindex_tab : list Z := [
  4; 4; 4; 4; 4; 4; 4; 4; 4; 4; 4; 4; 4; 4; 4; 4;
  4; 4; 4; 4; 4; 4; 4; 4; 4; 4; 4; 4; 4; 4; 4; 4;
  4; 4; 4; 4; 4; 4; 4; 4; 4; 4; 4; 4; 4; 4; 4; 4;
  4; 4; 4; 4; 4; 4; 4; 4; 4; 4; 4; 4; 4; 4; 4; 4;
  4; 0; 4; 1; 4; 4; 4; 2; 4; 4; 4; 4; 4; 4; 4; 4;
  4; 4; 4; 4; 3; 3; 4; 4; 4; 4; 4; 4; 4; 4; 4; 4;
  4; 4; 4; 4; 4; 4; 4; 4; 4; 4; 4; 4; 4; 4; 4; 4;
  4; 4; 4; 4; 4; 4; 4; 4; 4; 4; 4; 4; 4; 4; 4; 4;
  4; 4; 4; 4; 4; 4; 4; 4; 4; 4; 4; 4; 4; 4; 4; 4;
  4; 4; 4; 4; 4; 4; 4; 4; 4; 4; 4; 4; 4; 4; 4; 4;
  4; 4; 4; 4; 4; 4; 4; 4; 4; 4; 4; 4; 4; 4; 4; 4;
  4; 4; 4; 4; 4; 4; 4; 4; 4; 4; 4; 4; 4; 4; 4; 4;
  4; 4; 4; 4; 4; 4; 4; 4; 4; 4; 4; 4; 4; 4; 4; 4;
  4; 4; 4; 4; 4; 4; 4; 4; 4; 4; 4; 4; 4; 4; 4; 4;
  4; 4; 4; 4; 4; 4; 4; 4; 4; 4; 4; 4; 4; 4; 4; 4;
  4; 4; 4; 4; 4; 4; 4; 4; 4; 4; 4; 4; 4; 4; 4; 4 ].

Definition char2index_tab : list Z := [
  4; 4; 4; 4; 4; 4; 4; 4; 4; 4; 4; 4; 4; 4; 4; 4;
  4; 4; 4; 4; 4; 4; 4; 4; 4; 4; 4; 4; 4; 4; 4; 4;
  4; 4; 4; 4; 4; 4; 4; 4; 4; 4; 4; 4; 4; 4; 4; 4;
  4; 4; 4; 4; 4; 4; 4; 4; 4; 4; 4; 4; 4; 4; 4; 4;
  4; 0; 4; 1; 4; 4; 4; 2; 4; 4; 4; 4; 4; 4; 4; 4;
  4; 4; 4; 4; 3; 3; 4; 4; 4; 4; 4; 4; 4; 4; 4; 4;
  4; 0; 4; 1; 4; 4; 4; 2; 4; 4; 4; 4; 4; 4; 4; 4;
  4; 4; 4; 4; 3; 3; 4; 4; 4; 4; 4; 4; 4; 4; 4; 4;
  4; 4; 4; 4; 4; 4; 4; 4; 4; 4; 4; 4; 4; 4; 4; 4;
  4; 4; 4; 4; 4; 4; 4; 4; 4; 4; 4; 4; 4; 4; 4; 4;
  4; 4; 4; 4; 4; 4; 4; 4; 4; 4; 4; 4; 4; 4; 4; 4;
  4; 4; 4; 4; 4; 4; 4; 4; 4; 4; 4; 4; 4; 4; 4; 4;
  4; 4; 4; 4; 4; 4; 4; 4; 4; 4; 4; 4; 4; 4; 4; 4;
  4; 4; 4; 4; 4; 4; 4; 4; 4; 4; 4; 4; 4; 4; 4; 4;
  4; 4; 4; 4; 4; 4; 4; 4; 4; 4; 4; 4; 4; 4; 4; 4;
  4; 4; 4; 4; 4; 4; 4; 4; 4; 4; 4; 4; 4; 4; 4; 4 ].

Definition consensus2probs : list Q := [
  1;   0;   0;   0;
  0;   1;   0;   0;
  0;   0;   1;   0;
  0;   0;   0;   1;
  0;   1#2; 0;   1#2;
  1#2; 0;   1#2; 0;
  1#2; 0;   0;   1#2;
  0;   1#2; 1#2; 0;
  0;   0;   1#2; 1#2;
  1#2; 1#2; 0;   0;
  333#1000; 0;        333#1000; 333#1000;
  333#1000; 333#1000; 333#1000; 0;
  333#1000; 333#1000; 0;        333#1000;
  0;        333#1000; 333#1000; 333#1000;
  1#4; 1#4; 1#4; 1#4 ]%Q.

Definition consensus2index_tab : list Z := [
  -1; -1; -1; -1; -1; -1; -1; -1; -1; -1; -1; -1; -1; -1; -1; -1;
  -1; -1; -1; -1; -1; -1; -1; -1; -1; -1; -1; -1; -1; -1; -1; -1;
  -1; -1; -1; -1; -1; -1; -1; -1; -1; -1; -1; -1; -1; -1; -1; -1;
  -1; -1; -1; -1; -1; -1; -1; -1; -1; -1; -1; -1; -1; -1; -1; -1;
  -1;  0; 13;  1; 10; -1; -1;  2; 12; -1; -1;  8; -1;  9; 14; -1;
  -1; -1;  5;  7;  3;  3; 11;  6; -1;  4; -1; -1; -1; -1; -1; -1;
  -1;  0; 13;  1; 10; -1; -1;  2; 12; -1; -1;  8; -1;  9; 14; -1;
  -1; -1;  5;  7;  3;  3; 11;  6; -1;  4; -1; -1; -1; -1; -1; -1;
  -1; -1; -1; -1; -1; -1; -1; -1; -1; -1; -1; -1; -1; -1; -1; -1;
  -1; -1; -1; -1; -1; -1; -1; -1; -1; -1; -1; -1; -1; -1; -1; -1;
  -1; -1; -1; -1; -1; -1; -1; -1; -1; -1; -1; -1; -1; -1; -1; -1;
  -1; -1; -1; -1; -1; -1; -1; -1; -1; -1; -1; -1; -1; -1; -1; -1;
  -1; -1; -1; -1; -1; -1; -1; -1; -1; -1; -1; -1; -1; -1; -1; -1;
  -1; -1; -1; -1; -1; -1; -1; -1; -1; -1; -1; -1; -1; -1; -1; -1;
  -1; -1; -1; -1; -1; -1; -1; -1; -1; -1; -1; -1; -1; -1; -1; -1;
  -1; -1; -1; -1; -1; -1; -1; -1; -1; -1; -1; -1; -1; -1; -1; -1 ].

(** The fields of [args_t] the modelled functions read, and
    [motif_info.is_consensus]. *)
Record args_t := mk_args {
  bkg : list Q;
  pvalue : Q;
  nsites : Z;
  pseudocount : Z;
  scan_rc : bool;
  dedup : bool;
  trim_names : bool;
  thresh0 : bool;
  mask : bool;
  is_consensus : bool
}.

Definition args : args_t :=
  mk_args [1#4; 1#4; 1#4; 1#4]%Q (1 # 10000) 1000 1 true false true false
    false false.

Record motif_t := mk_motif {
  pwm : list Z;
  pwm_rc : list Z;
  cdf : list Q;
  threshold : Z;
  size : Z;
  cdf_size : Z;
  min : Z;
  max : Z;
  max_score : Z;
  min_score : Z;
  cdf_max : Z;
  cdf_offset : Z;
  name : string
}.

Definition init_pwm : list Z :=
  fold_left (fun p r => aset p (5 * r + 4) AMBIGUITY_SCORE)
    (upto 0 (MAX_MOTIF_SIZE / 5)) (replicate (Z.to_nat MAX_MOTIF_SIZE) 0).

Definition init_motif : motif_t :=
  mk_motif init_pwm init_pwm [] 0 0 0 0 0 0 0 0 0 "motif".

Definition char2index (c : Z) : Z := aget 4 char2index_tab c.
Definition char2maskindex (c : Z) : Z := aget 4 char2maskindex_tab c.

Definition with_pwm (m : motif_t) (p : list Z) : motif_t :=
  mk_motif p (pwm_rc m) (cdf m) (threshold m) (size m) (cdf_size m) (min m)
    (max m) (max_score m) (min_score m) (cdf_max m) (cdf_offset m) (name m).

Definition with_pwm_rc (m : motif_t) (p : list Z) : motif_t :=
  mk_motif (pwm m) p (cdf m) (threshold m) (size m) (cdf_size m) (min m)
    (max m) (max_score m) (min_score m) (cdf_max m) (cdf_offset m) (name m).

Definition with_cdf (m : motif_t) (c : list Q) : motif_t :=
  mk_motif (pwm m) (pwm_rc m) c (threshold m) (size m) (cdf_size m) (min m)
    (max m) (max_score m) (min_score m) (cdf_max m) (cdf_offset m) (name m).

Definition set_score (m : motif_t) (l pos score : Z) : motif_t :=
  with_pwm m (aset (pwm m) (u64 (char2index l + pos * 5)) score).

Definition set_score_rc (m : motif_t) (l pos score : Z) : motif_t :=
  with_pwm_rc m (aset (pwm_rc m) (u64 (char2index l + pos * 5)) score).

Definition get_score (m : motif_t) (l pos : Z) (char2Xindex : Z -> Z) : Z :=
  aget 0 (pwm m) (u64 (char2Xindex l + pos * 5)).

Definition get_score_rc (m : motif_t) (l pos : Z) (char2Xindex : Z -> Z) : Z :=
  aget 0 (pwm_rc m) (u64 (char2Xindex l + pos * 5)).

Definition get_score_i (m : motif_t) (i pos : Z) : Z :=
  aget 0 (pwm m) (u64 (i + pos * 5)).

Definition chr (s : string) : Z := aget 0 (bytes_of s) 0.

(** *** Score distribution *)

(** [ERASE_ARRAY(cdf, n)] *)
Definition erase (c : list Q) (n : Z) : list Q :=
  fold_left (fun c i => aset c i 0%Q) (upto 0 n) c.

(** [for (k = 0; k <= max_step; k++) cdf[k+s] += tmp_pdf[k] * bkg[j];] *)
Definition cdf_add_shifted (c tmp : list Q) (s max_step : Z) (b : Q) : list Q :=
  fold_left
    (fun c k =>
       aset c (u64 (k + s))
         (aget 0%Q c (u64 (k + s)) + aget 0%Q tmp k * b)%Q)
    (upto 0 (max_step + 1)) c.

(** One round of the outer loop of [fill_cdf], for position [i]. *)
Definition cdf_step (a : args_t) (m : motif_t) (c : list Q) (i : Z) : list Q :=
  let max_step := u64 (i * cdf_max m) in
  let tmp := c in
  let c := erase c (u64 (max_step + cdf_max m + 1)) in
  fold_left
    (fun c j =>
       let s := u64 (s32 (get_score_i m j i - min m)) in
       cdf_add_shifted c tmp s max_step (aget 0%Q (bkg a) j))
    (upto 0 4) c.

(** [None] is the [badexit] on a CDF larger than [MAX_CDF_SIZE].  The shared
    buffer is filled with 1.0 up to [cdf_size] first, so what an earlier motif
    left in it is not read; the model starts from exactly that.  Dividing by a
    zero [pdf_sum] gives infinities and NaNs in C and zeros here. *)
Definition fill_cdf (a : args_t) (m : motif_t) : option motif_t :=
  if MAX_CDF_SIZE <? cdf_size m then None
  else
    let c := replicate (Z.to_nat (cdf_size m)) 1%Q in
    let c := fold_left (cdf_step a m) (upto 0 (size m)) c in
    let pdf_sum := fold_left Qplus c 0%Q in
    let c :=
      if Qabs_gt (pdf_sum - 1) (1 # 10000)
      then List.map (fun x => x / pdf_sum)%Q c else c in
    let c :=
      fold_left
        (fun c i => aset c i (aget 0%Q c i + aget 0%Q c (i + 1))%Q)
        (rev (upto 0 (cdf_size m - 1))) c in
    Some (with_cdf m c).

Definition score2pval (m : motif_t) (score : Z) : Q :=
  aget 0%Q (cdf m) (s32 (score - cdf_offset m)).

(** The first loop of [set_threshold]: the first index with
    [cdf[i] < pvalue], or [cdf_size] ([t] stays [cdf_size] until the break). *)
Definition threshold_index (a : args_t) (m : motif_t) : Z :=
  fold_left
    (fun t i =>
       if t =? cdf_size m
       then (if Qltb (aget 0%Q (cdf m) i) (pvalue a) then i else t)
       else t)
    (upto 0 (cdf_size m)) (cdf_size m).

(** The largest and the smallest of the four scores at position [i]. *)
Definition max_pos (m : motif_t) (i : Z) : Z :=
  fold_left (fun mx j => let t := get_score_i m j i in if mx <? t then t else mx)
    (upto 1 4) (get_score_i m 0 i).

Definition min_pos (m : motif_t) (i : Z) : Z :=
  fold_left (fun mn j => let t := get_score_i m j i in if t <? mn then t else mn)
    (upto 1 4) (get_score_i m 0 i).

Definition set_threshold (a : args_t) (m : motif_t) : motif_t :=
  let threshold_i := threshold_index a m in
  let t := s32 (threshold m - min m) in
  let t := s32 (u64 (u64 t * size m)) in
  let t := s32 (u64 (threshold_i - u64 t)) in
  let mx :=
    fold_left (fun acc i => s32 (acc + max_pos m i)) (upto 0 (size m))
      (max_score m) in
  let mn :=
    fold_left (fun acc i => s32 (acc + min_pos m i)) (upto 0 (size m))
      (min_score m) in
  let m' :=
    mk_motif (pwm m) (pwm_rc m) (cdf m) t (size m) (cdf_size m) (min m)
      (max m) mx mn (cdf_max m) (cdf_offset m) (name m) in
  let min_pvalue := score2pval m' (max_score m') in
  let t := if fdiv_gt min_pvalue (pvalue a) (10001 # 10000) then INT_MAX else t in
  let t :=
    if thresh0 a then 0
    else if is_consensus a then max_score m'
    else t in
  mk_motif (pwm m) (pwm_rc m) (cdf m) t (size m) (cdf_size m) (min m)
    (max m) mx mn (cdf_max m) (cdf_offset m) (name m).

(** *** Background *)





(** *** PWM construction *)

(** [(int) (log2(y) * 1000.0)].  libm's [log2] is not code of the
    repository; the composite is given its exact real value, the integer [n]
    truncated toward zero with [2^n <= y^1000 < 2^(n+1)] ([y >= 1]) or
    [2^(-n) <= (1/y)^1000 < 2^(-n+1)] ([0 < y < 1]).  For [y <= 0] C has
    [-inf] or NaN and an undefined conversion; the model gives 0. *)
Definition log2_milli (y : Q) : Z :=
  if Qle_bool 1 y then Z.log2 (Qfloor (y ^ 1000))
  else - Z.log2 (Qfloor ((/ y) ^ 1000)).

Definition calc_score (a : args_t) (prob_i bkg_i : Q) : Z :=
  let x := (prob_i * inject_Z (nsites a))%Q in
  let x := (x + inject_Z (pseudocount a) / 4)%Q in
  let x := (x / inject_Z (s32 (nsites a + pseudocount a)))%Q in
  log2_milli (x / bkg_i).

Definition get_pwm_max (m : motif_t) : Z :=
  fold_left
    (fun mx pos =>
       fold_left
         (fun mx l => let val := get_score_i m l pos in
                      if mx <? val then val else mx)
         (upto 0 4) mx)
    (upto 0 (size m)) 0.

Definition get_pwm_min (m : motif_t) : Z :=
  fold_left
    (fun mn pos =>
       fold_left
         (fun mn l => let val := get_score_i m l pos in
                      if val <? mn then val else mn)
         (upto 0 4) mn)
    (upto 0 (size m)) 0.

(** The body of the loop of [fill_pwm_rc], for position [pos]. *)
Definition fill_pwm_rc_step (m : motif_t) (pos : Z) : motif_t :=
  let m := set_score_rc m (chr "A") (u64 (size m - 1 - pos))
             (get_score m (chr "T") pos char2index) in
  let m := set_score_rc m (chr "C") (u64 (size m - 1 - pos))
             (get_score m (chr "G") pos char2index) in
  let m := set_score_rc m (chr "G") (u64 (size m - 1 - pos))
             (get_score m (chr "C") pos char2index) in
  set_score_rc m (chr "T") (u64 (size m - 1 - pos))
    (get_score m (chr "A") pos char2index).

Definition fill_pwm_rc (m : motif_t) : motif_t :=
  fold_left fill_pwm_rc_step (upto 0 (size m)) m.

(** Cut a name at its first blank or tab. *)
Fixpoint trim_name (s : string) : string :=
  match s with
  | EmptyString => EmptyString
  | String c s' =>
      if (Ascii.eqb c " " || Ascii.eqb c "009")%bool then EmptyString
      else String c (trim_name s')
  end.

(** The body of the loop of [complete_motifs], for one motif. *)
Definition complete_motif (a : args_t) (m : motif_t) : motif_t :=
  let mn := get_pwm_min m in
  let mx := get_pwm_max m in
  let off := s32 (u64 (mn * size m)) in
  let m := fill_pwm_rc m in
  let cmax := s32 (mx - mn) in
  let csize := u64 (size m * cmax + 1) in
  mk_motif (pwm m) (pwm_rc m) (cdf m) (threshold m) (size m) csize mn mx
    (max_score m) (min_score m) cmax off
    (if trim_names a then trim_name (name m) else name m).

Definition complete_motifs (a : args_t) (ms : list motif_t) : list motif_t :=
  List.map (complete_motif a) ms.

Definition consensus2index (c : Z) : Z := aget (-1) consensus2index_tab c.

(** The loop of [add_consensus_motif] over the letters.  [None] is the
    [badexit] on a letter that is no IUPAC code.  A consensus longer than
    [MAX_MOTIF_SIZE / 5] only prints a message in the source. *)
Definition add_consensus_scores (a : args_t) (consensus : string)
  : option motif_t :=
  let cs := bytes_of consensus in
  let m0 :=
    mk_motif init_pwm init_pwm [] 0 (Z.of_nat (List.length cs)) 0 0 0 0 0 0 0
      consensus in
  let step (st : option motif_t) (pos : Z) : option motif_t :=
    match st with
    | None => None
    | Some m =>
        let let_i := consensus2index (aget 0 cs pos) in
        if let_i =? -1 then None
        else
          let pr j := aget 0%Q consensus2probs (let_i * 4 + j) in
          let m := set_score m (chr "A") pos
                     (calc_score a (pr 0) (aget 0%Q (bkg a) 0)) in
          let m := set_score m (chr "C") pos
                     (calc_score a (pr 1) (aget 0%Q (bkg a) 1)) in
          let m := set_score m (chr "G") pos
                     (calc_score a (pr 2) (aget 0%Q (bkg a) 2)) in
          Some (set_score m (chr "T") pos
                  (calc_score a (pr 3) (aget 0%Q (bkg a) 3)))
    end in
  fold_left step (upto 0 (size m0)) (Some m0).

Definition add_consensus_motif (a : args_t) (consensus : string)
  : option motif_t :=
  match add_consensus_scores a consensus with
  | None => None
  | Some m => Some (complete_motif a m)
  end.

(** What [main] sets before it builds a consensus motif ([-1]). *)
Definition consensus_args (a : args_t) : args_t :=
  mk_args [1#4; 1#4; 1#4; 1#4]%Q 1%Q 1000 1 (scan_rc a) (dedup a)
    (trim_names a) (thresh0 a) (mask a) true.

(** *** Scanning *)

Definition score_subseq (m : motif_t) (seq : list Z) (offset : Z)
  (char2Xindex : Z -> Z) : Z :=
  fold_left
    (fun score i =>
       s32 (score + get_score m (aget 0 seq (u64 (i + offset))) i char2Xindex))
    (upto 0 (size m)) 0.

Definition score_subseq_rev (m : motif_t) (seq : list Z) (offset : Z)
  (char2Xindex : Z -> Z) : Z :=
  fold_left
    (fun score i =>
       s32 (score + get_score_rc m (aget 0 seq (u64 (i + offset))) i char2Xindex))
    (upto 0 (size m)) 0.

Definition score_subseq_rc (m : motif_t) (seq : list Z) (offset : Z)
  (char2Xindex : Z -> Z) : Z * Z :=
  fold_left
    (fun (sc : Z * Z) i =>
       (s32 (fst sc + get_score m (aget 0 seq (u64 (i + offset))) i char2Xindex),
        s32 (snd sc + get_score_rc m (aget 0 seq (u64 (i + offset))) i char2Xindex)))
    (upto 0 (size m)) (0, 0).

(** One output row, the arguments of [PRINT_RES]: start is 1-based and end
    inclusive; [h_score] is the integer score before the division by
    [PWM_INT_MULTIPLIER]. *)
Record hit_t := mk_hit {
  h_seq_name : string;
  h_start : Z;
  h_end : Z;
  h_strand : Z;
  h_motif : string;
  h_pvalue : Q;
  h_score : Z;
  h_score_pct : Q;
  h_match : list Z
}.

Definition print_res (m : motif_t) (seq_name : string) (seq : list Z)
  (i mot_size strand score : Z) : hit_t :=
  mk_hit seq_name (u64 (i + 1)) (u64 (i + mot_size)) strand (name m)
    (score2pval m score) score
    (100 * inject_Z score / inject_Z (max_score m))%Q
    (take (Z.to_nat mot_size) (drop (Z.to_nat i) seq)).

Definition score_seq (a : args_t) (m : motif_t) (seq_name : string)
  (seq : list Z) : list hit_t :=
  let char2Xindex := if mask a then char2maskindex else char2index in
  let seq_size := Z.of_nat (List.length seq) in
  let mot_size := s32 (size m) in
  if (seq_size <? u64 mot_size) || (threshold m =? INT_MAX) then []
  else
    let threshold := s32 (threshold m - 1) in
    if scan_rc a then
      flat_map
        (fun i =>
           let (score, score_rc) := score_subseq_rc m seq i char2Xindex in
           (if threshold <? score
            then [print_res m seq_name seq i mot_size (chr "+") score] else [])
           ++
           (if threshold <? score_rc
            then [print_res m seq_name seq i mot_size (chr "-") score_rc] else []))
        (upto 0 (u64 (seq_size - mot_size + 1)))
    else
      flat_map
        (fun i =>
           let score := score_subseq m seq i char2Xindex in
           if threshold <? score
           then [print_res m seq_name seq i mot_size (chr "+") score] else [])
        (upto 0 (u64 (seq_size - mot_size + 1))).

(** One row of the columns of [bed_t]. *)
Record bed_region := mk_bed {
  b_seq_name : string;
  b_start : Z;
  b_end : Z;
  b_strand : Z;
  b_range_name : string
}.

(** The offsets the loops of [score_seq_in_bed] visit:
    [for (i = bed_start_i - 1; i < bed_end_i - mot_size; i++)]. *)
Definition bed_offsets (b : bed_region) (mot_size : Z) : list Z :=
  let bed_start_i := u64 (b_start b + 1) in
  let bed_end_i := b_end b in
  upto (u64 (bed_start_i - 1)) (u64 (bed_end_i - mot_size)).

(** The rows of [PRINT_RES_BED] carry the range before the hit. *)
Definition score_seq_in_bed (a : args_t) (m : motif_t) (seq : list Z)
  (b : bed_region) : list (bed_region * hit_t) :=
  let char2Xindex := if mask a then char2maskindex else char2index in
  let seq_name := b_seq_name b in
  let bed_size := u64 (b_end b - b_start b) in
  let bed_strand_i := b_strand b in
  let mot_size := s32 (size m) in
  if (bed_size <? u64 mot_size) || (threshold m =? INT_MAX) then []
  else
    let threshold := s32 (threshold m - 1) in
    let row i strand score :=
      (b, print_res m seq_name seq i mot_size strand score) in
    if bed_strand_i =? chr "." then
      flat_map
        (fun i =>
           let (score, score_rc) := score_subseq_rc m seq i char2Xindex in
           (if threshold <? score then [row i (chr "+") score] else [])
           ++ (if threshold <? score_rc then [row i (chr "-") score_rc] else []))
        (bed_offsets b mot_size)
    else if bed_strand_i =? chr "+" then
      flat_map
        (fun i =>
           let score := score_subseq m seq i char2Xindex in
           if threshold <? score then [row i (chr "+") score] else [])
        (bed_offsets b mot_size)
    else if bed_strand_i =? chr "-" then
      flat_map
        (fun i =>
           let score := score_subseq_rev m seq i char2Xindex in
           if threshold <? score then [row i (chr "-") score] else [])
        (bed_offsets b mot_size)
    else [].

(** *** Duplicate names *)

(** [sprintf(arr, "__N%llu", N)] *)
Definition int_to_char_array (N : Z) : string :=
  ("__N" ++ pretty (Z.to_N N))%string.

(** A name is the text before the terminating NUL of its [char] array, so
    [arr_len] is its length when that is below [arr_max_len] and stays 0
    otherwise; the suffix and its NUL are then written from [arr_len] on,
    over the start of the name when [arr_len] stayed 0.  The pair is the
    name afterwards and [success]. *)
Definition dedup_char_array (arr : string) (arr_max_len N : Z)
  : string * bool :=
  let dedup := int_to_char_array N in
  let found := Z.of_nat (String.length arr) <? arr_max_len in
  let arr_len := if found then Z.of_nat (String.length arr) else 0 in
  let dedup_len := Z.of_nat (String.length dedup) + 1 in
  if dedup_len <=? u64 (arr_max_len - arr_len)
  then ((if found then arr ++ dedup else dedup)%string, true)
  else (arr, false).

(** One past the last byte that [dedup_char_array] writes,
    [arr_len + dedup_len]; 0 when it writes nothing. *)
Definition dedup_char_array_end (arr : string) (arr_max_len N : Z) : Z :=
  let dedup := int_to_char_array N in
  let found := Z.of_nat (String.length arr) <? arr_max_len in
  let arr_len := if found then Z.of_nat (String.length arr) else 0 in
  let dedup_len := Z.of_nat (String.length dedup) + 1 in
  if dedup_len <=? u64 (arr_max_len - arr_len)
  then arr_len + dedup_len else 0.

(** The [is_dup] flags: [kh_put] reports [absent = 0] for a key the set
    already holds.  The loop runs [for (i = 0; i < motif_info.n - 1; i++)]. *)
Definition motif_is_dup (names : list string) : list Z :=
  let n := Z.of_nat (List.length names) in
  snd
    (fold_left
       (fun (st : gset string * list Z) i =>
          let (h, is_dup) := st in
          let nm := aget EmptyString names i in
          (h ∪ {[ nm ]}, if decide (nm ∈ h) then aset is_dup i 1 else is_dup))
       (upto 0 (u64 (n - 1)))
       ((∅ : gset string), replicate (List.length names) 0)).

(** [None] is the [badexit]; otherwise the motif names afterwards. *)
Definition find_motif_dupes (a : args_t) (names : list string)
  : option (list string) :=
  let n := Z.of_nat (List.length names) in
  if n =? 1 then Some names
  else
    let is_dup := motif_is_dup names in
    let dup_count := fold_left (fun c x => u64 (c + x)) is_dup 0 in
    if negb (dup_count =? 0) then
      if dedup a then
        fold_left
          (fun (st : option (list string)) i =>
             match st with
             | None => None
             | Some ns =>
                 if negb (aget 0 is_dup i =? 0) then
                   let (nm, success) :=
                     dedup_char_array (aget EmptyString ns i) MAX_NAME_SIZE
                       (i + 1) in
                   if success then Some (aset ns i nm) else None
                 else Some ns
             end)
          (upto 0 n) (Some names)
      else None
    else Some names.

(** The same check on sequence names runs over every index:
    [for (i = 0; i < seq_info.n; i++)]. *)
Definition seq_is_dup (names : list string) : list Z :=
  let n := Z.of_nat (List.length names) in
  snd
    (fold_left
       (fun (st : gset string * list Z) i =>
          let (h, is_dup) := st in
          let nm := aget EmptyString names i in
          (h ∪ {[ nm ]}, if decide (nm ∈ h) then aset is_dup i 1 else is_dup))
       (upto 0 n)
       ((∅ : gset string), replicate (List.length names) 0)).

(** *** Sequence names *)

Definition SEQ_NAME_MAX_CHAR : Z := 512.

(** The first loop of [find_seq_dupes].  [seq_hash_tab] maps a name to a
    sequence index: [kh_put] reports [absent = 0] for a name the table
    already holds, and a new name gets its index as value. *)
Definition seq_hash_scan (names : list string) : gmap string Z * list Z :=
  let n := Z.of_nat (List.length names) in
  fold_left
    (fun (st : gmap string Z * list Z) i =>
       let (h, is_dup) := st in
       let nm := aget EmptyString names i in
       match h !! nm with
       | Some _ => (h, aset is_dup i 1)
       | None => (<[nm := i]> h, is_dup)
       end)
    (upto 0 n) ((∅ : gmap string Z), replicate (List.length names) 0).

(** How a call ends: it returns, it leaves through [badexit], or it writes
    outside an allocation, after which C defines no behaviour. *)
Inductive outcome (A : Type) : Type :=
| Returns (x : A)
| Exits
| Undefined.

Arguments Returns {A} x.
Arguments Exits {A}.
Arguments Undefined {A}.

(** [name_alloc] holds the number of bytes allocated for each name,
    [name.l + comment.l + 2] in [peek_through_seqs] and [load_seqs], while
    [dedup_char_array] is given [SEQ_NAME_MAX_CHAR] as the size of every
    name.  The result is the sequence names afterwards and the table. *)
Definition find_seq_dupes (a : args_t) (name_alloc : list Z)
  (names : list string) : outcome (list string * gmap string Z) :=
  let n := Z.of_nat (List.length names) in
  let (h, is_dup) := seq_hash_scan names in
  let dup_count := fold_left (fun c x => u64 (c + x)) is_dup 0 in
  if negb (dup_count =? 0) then
    if dedup a then
      match
        fold_left
          (fun (st : outcome (list string)) i =>
             match st with
             | Returns ns =>
                 if negb (aget 0 is_dup i =? 0) then
                   if dedup_char_array_end (aget EmptyString ns i)
                        SEQ_NAME_MAX_CHAR (i + 1)
                      <=? aget 0 name_alloc i
                   then
                     let (nm, success) :=
                       dedup_char_array (aget EmptyString ns i)
                         SEQ_NAME_MAX_CHAR (i + 1) in
                     if success then Returns (aset ns i nm) else Exits
                   else Undefined
                 else Returns ns
             | Exits => Exits
             | Undefined => Undefined
             end)
          (upto 0 n) (Returns names)
      with
      | Returns ns => Returns (ns, h)
      | Exits => Exits
      | Undefined => Undefined
      end
    else Exits
  else Returns (names, h).

(** *** BED ranges *)

Definition bed0 : bed_region := mk_bed EmptyString 0 0 0 EmptyString.

(** [None] is the [badexit] on a range whose sequence name is not in the
    table; otherwise [bed.seq_indices]. *)
Definition fill_bed_seq_indices (h : gmap string Z) (bs : list bed_region)
  : option (list Z) :=
  fold_left
    (fun (st : option (list Z)) i =>
       match st with
       | None => None
       | Some idx =>
           match h !! b_seq_name (aget bed0 bs i) with
           | None => None
           | Some k => Some (aset idx i k)
           end
       end)
    (upto 0 (Z.of_nat (List.length bs)))
    (Some (replicate (List.length bs) 0)).

(** [None] is the [badexit] on a range that starts past the end of its
    sequence; a range that ends past it is trimmed. *)
Definition check_bed_ranges (seq_sizes idx : list Z) (bs : list bed_region)
  : option (list bed_region) :=
  fold_left
    (fun (st : option (list bed_region)) i =>
       match st with
       | None => None
       | Some bs =>
           let b := aget bed0 bs i in
           let sz := aget 0 seq_sizes (aget 0 idx i) in
           if sz <? u64 (b_start b + 1) then None
           else if sz <? b_end b then
             Some (aset bs i
                     (mk_bed (b_seq_name b) (b_start b) sz (b_strand b)
                        (b_range_name b)))
           else Some bs
       end)
    (upto 0 (Z.of_nat (List.length bs))) (Some bs).

(** *** Lines of the input files *)

(** A line is the text before its terminating NUL: [aget 0 line i] is the
    character [line[i]], and the NUL from the length of the line on.  The
    counters of the four field functions are [int]s. *)
Fixpoint count_fields_loop (fuel : nat) (line : list Z) (res i : Z) : Z :=
  match fuel with
  | O => res
  | S fuel =>
      if aget 0 line i =? 0 then res
      else
        count_fields_loop fuel line
          (if aget 0 line i =? 9 then s32 (res + 1) else res) (s32 (i + 1))
  end.

Definition count_fields (line : list Z) : Z :=
  u64 (count_fields_loop (S (List.length line)) line 1 0).

Fixpoint count_field_size_loop (fuel : nat) (line : list Z) (k res i n : Z)
  : Z :=
  match fuel with
  | O => res
  | S fuel =>
      if aget 0 line i =? 0 then res
      else if aget 0 line i =? 9 then
        count_field_size_loop fuel line k res (s32 (i + 1)) (s32 (n + 1))
      else if u64 (s32 (n + 1)) =? k then
        count_field_size_loop fuel line k (s32 (res + 1)) (s32 (i + 1)) n
      else if k <? u64 (s32 (n + 1)) then res
      else count_field_size_loop fuel line k res (s32 (i + 1)) n
  end.

Definition count_field_size (line : list Z) (k : Z) : Z :=
  u64 (count_field_size_loop (S (List.length line)) line k 0 0 0).

Fixpoint field_start_loop (fuel : nat) (line : list Z) (k i n : Z) : Z :=
  match fuel with
  | O => i
  | S fuel =>
      if aget 0 line i =? 0 then i
      else if aget 0 line i =? 9 then
        field_start_loop fuel line k (s32 (i + 1)) (s32 (n + 1))
      else if u64 (s32 (n + 1)) =? k then i
      else field_start_loop fuel line k (s32 (i + 1)) n
  end.

Definition field_start (line : list Z) (k : Z) : Z :=
  u64 (field_start_loop (S (List.length line)) line k 0 0).

Fixpoint field_end_loop (fuel : nat) (line : list Z) (k i n : Z) : Z :=
  match fuel with
  | O => i
  | S fuel =>
      if aget 0 line i =? 0 then i
      else
        let n := if aget 0 line i =? 9 then s32 (n + 1) else n in
        if u64 n =? k then s32 (i - 1)
        else field_end_loop fuel line k (s32 (i + 1)) n
  end.

Definition field_end (line : list Z) (k : Z) : Z :=
  u64 (field_end_loop (S (List.length line)) line k 0 0).

(** [isspace] in the C locale. *)
Definition isspace (c : Z) : bool :=
  (c =? 32) || ((9 <=? c) && (c <=? 13)).

Definition MOTIF_VALUE_MAX_CHAR : Z := 256.

(** The pair is the string left in [field] (the buffer is erased first, so
    the text ends at the first NUL) and the size returned.  A write past the
    end of the buffer of [MOTIF_VALUE_MAX_CHAR] bytes is not modelled. *)
Definition parse_bed_field (line : list Z) (k : Z) (no_spaces : bool)
  : list Z * Z :=
  let start_i := field_start line k in
  let end_i := field_end line k in
  let size_i := count_field_size line k in
  let field := replicate (Z.to_nat MOTIF_VALUE_MAX_CHAR) 0 in
  let '(field, field_it, size_i) :=
    if 0 <? size_i then
      fold_left
        (fun (st : list Z * Z * Z) i =>
           let '(field, field_it, size_i) := st in
           if no_spaces && isspace (aget 0 line i)
           then (field, field_it, u64 (size_i - 1))
           else (aset field field_it (aget 0 line i), u64 (field_it + 1),
                 size_i))
        (upto start_i (end_i + 1)) (field, 0, size_i)
    else (field, 0, size_i) in
  (Yamshuf.c_string field, size_i).

(** [line] and [substring] are the texts before the terminating NULs. *)
Definition check_line_contains (line substring : list Z) : bool :=
  let ss_len := Z.of_nat (List.length substring) in
  if Z.of_nat (List.length line) <? ss_len then false
  else
    forallb (fun i => aget 0 line i =? aget 0 substring i) (upto 0 ss_len).

Fixpoint count_nonempty_chars_loop (fuel : nat) (line : list Z)
  (total_chars i : Z) : Z :=
  match fuel with
  | O => total_chars
  | S fuel =>
      let c := aget 0 line i in
      if (c =? 32) || (c =? 9) || (c =? 13) || (c =? 11) || (c =? 12)
         || (c =? 10)
      then count_nonempty_chars_loop fuel line total_chars (u64 (i + 1))
      else if c =? 0 then total_chars
      else count_nonempty_chars_loop fuel line (u64 (total_chars + 1))
             (u64 (i + 1))
  end.

Definition count_nonempty_chars (line : list Z) : Z :=
  count_nonempty_chars_loop (S (List.length line)) line 0 0.

Definition check_char_is_one_of (c : Z) (list : list Z) : bool :=
  existsb (fun i => aget 0 list i =? c)
    (upto 0 (Z.of_nat (List.length list))).

(** *** Probabilities and counts *)

(** The sum of the four counts of column [j]. *)
Definition column_sum (m : motif_t) (j : Z) : Z :=
  fold_left (fun s i => s32 (s + get_score_i m i j)) (upto 0 4) 0.

(** [None] is the [badexit] on unequal column sums.  The counts are read
    from and the scores written to the same matrix. *)
Definition pcm_to_pwm (a : args_t) (m : motif_t) : option motif_t :=
  let nsites := column_sum m 0 in
  if existsb (fun j => 1 <? Z.abs (s32 (column_sum m j - nsites)))
       (upto 0 (size m))
  then None
  else
    let lets := [chr "A"; chr "C"; chr "G"; chr "T"] in
    Some
      (fold_left
         (fun m j =>
            fold_left
              (fun m i =>
                 set_score m (aget 0 lets i) j
                   (calc_score a
                      ((inject_Z (pseudocount a) / 4
                        + inject_Z (get_score_i m i j))
                       / (inject_Z (pseudocount a) + inject_Z nsites))%Q
                      (aget 0%Q (bkg a) i)))
              (upto 0 4) m)
         (upto 0 (size m)) m).


(** *** Threads *)

(** [motifs[i]->thread = ((double) i / motif_info.n) * args.nthreads;] for
    [0 <= i < n]: the product is not negative and its conversion to
    [uint64_t] drops the fraction. *)
Definition motif_thread (i n nthreads : Z) : Z :=
  u64 (Qfloor (inject_Z i / inject_Z n * inject_Z nthreads)%Q).

(** The motifs that [scan_sub_process] scans in thread [t]. *)
Definition thread_motifs (n nthreads t : Z) : list Z :=
  List.filter (fun i => t =? motif_thread i n nthreads) (upto 0 n).

End Yamscan.

(** * Concrete inputs used by the examples *)

Module Examples.
Import Yamscan.

(** A motif of four positions whose best word is ACGT: score 2 for the
    matching base of a position and -1 for the others. *)
Definition acgt_scores : motif_t :=
  let m := mk_motif init_pwm init_pwm [] 0 4 0 0 0 0 0 0 0 "M" in
  fold_left
    (fun m pos =>
       fold_left
         (fun m l => with_pwm m (aset (pwm m) (l + pos * 5)
                                   (if l =? pos then 2 else -1)))
         (upto 0 4) m)
    (upto 0 4) m.

(** The same motif with a weaker last position: its best base scores 1. *)
Definition uneven_scores : motif_t :=
  with_pwm acgt_scores (aset (pwm acgt_scores) 18 1).

(** Default options with the p-value threshold [-t 0.01]. *)
Definition args_t01 : args_t :=
  mk_args [1#4; 1#4; 1#4; 1#4]%Q (1 # 100) 1000 1 true false true false
    false false.

(** [complete_motifs], [fill_cdf] and [set_threshold] in the order [main]
    runs them. *)
Definition prepare (a : args_t) (m : motif_t) : motif_t :=
  match fill_cdf a (complete_motif a m) with
  | Some m' => set_threshold a m'
  | None => complete_motif a m
  end.

Definition acgt_motif : motif_t := prepare args_t01 acgt_scores.

(** The motif between [fill_cdf] and [set_threshold]. *)
Definition acgt_filled : motif_t :=
  match fill_cdf args_t01 (complete_motif args_t01 acgt_scores) with
  | Some m' => m'
  | None => complete_motif args_t01 acgt_scores
  end.

Definition uneven_filled : motif_t :=
  match fill_cdf args_t01 (complete_motif args_t01 uneven_scores) with
  | Some m' => m'
  | None => complete_motif args_t01 uneven_scores
  end.

(** The run [-1 ACGT]: the consensus motif as [main] prepares it. *)
Definition consensus_acgt : motif_t :=
  let a := consensus_args args in
  match add_consensus_motif a "ACGT" with
  | Some m =>
      match fill_cdf a m with
      | Some m' => set_threshold a m'
      | None => m
      end
  | None => init_motif
  end.

(** A sequence of length 100 with ACGT at the offsets 12 and 16. *)
Definition chr1 : list Z :=
  replicate 12 (chr "A") ++ bytes_of "ACGTACGT" ++ replicate 80 (chr "A").

(** The BED line [chr1 10 20 r1 . +]. *)
Definition region_10_20 : bed_region := mk_bed "chr1" 10 20 (chr "+") "r1".

End Examples.

(** * Properties *)

(** ** Arrays and counting loops *)

Section Arrays.
Context {A : Type}.
Implicit Types (a : list A) (d v : A) (i j : Z).

Lemma length_aset a i v : List.length (aset a i v) = List.length a.
Proof. unfold aset. destruct (i <? 0); [done | apply length_insert]. Qed.

Lemma aget_aset_eq d a i v :
  0 <= i < Z.of_nat (List.length a) -> aget d (aset a i v) i = v.
Proof.
  intros Hi. unfold aget, aset.
  destruct (i <? 0) eqn:E; [lia |].
  apply nth_lookup_Some, list_lookup_insert_eq. lia.
Qed.

Lemma aget_aset_ne d a i j v : i <> j -> aget d (aset a i v) j = aget d a j.
Proof.
  intros Hne. unfold aget, aset.
  destruct (j <? 0) eqn:Ej; [done |].
  destruct (i <? 0) eqn:Ei; [done |].
  rewrite !nth_lookup, list_lookup_insert_ne; [done | lia].
Qed.

Lemma aget_aset d a i j v :
  0 <= i < Z.of_nat (List.length a) ->
  aget d (aset a i v) j = if i =? j then v else aget d a j.
Proof.
  intros Hi. destruct (i =? j) eqn:E.
  - apply Z.eqb_eq in E. subst j. by apply aget_aset_eq.
  - apply Z.eqb_neq in E. by apply aget_aset_ne.
Qed.

Lemma aset_oob a i v : Z.of_nat (List.length a) <= i -> aset a i v = a.
Proof.
  intros Hi. unfold aset. destruct (i <? 0); [done |].
  apply list_insert_ge. lia.
Qed.

Lemma aget_oob d a i : Z.of_nat (List.length a) <= i -> aget d a i = d.
Proof.
  intros Hi. unfold aget. destruct (i <? 0); [done |].
  apply nth_overflow. lia.
Qed.

Lemma aget_nth d a (n : nat) : aget d a (Z.of_nat n) = nth n a d.
Proof.
  unfold aget. destruct (Z.ltb_spec (Z.of_nat n) 0); [lia |].
  by rewrite Nat2Z.id.
Qed.

Lemma aget_app_l d a b i :
  0 <= i < Z.of_nat (List.length a) -> aget d (a ++ b) i = aget d a i.
Proof.
  intros Hi. unfold aget. destruct (i <? 0); [done |].
  apply app_nth1. lia.
Qed.

Lemma aget_app_r d a b i :
  Z.of_nat (List.length a) <= i ->
  aget d (a ++ b) i = aget d b (i - Z.of_nat (List.length a)).
Proof.
  intros Hi. unfold aget.
  destruct (i <? 0) eqn:E1; [lia |].
  destruct (i - Z.of_nat (List.length a) <? 0) eqn:E2; [lia |].
  rewrite app_nth2 by lia. f_equal. lia.
Qed.

End Arrays.

Lemma upto_nil lo hi : hi <= lo -> upto lo hi = [].
Proof. intros H. apply seqZ_nil. lia. Qed.

Lemma upto_cons lo hi : lo < hi -> upto lo hi = lo :: upto (lo + 1) hi.
Proof.
  intros H. unfold upto. rewrite seqZ_cons by lia.
  do 2 f_equal; lia.
Qed.

Lemma upto_snoc lo hi : lo <= hi -> upto lo (hi + 1) = upto lo hi ++ [hi].
Proof.
  intros H. unfold upto.
  replace (hi + 1 - lo) with (Z.of_nat (S (Z.to_nat (hi - lo)))) by lia.
  rewrite seqZ_S. rewrite !Z2Nat.id by lia. do 2 f_equal. lia.
Qed.

Lemma In_upto lo hi i : In i (upto lo hi) <-> lo <= i < hi.
Proof.
  unfold upto. rewrite <- list_elem_of_In, elem_of_seqZ. lia.
Qed.

Lemma length_upto lo hi : List.length (upto lo hi) = Z.to_nat (hi - lo).
Proof. apply length_seqZ. Qed.

(** The invariant rule of a counting loop. *)
Lemma fold_left_upto_ind {S : Type} (P : Z -> S -> Prop) (f : S -> Z -> S)
  (lo hi : Z) (s : S) :
  lo <= hi ->
  P lo s ->
  (forall i s, lo <= i < hi -> P i s -> P (i + 1) (f s i)) ->
  P hi (fold_left f (upto lo hi) s).
Proof.
  intros Hle H0 Hstep.
  remember (Z.to_nat (hi - lo)) as n eqn:En.
  revert hi Hle En Hstep. induction n as [| n IH]; intros hi Hle En Hstep.
  - assert (hi = lo) by lia. subst hi. by rewrite upto_nil.
  - replace hi with ((hi - 1) + 1) by lia.
    rewrite upto_snoc by lia. rewrite fold_left_app. simpl.
    apply Hstep; [lia |].
    apply IH; [lia | lia |].
    intros i s' Hi. apply Hstep. lia.
Qed.

Lemma u64_small x : 0 <= x < 2 ^ 64 -> u64 x = x.
Proof. intros H. unfold u64. by apply Z.mod_small. Qed.

Lemma s32_small x : - 2 ^ 31 <= x < 2 ^ 31 -> s32 x = x.
Proof. intros H. unfold s32. rewrite Z.mod_small; lia. Qed.

Lemma u64_range x : 0 <= u64 x < 2 ^ 64.
Proof. unfold u64. apply Z.mod_pos_bound. lia. Qed.

(** The four cases of an index of a base. *)
Ltac index_cases H :=
  match type of H with
  | (0 <= ?i < 4)%Z =>
      assert (i = 0 \/ i = 1 \/ i = 2 \/ i = 3)%Z as [-> | [-> | [-> | ->]]]
        by lia
  end.

(** ** Duplicate motif names (yamscan.c) *)

Section MotifDupes.
Import Yamscan.

(** While the names seen so far are distinct, no flag is raised and the hash
    set holds exactly those names. *)
Lemma motif_is_dup_loop (names : list string) (k : Z) :
  0 <= k <= Z.of_nat (List.length names) ->
  NoDup (take (Z.to_nat k) names) ->
  fold_left
    (fun (st : gset string * list Z) i =>
       let (h, is_dup) := st in
       let nm := aget EmptyString names i in
       (h ∪ {[ nm ]}, if decide (nm ∈ h) then aset is_dup i 1 else is_dup))
    (upto 0 k)
    ((∅ : gset string), replicate (List.length names) 0)
  = (list_to_set (take (Z.to_nat k) names), replicate (List.length names) 0).
Proof.
  intros Hk Hnd.
  apply (fold_left_upto_ind
    (fun i st => st = (list_to_set (take (Z.to_nat i) names),
                       replicate (List.length names) 0))).
  - lia.
  - done.
  - intros i st Hi ->.
    assert (Hlt : (Z.to_nat i < List.length names)%nat) by lia.
    destruct (lookup_lt_is_Some_2 names (Z.to_nat i) Hlt) as [x Hx].
    assert (Hget : aget EmptyString names i = x).
    { unfold aget. destruct (Z.ltb_spec i 0); [lia |]. by apply nth_lookup_Some. }
    cbv zeta. rewrite Hget.
    replace (Z.to_nat (i + 1)) with (S (Z.to_nat i)) by lia.
    rewrite (take_S_r _ _ _ Hx), list_to_set_app_L.
    destruct (decide (x ∈ (list_to_set (take (Z.to_nat i) names) : gset string)))
      as [Hin | _].
    + exfalso. apply elem_of_list_to_set in Hin.
      apply list_elem_of_lookup in Hin as [j Hj].
      apply lookup_take_Some in Hj as [Hj Hji].
      assert (Z.to_nat i = j); [| lia].
      apply (NoDup_lookup _ _ _ x Hnd); rewrite lookup_take_lt; auto; lia.
    + f_equal. f_equal. simpl. by rewrite union_empty_r_L.
Qed.

(** C5, the code: a motif whose name repeats an earlier one only at the last
    position of the list is not seen by [find_motif_dupes].  With the names
    before it distinct, the run neither aborts (without -d) nor renames
    anything (with -d), whether or not the last name is a duplicate. *)
Theorem find_motif_dupes_skips_last (a : args_t) (ns : list string) (x : string) :
  NoDup ns ->
  Z.of_nat (List.length ns) < 2 ^ 64 ->
  find_motif_dupes a (ns ++ [x]) = Some (ns ++ [x]).
Proof.
  intros Hnd Hlen. unfold find_motif_dupes.
  destruct (Z.of_nat (List.length (ns ++ [x])) =? 1) eqn:E1; [done |].
  assert (Hdup : motif_is_dup (ns ++ [x]) = replicate (List.length (ns ++ [x])) 0).
  { unfold motif_is_dup.
    replace (u64 (Z.of_nat (List.length (ns ++ [x])) - 1))
      with (Z.of_nat (List.length ns))
      by (rewrite length_app; simpl; rewrite u64_small; lia).
    rewrite motif_is_dup_loop; [done | rewrite length_app; simpl; lia |].
    rewrite Nat2Z.id, take_app_length. done. }
  rewrite Hdup.
  assert (Hsum : forall n, fold_left (fun c x => u64 (c + x)) (replicate n 0) 0 = 0).
  { induction n as [| n IH]; [done |].
    simpl. change (u64 (0 + 0)) with 0. exact IH. }
  rewrite Hsum. done.
Qed.

(** The scenario of the claim: two motifs, both named JUN.  Nothing aborts
    and nothing is renamed, with and without -d. *)
Lemma find_motif_dupes_skips_last_witness :
  NoDup ["JUN"%string] /\
  find_motif_dupes args ["JUN"; "JUN"]%string = Some ["JUN"; "JUN"]%string /\
  find_motif_dupes
    (mk_args [] 0 0 0 true true true false false false) ["JUN"; "JUN"]%string
  = Some ["JUN"; "JUN"]%string.
Proof.
  assert (Hnd : NoDup ["JUN"%string]) by (repeat constructor; set_solver).
  split; [exact Hnd |].
  split; apply (find_motif_dupes_skips_last _ ["JUN"%string] "JUN"%string Hnd);
    simpl; lia.
Defined.

(** The sibling loop over sequence names does flag a duplicate in the last
    position, and a duplicate motif that is not last is renamed under -d. *)
Lemma dupes_elsewhere :
  seq_is_dup ["JUN"; "JUN"]%string = [0; 1] /\
  find_motif_dupes args ["JUN"; "JUN"; "FOS"]%string = None /\
  find_motif_dupes
    (mk_args [] 0 0 0 true true true false false false)
    ["JUN"; "JUN"; "FOS"]%string
  = Some ["JUN"; "JUN__N2"; "FOS"]%string.
Proof. repeat split; vm_compute; reflexivity. Qed.

End MotifDupes.
(** ** Scanning inside a BED range (yamscan.c) *)

Section BedScan.
Import Yamscan.

(** A row printed under a guard is in the list only when the guard holds. *)
Ltac row_in H Hi :=
  match type of H with
  | In _ (if ?c then _ else _) => destruct c; row_in H Hi
  | In _ [] => destruct H
  | In _ [_] => destruct H as [<- | []]; exact Hi
  end.

Lemma In_bed_offsets (b : bed_region) (L i : Z) :
  0 <= b_start b <= b_end b -> b_end b < 2 ^ 63 -> 0 <= L <= b_end b ->
  In i (bed_offsets b L) <-> b_start b <= i < b_end b - L.
Proof.
  intros Hs He HL. unfold bed_offsets.
  rewrite In_upto.
  rewrite (u64_small (b_start b + 1)) by lia.
  rewrite (u64_small (b_start b + 1 - 1)) by lia.
  rewrite (u64_small (b_end b - L)) by lia.
  lia.
Qed.

(** C4, the code: every row [score_seq_in_bed] prints for a range
    [(start, end)] and a motif of length [L] has its 0-based offset in
    [start, end - L - 1]; the window at offset [end - L], the last one inside
    the range, is never scored. *)
Theorem score_seq_in_bed_misses_last_window
  (a : args_t) (m : motif_t) (seq : list Z) (b : bed_region)
  (row : bed_region * hit_t) :
  0 <= b_start b -> b_end b < 2 ^ 63 ->
  0 < size m < 2 ^ 31 -> b_start b + size m <= b_end b ->
  In row (score_seq_in_bed a m seq b) ->
  b_start b <= h_start (snd row) - 1 < b_end b - size m.
Proof.
  intros Hs He HL Hfit Hin.
  unfold score_seq_in_bed in Hin.
  rewrite (s32_small (size m)) in Hin by lia.
  destruct (_ || _)%bool; [destruct Hin |].
  assert (Hoff : forall i, In i (bed_offsets b (size m)) ->
                           b_start b <= u64 (i + 1) - 1 < b_end b - size m).
  { intros i Hi. apply In_bed_offsets in Hi; [| lia ..].
    rewrite u64_small; lia. }
  destruct (b_strand b =? chr ".").
  { apply in_flat_map in Hin as (i & Hi & Hrow). apply Hoff in Hi.
    destruct (score_subseq_rc m seq i _) as [sc rc].
    apply in_app_or in Hrow as [Hrow | Hrow]; row_in Hrow Hi. }
  destruct (b_strand b =? chr "+").
  { apply in_flat_map in Hin as (i & Hi & Hrow). apply Hoff in Hi.
    row_in Hrow Hi. }
  destruct (b_strand b =? chr "-"); [| destruct Hin].
  apply in_flat_map in Hin as (i & Hi & Hrow). apply Hoff in Hi.
  row_in Hrow Hi.
Qed.

(** Region 10-20 of [chr1] and the four-position motif: the one row printed
    is the window at offset 12. *)
Lemma score_seq_in_bed_misses_last_window_witness :
  let rows :=
    score_seq_in_bed Examples.args_t01 Examples.acgt_motif Examples.chr1
      Examples.region_10_20 in
  let row := nth 0 rows (Examples.region_10_20, mk_hit "" 0 0 0 "" 0 0 0 []) in
  In row rows /\ 10 <= h_start (snd row) - 1 < 20 - 4.
Proof.
  intros rows row.
  assert (Hin : In row rows) by (vm_compute; left; reflexivity).
  split; [exact Hin |].
  apply (score_seq_in_bed_misses_last_window Examples.args_t01
           Examples.acgt_motif Examples.chr1 Examples.region_10_20 row);
    [vm_compute; repeat split; (reflexivity || discriminate) .. | exact Hin].
Defined.

(** On the same input the window at offset 16 lies inside the range
    (16 + 4 = 20) and reaches the threshold: the scan of the whole sequence
    reports it on both strands, the scan of the range does not. *)
Lemma bed_range_10_20_rows :
  List.map (fun r => (h_start (snd r) - 1, h_strand (snd r)))
    (score_seq_in_bed Examples.args_t01 Examples.acgt_motif Examples.chr1
       Examples.region_10_20)
  = [(12, chr "+")]
  /\ List.map (fun h => (h_start h - 1, h_strand h))
       (score_seq Examples.args_t01 Examples.acgt_motif "chr1" Examples.chr1)
     = [(12, chr "+"); (12, chr "-"); (16, chr "+"); (16, chr "-")]
  /\ ~ In 16 (bed_offsets Examples.region_10_20 4)
  /\ bed_offsets Examples.region_10_20 4 = [10; 11; 12; 13; 14; 15].
Proof.
  repeat split; try (vm_compute; reflexivity).
  vm_compute. intuition discriminate.
Qed.

End BedScan.
(** ** The k = 1 shuffle (yamshuf.c) *)

Section FisherYates.
Import Yamshuf.

(** Overwriting one element changes the multiset by that element. *)
Lemma insert_Permutation_cons {A} (l : list A) (i : nat) (x y : A) :
  l !! i = Some x -> x :: <[i:=y]> l ≡ₚ y :: l.
Proof.
  revert i. induction l as [| a l IH]; intros [| i] Hx; simplify_eq/=.
  - apply perm_swap.
  - rewrite (perm_swap a x), (IH i Hx). apply perm_swap.
Qed.

Lemma length_swap (seq : list Z) (i j : Z) :
  List.length (swap seq i j) = List.length seq.
Proof. unfold swap. by rewrite !length_aset. Qed.

Lemma swap_Permutation (seq : list Z) (i j : Z) :
  0 <= i < Z.of_nat (List.length seq) ->
  0 <= j < Z.of_nat (List.length seq) ->
  swap seq i j ≡ₚ seq.
Proof.
  intros Hi Hj. unfold swap, aset, aget.
  destruct (Z.ltb_spec i 0); [lia |]. destruct (Z.ltb_spec j 0); [lia |].
  destruct (lookup_lt_is_Some_2 seq (Z.to_nat i)) as [x Hx]; [lia |].
  destruct (lookup_lt_is_Some_2 seq (Z.to_nat j)) as [y Hy]; [lia |].
  rewrite (nth_lookup_Some _ _ _ _ Hx), (nth_lookup_Some _ _ _ _ Hy).
  apply (Permutation_cons_inv (a := y)).
  assert (Hy' : <[Z.to_nat i := y]> seq !! Z.to_nat j = Some y).
  { destruct (decide (Z.to_nat i = Z.to_nat j)) as [-> | Hne].
    - apply list_lookup_insert_eq. by apply lookup_lt_is_Some_1.
    - by rewrite list_lookup_insert_ne. }
  rewrite (insert_Permutation_cons _ _ _ x Hy').
  apply (insert_Permutation_cons _ _ _ y Hx).
Qed.

Lemma swap_other (seq : list Z) (i j p : Z) :
  i <> p -> j <> p -> aget 0 (swap seq i j) p = aget 0 seq p.
Proof. intros Hi Hj. unfold swap. by rewrite !aget_aset_ne. Qed.

(** The loop only ever swaps positions below [l = len - 1]. *)
Lemma fisher_yates_loop_spec (n : nat) (i l : Z) (seq : list Z) (g : krng_t) :
  0 <= i -> Z.of_nat n = l - i ->
  l = Z.of_nat (List.length seq) - 1 -> l < 2 ^ 64 ->
  let out := fst (fisher_yates_loop n i l seq g) in
  out ≡ₚ seq /\ aget 0 out l = aget 0 seq l.
Proof.
  revert i seq g. induction n as [| n IH]; intros i seq g Hi Hn Hl Hl64; simpl.
  - done.
  - set (r := u64 (kr_draws g (kr_pos g))).
    assert (Hr : 0 <= r mod (l - i) < l - i) by (apply Z.mod_pos_bound; lia).
    rewrite (u64_small (i + r mod (l - i))) by lia.
    destruct (IH (i + 1) (swap seq i (i + r mod (l - i)))
                (mk_krng (kr_draws g) (S (kr_pos g)))) as [Hp Hlast];
      [lia | lia | rewrite length_swap; lia | lia |].
    split.
    + rewrite Hp. apply swap_Permutation; lia.
    + rewrite Hlast. apply swap_other; lia.
Qed.

(** C6, the code: the output of [shuffle_fisher_yates] is a permutation of
    the input, but the character in the last position never moves (the swap
    partner is drawn from [i .. len - 2]), so the permutations that move the
    last character are never produced, whatever the generator draws. *)
Theorem shuffle_fisher_yates_keeps_last (seq : list Z) (g : krng_t) :
  2 <= Z.of_nat (List.length seq) < 2 ^ 64 ->
  let len := Z.of_nat (List.length seq) in
  let out := fst (shuffle_fisher_yates seq len g) in
  out ≡ₚ seq /\ aget 0 out (len - 1) = aget 0 seq (len - 1).
Proof.
  intros Hlen len out. subst out. unfold shuffle_fisher_yates.
  rewrite (u64_small (len - 1)) by (subst len; lia).
  apply fisher_yates_loop_spec; subst len; lia.
Qed.

(** A sequence of two characters is never changed: AC stays AC for every
    generator, although CA is one of its two permutations. *)
Lemma shuffle_fisher_yates_keeps_last_witness :
  let g := mk_krng (fun n => Z.of_nat n * 7919 + 1) 0 in
  fst (shuffle_fisher_yates (bytes_of "AC") 2 g) ≡ₚ bytes_of "AC" /\
  aget 0 (fst (shuffle_fisher_yates (bytes_of "AC") 2 g)) (2 - 1)
  = aget 0 (bytes_of "AC") (2 - 1).
Proof.
  intros g.
  apply (shuffle_fisher_yates_keeps_last (bytes_of "AC") g). simpl. lia.
Defined.

Lemma shuffle_fisher_yates_two (a b : Z) (g : krng_t) :
  fst (shuffle_fisher_yates [a; b] 2 g) = [a; b].
Proof.
  unfold shuffle_fisher_yates. change (Z.to_nat (u64 (2 - 1))) with 1%nat.
  simpl. change (u64 (2 - 1) - 0) with 1. rewrite Z.mod_1_r.
  reflexivity.
Qed.

End FisherYates.
(** ** The Eulerian shuffle (yamshuf.c) *)

Section Euler.
Import Yamshuf.

(** The letter [cumsum_and_pick_next_letter] returns, as a function of the
    reduced draw [r], and the modulus [k4] of the reduction. *)
Definition letter_of (kmers : list Z) (off r : Z) : Z :=
  let k0 := aget 0 kmers off in
  let k1 := u64 (k0 + aget 0 kmers (off + 1)) in
  let k2 := u64 (k1 + aget 0 kmers (off + 2)) in
  let k3 := u64 (k2 + aget 0 kmers (off + 3)) in
  if r <? k0 then 0
  else if r <? k1 then 1
  else if r <? k2 then 2
  else if r <? k3 then 3
  else 4.

Definition row_total (kmers : list Z) (off : Z) : Z :=
  u64 (u64 (u64 (u64 (aget 0 kmers off + aget 0 kmers (off + 1))
                 + aget 0 kmers (off + 2)) + aget 0 kmers (off + 3))
       + aget 0 kmers (off + 4)).

Lemma cumsum_and_pick_next_letter_eq (kmers : list Z) (off : Z) (g : krng_t) :
  cumsum_and_pick_next_letter kmers off g
  = (letter_of kmers off (fst (kr_rand_r g) mod row_total kmers off),
     snd (kr_rand_r g)).
Proof.
  unfold cumsum_and_pick_next_letter, letter_of, row_total, kr_rand_r.
  cbv beta iota zeta delta [fst snd]. reflexivity.
Qed.

Lemma euler_route_stop fuel u tab iv ni ep g :
  (aget 0 iv u =? 0) = false ->
  euler_route (S fuel) u tab iv ni ep g = Some (ep, g).
Proof. intros H. cbn [euler_route]. rewrite H. reflexivity. Qed.

Lemma euler_route_step fuel u tab iv ni ep g :
  (aget 0 iv u =? 0) = true ->
  euler_route (S fuel) u tab iv ni ep g
  = let c := letter_of tab (u64 (u * 5))
               (fst (kr_rand_r g) mod row_total tab (u64 (u * 5))) in
    euler_route fuel (u64 (aget 0 (aset ep u c) u + aget 0 ni u))
      tab iv ni (aset ep u c) (snd (kr_rand_r g)).
Proof.
  intros H. cbn [euler_route]. rewrite H, cumsum_and_pick_next_letter_eq.
  reflexivity.
Qed.

Lemma euler_mark_stop fuel u iv ni ep :
  (aget 0 iv u =? 0) = false -> euler_mark (S fuel) u iv ni ep = Some iv.
Proof. intros H. cbn [euler_mark]. rewrite H. reflexivity. Qed.

Lemma euler_mark_step fuel u iv ni ep :
  (aget 0 iv u =? 0) = true ->
  euler_mark (S fuel) u iv ni ep
  = euler_mark fuel (u64 (aget 0 ep u + aget 0 ni u)) (aset iv u 1) ni ep.
Proof. intros H. cbn [euler_mark]. rewrite H. reflexivity. Qed.

Lemma euler_route_from_stop fuel e g i :
  (aget 0 (e_invalid_vertex e) i =? 0) = false ->
  euler_route_from (S fuel) (Some (e, g)) i = Some (e, g).
Proof.
  intros H. unfold euler_route_from.
  rewrite euler_route_stop, euler_mark_stop by exact H. by destruct e.
Qed.

Lemma euler_walk_step_pool k is_dna e g i :
  let kmer_index :=
    u64 (chars2kmer (e_seq e) (k - 1) (u64 (i - k + 2)) * 5) in
  (COUNT_EDGES kmer_index (e_kmer_tab e) =? 0) = false ->
  euler_walk_step k is_dna (e, g) i
  = let c := letter_of (e_kmer_tab e) kmer_index
               (fst (kr_rand_r g) mod row_total (e_kmer_tab e) kmer_index) in
    (mk_euler
       (aset (e_seq e) (i + 1)
          (aget 0 (if is_dna then index2dna else index2rna) c))
       (aset (e_kmer_tab e) (u64 (c + kmer_index))
          (u64 (aget 0 (e_kmer_tab e) (u64 (c + kmer_index)) - 1)))
       (e_invalid_vertex e) (e_euler_path e) (e_next_index e),
     snd (kr_rand_r g)).
Proof.
  intros kmer_index H. unfold euler_walk_step. fold kmer_index.
  rewrite H, cumsum_and_pick_next_letter_eq. reflexivity.
Qed.

Lemma euler_walk_step_exit k is_dna e g i :
  let current_vertex := chars2kmer (e_seq e) (k - 1) (u64 (i - k + 2)) in
  (COUNT_EDGES (u64 (current_vertex * 5)) (e_kmer_tab e) =? 0) = true ->
  euler_walk_step k is_dna (e, g) i
  = (mk_euler
       (aset (e_seq e) (i + 1)
          (aget 0 (if is_dna then index2dna else index2rna)
             (aget 0 (e_euler_path e) current_vertex)))
       (e_kmer_tab e) (e_invalid_vertex e) (e_euler_path e) (e_next_index e),
     g).
Proof.
  intros current_vertex H. unfold euler_walk_step. fold current_vertex.
  rewrite H. reflexivity.
Qed.

(** Evaluate a closed subterm in place. *)
Ltac eval_closed t :=
  let v := eval vm_compute in t in
  replace t with v by (vm_compute; reflexivity).

(** C1, the code: on the input CGCTG with k = 2, whenever the first draw of
    the generator is even the routing gives vertex C the exit edge CG, which
    leads to the reserved final vertex G and not to the vertex T the final
    edge TG leaves from; the walk then runs out of edges at T and writes the
    default exit letter A twice.  The output CTAAG has the length of the
    input but not its 2-mer counts (CT, TA, AA, AG against CG, GC, CT, TG). *)
Theorem shuffle_euler_loses_kmers (g : krng_t) (fuel : nat) :
  fst (kr_rand_r g) mod 2 = 0 ->
  option_map fst (euler_round (S (S fuel)) (bytes_of "CGCTG") 5 2 true g)
  = Some (bytes_of "CTAAG")
  /\ List.length (bytes_of "CTAAG") = List.length (bytes_of "CGCTG")
  /\ kmer_counts (bytes_of "CTAAG") 2 <> kmer_counts (bytes_of "CGCTG") 2.
Proof.
  intros Hd. split; [| split; [reflexivity | vm_compute; discriminate]].
  unfold euler_round, shuffle_euler.
  set (init := euler_init _ _ _ _ _ _ _ _).
  vm_compute in init. subst init. cbv iota beta.
  unfold euler_route_all. eval_closed (upto 0 (pow5 (2 - 1))).
  cbn [fold_left].
  rewrite (euler_route_from_stop _ _ _ 0) by reflexivity.
  (* vertex C draws its exit edge *)
  unfold euler_route_from at 4.
  cbn [e_kmer_tab e_invalid_vertex e_next_index e_euler_path e_seq].
  rewrite (euler_route_step _ 1) by reflexivity.
  match goal with |- context [row_total ?t ?o] => eval_closed (row_total t o) end.
  rewrite Hd. cbv zeta.
  match goal with |- context [letter_of ?t ?o 0] => eval_closed (letter_of t o 0) end.
  match goal with |- context [aset ?a 1 2] => eval_closed (aset a 1 2) end.
  rewrite (euler_route_stop _ (u64 _)) by reflexivity.
  rewrite (euler_mark_step _ 1) by reflexivity.
  rewrite (euler_mark_stop _ (u64 _)) by reflexivity.
  match goal with |- context [aset ?a 1 1] => eval_closed (aset a 1 1) end.
  rewrite (euler_route_from_stop _ _ _ 2) by reflexivity.
  rewrite (euler_route_from_stop _ _ _ 3) by reflexivity.
  rewrite (euler_route_from_stop _ _ _ 4) by reflexivity.
  match goal with |- context [euler_reserve ?k ?l ?e] =>
    eval_closed (euler_reserve k l e) end.
  unfold euler_walk. eval_closed (upto (u64 (2 - 2)) (u64 (5 - 2))).
  cbn [fold_left].
  rewrite euler_walk_step_pool by reflexivity.
  cbn [e_kmer_tab e_invalid_vertex e_next_index e_euler_path e_seq].
  match goal with |- context [row_total ?t ?o] => eval_closed (row_total t o) end.
  rewrite Z.mod_1_r. cbv zeta.
  match goal with |- context [mk_euler ?a ?b ?c ?d ?e] =>
    eval_closed (mk_euler a b c d e) end.
  rewrite euler_walk_step_exit by reflexivity.
  match goal with |- context [mk_euler ?a ?b ?c ?d ?e] =>
    eval_closed (mk_euler a b c d e) end.
  rewrite euler_walk_step_exit by reflexivity.
  match goal with |- context [mk_euler ?a ?b ?c ?d ?e] =>
    eval_closed (mk_euler a b c d e) end.
  reflexivity.
Qed.

(** The generator that always draws 0. *)
Lemma shuffle_euler_loses_kmers_witness :
  option_map fst
    (euler_round 2 (bytes_of "CGCTG") 5 2 true (mk_krng (fun _ => 0) 0))
  = Some (bytes_of "CTAAG")
  /\ List.length (bytes_of "CTAAG") = List.length (bytes_of "CGCTG")
  /\ kmer_counts (bytes_of "CTAAG") 2 <> kmer_counts (bytes_of "CGCTG") 2.
Proof.
  apply (shuffle_euler_loses_kmers (mk_krng (fun _ => 0) 0) 0). reflexivity.
Defined.

(** With an odd first draw the same input comes back with its 2-mer counts,
    and so does the sequence of the spec's scenario E4 under a sample
    generator. *)
Lemma shuffle_euler_samples :
  option_map fst
    (euler_round 2 (bytes_of "CGCTG") 5 2 true (mk_krng (fun _ => 1) 0))
  = Some (bytes_of "CGCTG")
  /\ (let g := mk_krng (fun n => Z.of_nat n * 7919 + 3) 0 in
      match euler_round 9 (bytes_of "ACGTACGTACGT") 12 2 true g with
      | Some (out, _) =>
          kmer_counts out 2 = kmer_counts (bytes_of "ACGTACGTACGT") 2
      | None => False
      end).
Proof. split; vm_compute; reflexivity. Qed.

End Euler.
(** ** Sequences too short to shuffle (yamshuf.c) *)

Section ShortSequences.
Import Yamshuf.

(** C10: for a record whose sequence is shorter than [2k], the loop body of
    [main] calls [write_seq] not once, whatever the mode (-m, -l, default),
    the repetition count and the generator: the records written so far stay
    as they are, and the only trace is the warning of verbose mode. *)
Theorem main_record_short_writes_nothing
  (fuel : nat) (a : args_t) (r : kseq_t) (o : out_t) :
  1 <= arg_k a < 2 ^ 62 ->
  Z.of_nat (List.length (ks_seq r)) < 2 * arg_k a ->
  exists o',
    main_record fuel a r o = Some o'
    /\ o_written o' = o_written o
    /\ o_warnings o' = o_warnings o ++ (if arg_v a then [warn_short] else []).
Proof.
  intros Hk Hshort. unfold main_record.
  rewrite (u64_small (arg_k a)) by lia.
  rewrite (u64_small (arg_k a * 2)) by lia.
  destruct (Z.ltb_spec (Z.of_nat (List.length (ks_seq r))) (arg_k a * 2)); [| lia].
  eexists. split; [reflexivity |]. split; reflexivity.
Qed.

(** Default options (k = 3), two repetitions asked for, a sequence of five
    characters. *)
Lemma main_record_short_writes_nothing_witness :
  exists o',
    main_record 0 (mk_args 3 false false false false true 2)
      (mk_kseq "seq1" "" (bytes_of "ACGTA"))
      (mk_out [] [] false (mk_krng (fun _ => 0) 0)) = Some o'
    /\ o_written o' = []
    /\ o_warnings o' = [] ++ [warn_short].
Proof.
  apply (main_record_short_writes_nothing 0
           (mk_args 3 false false false false true 2)
           (mk_kseq "seq1" "" (bytes_of "ACGTA"))
           (mk_out [] [] false (mk_krng (fun _ => 0) 0))); simpl; lia.
Defined.

(** So the output can hold fewer records than the input: of two records, a
    short one and one long enough, only the second is written. *)
Lemma main_loop_skips_short :
  let a := mk_args 1 false false false false false 0 in
  let rs := [mk_kseq "s1" "" (bytes_of "A"); mk_kseq "s2" "" (bytes_of "ACG")] in
  option_map (fun o => List.map w_name (o_written o))
    (main_loop 0 a rs (mk_krng (fun _ => 0) 0))
  = Some ["s2"%string].
Proof. vm_compute. reflexivity. Qed.

End ShortSequences.
(** ** Loading a background (yamscan.c) *)

Section Background.
Import Yamscan.
Local Open Scope Q_scope.

Lemma Qltb_lt (x y : Q) : Qltb x y = true <-> x < y.
Proof.
  unfold Qltb. rewrite negb_true_iff, <- not_true_iff_false, Qle_bool_iff.
  split; [apply Qnot_le_lt | apply Qlt_not_le].
Qed.

Lemma Qltb_ge (x y : Q) : Qltb x y = false <-> y <= x.
Proof.
  unfold Qltb. rewrite negb_false_iff. apply Qle_bool_iff.
Qed.






End Background.
(** ** Reverse-complement symmetry of the scores (yamscan.c) *)

Section ReverseComplement.
Import Yamscan.

(** The complement of a base character: A-T and C-G in either case, U read
    as T; every other byte is its own complement. *)
Definition complement (c : Z) : Z :=
  if c =? chr "A" then chr "T"
  else if c =? chr "C" then chr "G"
  else if c =? chr "G" then chr "C"
  else if (c =? chr "T") || (c =? chr "U") then chr "A"
  else if c =? chr "a" then chr "t"
  else if c =? chr "c" then chr "g"
  else if c =? chr "g" then chr "c"
  else if (c =? chr "t") || (c =? chr "u") then chr "a"
  else c.

Definition revcomp (seq : list Z) : list Z := rev (List.map complement seq).

(** Complementing a base mirrors its row index; the ambiguity row stays. *)
Definition complement_index (i : Z) : Z := if i <? 4 then 3 - i else 4.

(** The row of non-standard letters holds the sentinel in both matrices, as
    [init_motif] leaves it. *)
Definition ambiguity_rows (m : motif_t) : Prop :=
  forall pos, 0 <= pos < size m ->
    aget 0 (pwm m) (4 + pos * 5) = AMBIGUITY_SCORE
    /\ aget 0 (pwm_rc m) (4 + pos * 5) = AMBIGUITY_SCORE.

Lemma table_complement (tab : Z -> Z) (t : list Z) :
  (forall c, tab c = aget 4 t c) ->
  List.length t = 256%nat ->
  forallb (fun c => (tab (complement c) =? complement_index (tab c))
                    && (0 <=? tab c) && (tab c <=? 4))%bool
    (upto 0 256) = true ->
  forall c, tab (complement c) = complement_index (tab c) /\ 0 <= tab c <= 4.
Proof.
  intros Htab Hlen Hall c.
  destruct (Z_lt_ge_dec c 0) as [Hneg | Hpos];
    [| destruct (Z_lt_ge_dec c 256) as [Hlt | Hge]].
  - assert (Hc : complement c = c).
    { unfold complement.
      repeat match goal with
             | |- context [c =? ?k] => destruct (Z.eqb_spec c k) as [E | _];
                 [vm_compute in E; lia |]
             end. reflexivity. }
    rewrite Hc, Htab. unfold aget. destruct (Z.ltb_spec c 0); [| lia]. done.
  - rewrite forallb_forall in Hall. specialize (Hall c).
    rewrite In_upto in Hall. specialize (Hall ltac:(lia)).
    apply andb_prop in Hall as [Hall H4]. apply andb_prop in Hall as [H1 H0].
    lia.
  - assert (Hc : complement c = c).
    { unfold complement.
      repeat match goal with
             | |- context [c =? ?k] => destruct (Z.eqb_spec c k) as [E | _];
                 [vm_compute in E; lia |]
             end. reflexivity. }
    rewrite Hc, Htab, aget_oob by lia. done.
Qed.

Lemma char2index_complement c :
  char2index (complement c) = complement_index (char2index c)
  /\ 0 <= char2index c <= 4.
Proof.
  apply (table_complement char2index char2index_tab); [done | done |].
  vm_compute. reflexivity.
Qed.

Lemma char2maskindex_complement c :
  char2maskindex (complement c) = complement_index (char2maskindex c)
  /\ 0 <= char2maskindex c <= 4.
Proof.
  apply (table_complement char2maskindex char2maskindex_tab); [done | done |].
  vm_compute. reflexivity.
Qed.

Lemma aget_revcomp (seq : list Z) (j : Z) :
  0 <= j < Z.of_nat (List.length seq) ->
  aget 0 (revcomp seq) j
  = complement (aget 0 seq (Z.of_nat (List.length seq) - 1 - j)).
Proof.
  intros Hj. unfold aget, revcomp.
  destruct (Z.ltb_spec j 0); [lia |].
  destruct (Z.ltb_spec (Z.of_nat (List.length seq) - 1 - j) 0); [lia |].
  rewrite rev_nth by (rewrite length_map; lia).
  rewrite length_map.
  rewrite (nth_indep _ 0 (complement 0)) by (rewrite length_map; lia).
  rewrite map_nth. do 2 f_equal. lia.
Qed.

Lemma fill_pwm_rc_step_eq (m : motif_t) (pos : Z) :
  0 <= pos < size m -> size m <= 50 ->
  let q := size m - 1 - pos in
  fill_pwm_rc_step m pos
  = with_pwm_rc m
      (aset (aset (aset (aset (pwm_rc m)
         (0 + q * 5) (aget 0 (pwm m) (3 + pos * 5)))
         (1 + q * 5) (aget 0 (pwm m) (2 + pos * 5)))
         (2 + q * 5) (aget 0 (pwm m) (1 + pos * 5)))
         (3 + q * 5) (aget 0 (pwm m) (0 + pos * 5))).
Proof.
  intros Hpos Hsz q. unfold fill_pwm_rc_step, set_score_rc, get_score.
  cbn [size pwm pwm_rc with_pwm_rc].
  change (char2index (chr "A")) with 0. change (char2index (chr "C")) with 1.
  change (char2index (chr "G")) with 2. change (char2index (chr "T")) with 3.
  rewrite (u64_small (size m - 1 - pos)) by lia. fold q.
  rewrite !u64_small by (subst q; lia).
  reflexivity.
Qed.

(** What [fill_pwm_rc] leaves in [pwm_rc]: row [l] of position [pos] holds
    row [3 - l] of the mirrored position of [pwm]; the ambiguity row and
    the positions past the motif are as before. *)
Lemma fill_pwm_rc_spec (m : motif_t) :
  0 <= size m <= 50 -> List.length (pwm_rc m) = 250%nat ->
  pwm (fill_pwm_rc m) = pwm m
  /\ size (fill_pwm_rc m) = size m
  /\ forall l pos, 0 <= l < 5 -> 0 <= pos ->
       aget 0 (pwm_rc (fill_pwm_rc m)) (l + pos * 5)
       = if (l <? 4) && (pos <? size m)
         then aget 0 (pwm m) ((3 - l) + (size m - 1 - pos) * 5)
         else aget 0 (pwm_rc m) (l + pos * 5).
Proof.
  intros Hsz Hlen. unfold fill_pwm_rc.
  pose (P := fun (i : Z) (m' : motif_t) =>
    pwm m' = pwm m /\ size m' = size m
    /\ List.length (pwm_rc m') = 250%nat
    /\ forall l pos, 0 <= l < 5 -> 0 <= pos ->
         aget 0 (pwm_rc m') (l + pos * 5)
         = if (l <? 4) && (size m - i <=? pos) && (pos <? size m)
           then aget 0 (pwm m) ((3 - l) + (size m - 1 - pos) * 5)
           else aget 0 (pwm_rc m) (l + pos * 5)).
  assert (HP : P (size m) (fold_left fill_pwm_rc_step (upto 0 (size m)) m)).
  { apply fold_left_upto_ind; [lia | |].
    - repeat split; try done. intros l pos Hl Hp.
      destruct (l <? 4); [| done].
      destruct (Z.leb_spec (size m - 0) pos); [| done].
      destruct (Z.ltb_spec pos (size m)); [lia | done].
    - intros i m' Hi (Hpwm & Hsize & Hlen' & Hrc).
      rewrite fill_pwm_rc_step_eq by lia.
      rewrite Hsize, Hpwm.
      repeat split; try done.
      { cbn [pwm_rc with_pwm_rc]. by rewrite !length_aset. }
      intros l pos Hl Hp. cbn [pwm_rc with_pwm_rc].
      rewrite !aget_aset by (rewrite ?length_aset; lia).
      rewrite Hrc by lia.
      repeat match goal with
             | |- context [?x =? ?y] => destruct (Z.eqb_spec x y)
             | |- context [?x <? ?y] => destruct (Z.ltb_spec x y)
             | |- context [?x <=? ?y] => destruct (Z.leb_spec x y)
             end; cbn [andb]; try lia; try (f_equal; lia). }
  destruct HP as (Hpwm & Hsize & _ & Hrc).
  repeat split; try done.
  intros l pos Hl Hp. rewrite Hrc by lia.
  destruct (l <? 4); [| done]. cbn [andb].
  destruct (Z.leb_spec (size m - size m) pos); [done | lia].
Qed.

(** Sums of scores. *)
Definition Zsum (l : list Z) : Z := fold_right Z.add 0 l.

Lemma s32_add_l (a b : Z) : s32 (s32 a + b) = s32 (a + b).
Proof.
  unfold s32. f_equal.
  replace ((a + 2 ^ 31) mod 2 ^ 32 - 2 ^ 31 + b + 2 ^ 31)
    with ((a + 2 ^ 31) mod 2 ^ 32 + b) by lia.
  rewrite Zplus_mod_idemp_l. f_equal. lia.
Qed.

(** An [int] accumulator that wraps at every addition holds the wrapped
    sum. *)
Lemma fold_left_s32 {A} (f : A -> Z) (l : list A) (a : Z) :
  fold_left (fun sc i => s32 (sc + f i)) l (s32 a)
  = s32 (a + Zsum (List.map f l)).
Proof.
  revert a. induction l as [| x l IH]; intros a; cbn [fold_left List.map Zsum fold_right].
  - f_equal. lia.
  - rewrite s32_add_l, IH. fold (Zsum (List.map f l)). f_equal. lia.
Qed.

Lemma fold_left_pair {A S T} (F : S -> A -> S) (G : T -> A -> T)
  (l : list A) (s : S) (t : T) :
  fold_left (fun (st : S * T) i => (F (fst st) i, G (snd st) i)) l (s, t)
  = (fold_left F l s, fold_left G l t).
Proof. revert s t. induction l as [| x l IH]; intros s t; [done | apply IH]. Qed.

(** The fused loop computes the two single-strand scores. *)
Lemma score_subseq_rc_eq m seq offset tab :
  score_subseq_rc m seq offset tab
  = (score_subseq m seq offset tab, score_subseq_rev m seq offset tab).
Proof.
  unfold score_subseq_rc, score_subseq, score_subseq_rev.
  apply (fold_left_pair
           (fun score i =>
              s32 (score + get_score m (aget 0 seq (u64 (i + offset))) i tab))
           (fun score i =>
              s32 (score + get_score_rc m (aget 0 seq (u64 (i + offset))) i tab))).
Qed.

Lemma Zsum_app l1 l2 : Zsum (l1 ++ l2) = Zsum l1 + Zsum l2.
Proof.
  induction l1 as [| x l1 IH]; [reflexivity |].
  change (Zsum ((x :: l1) ++ l2)) with (x + Zsum (l1 ++ l2)).
  change (Zsum (x :: l1)) with (x + Zsum l1). lia.
Qed.

(** A sum over [0 .. L - 1] can be read from the other end. *)
Lemma Zsum_mirror (f : Z -> Z) (L : Z) :
  0 <= L ->
  Zsum (List.map (fun i => f (L - 1 - i)) (upto 0 L)) = Zsum (List.map f (upto 0 L)).
Proof.
  intros HL. rewrite <- (Z2Nat.id L HL). generalize (Z.to_nat L). clear.
  intros n. induction n as [| n IH]; [done |].
  replace (Z.of_nat (S n)) with (Z.of_nat n + 1) by lia.
  rewrite (upto_snoc 0 (Z.of_nat n)) at 2 by lia.
  rewrite (upto_cons 0 (Z.of_nat n + 1)) by lia.
  rewrite map_app, Zsum_app. cbn [List.map Zsum fold_right].
  replace (Z.of_nat n + 1 - 1 - 0) with (Z.of_nat n) by lia.
  rewrite <- IH.
  replace (upto (0 + 1) (Z.of_nat n + 1)) with (Z.add 1 <$> upto 0 (Z.of_nat n)).
  2:{ unfold upto. rewrite fmap_add_seqZ. f_equal; lia. }
  change (Z.add 1 <$> upto 0 (Z.of_nat n))
    with (List.map (Z.add 1) (upto 0 (Z.of_nat n))).
  rewrite map_map.
  assert (E : List.map (fun x => f (Z.of_nat n + 1 - 1 - (1 + x))) (upto 0 (Z.of_nat n))
              = List.map (fun i => f (Z.of_nat n - 1 - i)) (upto 0 (Z.of_nat n))).
  { apply map_ext. intros x. f_equal. lia. }
  rewrite E. unfold Zsum. lia.
Qed.

Lemma score_subseq_sum m seq offset tab :
  score_subseq m seq offset tab
  = s32 (Zsum (List.map
      (fun i => get_score m (aget 0 seq (u64 (i + offset))) i tab)
      (upto 0 (size m)))).
Proof.
  exact (fold_left_s32
    (fun i => get_score m (aget 0 seq (u64 (i + offset))) i tab)
    (upto 0 (size m)) 0).
Qed.

Lemma score_subseq_rev_sum m seq offset tab :
  score_subseq_rev m seq offset tab
  = s32 (Zsum (List.map
      (fun i => get_score_rc m (aget 0 seq (u64 (i + offset))) i tab)
      (upto 0 (size m)))).
Proof.
  exact (fold_left_s32
    (fun i => get_score_rc m (aget 0 seq (u64 (i + offset))) i tab)
    (upto 0 (size m)) 0).
Qed.

(** C8: for a motif as [complete_motifs] leaves it, the forward score of a
    window of the reverse complement of a sequence equals the
    reverse-strand score of the mirrored window of the sequence itself, for
    every window and both character tables; a window with a non-ACGTU
    character meets the ambiguity row on either side.  The completed motif
    has the length and the forward matrix of the motif; its
    reverse-complement matrix holds, in row [l] of position [pos], row
    [3 - l] of the mirrored position of the forward matrix; the forward
    score is the sum of the forward matrix and the reverse-strand score the
    sum of the reverse-complement matrix over the [L] characters of the
    window. *)
Theorem revcomp_score_symmetry
  (a : args_t) (m : motif_t) (seq : list Z) (offset : Z) :
  0 < size m <= 50 ->
  List.length (pwm_rc m) = 250%nat ->
  ambiguity_rows m ->
  0 <= offset ->
  offset + size m <= Z.of_nat (List.length seq) < 2 ^ 63 ->
  let m' := complete_motif a m in
  let char2Xindex := if mask a then char2maskindex else char2index in
  let mirrored := Z.of_nat (List.length seq) - size m - offset in
  (size m' = size m /\ pwm m' = pwm m
   /\ (forall l pos, 0 <= l < 4 -> 0 <= pos < size m ->
         aget 0 (pwm_rc m') (l + pos * 5)
         = aget 0 (pwm m) ((3 - l) + (size m - 1 - pos) * 5))
   /\ ambiguity_rows m')
  /\ score_subseq m' (revcomp seq) mirrored char2Xindex
     = s32 (Zsum (List.map
         (fun i => aget 0 (pwm m)
                     (char2Xindex (aget 0 (revcomp seq) (mirrored + i)) + i * 5))
         (upto 0 (size m))))
  /\ score_subseq_rev m' seq offset char2Xindex
     = s32 (Zsum (List.map
         (fun i => aget 0 (pwm_rc m')
                     (char2Xindex (aget 0 seq (offset + i)) + i * 5))
         (upto 0 (size m))))
  /\ score_subseq m' (revcomp seq) mirrored char2Xindex
     = score_subseq_rev m' seq offset char2Xindex
  /\ score_subseq m' (revcomp seq) mirrored char2Xindex
     = snd (score_subseq_rc m' seq offset char2Xindex).
Proof.
  intros Hsz Hlen Hamb Hoff Hfit m' tab mirrored.
  assert (Htab : forall c, tab (complement c) = complement_index (tab c)
                           /\ 0 <= tab c <= 4).
  { subst tab. destruct (mask a);
      [apply char2maskindex_complement | apply char2index_complement]. }
  destruct (fill_pwm_rc_spec m) as (Hpwm & Hsize & Hrc); [lia | done |].
  assert (Esz : size m' = size m) by exact Hsize.
  assert (Epwm : pwm m' = pwm m) by exact Hpwm.
  assert (Erc : forall l pos, 0 <= l < 5 -> 0 <= pos ->
            aget 0 (pwm_rc m') (l + pos * 5)
            = if (l <? 4) && (pos <? size m)
              then aget 0 (pwm m) ((3 - l) + (size m - 1 - pos) * 5)
              else aget 0 (pwm_rc m) (l + pos * 5)) by exact Hrc.
  assert (Hfwd : score_subseq m' (revcomp seq) mirrored tab
     = s32 (Zsum (List.map
         (fun i => aget 0 (pwm m)
                     (tab (aget 0 (revcomp seq) (mirrored + i)) + i * 5))
         (upto 0 (size m))))).
  { rewrite score_subseq_sum, Esz. do 2 f_equal.
    apply map_ext_in. intros i Hi%In_upto. unfold get_score. rewrite Epwm.
    rewrite (u64_small (i + mirrored)) by (subst mirrored; lia).
    replace (i + mirrored) with (mirrored + i) by lia.
    pose proof (proj2 (Htab (aget 0 (revcomp seq) (mirrored + i)))).
    rewrite u64_small by lia. reflexivity. }
  assert (Hrev : score_subseq_rev m' seq offset tab
     = s32 (Zsum (List.map
         (fun i => aget 0 (pwm_rc m')
                     (tab (aget 0 seq (offset + i)) + i * 5))
         (upto 0 (size m))))).
  { rewrite score_subseq_rev_sum, Esz. do 2 f_equal.
    apply map_ext_in. intros i Hi%In_upto. unfold get_score_rc.
    rewrite (u64_small (i + offset)) by lia.
    replace (i + offset) with (offset + i) by lia.
    pose proof (proj2 (Htab (aget 0 seq (offset + i)))).
    rewrite u64_small by lia. reflexivity. }
  assert (Hsym : score_subseq m' (revcomp seq) mirrored tab
                 = score_subseq_rev m' seq offset tab).
  { rewrite Hfwd, Hrev. f_equal.
    rewrite <- (Zsum_mirror
      (fun i => aget 0 (pwm m)
                  (tab (aget 0 (revcomp seq) (mirrored + i)) + i * 5)))
      by lia.
    f_equal. apply map_ext_in. intros i Hi%In_upto.
    rewrite aget_revcomp by (subst mirrored; lia).
    replace (Z.of_nat (List.length seq) - 1 - (mirrored + (size m - 1 - i)))
      with (offset + i) by (subst mirrored; lia).
    set (c := aget 0 seq (offset + i)).
    destruct (Htab c) as [Hc Hr]. rewrite Hc.
    rewrite Erc by lia.
    unfold complement_index.
    destruct (Z.ltb_spec (tab c) 4); destruct (Z.ltb_spec i (size m));
      cbn [andb]; try lia; try reflexivity.
    replace (tab c) with 4 by lia.
    destruct (Hamb i) as [_ ->]; [lia |].
    destruct (Hamb (size m - 1 - i)) as [-> _]; [lia |]. reflexivity. }
  split.
  { split; [exact Esz |]. split; [exact Epwm |]. split.
    - intros l pos Hl Hpos. rewrite Erc by lia.
      destruct (Z.ltb_spec l 4); [| lia].
      destruct (Z.ltb_spec pos (size m)); [reflexivity | lia].
    - intros pos Hpos. rewrite Esz in Hpos. rewrite Epwm.
      rewrite (Erc 4 pos) by lia. cbn [Z.ltb andb].
      exact (Hamb pos Hpos). }
  split; [exact Hfwd |]. split; [exact Hrev |]. split; [exact Hsym |].
  rewrite score_subseq_rc_eq. exact Hsym.
Qed.

Lemma acgt_scores_ambiguity_rows : ambiguity_rows Examples.acgt_scores.
Proof.
  intros pos Hpos. change (size Examples.acgt_scores) with 4 in Hpos.
  assert (Hcases : pos = 0 \/ pos = 1 \/ pos = 2 \/ pos = 3) by lia.
  destruct Hcases as [-> | [-> | [-> | ->]]]; split; vm_compute; reflexivity.
Qed.

(** The four-position motif and the sequence ACGNTTGA: the window CGNT at
    offset 1 holds a non-standard character; its mirror image in the
    reverse complement TCAANCGT is the window ANCG at offset 3. *)
Lemma revcomp_score_symmetry_witness :
  size (complete_motif args Examples.acgt_scores) = 4
  /\ score_subseq (complete_motif args Examples.acgt_scores)
       (revcomp (bytes_of "ACGNTTGA")) (8 - 4 - 1) char2index
     = score_subseq_rev (complete_motif args Examples.acgt_scores)
         (bytes_of "ACGNTTGA") 1 char2index
  /\ score_subseq (complete_motif args Examples.acgt_scores)
       (revcomp (bytes_of "ACGNTTGA")) (8 - 4 - 1) char2index
     = snd (score_subseq_rc (complete_motif args Examples.acgt_scores)
              (bytes_of "ACGNTTGA") 1 char2index).
Proof.
  destruct (revcomp_score_symmetry args Examples.acgt_scores
              (bytes_of "ACGNTTGA") 1)
    as ((Hsz & _) & _ & _ & Hsym & Hrc).
  - vm_compute. split; [reflexivity | discriminate].
  - reflexivity.
  - exact acgt_scores_ambiguity_rows.
  - lia.
  - vm_compute. split; [discriminate | reflexivity].
  - split; [exact Hsz |]. split; [exact Hsym | exact Hrc].
Defined.

Lemma revcomp_example :
  revcomp (bytes_of "ACGNTTGA") = bytes_of "TCAANCGT"
  /\ score_subseq_rev (complete_motif args Examples.acgt_scores)
       (bytes_of "ACGNTTGA") 1 char2index = -10000000.
Proof. split; vm_compute; reflexivity. Qed.

End ReverseComplement.
(** ** The threshold and the hit criterion (yamscan.c) *)

Section Threshold.
Import Yamscan.

Lemma s32_u64 (x : Z) : s32 (u64 x) = s32 x.
Proof.
  unfold s32, u64. f_equal.
  rewrite <- (Zplus_mod_idemp_l (x mod 2 ^ 64)).
  rewrite (Z.mod_mod_divide x (2 ^ 64) (2 ^ 32)) by (exists (2 ^ 32); lia).
  by rewrite Zplus_mod_idemp_l.
Qed.

Lemma s32_range (x : Z) : - 2 ^ 31 <= s32 x < 2 ^ 31.
Proof.
  unfold s32. pose proof (Z.mod_pos_bound (x + 2 ^ 31) (2 ^ 32)). lia.
Qed.

(** The first loop of [set_threshold] finds the first index whose survival
    value is below the p-value, or [cdf_size] when there is none. *)
Lemma threshold_index_spec (a : args_t) (m : motif_t) :
  0 <= cdf_size m ->
  let k := threshold_index a m in
  0 <= k <= cdf_size m
  /\ (k < cdf_size m -> (aget 0 (cdf m) k < pvalue a)%Q)
  /\ (forall j, 0 <= j < k -> ~ (aget 0 (cdf m) j < pvalue a)%Q).
Proof.
  intros Hn k. subst k.
  pose (P := fun i t =>
       0 <= t <= cdf_size m
       /\ (t < cdf_size m -> t < i /\ (aget 0 (cdf m) t < pvalue a)%Q)
       /\ (forall j, 0 <= j < Z.min t i -> ~ (aget 0 (cdf m) j < pvalue a)%Q)).
  enough (HP : P (cdf_size m) (threshold_index a m)).
  { destruct HP as (Ht & Hfound & Hnone). repeat split; try lia.
    - intros Hlt. by apply Hfound.
    - intros j Hj. apply Hnone. lia. }
  unfold threshold_index. apply (fold_left_upto_ind P); subst P; cbv beta.
  - lia.
  - repeat split; intros; try lia; exfalso; lia.
  - intros i t Hi (Ht & Hfound & Hnone).
    destruct (Z.eqb_spec t (cdf_size m)) as [-> | Hne].
    + destruct (Qltb (aget 0%Q (cdf m) i) (pvalue a)) eqn:E.
      * apply Qltb_lt in E. repeat split; try lia; [done |].
        intros j Hj. apply Hnone. lia.
      * apply Qltb_ge in E. repeat split; try lia.
        intros j Hj. destruct (Z.eq_dec j i) as [-> | Hji].
        -- by apply Qle_not_lt.
        -- apply Hnone. lia.
    + destruct Hfound as [Hti Hlt]; [lia |].
      repeat split; try lia; [done |].
      intros j Hj. apply Hnone. lia.
Qed.
(** A motif whose threshold is [INT_MAX] is never scanned. *)
Lemma score_seq_unreachable a m nm seq :
  threshold m = INT_MAX -> score_seq a m nm seq = [].
Proof.
  intros H. unfold score_seq. rewrite H, Z.eqb_refl, orb_true_r. reflexivity.
Qed.

(** The rows of [score_seq]: a window is printed for a strand exactly when
    its score on that strand is at least the threshold. *)
Lemma score_seq_hits a m nm seq h :
  0 < size m <= 50 ->
  Z.of_nat (List.length seq) < 2 ^ 63 ->
  INT_MIN < threshold m < INT_MAX ->
  let tab := if mask a then char2maskindex else char2index in
  In h (score_seq a m nm seq) <->
  exists i, 0 <= i /\ i + size m <= Z.of_nat (List.length seq)
    /\ ((h = print_res m nm seq i (size m) (chr "+") (score_subseq m seq i tab)
         /\ threshold m <= score_subseq m seq i tab)
        \/ (scan_rc a = true
            /\ h = print_res m nm seq i (size m) (chr "-")
                     (score_subseq_rev m seq i tab)
            /\ threshold m <= score_subseq_rev m seq i tab)).
Proof.
  intros Hsz Hlen Hthr tab. unfold INT_MIN, INT_MAX in Hthr.
  unfold score_seq. fold tab.
  rewrite (s32_small (size m)) by lia.
  rewrite (u64_small (size m)) by lia.
  rewrite (s32_small (threshold m - 1)) by lia.
  destruct (Z.eqb_spec (threshold m) INT_MAX) as [E | _];
    [unfold INT_MAX in E; lia |].
  rewrite orb_false_r.
  destruct (Z.ltb_spec (Z.of_nat (List.length seq)) (size m)) as [Hshort | Hfit].
  { split; [intros [] | intros (i & ? & ? & _); lia]. }
  rewrite (u64_small (Z.of_nat (List.length seq) - size m + 1)) by lia.
  destruct (scan_rc a).
  - rewrite in_flat_map. split.
    + intros (i & Hi%In_upto & Hrow). exists i.
      rewrite score_subseq_rc_eq in Hrow.
      split; [lia |]. split; [lia |].
      apply in_app_or in Hrow as [Hrow | Hrow].
      * destruct (Z.ltb_spec (threshold m - 1) (score_subseq m seq i tab));
          [| destruct Hrow].
        destruct Hrow as [<- | []]. left. split; [done | lia].
      * destruct (Z.ltb_spec (threshold m - 1) (score_subseq_rev m seq i tab));
          [| destruct Hrow].
        destruct Hrow as [<- | []]. right. split; [done |]. split; [done | lia].
    + intros (i & Hi0 & Hi1 & Hcase). exists i.
      split; [apply In_upto; lia |].
      rewrite score_subseq_rc_eq. apply in_or_app.
      destruct Hcase as [[-> Hge] | (_ & -> & Hge)]; [left | right].
      * destruct (Z.ltb_spec (threshold m - 1) (score_subseq m seq i tab));
          [by left | lia].
      * destruct (Z.ltb_spec (threshold m - 1) (score_subseq_rev m seq i tab));
          [by left | lia].
  - rewrite in_flat_map. split.
    + intros (i & Hi%In_upto & Hrow). exists i.
      split; [lia |]. split; [lia |].
      destruct (Z.ltb_spec (threshold m - 1) (score_subseq m seq i tab));
        [| destruct Hrow].
      destruct Hrow as [<- | []]. left. split; [done | lia].
    + intros (i & Hi0 & Hi1 & Hcase). exists i.
      split; [apply In_upto; lia |].
      destruct Hcase as [[-> Hge] | (? & _)]; [| discriminate].
      destruct (Z.ltb_spec (threshold m - 1) (score_subseq m seq i tab));
        [by left | lia].
Qed.

(** The arithmetic of [set_threshold] on the threshold field: starting from
    the 0 that [init_motif] stored, [threshold_i + min * size]. *)
Lemma set_threshold_arith (m : motif_t) (k : Z) :
  threshold m = 0 -> 0 <= size m <= 50 -> - 2 ^ 25 <= min m <= 0 ->
  0 <= k <= MAX_CDF_SIZE ->
  s32 (u64 (k - u64 (s32 (u64 (u64 (s32 (threshold m - min m)) * size m)))))
  = k + min m * size m.
Proof.
  intros Ht Hsz Hmin Hk. unfold MAX_CDF_SIZE in Hk. rewrite Ht.
  rewrite (s32_small (0 - min m)) by lia.
  rewrite (u64_small (0 - min m)) by lia.
  rewrite (u64_small ((0 - min m) * size m)) by nia.
  rewrite (s32_small ((0 - min m) * size m)) by nia.
  rewrite (u64_small ((0 - min m) * size m)) by nia.
  rewrite s32_u64, s32_small; nia.
Qed.

Lemma fdiv_gt_pos (x y c : Q) :
  (0 < y)%Q -> fdiv_gt x y c = true <-> (y * c < x)%Q.
Proof.
  intros Hy. unfold fdiv_gt.
  destruct (Qeq_bool y 0) eqn:E.
  - apply Qeq_bool_iff in E. lra.
  - rewrite Qltb_lt. split; intros H.
    + assert (E2 : (x / y * y == x)%Q) by (field; lra).
      apply (Qmult_lt_compat_r _ _ y) in H; [| done].
      rewrite E2 in H. lra.
    + apply Qlt_shift_div_l; [done |]. lra.
Qed.

(** An [int] accumulator over at least one position holds the wrapped sum,
    whatever it started from. *)
Lemma fold_left_s32_from (f : Z -> Z) (n a0 : Z) :
  0 < n ->
  fold_left (fun acc i => s32 (acc + f i)) (upto 0 n) a0
  = s32 (a0 + Zsum (List.map f (upto 0 n))).
Proof.
  intros Hn. rewrite (upto_cons 0 n) by lia.
  cbn [fold_left List.map Zsum fold_right].
  rewrite (fold_left_s32 f (upto (0 + 1) n) (a0 + f 0)).
  fold (Zsum (List.map f (upto (0 + 1) n))). f_equal. lia.
Qed.

(** C2: without -0 and outside consensus mode, [set_threshold] stores
    [k + min * L], where [k] is the first index with [cdf[k] < p_value]
    (the smallest score [x] with [cdf[x - cdf_offset] < p_value]; [cdf_size]
    when no index qualifies), unless the p-value of the maximal score
    exceeds [p_value * 1.0001]: then it stores [INT_MAX] and the motif gives
    no hit.  The maximal score is the sum over the positions of the largest
    score of each, and its p-value is the entry
    [cdf[max_score - cdf_offset]] of the distribution that [fill_cdf] left.
    Otherwise [score_seq] prints a window for a strand exactly when its
    score on that strand is at least the threshold. *)
Theorem set_threshold_spec
  (a : args_t) (m : motif_t) (nm : string) (seq : list Z) :
  thresh0 a = false -> is_consensus a = false ->
  threshold m = 0 -> 0 < size m <= 50 -> - 2 ^ 25 <= min m <= 0 ->
  cdf_offset m = min m * size m ->
  0 <= cdf_size m <= MAX_CDF_SIZE ->
  Z.of_nat (List.length seq) < 2 ^ 63 ->
  let m' := set_threshold a m in
  let k := threshold_index a m in
  let best :=
    s32 (max_score m + Zsum (List.map (max_pos m) (upto 0 (size m)))) in
  let min_pvalue := aget 0%Q (cdf m) (s32 (best - cdf_offset m)) in
  let unreachable := fdiv_gt min_pvalue (pvalue a) (10001 # 10000) in
  let tab := if mask a then char2maskindex else char2index in
  (0 <= k <= cdf_size m
   /\ (k < cdf_size m -> (aget 0 (cdf m) k < pvalue a)%Q)
   /\ (forall j, 0 <= j < k -> ~ (aget 0 (cdf m) j < pvalue a)%Q))
  /\ (max_score m' = best /\ cdf m' = cdf m /\ cdf_offset m' = cdf_offset m
      /\ score2pval m' (max_score m') = min_pvalue)
  /\ ((0 < pvalue a)%Q ->
      unreachable = true
      <-> (pvalue a * (10001 # 10000) < min_pvalue)%Q)
  /\ (unreachable = true ->
      threshold m' = INT_MAX /\ score_seq a m' nm seq = [])
  /\ (unreachable = false ->
      threshold m' = k + min m * size m
      /\ threshold m' - cdf_offset m = k
      /\ forall h,
           In h (score_seq a m' nm seq) <->
           exists i, 0 <= i /\ i + size m <= Z.of_nat (List.length seq)
             /\ ((h = print_res m' nm seq i (size m) (chr "+")
                        (score_subseq m' seq i tab)
                  /\ threshold m' <= score_subseq m' seq i tab)
                 \/ (scan_rc a = true
                     /\ h = print_res m' nm seq i (size m) (chr "-")
                              (score_subseq_rev m' seq i tab)
                     /\ threshold m' <= score_subseq_rev m' seq i tab))).
Proof.
  intros H0 Hcons Hthr Hsz Hmin Hoff Hcdf Hlen m' k best min_pvalue
    unreachable tab.
  destruct (threshold_index_spec a m) as (Hk & Hbelow & Hfirst); [lia |].
  fold k in Hk, Hbelow, Hfirst.
  assert (Hbest : max_score m' = best).
  { subst m' best. unfold set_threshold. cbn [max_score].
    apply fold_left_s32_from. lia. }
  assert (Hpv : score2pval m' (max_score m') = min_pvalue).
  { rewrite Hbest. reflexivity. }
  assert (Hval : threshold m'
                 = if unreachable then INT_MAX else k + min m * size m).
  { subst unreachable min_pvalue. rewrite <- Hbest.
    subst m'. unfold set_threshold.
    cbn [threshold max_score cdf cdf_offset score2pval].
    rewrite H0, Hcons. fold k.
    rewrite (set_threshold_arith m k) by lia. reflexivity. }
  split; [done |].
  split; [repeat split; assumption |].
  split; [intros Hp; subst unreachable; by apply fdiv_gt_pos |].
  split.
  - intros Hu. rewrite Hu in Hval. split; [done |].
    by apply score_seq_unreachable.
  - intros Hu. rewrite Hu in Hval. split; [done |]. split; [lia |].
    intros h. unfold MAX_CDF_SIZE in Hcdf.
    apply (score_seq_hits a m' nm seq h); [done | done |].
    rewrite Hval. unfold INT_MIN, INT_MAX. nia.
Qed.

(** The four-position motif, whose best score 8 has the p-value
    [cdf[8 - (-4)] = 1/256].  With [-t 0.01] the survival values are 1/256
    from score 6 upwards and 13/256 at score 5, so the threshold is 6, the
    first index, 10, plus [min * L = -4].  With the default [-t 0.0001] the
    p-value of the best score is out of reach and the threshold is
    [INT_MAX]. *)
Lemma set_threshold_spec_witness :
  (threshold_index Examples.args_t01 Examples.acgt_filled = 10
   /\ max_score (set_threshold Examples.args_t01 Examples.acgt_filled) = 8
   /\ (score2pval (set_threshold Examples.args_t01 Examples.acgt_filled) 8
       = aget 0 (cdf Examples.acgt_filled) 12)%Q
   /\ threshold (set_threshold Examples.args_t01 Examples.acgt_filled)
      = threshold_index Examples.args_t01 Examples.acgt_filled
        + min Examples.acgt_filled * size Examples.acgt_filled
   /\ threshold (set_threshold Examples.args_t01 Examples.acgt_filled) = 6)
  /\ (threshold (set_threshold args Examples.acgt_filled) = INT_MAX
      /\ score_seq args (set_threshold args Examples.acgt_filled) "chr1"
           Examples.chr1 = []).
Proof.
  assert (H : threshold Examples.acgt_filled = 0) by (vm_compute; reflexivity).
  assert (Hoff : cdf_offset Examples.acgt_filled
                 = min Examples.acgt_filled * size Examples.acgt_filled)
    by (vm_compute; reflexivity).
  split.
  - destruct (set_threshold_spec Examples.args_t01 Examples.acgt_filled
                "chr1" Examples.chr1)
      as (_ & (Hbest & _ & _ & Hpv) & _ & _ & Hreach);
      [reflexivity | reflexivity | exact H
      | vm_compute; split; [reflexivity | discriminate]
      | vm_compute; split; discriminate
      | exact Hoff
      | vm_compute; split; discriminate
      | vm_compute; reflexivity |].
    destruct Hreach as (Hval & _); [vm_compute; reflexivity |].
    assert (E8 : max_score (set_threshold Examples.args_t01
                              Examples.acgt_filled) = 8)
      by (rewrite Hbest; vm_compute; reflexivity).
    split; [vm_compute; reflexivity |]. split; [exact E8 |].
    split; [rewrite E8 in Hpv; rewrite Hpv; vm_compute; reflexivity |].
    split; [exact Hval |]. rewrite Hval. vm_compute. reflexivity.
  - destruct (set_threshold_spec args Examples.acgt_filled
                "chr1" Examples.chr1)
      as (_ & _ & _ & Hout & _);
      [reflexivity | reflexivity | exact H
      | vm_compute; split; [reflexivity | discriminate]
      | vm_compute; split; discriminate
      | exact Hoff
      | vm_compute; split; discriminate
      | vm_compute; reflexivity |].
    apply Hout. vm_compute. reflexivity.
Defined.

(** With the default [-t 0.0001] the same motif cannot reach the p-value
    (its best score has p-value 1/256): the threshold is [INT_MAX] and the
    scan of [chr1] prints nothing. *)
Lemma unreachable_threshold_example :
  threshold (Examples.prepare args Examples.acgt_scores) = INT_MAX
  /\ score_seq args (Examples.prepare args Examples.acgt_scores) "chr1"
       Examples.chr1 = [].
Proof. split; vm_compute; reflexivity. Qed.

End Threshold.

(** ** The score distribution built by [fill_cdf] *)
Section ScoreDistribution.
Import Yamscan.
Local Open Scope Q_scope.

Definition Qsum (l : list Q) : Q := fold_right Qplus 0 l.

(** The sum of the first [n] entries and the sum of the entries from [p] on. *)
Definition psum (n : Z) (c : list Q) : Q := Qsum (take (Z.to_nat n) c).
Definition tsum (c : list Q) (p : Z) : Q := Qsum (drop (Z.to_nat p) c).

Definition Qprod (l : list Q) : Q := fold_right Qmult 1 l.

Definition nonneg (c : list Q) : Prop := Forall (fun x => 0 <= x) c.

Lemma Qsum_cons (x : Q) (l : list Q) : Qsum (x :: l) = x + Qsum l.
Proof. reflexivity. Qed.

Lemma fold_left_Qplus (l : list Q) (a : Q) :
  fold_left Qplus l a == a + Qsum l.
Proof.
  revert a. induction l as [|x l IH]; intros a; cbn [fold_left].
  - change (Qsum []) with 0. ring.
  - rewrite IH, Qsum_cons. ring.
Qed.

Lemma Qsum_app (l1 l2 : list Q) : Qsum (l1 ++ l2) == Qsum l1 + Qsum l2.
Proof.
  induction l1 as [|x l1 IH]; cbn [app].
  - change (Qsum []) with 0. ring.
  - rewrite !Qsum_cons, IH. ring.
Qed.

Lemma Qsum_nonneg (l : list Q) : nonneg l -> 0 <= Qsum l.
Proof.
  induction 1 as [|x l Hx _ IH].
  - apply Qle_refl.
  - rewrite Qsum_cons. lra.
Qed.

Lemma Qsum_insert (l : list Q) (p : nat) (v : Q) :
  (p < List.length l)%nat ->
  Qsum (<[p := v]> l) == Qsum l - nth p l 0 + v.
Proof.
  revert p. induction l as [|x l IH]; intros p Hp; cbn [List.length] in Hp.
  - lia.
  - destruct p as [|p]; cbn [list_insert insert nth].
    + rewrite !Qsum_cons. ring.
    + rewrite !Qsum_cons, IH by lia. ring.
Qed.

Lemma lookup_aget (c : list Q) (n : Z) :
  (0 <= n < Z.of_nat (List.length c))%Z ->
  c !! Z.to_nat n = Some (aget 0 c n).
Proof.
  intros Hn. unfold aget. destruct (Z.ltb_spec n 0); [lia|].
  destruct (lookup_lt_is_Some_2 c (Z.to_nat n)) as [x Hx]; [lia|].
  rewrite Hx. f_equal. symmetry. apply nth_lookup_Some. exact Hx.
Qed.

Lemma psum_0 (c : list Q) : psum 0 c == 0.
Proof. reflexivity. Qed.

Lemma psum_succ (n : Z) (c : list Q) :
  (0 <= n < Z.of_nat (List.length c))%Z ->
  psum (n + 1) c == psum n c + aget 0 c n.
Proof.
  intros Hn. unfold psum.
  replace (Z.to_nat (n + 1)) with (S (Z.to_nat n)) by lia.
  rewrite (take_S_r _ _ _ (lookup_aget c n Hn)), Qsum_app, Qsum_cons.
  change (Qsum []) with 0. ring.
Qed.

Lemma psum_all (c : list Q) : psum (Z.of_nat (List.length c)) c = Qsum c.
Proof. unfold psum. rewrite Nat2Z.id, firstn_all. reflexivity. Qed.

Lemma psum_aset (n : Z) (c : list Q) (p : Z) (v : Q) :
  (0 <= p < n)%Z -> (n <= Z.of_nat (List.length c))%Z ->
  psum n (aset c p v) == psum n c - aget 0 c p + v.
Proof.
  intros Hp Hn. unfold psum, aset, aget.
  destruct (Z.ltb_spec p 0); [lia|].
  rewrite take_insert_lt by lia.
  rewrite Qsum_insert by (rewrite length_take; lia).
  assert (E : nth (Z.to_nat p) (take (Z.to_nat n) c) 0 = nth (Z.to_nat p) c 0).
  { rewrite <- (firstn_skipn (Z.to_nat n) c) at 2.
    rewrite app_nth1; [reflexivity|]. rewrite length_take. lia. }
  rewrite E. reflexivity.
Qed.

Lemma psum_aset_out (n : Z) (c : list Q) (p : Z) (v : Q) :
  (n <= p)%Z -> psum n (aset c p v) = psum n c.
Proof.
  intros Hp. unfold psum, aset.
  destruct (Z.ltb_spec p 0); [reflexivity|].
  rewrite take_insert_ge by lia. reflexivity.
Qed.

Lemma nonneg_aset (c : list Q) (p : Z) (v : Q) :
  nonneg c -> 0 <= v -> nonneg (aset c p v).
Proof.
  intros Hc Hv. unfold aset. destruct (p <? 0)%Z; [exact Hc|].
  apply Forall_insert; assumption.
Qed.

Lemma nonneg_aget (c : list Q) (p : Z) : nonneg c -> 0 <= aget 0 c p.
Proof.
  intros Hc. unfold aget. destruct (p <? 0)%Z; [apply Qle_refl|].
  destruct (nth_in_or_default (Z.to_nat p) c 0) as [Hin | ->].
  - exact (proj1 (List.Forall_forall _ _) Hc _ Hin).
  - apply Qle_refl.
Qed.

Lemma tsum_step (c : list Q) (p : Z) :
  (0 <= p < Z.of_nat (List.length c))%Z ->
  tsum c p == aget 0 c p + tsum c (p + 1).
Proof.
  intros Hp. unfold tsum.
  replace (Z.to_nat (p + 1)) with (S (Z.to_nat p)) by lia.
  rewrite (drop_S _ _ _ (lookup_aget c p Hp)), Qsum_cons. reflexivity.
Qed.

Lemma tsum_end (c : list Q) (p : Z) :
  (Z.of_nat (List.length c) <= p)%Z -> tsum c p = 0.
Proof. intros Hp. unfold tsum. rewrite drop_ge by lia. reflexivity. Qed.

Lemma tsum_0 (c : list Q) : tsum c 0 = Qsum c.
Proof. reflexivity. Qed.

Lemma tsum_nonneg (c : list Q) (p : Z) : nonneg c -> 0 <= tsum c p.
Proof.
  intros Hc. apply Qsum_nonneg. unfold nonneg. apply Forall_drop. exact Hc.
Qed.

Lemma psum_zero (n : Z) (c : list Q) :
  (0 <= n <= Z.of_nat (List.length c))%Z ->
  (forall p, (0 <= p < n)%Z -> aget 0 c p == 0) ->
  psum n c == 0.
Proof.
  intros Hn Hz.
  assert (H : forall k : nat, (Z.of_nat k <= n)%Z -> psum (Z.of_nat k) c == 0).
  { induction k as [|k IH]; intros Hk.
    - reflexivity.
    - rewrite Nat2Z.inj_succ. unfold Z.succ.
      rewrite psum_succ by lia. rewrite IH by lia. rewrite Hz by lia.
      reflexivity. }
  specialize (H (Z.to_nat n)). rewrite Z2Nat.id in H by lia. apply H. lia.
Qed.

(** [ERASE_ARRAY] zeroes the first [n] entries and keeps the others. *)
Lemma erase_spec (c : list Q) (n : Z) :
  (0 <= n <= Z.of_nat (List.length c))%Z -> nonneg c ->
  List.length (erase c n) = List.length c /\
  nonneg (erase c n) /\
  (forall p, aget 0 (erase c n) p = if (p <? n)%Z then 0 else aget 0 c p).
Proof.
  intros Hn Hc. unfold erase.
  pose (P := fun (k : Z) (r : list Q) =>
    List.length r = List.length c /\ nonneg r /\
    forall p, aget 0 r p = if (p <? k)%Z then 0 else aget 0 c p).
  apply (fold_left_upto_ind P); subst P; cbv beta; [lia | |].
  - repeat split; [exact Hc|]. intros p.
    destruct (Z.ltb_spec p 0); [|reflexivity].
    unfold aget. destruct (Z.ltb_spec p 0); [reflexivity | lia].
  - intros k r Hk (Hl & Hr & Hp). repeat split.
    + rewrite length_aset. exact Hl.
    + apply nonneg_aset; [exact Hr | apply Qle_refl].
    + intros p. rewrite aget_aset by lia. rewrite Hp.
      destruct (Z.eqb_spec k p), (Z.ltb_spec p k), (Z.ltb_spec p (k + 1));
        try lia; reflexivity.
Qed.

(** The innermost loop of [fill_cdf]: the entries [s .. s + max_step] gain
    the first [max_step + 1] entries of [tmp_pdf], scaled by [b]. *)
Lemma cdf_add_shifted_spec (c tmp : list Q) (s M n : Z) (b : Q) :
  (0 <= s)%Z -> (0 <= M)%Z -> (s + M < n)%Z ->
  (n <= Z.of_nat (List.length c))%Z -> (n < 2 ^ 64)%Z ->
  (M < Z.of_nat (List.length tmp))%Z ->
  nonneg c -> nonneg tmp -> 0 <= b ->
  let r := cdf_add_shifted c tmp s M b in
  List.length r = List.length c /\
  nonneg r /\
  (forall p, aget 0 r p =
     if ((s <=? p) && (p <=? s + M))%Z
     then aget 0 c p + aget 0 tmp (p - s) * b else aget 0 c p) /\
  psum n r == psum n c + psum (M + 1) tmp * b.
Proof.
  intros Hs HM HsM Hn Hn64 Htmp Hc Ht Hb r. subst r. unfold cdf_add_shifted.
  pose (P := fun (k : Z) (r : list Q) =>
    List.length r = List.length c /\ nonneg r /\
    (forall p, aget 0 r p =
       if ((s <=? p) && (p <? s + k))%Z
       then aget 0 c p + aget 0 tmp (p - s) * b else aget 0 c p) /\
    psum n r == psum n c + psum k tmp * b).
  assert (HP : P (M + 1)%Z
    (fold_left
       (fun c k =>
          aset c (u64 (k + s)) (aget 0 c (u64 (k + s)) + aget 0 tmp k * b))
       (upto 0 (M + 1)) c)).
  { apply (fold_left_upto_ind P); subst P; cbv beta; [lia | |].
    - repeat split; [exact Hc | |].
      + intros p. destruct (Z.leb_spec s p), (Z.ltb_spec p (s + 0));
          try lia; reflexivity.
      + rewrite psum_0. ring.
    - intros k r Hk (Hl & Hr & Hp & Hsum).
      rewrite u64_small by lia.
      assert (Eq : aget 0 r (k + s) = aget 0 c (k + s)).
      { rewrite Hp. destruct (Z.leb_spec s (k + s)), (Z.ltb_spec (k + s) (s + k));
          try lia; reflexivity. }
      repeat split.
      + rewrite length_aset. exact Hl.
      + apply nonneg_aset; [exact Hr|].
        pose proof (nonneg_aget r (k + s) Hr).
        pose proof (nonneg_aget tmp k Ht).
        assert (0 <= aget 0 tmp k * b) by (apply Qmult_le_0_compat; assumption).
        lra.
      + intros p. rewrite aget_aset by lia. rewrite Eq, Hp.
        destruct (Z.eqb_spec (k + s) p) as [E|E].
        * subst p. replace (k + s - s)%Z with k by lia.
          destruct (Z.leb_spec s (k + s)), (Z.ltb_spec (k + s) (s + (k + 1)));
            try lia; reflexivity.
        * destruct (Z.leb_spec s p), (Z.ltb_spec p (s + k)),
            (Z.ltb_spec p (s + (k + 1))); try lia; reflexivity.
      + rewrite psum_aset by lia. rewrite Hsum.
        rewrite (psum_succ k tmp) by lia. ring. }
  destruct HP as (Hl & Hr & Hp & Hsum). repeat split; try assumption.
  intros p. rewrite Hp.
  destruct (Z.leb_spec s p), (Z.ltb_spec p (s + (M + 1))), (Z.leb_spec p (s + M));
    try lia; reflexivity.
Qed.

(** Sums and products of a function over [0 .. n-1]. *)
Definition Qsumf (f : Z -> Q) (n : Z) : Q := Qsum (List.map f (upto 0 n)).
Definition Qprodf (f : Z -> Q) (n : Z) : Q := Qprod (List.map f (upto 0 n)).

Lemma Qsumf_succ (f : Z -> Q) (n : Z) :
  (0 <= n)%Z -> Qsumf f (n + 1) == Qsumf f n + f n.
Proof.
  intros Hn. unfold Qsumf. rewrite upto_snoc by lia.
  rewrite map_app, Qsum_app. cbn [List.map]. rewrite Qsum_cons.
  change (Qsum []) with 0. ring.
Qed.

Lemma Qprod_app (l1 l2 : list Q) : Qprod (l1 ++ l2) == Qprod l1 * Qprod l2.
Proof.
  induction l1 as [|x l1 IH]; cbn [app].
  - change (Qprod []) with 1. ring.
  - change (Qprod (x :: l1 ++ l2)) with (x * Qprod (l1 ++ l2)).
    change (Qprod (x :: l1)) with (x * Qprod l1). rewrite IH. ring.
Qed.

Lemma Qprodf_succ (f : Z -> Q) (n : Z) :
  (0 <= n)%Z -> Qprodf f (n + 1) == Qprodf f n * f n.
Proof.
  intros Hn. unfold Qprodf. rewrite upto_snoc by lia.
  rewrite map_app, Qprod_app. cbn [List.map].
  change (Qprod [f n]) with (f n * 1). ring.
Qed.

Lemma Qsumf_0 (f : Z -> Q) : Qsumf f 0 = 0.
Proof. reflexivity. Qed.

Lemma Qprodf_0 (f : Z -> Q) : Qprodf f 0 = 1.
Proof. reflexivity. Qed.

(** The background probability of the bases that reach the motif-wide
    maximum [max] at position [i]. *)
Definition top_prob (a : args_t) (m : motif_t) (i : Z) : Q :=
  Qsumf (fun j => if (get_score_i m j i =? max m)%Z
                  then aget 0 (bkg a) j else 0) 4.

(** What [complete_motifs] leaves in the fields that [fill_cdf] reads. *)
Definition cdf_ready (m : motif_t) : Prop :=
  (0 <= size m)%Z /\
  (cdf_max m = max m - min m)%Z /\
  (cdf_size m = size m * cdf_max m + 1)%Z /\
  (cdf_size m <= MAX_CDF_SIZE)%Z /\
  (min m <= max m)%Z /\
  forall i j, (0 <= i < size m)%Z -> (0 <= j < 4)%Z ->
    (min m <= get_score_i m j i <= max m)%Z.

(** A background as [check_and_load_bkg] leaves it. *)
Definition bkg_ready (a : args_t) : Prop :=
  nonneg (bkg a) /\ Qsumf (aget 0 (bkg a)) 4 == 1.

(** The state of the outer loop of [fill_cdf] before position [i]: the first
    [i * cdf_max + 1] entries are the distribution of the score of the first
    [i] positions. *)
Definition cdf_inv (a : args_t) (m : motif_t) (i : Z) (c : list Q) : Prop :=
  Z.of_nat (List.length c) = cdf_size m /\
  nonneg c /\
  psum (i * cdf_max m + 1) c == 1 /\
  aget 0 c (i * cdf_max m) == Qprodf (top_prob a m) i.

Lemma cdf_step_spec (a : args_t) (m : motif_t) (c : list Q) (i : Z) :
  cdf_ready m -> bkg_ready a -> (0 <= i < size m)%Z ->
  cdf_inv a m i c -> cdf_inv a m (i + 1) (cdf_step a m c i).
Proof.
  intros (Hsz & Hcm & Hcs & Hmax & Hmm & Hsc) (Hb & Hb1) Hi (Hl & Hc & Hs & Ht).
  unfold MAX_CDF_SIZE in Hmax.
  set (M := (i * cdf_max m)%Z) in *.
  assert (HM : (0 <= M /\ M + cdf_max m + 1 <= cdf_size m)%Z) by (subst M; nia).
  unfold cdf_step. cbv zeta. fold M.
  rewrite (u64_small M) by lia.
  rewrite (u64_small (M + cdf_max m + 1)) by lia.
  set (E := (M + cdf_max m + 1)%Z) in *.
  destruct (erase_spec c E) as (Hel & Hen & Hep); [lia | exact Hc |].
  pose (P := fun (j : Z) (r : list Q) =>
    List.length r = List.length c /\ nonneg r /\
    psum E r == psum (M + 1) c * Qsumf (aget 0 (bkg a)) j /\
    aget 0 r (M + cdf_max m) ==
      aget 0 c M *
      Qsumf (fun j => if (get_score_i m j i =? max m)%Z
                      then aget 0 (bkg a) j else 0) j).
  assert (HP : P 4%Z
    (fold_left
       (fun c0 j =>
          cdf_add_shifted c0 c (u64 (s32 (get_score_i m j i - min m))) M
            (aget 0 (bkg a) j))
       (upto 0 4) (erase c E))).
  { apply (fold_left_upto_ind P); subst P; cbv beta; [lia | |].
    - repeat split; [exact Hel | exact Hen | |].
      + rewrite Qsumf_0, psum_zero; [ring | lia |].
        intros p Hp. rewrite Hep.
        destruct (Z.ltb_spec p E); [reflexivity | lia].
      + rewrite Qsumf_0, Hep.
        destruct (Z.ltb_spec (M + cdf_max m) E); [ring | lia].
    - intros j r Hj (Hrl & Hr & Hrs & Hrt).
      pose proof (Hsc i j Hi Hj) as Hij.
      rewrite s32_small by lia. rewrite u64_small by lia.
      set (s := (get_score_i m j i - min m)%Z) in *.
      destruct (cdf_add_shifted_spec r c s M E (aget 0 (bkg a) j))
        as (Hl' & Hn' & Hp' & Hs'); try assumption; try lia.
      { apply nonneg_aget. exact Hb. }
      repeat split.
      + rewrite Hl'. exact Hrl.
      + exact Hn'.
      + rewrite Hs', Hrs, Qsumf_succ by lia. ring.
      + rewrite Hp', Qsumf_succ by lia.
        destruct (Z.eqb_spec (get_score_i m j i) (max m)) as [Emax | Emax].
        * destruct (Z.leb_spec s (M + cdf_max m)),
            (Z.leb_spec (M + cdf_max m) (s + M)); try lia.
          cbn [andb]. replace (M + cdf_max m - s)%Z with M by lia.
          rewrite Hrt. ring.
        * destruct (Z.leb_spec s (M + cdf_max m)),
            (Z.leb_spec (M + cdf_max m) (s + M)); try lia.
          cbn [andb]. rewrite Hrt. ring. }
  destruct HP as (Hrl & Hr & Hrs & Hrt). unfold cdf_inv.
  replace ((i + 1) * cdf_max m + 1)%Z with E by (subst E M; ring).
  replace ((i + 1) * cdf_max m)%Z with (M + cdf_max m)%Z by (subst M; ring).
  repeat split.
  - rewrite Hrl. exact Hl.
  - exact Hr.
  - rewrite Hrs, Hs, Hb1. ring.
  - rewrite Hrt, Ht, Qprodf_succ by lia. reflexivity.
Qed.

Lemma cdf_loop_spec (a : args_t) (m : motif_t) :
  cdf_ready m -> bkg_ready a ->
  cdf_inv a m (size m)
    (fold_left (cdf_step a m) (upto 0 (size m))
       (replicate (Z.to_nat (cdf_size m)) 1)).
Proof.
  intros Hm Ha. pose proof Hm as (Hsz & Hcm & Hcs & Hmax & Hmm & Hsc).
  apply (fold_left_upto_ind (cdf_inv a m)); [lia | |].
  - assert (Hpos : (0 < cdf_size m)%Z) by nia.
    unfold cdf_inv. rewrite length_replicate. repeat split.
    + lia.
    + apply Forall_replicate. discriminate.
    + replace (Z.to_nat (cdf_size m)) with (S (Z.to_nat (cdf_size m - 1)))
        by lia.
      reflexivity.
    + replace (Z.to_nat (cdf_size m)) with (S (Z.to_nat (cdf_size m - 1)))
        by lia.
      reflexivity.
  - intros i c Hi. apply cdf_step_spec; assumption.
Qed.

(** The last loop of [fill_cdf], from [cdf_size - 2] down to 0, turns the
    distribution into its sums from each index on. *)
Lemma cumsum_spec (c : list Q) (lo : Z) :
  (0 <= lo < Z.of_nat (List.length c))%Z ->
  let r :=
    fold_left (fun c i => aset c i (aget 0 c i + aget 0 c (i + 1)))
      (rev (upto lo (Z.of_nat (List.length c) - 1))) c in
  List.length r = List.length c /\
  forall p, (0 <= p < Z.of_nat (List.length c))%Z ->
    ((lo <= p)%Z -> aget 0 r p == tsum c p) /\
    ((p < lo)%Z -> aget 0 r p = aget 0 c p).
Proof.
  set (n := Z.of_nat (List.length c)).
  intros Hlo. remember (Z.to_nat (n - 1 - lo)) as d eqn:Ed.
  revert lo Hlo Ed. induction d as [|d IH]; intros lo Hlo Ed; cbv zeta.
  - rewrite upto_nil by lia. cbn [rev fold_left]. split; [reflexivity|].
    intros p Hp. split; [|reflexivity].
    intros Hp'. assert (p = n - 1)%Z by lia. subst p.
    rewrite tsum_step by (fold n; lia).
    replace (n - 1 + 1)%Z with n by lia.
    rewrite tsum_end by (fold n; lia). ring.
  - rewrite upto_cons by lia. cbn [rev]. rewrite fold_left_app.
    cbn [fold_left].
    destruct (IH (lo + 1)%Z) as (Hl & Hp); [lia | lia |].
    cbv zeta in Hl, Hp.
    set (r := fold_left _ (rev (upto (lo + 1) (n - 1))) c) in *.
    split; [rewrite length_aset; exact Hl|].
    intros p Hpn. rewrite aget_aset by (rewrite Hl; fold n; lia).
    destruct (Z.eqb_spec lo p) as [E|E].
    + subst p. split; [|lia]. intros _.
      destruct (Hp lo) as (_ & H1); [lia|]. rewrite H1 by lia.
      destruct (Hp (lo + 1)%Z) as (H2 & _); [lia|]. rewrite H2 by lia.
      rewrite (tsum_step c lo) by (fold n; lia). reflexivity.
    + destruct (Hp p Hpn) as (H1 & H2).
      split; intros Hp'; [apply H1 | apply H2]; lia.
Qed.

Lemma Qabs_gt_zero (x c : Q) : x == 0 -> 0 <= c -> Qabs_gt x c = false.
Proof.
  intros Hx Hc. unfold Qabs_gt. apply Qltb_ge.
  rewrite Hx. exact Hc.
Qed.

(** [fill_cdf] on a completed motif: the array it stores, entry by entry. *)
Lemma fill_cdf_tsum (a : args_t) (m : motif_t) :
  cdf_ready m -> bkg_ready a ->
  exists c c',
    fill_cdf a m = Some (with_cdf m c') /\
    cdf_inv a m (size m) c /\
    List.length c' = List.length c /\
    forall p, (0 <= p < cdf_size m)%Z -> aget 0 c' p == tsum c p.
Proof.
  intros Hm Ha. pose proof (cdf_loop_spec a m Hm Ha) as Hinv.
  destruct Hm as (Hsz & Hcm & Hcs & Hmax & Hmm & Hsc).
  set (c := fold_left (cdf_step a m) (upto 0 (size m))
              (replicate (Z.to_nat (cdf_size m)) 1)) in *.
  pose proof Hinv as (Hl & Hc & Hs & Ht).
  assert (Hpos : (0 < cdf_size m)%Z) by nia.
  assert (Hsum : Qsum c == 1).
  { rewrite <- psum_all, Hl, Hcs. exact Hs. }
  destruct (cumsum_spec c 0) as (Hl' & Hp'); [lia|]. cbv zeta in Hl', Hp'.
  rewrite Hl in Hl', Hp'.
  eexists c, _. split; [|split; [exact Hinv | split; [exact Hl'|]]].
  - unfold fill_cdf. destruct (Z.ltb_spec MAX_CDF_SIZE (cdf_size m)); [lia|].
    cbv zeta. fold c.
    rewrite (Qabs_gt_zero (fold_left Qplus c 0 - 1) (1 # 10000));
      [reflexivity | | discriminate].
    rewrite fold_left_Qplus, Hsum. ring.
  - intros p Hp. destruct (Hp' p Hp) as (H1 & _). apply H1. lia.
Qed.

(** The survival array is non-increasing, starts at 1 and ends at the
    product of the top probabilities of the positions. *)
Lemma fill_cdf_shape (a : args_t) (m : motif_t) :
  cdf_ready m -> bkg_ready a ->
  exists m',
    fill_cdf a m = Some m' /\ m' = with_cdf m (cdf m') /\
    Z.of_nat (List.length (cdf m')) = cdf_size m /\
    (forall k, (0 <= k < cdf_size m - 1)%Z ->
       aget 0 (cdf m') (k + 1) <= aget 0 (cdf m') k) /\
    aget 0 (cdf m') 0 == 1 /\
    aget 0 (cdf m') (cdf_size m - 1) == Qprodf (top_prob a m) (size m).
Proof.
  intros Hm Ha.
  destruct (fill_cdf_tsum a m Hm Ha) as (c & c' & Hf & Hinv & Hl' & Hp).
  destruct Hm as (Hsz & Hcm & Hcs & Hmax & Hmm & Hsc).
  destruct Hinv as (Hl & Hc & Hs & Ht).
  assert (Hpos : (0 < cdf_size m)%Z) by nia.
  exists (with_cdf m c'). cbn [cdf with_cdf].
  split; [exact Hf|]. split; [reflexivity|]. split; [lia|].
  split; [|split].
  - intros k Hk. rewrite !Hp by lia.
    rewrite (tsum_step c k) by lia.
    pose proof (nonneg_aget c k Hc). lra.
  - rewrite Hp by lia. rewrite tsum_0, <- psum_all, Hl, Hcs. exact Hs.
  - rewrite Hp by lia. rewrite tsum_step by lia.
    replace (cdf_size m - 1 + 1)%Z with (cdf_size m) by lia.
    rewrite tsum_end by lia.
    replace (cdf_size m - 1)%Z with (size m * cdf_max m)%Z by lia.
    rewrite Ht. ring.
Qed.

Lemma Qsumf_pos (f : Z -> Q) (n : Z) :
  (0 <= n)%Z -> (forall j, (0 <= j < n)%Z -> 0 <= f j) ->
  0 <= Qsumf f n /\
  (0 < Qsumf f n <-> exists j, (0 <= j < n)%Z /\ 0 < f j).
Proof.
  intros Hn. pattern n. apply natlike_ind; [| |exact Hn]; clear n Hn.
  - intros _. rewrite Qsumf_0. split; [apply Qle_refl|].
    split; [intros H; inversion H | intros (j & Hj & _); lia].
  - intros n Hn IH Hf. rewrite <- Z.add_1_r.
    destruct IH as (IH0 & IH); [intros j Hj; apply Hf; lia|].
    pose proof (Hf n ltac:(lia)) as Hfn.
    rewrite Qsumf_succ by lia. split; [lra|]. split.
    + intros Hpos. destruct (Qlt_le_dec 0 (f n)) as [Hlt | Hle].
      * exists n. split; [lia | exact Hlt].
      * destruct (proj1 IH) as (j & Hj & Hfj); [lra|].
        exists j. split; [lia | exact Hfj].
    + intros (j & Hj & Hfj). destruct (Z.eq_dec j n) as [-> | Hne]; [lra|].
      assert (0 < Qsumf f n) by (apply IH; exists j; split; [lia | exact Hfj]).
      lra.
Qed.

Lemma Qprodf_pos (f : Z -> Q) (n : Z) :
  (0 <= n)%Z -> (forall i, (0 <= i < n)%Z -> 0 <= f i) ->
  0 <= Qprodf f n /\
  (0 < Qprodf f n <-> forall i, (0 <= i < n)%Z -> 0 < f i).
Proof.
  intros Hn. pattern n. apply natlike_ind; [| |exact Hn]; clear n Hn.
  - intros _. rewrite Qprodf_0. split; [discriminate|].
    split; [intros _ i Hi; lia | reflexivity].
  - intros n Hn IH Hf. rewrite <- Z.add_1_r.
    destruct IH as (IH0 & IH); [intros j Hj; apply Hf; lia|].
    pose proof (Hf n ltac:(lia)) as Hfn.
    rewrite Qprodf_succ by lia. split; [apply Qmult_le_0_compat; assumption|].
    split.
    + intros Hpos i Hi.
      assert (Hp : 0 < Qprodf f n /\ 0 < f n).
      { split.
        - destruct (Qlt_le_dec 0 (Qprodf f n)) as [H|H]; [exact H|].
          assert (E : Qprodf f n == 0) by lra. rewrite E in Hpos. lra.
        - destruct (Qlt_le_dec 0 (f n)) as [H|H]; [exact H|].
          assert (E : f n == 0) by lra. rewrite E in Hpos. lra. }
      destruct (Z.eq_dec i n) as [-> | Hne]; [apply Hp|].
      apply (proj1 IH); [apply Hp | lia].
    + intros Hall.
      assert (0 < Qprodf f n) by (apply IH; intros i Hi; apply Hall; lia).
      assert (0 < f n) by (apply Hall; lia).
      apply Qmult_lt_0_compat; assumption.
Qed.

Lemma top_prob_pos (a : args_t) (m : motif_t) (i : Z) :
  nonneg (bkg a) ->
  0 <= top_prob a m i /\
  ((forall j, (0 <= j < 4)%Z -> 0 < aget 0 (bkg a) j) ->
   (0 < top_prob a m i <->
    exists j, (0 <= j < 4)%Z /\ get_score_i m j i = max m)).
Proof.
  intros Hb. unfold top_prob.
  set (f := fun j => if (get_score_i m j i =? max m)%Z
                     then aget 0 (bkg a) j else 0).
  assert (Hf : forall j, (0 <= j < 4)%Z -> 0 <= f j).
  { intros j _. subst f. cbv beta.
    destruct (get_score_i m j i =? max m)%Z;
      [apply nonneg_aget; exact Hb | apply Qle_refl]. }
  destruct (Qsumf_pos f 4 ltac:(lia) Hf) as (H0 & Hiff).
  split; [exact H0|]. intros Hpos. rewrite Hiff.
  split; intros (j & Hj & H); exists j; (split; [exact Hj|]).
  - subst f. cbv beta in H.
    destruct (Z.eqb_spec (get_score_i m j i) (max m)); [assumption|].
    inversion H.
  - subst f. cbv beta. rewrite H, Z.eqb_refl. apply Hpos. exact Hj.
Qed.

(** C3 (amended): on a completed motif and a normalised background,
    [fill_cdf] returns and the survival array it stores is non-increasing,
    has [cdf[0] = 1], and its last entry [cdf[cdf_size - 1]] is the product
    over the positions of the background probability of the bases that
    score the motif-wide maximum there: it is never negative, and with a
    positive background it is positive exactly when every position has a
    base whose score is the motif-wide maximum. *)
Theorem fill_cdf_survival (a : args_t) (m : motif_t) :
  cdf_ready m -> bkg_ready a ->
  exists m',
    fill_cdf a m = Some m' /\
    (forall k, (0 <= k < cdf_size m - 1)%Z ->
       aget 0 (cdf m') (k + 1) <= aget 0 (cdf m') k) /\
    aget 0 (cdf m') 0 == 1 /\
    aget 0 (cdf m') (cdf_size m - 1) == Qprodf (top_prob a m) (size m) /\
    0 <= aget 0 (cdf m') (cdf_size m - 1) /\
    ((forall j, (0 <= j < 4)%Z -> 0 < aget 0 (bkg a) j) ->
     (0 < aget 0 (cdf m') (cdf_size m - 1) <->
      forall i, (0 <= i < size m)%Z ->
        exists j, (0 <= j < 4)%Z /\ get_score_i m j i = max m)).
Proof.
  intros Hm Ha.
  destruct (fill_cdf_shape a m Hm Ha) as (m' & Hf & _ & _ & Hmono & H0 & Hlast).
  destruct Hm as (Hsz & _). destruct Ha as (Hb & _).
  destruct (Qprodf_pos (top_prob a m) (size m) Hsz) as (Hge & Hiff).
  { intros i _. apply top_prob_pos. exact Hb. }
  exists m'. repeat split; try assumption.
  - rewrite Hlast. exact Hge.
  - intros Hpos i Hi. rewrite Hlast in Hpos.
    apply (proj2 (top_prob_pos a m i Hb) H). apply Hiff; assumption.
  - intros Hall. rewrite Hlast. apply Hiff. intros i Hi.
    apply (proj2 (top_prob_pos a m i Hb) H). apply Hall. exact Hi.
Qed.

(** [get_pwm_max] and [get_pwm_min] start from 0: they bound the scores of
    the four bases at every position, and 0. *)
Lemma get_pwm_max_spec (m : motif_t) (B : Z) :
  (0 <= size m)%Z -> (0 <= B)%Z ->
  (forall i j, (0 <= i < size m)%Z -> (0 <= j < 4)%Z ->
     (get_score_i m j i <= B)%Z) ->
  (0 <= get_pwm_max m <= B)%Z /\
  forall i j, (0 <= i < size m)%Z -> (0 <= j < 4)%Z ->
    (get_score_i m j i <= get_pwm_max m)%Z.
Proof.
  intros Hsz HB Hsc. unfold get_pwm_max.
  pose (P := fun (pos mx : Z) =>
    (0 <= mx <= B)%Z /\
    forall i j, (0 <= i < pos)%Z -> (0 <= j < 4)%Z ->
      (get_score_i m j i <= mx)%Z).
  apply (fold_left_upto_ind P); subst P; cbv beta; [lia | |].
  - split; [lia|]. intros i j Hi. lia.
  - intros pos mx Hpos (Hmx & Hall).
    pose (P' := fun (l mx' : Z) =>
      (mx <= mx' <= B)%Z /\
      forall j, (0 <= j < l)%Z -> (get_score_i m j pos <= mx')%Z).
    match goal with
    | |- context [fold_left ?f (upto 0 4) mx] =>
        set (r := fold_left f (upto 0 4) mx)
    end.
    assert (HP' : P' 4%Z r).
    { subst r. apply (fold_left_upto_ind P'); subst P'; cbv beta; [lia | |].
      - split; [lia|]. intros j Hj. lia.
      - intros l mx' Hl (Hm' & Hall').
        pose proof (Hsc pos l ltac:(lia) Hl).
        destruct (Z.ltb_spec mx' (get_score_i m l pos)).
        + split; [lia|]. intros j Hj.
          destruct (Z.eq_dec j l) as [-> | Hne]; [lia|].
          specialize (Hall' j ltac:(lia)). lia.
        + split; [lia|]. intros j Hj.
          destruct (Z.eq_dec j l) as [-> | Hne]; [lia|].
          apply Hall'. lia. }
    destruct HP' as (Hm' & Hall'). split; [lia|].
    intros i j Hi Hj. destruct (Z.eq_dec i pos) as [-> | Hne].
    + apply Hall'. exact Hj.
    + specialize (Hall i j ltac:(lia) Hj). lia.
Qed.

Lemma get_pwm_min_spec (m : motif_t) (B : Z) :
  (0 <= size m)%Z -> (B <= 0)%Z ->
  (forall i j, (0 <= i < size m)%Z -> (0 <= j < 4)%Z ->
     (B <= get_score_i m j i)%Z) ->
  (B <= get_pwm_min m <= 0)%Z /\
  forall i j, (0 <= i < size m)%Z -> (0 <= j < 4)%Z ->
    (get_pwm_min m <= get_score_i m j i)%Z.
Proof.
  intros Hsz HB Hsc. unfold get_pwm_min.
  pose (P := fun (pos mn : Z) =>
    (B <= mn <= 0)%Z /\
    forall i j, (0 <= i < pos)%Z -> (0 <= j < 4)%Z ->
      (mn <= get_score_i m j i)%Z).
  apply (fold_left_upto_ind P); subst P; cbv beta; [lia | |].
  - split; [lia|]. intros i j Hi. lia.
  - intros pos mn Hpos (Hmn & Hall).
    pose (P' := fun (l mn' : Z) =>
      (B <= mn' <= mn)%Z /\
      forall j, (0 <= j < l)%Z -> (mn' <= get_score_i m j pos)%Z).
    match goal with
    | |- context [fold_left ?f (upto 0 4) mn] =>
        set (r := fold_left f (upto 0 4) mn)
    end.
    assert (HP' : P' 4%Z r).
    { subst r. apply (fold_left_upto_ind P'); subst P'; cbv beta; [lia | |].
      - split; [lia|]. intros j Hj. lia.
      - intros l mn' Hl (Hm' & Hall').
        pose proof (Hsc pos l ltac:(lia) Hl).
        destruct (Z.ltb_spec (get_score_i m l pos) mn').
        + split; [lia|]. intros j Hj.
          destruct (Z.eq_dec j l) as [-> | Hne]; [lia|].
          specialize (Hall' j ltac:(lia)). lia.
        + split; [lia|]. intros j Hj.
          destruct (Z.eq_dec j l) as [-> | Hne]; [lia|].
          apply Hall'. lia. }
    destruct HP' as (Hm' & Hall'). split; [lia|].
    intros i j Hi Hj. destruct (Z.eq_dec i pos) as [-> | Hne].
    + apply Hall'. exact Hj.
    + specialize (Hall i j ltac:(lia) Hj). lia.
Qed.

(** [complete_motifs] prepares what [fill_cdf] reads, for scores of at most
    20000 in absolute value (the size of the largest CDF then fits). *)
Lemma complete_motif_ready (a : args_t) (m : motif_t) :
  (0 <= size m <= 50)%Z -> List.length (pwm_rc m) = 250%nat ->
  (forall i j, (0 <= i < size m)%Z -> (0 <= j < 4)%Z ->
     (-20000 <= get_score_i m j i <= 20000)%Z) ->
  let m' := complete_motif a m in
  cdf_ready m' /\ size m' = size m /\ pwm m' = pwm m /\
  min m' = get_pwm_min m /\ max m' = get_pwm_max m /\
  (cdf_offset m' = min m' * size m')%Z /\
  cdf m' = cdf m /\ threshold m' = threshold m /\
  max_score m' = max_score m /\ min_score m' = min_score m.
Proof.
  intros Hsz Hlen Hsc m'.
  destruct (fill_pwm_rc_spec m Hsz Hlen) as (Hpwm & Hsize & _).
  destruct (get_pwm_max_spec m 20000) as (Hmx & Hmax);
    [lia | lia | intros i j Hi Hj; apply Hsc; assumption |].
  destruct (get_pwm_min_spec m (-20000)) as (Hmn & Hmin);
    [lia | lia | intros i j Hi Hj; apply Hsc; assumption |].
  assert (Ecm : cdf_max m' = (get_pwm_max m - get_pwm_min m)%Z).
  { subst m'. unfold complete_motif. cbn [cdf_max]. apply s32_small. lia. }
  assert (Ecs : cdf_size m'
                = (size m * (get_pwm_max m - get_pwm_min m) + 1)%Z).
  { subst m'. unfold complete_motif. cbn [cdf_size].
    rewrite Hsize, s32_small by lia. apply u64_small. nia. }
  assert (Eoff : cdf_offset m' = (get_pwm_min m * size m)%Z).
  { subst m'. unfold complete_motif. cbn [cdf_offset].
    rewrite s32_u64. apply s32_small. nia. }
  assert (Epwm : pwm m' = pwm m) by exact Hpwm.
  assert (Esz : size m' = size m) by exact Hsize.
  assert (Emin : min m' = get_pwm_min m) by reflexivity.
  assert (Emax : max m' = get_pwm_max m) by reflexivity.
  split; [|repeat split; try assumption; try reflexivity].
  - unfold cdf_ready. rewrite Esz, Ecm, Ecs, Emin, Emax.
    repeat split; try lia.
    + unfold MAX_CDF_SIZE. nia.
    + unfold get_score_i. rewrite Epwm. apply Hmin; assumption.
    + unfold get_score_i. rewrite Epwm. apply Hmax; assumption.
  - rewrite Eoff, Emin, Esz. reflexivity.
  - subst m'. unfold complete_motif. cbn [cdf].
    unfold fill_pwm_rc.
    apply (fold_left_upto_ind (fun _ m0 => cdf m0 = cdf m)); [lia | reflexivity |].
    intros i s _ Hs. exact Hs.
  - subst m'. unfold complete_motif. cbn [threshold].
    unfold fill_pwm_rc.
    apply (fold_left_upto_ind (fun _ m0 => threshold m0 = threshold m));
      [lia | reflexivity |].
    intros i s _ Hs. exact Hs.
  - subst m'. unfold complete_motif. cbn [max_score].
    unfold fill_pwm_rc.
    apply (fold_left_upto_ind (fun _ m0 => max_score m0 = max_score m));
      [lia | reflexivity |].
    intros i s _ Hs. exact Hs.
  - subst m'. unfold complete_motif. cbn [min_score].
    unfold fill_pwm_rc.
    apply (fold_left_upto_ind (fun _ m0 => min_score m0 = min_score m));
      [lia | reflexivity |].
    intros i s _ Hs. exact Hs.
Qed.

Lemma bkg_ready_uniform (a : args_t) :
  bkg a = [1 # 4; 1 # 4; 1 # 4; 1 # 4] -> bkg_ready a.
Proof.
  intros E. unfold bkg_ready. rewrite E. split.
  - repeat constructor; discriminate.
  - reflexivity.
Qed.

Lemma acgt_scores_ready :
  cdf_ready (complete_motif Examples.args_t01 Examples.acgt_scores).
Proof.
  apply (proj1 (complete_motif_ready Examples.args_t01 Examples.acgt_scores
                  ltac:(vm_compute; split; discriminate)
                  ltac:(vm_compute; reflexivity)
                  ltac:(intros i j Hi Hj;
                        change (size Examples.acgt_scores) with 4%Z in Hi;
                        index_cases Hi; index_cases Hj;
                        vm_compute; split; discriminate))).
Qed.

Lemma uneven_scores_ready :
  cdf_ready (complete_motif Examples.args_t01 Examples.uneven_scores).
Proof.
  apply (proj1 (complete_motif_ready Examples.args_t01 Examples.uneven_scores
                  ltac:(vm_compute; split; discriminate)
                  ltac:(vm_compute; reflexivity)
                  ltac:(intros i j Hi Hj;
                        change (size Examples.uneven_scores) with 4%Z in Hi;
                        index_cases Hi; index_cases Hj;
                        vm_compute; split; discriminate))).
Qed.

(** The four-position motif with scores 2 and -1: 13 entries, the last one
    (1/4)^4. *)
Lemma fill_cdf_survival_witness :
  exists m',
    fill_cdf Examples.args_t01
      (complete_motif Examples.args_t01 Examples.acgt_scores) = Some m' /\
    aget 0 (cdf m') 6 <= aget 0 (cdf m') 5 /\
    aget 0 (cdf m') 0 == 1 /\
    aget 0 (cdf m') 12 == 1 # 256 /\
    0 < aget 0 (cdf m') 12.
Proof.
  destruct (fill_cdf_survival Examples.args_t01
              (complete_motif Examples.args_t01 Examples.acgt_scores)
              acgt_scores_ready (bkg_ready_uniform Examples.args_t01 eq_refl))
    as (m' & Hf & Hmono & H0 & Hlast & _ & Hiff).
  exists m'. split; [exact Hf|]. split; [|split; [exact H0|]].
  - apply (Hmono 5%Z). vm_compute. split; [discriminate | reflexivity].
  - change (aget 0 (cdf m') 12 == 1 # 256) in Hlast.
    split; [exact Hlast|]. rewrite Hlast. reflexivity.
Defined.

(** The same motif with a last position whose best base scores 1, not 2:
    no word reaches [size * max], and the last entry of the array is 0. *)
Lemma fill_cdf_last_entry_counterexample :
  fill_cdf Examples.args_t01
    (complete_motif Examples.args_t01 Examples.uneven_scores)
  = Some Examples.uneven_filled /\
  cdf_size Examples.uneven_filled = 13%Z /\
  ~ 0 < aget 0 (cdf Examples.uneven_filled)
          (cdf_size Examples.uneven_filled - 1).
Proof.
  split; [vm_compute; reflexivity|]. split; [vm_compute; reflexivity|].
  vm_compute. discriminate.
Qed.

End ScoreDistribution.


(** ** The consensus motif of [-1] *)
Section Consensus.
Import Yamscan.
Local Open Scope Q_scope.

Lemma Qpower_base_le (q r : Q) (n : Z) :
  (0 <= n)%Z -> 0 <= q -> q <= r -> q ^ n <= r ^ n.
Proof.
  intros Hn Hq Hqr. pattern n. apply natlike_ind; [| |exact Hn]; clear n Hn.
  - apply Qle_refl.
  - intros n Hn IH. rewrite <- Z.add_1_r.
    rewrite !Qpower_plus' by lia. rewrite !Qpower_1_r.
    apply Qmult_le_compat_nonneg.
    + split; [apply Qpower_0_le; exact Hq | exact IH].
    + split; assumption.
Qed.

(** Between two powers of two, the floor of a power has their logarithms. *)
Lemma log2_floor_power (y : Q) (a b n : Z) :
  (0 <= a)%Z -> (0 <= n)%Z ->
  inject_Z (2 ^ a) <= y -> y <= inject_Z (2 ^ b) ->
  (a * n <= Z.log2 (Qfloor (y ^ n)) <= b * n)%Z.
Proof.
  intros Ha Hn Hlo Hhi.
  assert (Hb : (0 <= b)%Z).
  { destruct (Z.le_gt_cases 0 b) as [H|H]; [exact H|].
    rewrite (Z.pow_neg_r 2 b H) in Hhi.
    assert (H1 : (0 < 2 ^ a)%Z) by (apply Z.pow_pos_nonneg; lia).
    assert (H2 : inject_Z 0 < inject_Z (2 ^ a)) by (rewrite <- Zlt_Qlt; exact H1).
    change (inject_Z 0) with 0 in *. lra. }
  assert (H0 : 0 <= inject_Z (2 ^ a)).
  { change 0 with (inject_Z 0). rewrite <- Zle_Qle. apply Z.pow_nonneg. lia. }
  assert (E : forall c, (0 <= c)%Z ->
                Qfloor (inject_Z (2 ^ c) ^ n) = (2 ^ (c * n))%Z).
  { intros c Hc. rewrite Z.pow_mul_r by lia.
    rewrite <- (Qfloor_Z ((2 ^ c) ^ n)). apply Qfloor_comp.
    symmetry. apply Zpower_Qpower. exact Hn. }
  split.
  - rewrite <- (Z.log2_pow2 (a * n)) by nia. apply Z.log2_le_mono.
    rewrite <- (E a Ha). apply Qfloor_resp_le.
    apply Qpower_base_le; assumption.
  - rewrite <- (Z.log2_pow2 (b * n)) by nia. apply Z.log2_le_mono.
    rewrite <- (E b Hb). apply Qfloor_resp_le.
    apply Qpower_base_le; [exact Hn | lra | exact Hhi].
Qed.

Lemma log2_milli_bounds_ge (y : Q) (a b : Z) :
  (0 <= a)%Z -> inject_Z (2 ^ a) <= y -> y <= inject_Z (2 ^ b) ->
  (a * 1000 <= log2_milli y <= b * 1000)%Z.
Proof.
  intros Ha Hlo Hhi. unfold log2_milli.
  assert (H1 : 1 <= y).
  { apply Qle_trans with (inject_Z (2 ^ a)); [|exact Hlo].
    change 1 with (inject_Z 1). rewrite <- Zle_Qle.
    assert (0 < 2 ^ a)%Z by (apply Z.pow_pos_nonneg; lia). lia. }
  apply Qle_bool_iff in H1. rewrite H1.
  apply log2_floor_power; [exact Ha | lia | exact Hlo | exact Hhi].
Qed.

Lemma log2_milli_bounds_lt (y : Q) (a b : Z) :
  (0 <= a)%Z -> y < 1 -> inject_Z (2 ^ a) <= / y -> / y <= inject_Z (2 ^ b) ->
  (- (b * 1000) <= log2_milli y <= - (a * 1000))%Z.
Proof.
  intros Ha Hy Hlo Hhi. unfold log2_milli.
  assert (H1 : Qle_bool 1 y = false).
  { destruct (Qle_bool 1 y) eqn:E; [|reflexivity].
    apply Qle_bool_iff in E. lra. }
  rewrite H1.
  pose proof (log2_floor_power (/ y) a b 1000 Ha ltac:(lia) Hlo Hhi). lia.
Qed.

(** The two scores of a consensus letter: about 1998 for the base of the
    letter and about -9967 for the three others. *)
Lemma calc_score_consensus :
  let a := consensus_args args in
  (1000 <= calc_score a 1 (1 # 4) <= 2000)%Z /\
  (-10000 <= calc_score a 0 (1 # 4) <= -9000)%Z.
Proof.
  cbv zeta. unfold calc_score. split.
  - apply (log2_milli_bounds_ge _ 1 2); [lia | |]; vm_compute; discriminate.
  - apply (log2_milli_bounds_lt _ 9 10); [lia | | |];
      vm_compute; (reflexivity || discriminate).
Qed.

(** The scores that the loop of [add_consensus_motif] writes for ACGT:
    [hi] for the base of each letter and [lo] for the three others. *)
Definition diag_scores (hi lo : Z) : motif_t :=
  mk_motif
    (fold_left
       (fun p pos =>
          fold_left
            (fun p l => aset p (l + pos * 5) (if (l =? pos)%Z then hi else lo))
            (upto 0 4) p)
       (upto 0 4) init_pwm)
    init_pwm [] 0 4 0 0 0 0 0 0 0 "ACGT".

Lemma add_consensus_scores_acgt :
  let a := consensus_args args in
  add_consensus_scores a "ACGT"
  = Some (diag_scores (calc_score a 1 (1 # 4)) (calc_score a 0 (1 # 4))).
Proof. cbv -[calc_score]. reflexivity. Qed.

Section Diagonal.
Variables (a : args_t) (hi lo : Z).
Hypothesis Hbkg : bkg a = [1 # 4; 1 # 4; 1 # 4; 1 # 4].
Hypothesis Hthresh0 : thresh0 a = false.
Hypothesis Hcons : is_consensus a = true.
Hypothesis Hmask : mask a = false.
Hypothesis Hhi : (0 <= hi <= 20000)%Z.
Hypothesis Hlo : (-20000 <= lo <= 0)%Z.
Hypothesis Hlt : (lo < hi)%Z.

Lemma diag_scores_get (i j : Z) :
  (0 <= i < 4)%Z -> (0 <= j < 4)%Z ->
  get_score_i (diag_scores hi lo) j i = if (j =? i)%Z then hi else lo.
Proof. intros Hi Hj. index_cases Hi; index_cases Hj; reflexivity. Qed.

Lemma diag_complete :
  let m := complete_motif a (diag_scores hi lo) in
  cdf_ready m /\ size m = 4%Z /\ pwm m = pwm (diag_scores hi lo) /\
  min m = lo /\ max m = hi /\ cdf_offset m = (lo * 4)%Z /\
  cdf_size m = (4 * (hi - lo) + 1)%Z /\ max_score m = 0%Z.
Proof.
  assert (Hsc : forall i j, (0 <= i < size (diag_scores hi lo))%Z ->
            (0 <= j < 4)%Z ->
            (-20000 <= get_score_i (diag_scores hi lo) j i <= 20000)%Z).
  { intros i j Hi Hj. rewrite diag_scores_get by assumption.
    destruct (j =? i)%Z; lia. }
  destruct (complete_motif_ready a (diag_scores hi lo)
              ltac:(cbn [size diag_scores]; lia) ltac:(reflexivity) Hsc)
    as (Hr & Hsz & Hpwm & Hmin & Hmax & Hoff & _ & _ & Hms & _).
  assert (Emax : get_pwm_max (diag_scores hi lo) = hi).
  { destruct (get_pwm_max_spec (diag_scores hi lo) hi) as (H1 & H2);
      [cbn [size diag_scores]; lia | lia | |].
    - intros i j Hi Hj. rewrite diag_scores_get by assumption.
      destruct (j =? i)%Z; lia.
    - specialize (H2 0%Z 0%Z ltac:(cbn [size diag_scores]; lia) ltac:(lia)).
      rewrite diag_scores_get in H2 by lia. cbn in H2. lia. }
  assert (Emin : get_pwm_min (diag_scores hi lo) = lo).
  { destruct (get_pwm_min_spec (diag_scores hi lo) lo) as (H1 & H2);
      [cbn [size diag_scores]; lia | lia | |].
    - intros i j Hi Hj. rewrite diag_scores_get by assumption.
      destruct (j =? i)%Z; lia.
    - specialize (H2 0%Z 1%Z ltac:(cbn [size diag_scores]; lia) ltac:(lia)).
      rewrite diag_scores_get in H2 by lia. cbn in H2. lia. }
  cbv zeta. rewrite Emax in Hmax. rewrite Emin in Hmin.
  change (size (diag_scores hi lo)) with 4%Z in Hsz.
  pose proof Hr as (_ & Hcm & Hcs & _).
  split; [exact Hr|]. repeat split; try assumption.
  - rewrite Hoff, Hmin, Hsz. reflexivity.
  - rewrite Hcs, Hcm, Hsz, Hmax, Hmin. reflexivity.
Qed.


Ltac s32_bounded :=
  repeat match goal with
         | |- context [s32 ?x] => rewrite (s32_small x) by lia
         end.

Lemma diag_window (i : Z) :
  (0 <= i < 4)%Z ->
  aget 0%Z (pwm (diag_scores hi lo))
    (u64 (char2index (aget 0%Z (bytes_of "AAACGTAA") (u64 (i + 2))) + i * 5))
  = hi.
Proof. intros Hi. index_cases Hi; reflexivity. Qed.

Lemma diag_top_prob (m : motif_t) (i : Z) :
  (forall i j, (0 <= i < 4)%Z -> (0 <= j < 4)%Z ->
     get_score_i m j i = if (j =? i)%Z then hi else lo) ->
  max m = hi -> (0 <= i < 4)%Z ->
  top_prob a m i == 1 # 4.
Proof.
  intros Hg Hmax Hi. unfold top_prob, Qsumf.
  change (upto 0 4) with [0; 1; 2; 3]%Z. cbn [List.map].
  rewrite !Hg by lia. rewrite Hmax, Hbkg.
  assert (Hne : (lo =? hi)%Z = false) by (apply Z.eqb_neq; lia).
  index_cases Hi; cbn [Z.eqb Pos.eqb]; rewrite Z.eqb_refl, Hne; reflexivity.
Qed.

Lemma diag_max_pos (m : motif_t) (i : Z) :
  (forall i j, (0 <= i < 4)%Z -> (0 <= j < 4)%Z ->
     get_score_i m j i = if (j =? i)%Z then hi else lo) ->
  (0 <= i < 4)%Z -> max_pos m i = hi.
Proof.
  intros Hg Hi. unfold max_pos.
  change (upto 1 4) with [1; 2; 3]%Z. cbn [fold_left].
  rewrite !Hg by lia.
  assert (E1 : (hi <? lo)%Z = false) by (apply Z.ltb_ge; lia).
  assert (E2 : (lo <? hi)%Z = true) by (apply Z.ltb_lt; lia).
  index_cases Hi; cbn [Z.eqb Pos.eqb];
    do 3 (rewrite ?E1, ?E2, ?Z.ltb_irrefl; cbv iota); reflexivity.
Qed.

Lemma with_cdf_fields (m m' : motif_t) :
  m' = with_cdf m (cdf m') ->
  size m' = size m /\ pwm m' = pwm m /\ cdf_offset m' = cdf_offset m /\
  max_score m' = max_score m.
Proof. intros E. rewrite E. repeat split. Qed.

(** The motif that [fill_cdf] and [set_threshold] make of the scores. *)
Lemma diag_prepared :
  exists m1,
    fill_cdf a (complete_motif a (diag_scores hi lo)) = Some m1 /\
    let m2 := set_threshold a m1 in
    size m2 = 4%Z /\ pwm m2 = pwm (diag_scores hi lo) /\
    cdf_offset m2 = (lo * 4)%Z /\
    max_score m2 = (4 * hi)%Z /\ threshold m2 = max_score m2 /\
    aget 0 (cdf m2) (4 * hi - lo * 4) == 1 # 256.
Proof.
  pose proof diag_complete as Hm. cbv zeta in Hm.
  remember (complete_motif a (diag_scores hi lo)) as m eqn:Em.
  destruct Hm as (Hr & Hsz & Hpwm & Hmin & Hmax & Hoff & Hcs & Hms).
  destruct (fill_cdf_shape a m Hr (bkg_ready_uniform a Hbkg))
    as (m1 & Hf & Em1 & Hlen & _ & _ & Hlast).
  exists m1. split; [exact Hf|]. cbv zeta.
  destruct (with_cdf_fields m m1 Em1) as (Esz1 & Epwm1 & Eoff1 & Ems1).
  rewrite Hsz in Esz1. rewrite Hpwm in Epwm1. rewrite Hoff in Eoff1.
  rewrite Hms in Ems1.
  assert (Hg1 : forall i j, (0 <= i < 4)%Z -> (0 <= j < 4)%Z ->
            get_score_i m1 j i = if (j =? i)%Z then hi else lo).
  { intros i j Hi Hj. unfold get_score_i. rewrite Epwm1.
    exact (diag_scores_get i j Hi Hj). }
  assert (Hg : forall i j, (0 <= i < 4)%Z -> (0 <= j < 4)%Z ->
            get_score_i m j i = if (j =? i)%Z then hi else lo).
  { intros i j Hi Hj. unfold get_score_i. rewrite Hpwm.
    exact (diag_scores_get i j Hi Hj). }
  assert (Ems2 : max_score (set_threshold a m1) = (4 * hi)%Z).
  { unfold set_threshold. cbn [max_score].
    rewrite Esz1. change (upto 0 4) with [0; 1; 2; 3]%Z. cbn [fold_left].
    rewrite !(diag_max_pos m1) by (assumption || lia).
    rewrite Ems1. s32_bounded. lia. }
  split; [exact Esz1|]. split; [exact Epwm1|]. split; [exact Eoff1|].
  split; [exact Ems2|]. split.
  - unfold set_threshold. cbn [threshold max_score].
    rewrite Hthresh0, Hcons. reflexivity.
  - change (cdf (set_threshold a m1)) with (cdf m1).
    replace (4 * hi - lo * 4)%Z with (cdf_size m - 1)%Z by lia.
    rewrite Hlast, Hsz. unfold Qprodf, Qprod.
    change (upto 0 4) with [0; 1; 2; 3]%Z. cbn [List.map fold_right].
    rewrite !(diag_top_prob m) by (assumption || lia). reflexivity.
Qed.

(** The scan of AAACGTAA with that motif: the row of the forward window at
    offset 2, the third base. *)
Lemma diag_scan (nm : string) :
  exists m1,
    fill_cdf a (complete_motif a (diag_scores hi lo)) = Some m1 /\
    let m2 := set_threshold a m1 in
    let h := print_res m2 nm (bytes_of "AAACGTAA") 2 (size m2) (chr "+")
               (4 * hi) in
    threshold m2 = max_score m2 /\
    max_score m2 = (4 * hi)%Z /\
    In h (score_seq a m2 nm (bytes_of "AAACGTAA")) /\
    h_start h = 3%Z /\ h_end h = 6%Z /\ h_match h = bytes_of "ACGT" /\
    h_pvalue h == 1 # 256.
Proof.
  destruct diag_prepared as (m1 & Hf & Hp). exists m1. split; [exact Hf|].
  cbv zeta in Hp |- *. revert Hp.
  generalize (set_threshold a m1). clear m1 Hf.
  intros m2 (Esz2 & Epwm2 & Eoff2 & Ems2 & Ethr & Hpv).
  assert (Escore : score_subseq m2 (bytes_of "AAACGTAA") 2 char2index
                   = (4 * hi)%Z).
  { unfold score_subseq, get_score. rewrite Esz2, Epwm2.
    change (upto 0 4) with [0; 1; 2; 3]%Z. cbn [fold_left].
    rewrite !diag_window by lia. s32_bounded. lia. }
  split; [exact Ethr|]. split; [exact Ems2|]. split; [|split; [|split; [|split]]].
  - apply (score_seq_hits a m2 nm (bytes_of "AAACGTAA"));
      [lia | vm_compute; reflexivity
      | rewrite Ethr, Ems2; unfold INT_MIN, INT_MAX; lia |].
    rewrite Hmask. exists 2%Z. split; [lia|]. split.
    + rewrite Esz2. vm_compute. discriminate.
    + left. rewrite Escore, Ethr, Ems2. split; [reflexivity | lia].
  - reflexivity.
  - unfold print_res. cbn [h_end]. rewrite Esz2. reflexivity.
  - unfold print_res. cbn [h_match]. rewrite Esz2. reflexivity.
  - unfold print_res. cbn [h_pvalue]. unfold score2pval.
    rewrite Eoff2, s32_small by lia. exact Hpv.
Qed.

End Diagonal.

(** The motif of [-1 ACGT] is the diagonal one, and the scan of AAACGTAA
    prints the forward window that starts at the third base. *)
Lemma consensus_acgt_row (nm : string) :
  let a := consensus_args args in
  let m := Examples.consensus_acgt in
  let h := print_res m nm (bytes_of "AAACGTAA") 2 (size m) (chr "+")
             (max_score m) in
  threshold m = max_score m /\
  In h (score_seq a m nm (bytes_of "AAACGTAA")) /\
  h_start h = 3%Z /\ h_end h = 6%Z /\ h_match h = bytes_of "ACGT" /\
  h_pvalue h == 1 # 256.
Proof.
  cbv zeta.
  pose proof add_consensus_scores_acgt as Hs. cbv zeta in Hs.
  pose proof calc_score_consensus as Hb. cbv zeta in Hb.
  revert Hs Hb.
  generalize (calc_score (consensus_args args) 1 (1 # 4)).
  generalize (calc_score (consensus_args args) 0 (1 # 4)).
  intros lo hi Hs (Hhi & Hlo).
  destruct (diag_scan (consensus_args args) hi lo eq_refl eq_refl eq_refl
              eq_refl ltac:(lia) ltac:(lia) ltac:(lia) nm)
    as (m1 & Hf & H).
  assert (E : Examples.consensus_acgt = set_threshold (consensus_args args) m1).
  { unfold Examples.consensus_acgt. cbv zeta. unfold add_consensus_motif.
    rewrite Hs, Hf. reflexivity. }
  rewrite E. cbv zeta in H.
  destruct H as (Hthr & Hms & Hin & H1 & H2 & H3 & H4).
  rewrite Hms.
  split; [rewrite Hthr; exact Hms|]. split; [exact Hin|]. split; [exact H1|].
  split; [exact H2|]. split; [exact H3 | exact H4].
Qed.

(** C9 (amended): the scan of AAACGTAA with the consensus motif [-1 ACGT]
    prints a row for the forward strand with start 3 and end 6 (1-based and
    inclusive: the window at the 0-based offsets 2 to 5), match ACGT and a
    score equal to [max_score], which is also the threshold; the p-value of
    the row is [cdf[max_score - cdf_offset] = (1/4)^4 = 1/256]. *)
Theorem consensus_acgt_scan :
  let a := consensus_args args in
  let m := Examples.consensus_acgt in
  threshold m = max_score m /\
  exists h,
    In h (score_seq a m "seq1" (bytes_of "AAACGTAA")) /\
    h_seq_name h = "seq1"%string /\ h_motif h = name m /\
    h_start h = 3%Z /\ h_end h = 6%Z /\ h_strand h = chr "+" /\
    h_match h = bytes_of "ACGT" /\ h_score h = max_score m /\
    h_pvalue h == 1 # 256.
Proof.
  cbv zeta.
  destruct (consensus_acgt_row "seq1") as (Hthr & Hin & H1 & H2 & H3 & H4).
  split; [exact Hthr|].
  eexists. split; [exact Hin|].
  split; [reflexivity|]. split; [reflexivity|]. split; [exact H1|].
  split; [exact H2|]. split; [reflexivity|]. split; [exact H3|].
  split; [reflexivity | exact H4].
Qed.

(** The row of that window does not carry the p-value 1. *)
Lemma consensus_acgt_pvalue_counterexample :
  exists h,
    In h (score_seq (consensus_args args) Examples.consensus_acgt "seq1"
            (bytes_of "AAACGTAA")) /\
    h_start h = 3%Z /\ h_strand h = chr "+" /\ h_match h = bytes_of "ACGT" /\
    ~ h_pvalue h == 1.
Proof.
  destruct (consensus_acgt_row "seq1") as (_ & Hin & H1 & _ & H3 & H4).
  eexists. split; [exact Hin|].
  split; [exact H1|]. split; [reflexivity|]. split; [exact H3|].
  intros E. rewrite H4 in E. discriminate E.
Qed.

End Consensus.

(** * Further properties of the code *)

(** ** k-mer indices and counts (yamshuf.c) *)
Section Kmers.
Import Yamshuf.

Lemma aget_Forall {A} (P : A -> Prop) (d : A) (a : list A) (i : Z) :
  List.Forall P a -> P d -> P (aget d a i).
Proof.
  intros Ha Hd. unfold aget. destruct (i <? 0); [exact Hd |].
  destruct (nth_in_or_default (Z.to_nat i) a d) as [Hin | ->]; [| exact Hd].
  exact (proj1 (List.Forall_forall _ _) Ha _ Hin).
Qed.

Lemma char2index_range (c : Z) : 0 <= char2index c <= 4.
Proof.
  unfold char2index.
  apply (aget_Forall (fun x => 0 <= x <= 4)); [| lia].
  apply List.Forall_forall. intros x Hx.
  assert (H : forallb (fun x => (0 <=? x) && (x <=? 4)) char2index_tab = true)
    by (vm_compute; reflexivity).
  rewrite forallb_forall in H. specialize (H x Hx). lia.
Qed.

(** The table [pow5] holds the powers of five up to [5^22]; its later
    entries are rounded. *)
Lemma pow5_spec (i : Z) : 0 <= i <= 22 -> pow5 i = 5 ^ i.
Proof.
  intros Hi.
  assert (H : forallb (fun i => pow5 i =? 5 ^ i) (upto 0 23) = true)
    by (vm_compute; reflexivity).
  rewrite forallb_forall in H.
  apply Z.eqb_eq, H, In_upto. lia.
Qed.

(** The base-5 value of a list of digits, most significant first. *)
Definition horner (ds : list Z) : Z := fold_left (fun h d => 5 * h + d) ds 0.

Lemma horner_snoc (ds : list Z) (d : Z) : horner (ds ++ [d]) = 5 * horner ds + d.
Proof. unfold horner. rewrite fold_left_app. reflexivity. Qed.

Lemma horner_range (ds : list Z) :
  List.Forall (fun d => 0 <= d <= 4) ds ->
  0 <= horner ds < 5 ^ Z.of_nat (List.length ds).
Proof.
  induction ds as [| d ds IH] using rev_ind; intros H.
  - cbn. lia.
  - apply Forall_app in H as [H1 H2]. inversion H2; subst.
    specialize (IH H1). rewrite horner_snoc, length_app. cbn [List.length].
    replace (Z.of_nat (List.length ds + 1)) with (Z.of_nat (List.length ds) + 1)
      by lia.
    rewrite Z.pow_add_r by lia. lia.
Qed.

Lemma horner_inj (ds1 ds2 : list Z) :
  List.length ds1 = List.length ds2 ->
  List.Forall (fun d => 0 <= d <= 4) ds1 ->
  List.Forall (fun d => 0 <= d <= 4) ds2 ->
  horner ds1 = horner ds2 -> ds1 = ds2.
Proof.
  revert ds2. induction ds1 as [| d1 ds1 IH] using rev_ind; intros ds2 Hl H1 H2 E.
  - destruct ds2; [reflexivity | discriminate].
  - destruct ds2 as [| d2 ds2 _] using rev_ind.
    { rewrite length_app in Hl. cbn in Hl. lia. }
    rewrite !length_app in Hl. cbn [List.length] in Hl.
    apply Forall_app in H1 as [H1 H1']. apply Forall_app in H2 as [H2 H2'].
    inversion H1'; subst. inversion H2'; subst.
    rewrite !horner_snoc in E.
    assert (d1 = d2 /\ horner ds1 = horner ds2) as [-> E'] by lia.
    f_equal. apply IH; [lia | assumption | assumption | exact E'].
Qed.

(** The letters of a window as base indices. *)
Definition window_digits (seq : list Z) (k offset : Z) : list Z :=
  List.map (fun j => char2index (aget 0 seq (offset + j))) (upto 0 k).

Lemma window_digits_range seq k offset :
  List.Forall (fun d => 0 <= d <= 4) (window_digits seq k offset).
Proof.
  unfold window_digits. apply List.Forall_forall. intros d Hd.
  apply in_map_iff in Hd as (j & <- & _). apply char2index_range.
Qed.

Lemma length_window_digits seq k offset :
  List.length (window_digits seq k offset) = Z.to_nat k.
Proof.
  unfold window_digits. rewrite length_map, length_upto. f_equal. lia.
Qed.

Lemma window_digits_snoc seq k offset :
  0 <= k ->
  window_digits seq (k + 1) offset
  = window_digits seq k offset ++ [char2index (aget 0 seq (offset + k))].
Proof.
  intros Hk. unfold window_digits. rewrite upto_snoc by lia.
  rewrite map_app. reflexivity.
Qed.

(** [chars2kmer] is the base-5 number of the window: no step wraps. *)
Lemma chars2kmer_horner (seq : list Z) (k offset : Z) :
  0 <= k <= 22 ->
  chars2kmer seq k offset = horner (window_digits seq k offset).
Proof.
  intros Hk. unfold chars2kmer.
  pose (P := fun (j acc : Z) =>
    acc = 5 ^ (k - j) * horner (window_digits seq j offset)).
  assert (HP : P k
    (fold_left
       (fun kmer j =>
          u64 (kmer + pow5 (k - 1 - j) * char2index (aget 0 seq (offset + j))))
       (upto 0 k) 0)).
  { apply (fold_left_upto_ind P); subst P; cbv beta; [lia | |].
    - change (horner (window_digits seq 0 offset)) with 0. lia.
    - intros j acc Hj ->.
      rewrite window_digits_snoc, horner_snoc by lia.
      rewrite pow5_spec by lia.
      replace (k - (j + 1)) with (k - 1 - j) by lia.
      replace (k - j) with (k - 1 - j + 1) by lia.
      rewrite (Z.pow_add_r 5 (k - 1 - j) 1) by lia.
      set (h := horner (window_digits seq j offset)).
      set (d := char2index (aget 0 seq (offset + j))).
      assert (Hh : 0 <= h < 5 ^ j).
      { pose proof (horner_range _ (window_digits_range seq j offset)) as H.
        rewrite length_window_digits in H.
        rewrite Z2Nat.id in H by lia. exact H. }
      assert (Hd : 0 <= d <= 4) by apply char2index_range.
      assert (Hp : 0 < 5 ^ (k - 1 - j)) by (apply Z.pow_pos_nonneg; lia).
      assert (Hb : 5 ^ (k - 1 - j) * (5 * h + d) < 5 ^ k).
      { replace k with ((k - 1 - j) + (j + 1)) at 2 by lia.
        rewrite Z.pow_add_r by lia. rewrite (Z.pow_add_r 5 j 1) by lia.
        apply Z.mul_lt_mono_pos_l; lia. }
      assert (H22 : 5 ^ k <= 5 ^ 22) by (apply Z.pow_le_mono_r; lia).
      change (5 ^ 1) with 5.
      replace (5 ^ (k - 1 - j) * 5 * h + 5 ^ (k - 1 - j) * d)
        with (5 ^ (k - 1 - j) * (5 * h + d)) by ring.
      apply u64_small.
      split; [nia |].
      assert (5 ^ 22 < 2 ^ 64) by (vm_compute; reflexivity). lia. }
  red in HP. rewrite HP, Z.sub_diag. change (5 ^ 0) with 1. lia.
Qed.

Lemma chars2kmer_range (seq : list Z) (k off : Z) :
  0 <= k <= 22 -> 0 <= chars2kmer seq k off < 5 ^ k.
Proof.
  intros Hk. rewrite chars2kmer_horner by lia.
  pose proof (horner_range _ (window_digits_range seq k off)) as H.
  rewrite length_window_digits, Z2Nat.id in H by lia. exact H.
Qed.

(** X1: the k-mer index of a window is its base-5 number: it lies in
    [0, 5^k), and two windows have the same index exactly when their
    characters have the same base index (A, C, G, T/U in either case, 4 for
    every other character) at every position. *)
Theorem chars2kmer_same_index (seq1 seq2 : list Z) (k o1 o2 : Z) :
  0 <= k <= 22 ->
  0 <= chars2kmer seq1 k o1 < 5 ^ k /\
  (chars2kmer seq1 k o1 = chars2kmer seq2 k o2 <->
   forall j, 0 <= j < k ->
     char2index (aget 0 seq1 (o1 + j)) = char2index (aget 0 seq2 (o2 + j))).
Proof.
  intros Hk. split; [apply chars2kmer_range; lia |].
  rewrite !chars2kmer_horner by lia. split.
  - intros E j Hj.
    apply horner_inj in E;
      [| by rewrite !length_window_digits
       | apply window_digits_range | apply window_digits_range].
    unfold window_digits in E.
    assert (Hin : In j (upto 0 k)) by (apply In_upto; lia).
    revert Hin. generalize (upto 0 k) E. clear.
    induction l as [| x l IH]; intros E Hin; [destruct Hin |].
    destruct Hin as [-> | Hin]; inversion E; auto.
  - intros H. f_equal. unfold window_digits. apply map_ext_in.
    intros j Hj. apply In_upto in Hj. apply H. lia.
Qed.

(** The windows ACG of ACGT and acg of tacgu have the same index, 7. *)
Lemma chars2kmer_same_index_witness :
  chars2kmer (bytes_of "ACGT") 3 0 = chars2kmer (bytes_of "tacgu") 3 1
  /\ 0 <= chars2kmer (bytes_of "ACGT") 3 0 < 5 ^ 3.
Proof.
  destruct (chars2kmer_same_index (bytes_of "ACGT") (bytes_of "tacgu") 3 0 1)
    as (Hr & Hiff); [lia |].
  split; [| exact Hr]. apply Hiff. intros j Hj.
  assert (j = 0 \/ j = 1 \/ j = 2) as [-> | [-> | ->]] by lia; reflexivity.
Defined.

Lemma Zsum_insert (l : list Z) (p : nat) (v : Z) :
  (p < List.length l)%nat -> Zsum (<[p := v]> l) = Zsum l - nth p l 0 + v.
Proof.
  revert p. induction l as [| x l IH]; intros p Hp; cbn [List.length] in Hp.
  - lia.
  - destruct p as [| p]; cbn [list_insert insert nth].
    + unfold Zsum. cbn [fold_right]. lia.
    + unfold Zsum in *. cbn [fold_right]. rewrite IH by lia. lia.
Qed.

Lemma Zsum_aset (a : list Z) (i v : Z) :
  0 <= i < Z.of_nat (List.length a) ->
  Zsum (aset a i v) = Zsum a - aget 0 a i + v.
Proof.
  intros Hi. unfold aset, aget. destruct (Z.ltb_spec i 0); [lia |].
  apply Zsum_insert. lia.
Qed.

Lemma Zsum_replicate_0 (n : nat) : Zsum (replicate n 0) = 0.
Proof. induction n as [| n IH]; [reflexivity |]. cbn. exact IH. Qed.

(** The number of the first [n] windows whose index is [c]. *)
Definition windows_with (seq : list Z) (k c n : Z) : Z :=
  Z.of_nat (List.length
              (List.filter (fun i => chars2kmer seq k i =? c) (upto 0 n))).

Lemma windows_with_succ seq k c n :
  0 <= n ->
  windows_with seq k c (n + 1)
  = windows_with seq k c n + (if chars2kmer seq k n =? c then 1 else 0).
Proof.
  intros Hn. unfold windows_with. rewrite upto_snoc by lia.
  rewrite List.filter_app, length_app. cbn [List.filter].
  destruct (chars2kmer seq k n =? c); cbn [List.length]; lia.
Qed.

Lemma windows_with_le seq k c n : 0 <= n -> 0 <= windows_with seq k c n <= n.
Proof.
  intros Hn. unfold windows_with.
  pose proof (List.filter_length_le
                (fun i => chars2kmer seq k i =? c) (upto 0 n)) as H.
  rewrite length_upto in H. lia.
Qed.

Lemma count_kmers_loop (seq : list Z) (k n : Z) :
  0 <= k <= 22 -> 0 <= n <= 2 ^ 63 ->
  let tab :=
    fold_left
      (fun tab i =>
         let km := chars2kmer seq k i in aset tab km (u64 (aget 0 tab km + 1)))
      (upto 0 n) (zeros (pow5 k)) in
  Z.of_nat (List.length tab) = 5 ^ k /\
  Zsum tab = n /\
  forall c, 0 <= c < 5 ^ k -> aget 0 tab c = windows_with seq k c n.
Proof.
  intros Hk Hn.
  pose (P := fun (n : Z) (tab : list Z) =>
    Z.of_nat (List.length tab) = 5 ^ k /\
    Zsum tab = n /\
    forall c, 0 <= c < 5 ^ k -> aget 0 tab c = windows_with seq k c n).
  apply (fold_left_upto_ind P); subst P; cbv beta; [lia | |].
  - assert (Hp : 0 < 5 ^ k) by (apply Z.pow_pos_nonneg; lia).
    unfold zeros. rewrite length_replicate, pow5_spec by lia.
    split; [lia |]. split; [apply Zsum_replicate_0 |].
    intros c Hc. unfold aget. destruct (Z.ltb_spec c 0); [lia |].
    rewrite nth_lookup, lookup_replicate_2 by lia. unfold windows_with.
    change (upto 0 0) with (@nil Z). reflexivity.
  - intros i tab Hi (Hl & Hs & Hc). cbv zeta.
    pose proof (chars2kmer_range seq k i ltac:(lia)) as Hr.
    set (km := chars2kmer seq k i) in *.
    pose proof (windows_with_le seq k km i ltac:(lia)) as Hle.
    rewrite (Hc km Hr).
    rewrite u64_small by lia.
    split; [by rewrite length_aset |]. split.
    + rewrite Zsum_aset by lia. rewrite (Hc km Hr). lia.
    + intros c Hcr. rewrite aget_aset by lia.
      rewrite windows_with_succ by lia. fold km.
      destruct (Z.eqb_spec km c) as [-> | Hne]; [reflexivity |].
      rewrite Hc by lia. lia.
Qed.

(** X2: on a zeroed table of [5^k] entries, [count_kmers] leaves in the
    cell of every index the number of windows of the sequence with that
    index; the counts add up to the number of windows, [size - k + 1]. *)
Theorem count_kmers_counts_windows (seq : list Z) (size k : Z) :
  0 <= k <= 22 -> k <= size + 1 -> size < 2 ^ 63 ->
  let tab := count_kmers seq size (zeros (pow5 k)) k in
  Z.of_nat (List.length tab) = 5 ^ k /\
  Zsum tab = size - k + 1 /\
  forall c, 0 <= c < 5 ^ k ->
    aget 0 tab c = windows_with seq k c (size - k + 1).
Proof.
  intros Hk Hks Hsz. unfold count_kmers.
  rewrite (u64_small (size - k + 1)) by lia.
  apply count_kmers_loop; lia.
Qed.

(** ACGACG has four windows of length 3: ACG twice, CGA and GAC. *)
Lemma count_kmers_counts_windows_witness :
  Zsum (count_kmers (bytes_of "ACGACG") 6 (zeros (pow5 3)) 3) = 6 - 3 + 1
  /\ aget 0 (count_kmers (bytes_of "ACGACG") 6 (zeros (pow5 3)) 3) 7 = 2.
Proof.
  destruct (count_kmers_counts_windows (bytes_of "ACGACG") 6 3)
    as (_ & Hs & Hc); [lia | lia | lia |].
  split; [exact Hs |]. rewrite Hc by lia. vm_compute. reflexivity.
Defined.

(** X3: [cumsum_and_pick_next_letter] on a row of counts that is not empty
    returns a letter of the row whose count is positive, whatever the draw,
    and consumes exactly one draw. *)
Theorem cumsum_pick_has_count (kmers : list Z) (off : Z) (g : krng_t) :
  (forall j, 0 <= j < 5 -> 0 <= aget 0 kmers (off + j) < 2 ^ 60) ->
  0 < aget 0 kmers off + aget 0 kmers (off + 1) + aget 0 kmers (off + 2)
      + aget 0 kmers (off + 3) + aget 0 kmers (off + 4) ->
  let c := fst (cumsum_and_pick_next_letter kmers off g) in
  0 <= c <= 4 /\ 0 < aget 0 kmers (off + c) /\
  snd (cumsum_and_pick_next_letter kmers off g)
  = mk_krng (kr_draws g) (S (kr_pos g)).
Proof.
  intros Hb Hpos. unfold cumsum_and_pick_next_letter, kr_rand_r.
  pose proof (Hb 0 ltac:(lia)) as H0. rewrite Z.add_0_r in H0.
  pose proof (Hb 1 ltac:(lia)) as H1. pose proof (Hb 2 ltac:(lia)) as H2.
  pose proof (Hb 3 ltac:(lia)) as H3. pose proof (Hb 4 ltac:(lia)) as H4.
  set (k0 := aget 0 kmers off) in *.
  set (c1 := aget 0 kmers (off + 1)) in *.
  set (c2 := aget 0 kmers (off + 2)) in *.
  set (c3 := aget 0 kmers (off + 3)) in *.
  set (c4 := aget 0 kmers (off + 4)) in *.
  rewrite (u64_small (k0 + c1)) by lia.
  rewrite (u64_small (k0 + c1 + c2)) by lia.
  rewrite (u64_small (k0 + c1 + c2 + c3)) by lia.
  rewrite (u64_small (k0 + c1 + c2 + c3 + c4)) by lia.
  set (x := u64 (kr_draws g (kr_pos g))).
  assert (Hr : 0 <= x mod (k0 + c1 + c2 + c3 + c4) < k0 + c1 + c2 + c3 + c4)
    by (apply Z.mod_pos_bound; lia).
  set (r := x mod (k0 + c1 + c2 + c3 + c4)) in *.
  cbn [fst snd].
  destruct (Z.ltb_spec r k0);
    [rewrite Z.add_0_r; fold k0; repeat split; lia |].
  destruct (Z.ltb_spec r (k0 + c1)); [fold c1; repeat split; lia |].
  destruct (Z.ltb_spec r (k0 + c1 + c2)); [fold c2; repeat split; lia |].
  destruct (Z.ltb_spec r (k0 + c1 + c2 + c3)); [fold c3; repeat split; lia |].
  fold c4. repeat split; lia.
Qed.

(** The row 0, 2, 0, 1, 0 (two C and one T): C or T is picked. *)
Lemma cumsum_pick_has_count_witness :
  let g := mk_krng (fun n => Z.of_nat n * 7919 + 5) 0 in
  0 < aget 0 [0; 2; 0; 1; 0]
        (0 + fst (cumsum_and_pick_next_letter [0; 2; 0; 1; 0] 0 g)).
Proof.
  intros g.
  apply (cumsum_pick_has_count [0; 2; 0; 1; 0] 0 g).
  - intros j Hj.
    assert (j = 0 \/ j = 1 \/ j = 2 \/ j = 3 \/ j = 4)
      as [-> | [-> | [-> | [-> | ->]]]] by lia; vm_compute; split; discriminate || reflexivity.
  - vm_compute. reflexivity.
Defined.

Lemma window_digits_ext (s s' : list Z) (k off : Z) :
  (forall j, 0 <= j < k -> aget 0 s (off + j) = aget 0 s' (off + j)) ->
  window_digits s k off = window_digits s' k off.
Proof.
  intros H. unfold window_digits. apply map_ext_in.
  intros j Hj. apply In_upto in Hj. rewrite H by lia. reflexivity.
Qed.

Lemma index_of_letter (is_dna : bool) (c : Z) :
  0 <= c <= 4 ->
  char2index (aget 0 (if is_dna then index2dna else index2rna) c) = c.
Proof.
  intros Hc.
  assert (c = 0 \/ c = 1 \/ c = 2 \/ c = 3 \/ c = 4)
    as [-> | [-> | [-> | [-> | ->]]]] by lia;
    destruct is_dna; reflexivity.
Qed.

(** The context index that [shuffle_markov] computes before it draws the
    letter of position [i]: five times the base-5 number of the [k - 1]
    letters before it. *)
Lemma markov_previous (s : list Z) (k i : Z) :
  1 <= k <= 22 -> k - 1 <= i < 2 ^ 63 ->
  fold_left
    (fun p j => u64 (p + char2index (aget 0 s (u64 (i - j))) * pow5 j))
    (rev (upto 1 k)) 0
  = 5 * horner (window_digits s (k - 1) (i - k + 1)).
Proof.
  intros Hk Hi.
  assert (H : forall (n : nat) (lo : Z), 1 <= lo <= k -> Z.of_nat n = k - lo ->
    fold_left
      (fun p j => u64 (p + char2index (aget 0 s (u64 (i - j))) * pow5 j))
      (rev (upto lo k)) 0
    = 5 ^ lo * horner (window_digits s (k - lo) (i - k + 1))).
  { induction n as [| n IH]; intros lo Hlo Hn.
    - assert (lo = k) by lia. subst lo. rewrite upto_nil by lia.
      rewrite Z.sub_diag. change (horner (window_digits s 0 (i - k + 1))) with 0.
      cbn [rev fold_left]. lia.
    - rewrite upto_cons by lia. cbn [rev]. rewrite fold_left_app.
      cbn [fold_left]. rewrite (IH (lo + 1)) by lia.
      replace (k - lo) with (k - (lo + 1) + 1) by lia.
      rewrite window_digits_snoc, horner_snoc by lia.
      replace (i - k + 1 + (k - (lo + 1))) with (i - lo) by lia.
      rewrite (u64_small (i - lo)) by lia. rewrite pow5_spec by lia.
      set (h := horner (window_digits s (k - (lo + 1)) (i - k + 1))).
      set (d := char2index (aget 0 s (i - lo))).
      assert (Hh : 0 <= h < 5 ^ (k - (lo + 1))).
      { pose proof (horner_range _
          (window_digits_range s (k - (lo + 1)) (i - k + 1))) as H.
        rewrite length_window_digits in H.
        rewrite Z2Nat.id in H by lia. exact H. }
      assert (Hd : 0 <= d <= 4) by apply char2index_range.
      rewrite (Z.pow_add_r 5 lo 1) by lia. change (5 ^ 1) with 5.
      replace (5 ^ lo * 5 * h + d * 5 ^ lo) with (5 ^ lo * (5 * h + d)) by ring.
      assert (Hp : 0 < 5 ^ lo) by (apply Z.pow_pos_nonneg; lia).
      assert (Hb : 5 ^ lo * (5 * h + d) < 5 ^ k).
      { assert (E : 5 ^ k = 5 ^ lo * (5 * 5 ^ (k - (lo + 1)))).
        { rewrite <- Z.pow_succ_r by lia. rewrite <- Z.pow_add_r by lia.
          f_equal. lia. }
        rewrite E. apply Z.mul_lt_mono_pos_l; lia. }
      assert (H22 : 5 ^ k <= 5 ^ 22) by (apply Z.pow_le_mono_r; lia).
      assert (5 ^ 22 < 2 ^ 64) by (vm_compute; reflexivity).
      apply u64_small. split; [nia | lia]. }
  rewrite (H (Z.to_nat (k - 1)) 1) by lia. change (5 ^ 1) with 5. reflexivity.
Qed.

(** [pick_next_letter] on a cumulated row: a letter with a positive count,
    or one of the four bases when the whole row is empty. *)
Lemma pick_next_letter_spec (tab : list Z) (off : Z) (g : krng_t)
  (o0 o1 o2 o3 o4 : Z) :
  0 <= o0 -> 0 <= o1 -> 0 <= o2 -> 0 <= o3 -> 0 <= o4 ->
  aget 0 tab off = o0 -> aget 0 tab (off + 1) = o0 + o1 ->
  aget 0 tab (off + 2) = o0 + o1 + o2 ->
  aget 0 tab (off + 3) = o0 + o1 + o2 + o3 ->
  aget 0 tab (off + 4) = o0 + o1 + o2 + o3 + o4 ->
  let c := fst (pick_next_letter tab off g) in
  0 <= c <= 4 /\
  (0 < aget 0 [o0; o1; o2; o3; o4] c
   \/ (c <= 3 /\ o0 = 0 /\ o1 = 0 /\ o2 = 0 /\ o3 = 0 /\ o4 = 0)).
Proof.
  intros H0 H1 H2 H3 H4 E0 E1 E2 E3 E4. unfold pick_next_letter, kr_rand_r.
  rewrite E0, E1, E2, E3, E4.
  set (x := u64 (kr_draws g (kr_pos g))).
  destruct (Z.eqb_spec (o0 + o1 + o2 + o3 + o4) 0) as [Ez | Enz]; cbn [fst].
  - assert (Hx : 0 <= x mod 4 < 4) by (apply Z.mod_pos_bound; lia).
    split; [lia |]. right. lia.
  - assert (Hr : 0 <= x mod (o0 + o1 + o2 + o3 + o4) < o0 + o1 + o2 + o3 + o4)
      by (apply Z.mod_pos_bound; lia).
    set (r := x mod (o0 + o1 + o2 + o3 + o4)) in *.
    destruct (Z.ltb_spec r o0);
      [cbn [fst]; split; [lia | left; change (0 < o0); lia] |].
    destruct (Z.ltb_spec r (o0 + o1));
      [cbn [fst]; split; [lia | left; change (0 < o1); lia] |].
    destruct (Z.ltb_spec r (o0 + o1 + o2));
      [cbn [fst]; split; [lia | left; change (0 < o2); lia] |].
    destruct (Z.ltb_spec r (o0 + o1 + o2 + o3));
      [cbn [fst]; split; [lia | left; change (0 < o3); lia] |].
    cbn [fst]. split; [lia | left; change (0 < o4); lia].
Qed.

Lemma chars2kmer_ext (s s' : list Z) (k off : Z) :
  0 <= k <= 22 ->
  (forall j, 0 <= j < k -> aget 0 s (off + j) = aget 0 s' (off + j)) ->
  chars2kmer s k off = chars2kmer s' k off.
Proof.
  intros Hk H. rewrite !chars2kmer_horner by lia.
  f_equal. apply window_digits_ext. exact H.
Qed.

(** What [shuffle_markov] leaves, for any table of counts: the length, the
    first [k - 1] letters, and for every later position a k-mer with a
    positive count, or a context whose whole row is empty. *)
Lemma shuffle_markov_spec (seq orig : list Z) (k : Z) (is_dna : bool)
  (g : krng_t) :
  let size := Z.of_nat (List.length seq) in
  1 <= k <= 22 -> k - 1 <= size -> size < 2 ^ 63 ->
  Z.of_nat (List.length orig) = 5 ^ k ->
  (forall c, 0 <= c < 5 ^ k -> 0 <= aget 0 orig c < 2 ^ 60) ->
  let out := fst (shuffle_markov seq size k orig is_dna g) in
  let index2xna := if is_dna then index2dna else index2rna in
  List.length out = List.length seq /\
  (forall p, 0 <= p < k - 1 ->
     aget 0 out p = aget 0 index2xna (char2index (aget 0 seq p))) /\
  forall p, k - 1 <= p < size ->
    let km := chars2kmer out k (p - k + 1) in
    0 < aget 0 orig km
    \/ (km mod 5 <= 3
        /\ forall c, 0 <= c < 5 -> aget 0 orig (km - km mod 5 + c) = 0).
Proof.
  intros size Hk Hks Hsz Hlen Hb out index2xna. subst out.
  unfold shuffle_markov. cbv zeta. fold index2xna.
  assert (E5 : 5 ^ k = 5 * 5 ^ (k - 1)).
  { rewrite <- Z.pow_succ_r by lia. f_equal. lia. }
  assert (Hp1 : 0 < 5 ^ (k - 1)) by (apply Z.pow_pos_nonneg; lia).
  assert (Erows : (pow5 k + 4) / 5 = 5 ^ (k - 1)).
  { rewrite pow5_spec, E5 by lia. symmetry. apply Z.div_unique with 4; lia. }
  rewrite Erows. rewrite (u64_small (k - 1)) by lia.
  (* the cumulated table *)
  match goal with
  | |- context [fold_left ?f (upto 0 (5 ^ (k - 1))) orig] =>
      set (tab := fold_left f (upto 0 (5 ^ (k - 1))) orig)
  end.
  assert (Htab : forall r, 0 <= r < 5 ^ (k - 1) ->
            aget 0 tab (5 * r) = aget 0 orig (5 * r) /\
            aget 0 tab (5 * r + 1)
            = aget 0 orig (5 * r) + aget 0 orig (5 * r + 1) /\
            aget 0 tab (5 * r + 2)
            = aget 0 orig (5 * r) + aget 0 orig (5 * r + 1)
              + aget 0 orig (5 * r + 2) /\
            aget 0 tab (5 * r + 3)
            = aget 0 orig (5 * r) + aget 0 orig (5 * r + 1)
              + aget 0 orig (5 * r + 2) + aget 0 orig (5 * r + 3) /\
            aget 0 tab (5 * r + 4)
            = aget 0 orig (5 * r) + aget 0 orig (5 * r + 1)
              + aget 0 orig (5 * r + 2) + aget 0 orig (5 * r + 3)
              + aget 0 orig (5 * r + 4)).
  { pose (P := fun (R : Z) (t : list Z) =>
      List.length t = List.length orig /\
      (forall p, 5 * R <= p -> aget 0 t p = aget 0 orig p) /\
      forall r, 0 <= r < R ->
        aget 0 t (5 * r) = aget 0 orig (5 * r) /\
        aget 0 t (5 * r + 1)
        = aget 0 orig (5 * r) + aget 0 orig (5 * r + 1) /\
        aget 0 t (5 * r + 2)
        = aget 0 orig (5 * r) + aget 0 orig (5 * r + 1)
          + aget 0 orig (5 * r + 2) /\
        aget 0 t (5 * r + 3)
        = aget 0 orig (5 * r) + aget 0 orig (5 * r + 1)
          + aget 0 orig (5 * r + 2) + aget 0 orig (5 * r + 3) /\
        aget 0 t (5 * r + 4)
        = aget 0 orig (5 * r) + aget 0 orig (5 * r + 1)
          + aget 0 orig (5 * r + 2) + aget 0 orig (5 * r + 3)
          + aget 0 orig (5 * r + 4)).
    assert (HP : P (5 ^ (k - 1)) tab).
    { subst tab. apply (fold_left_upto_ind P); subst P; cbv beta; [lia | |].
      - split; [reflexivity |]. split; [reflexivity | intros r Hr; lia].
      - intros row t Hrow (Hl & Hrest & Hdone).
        pose proof (Hb (5 * row) ltac:(lia)) as B0.
        pose proof (Hb (5 * row + 1) ltac:(lia)) as B1.
        pose proof (Hb (5 * row + 2) ltac:(lia)) as B2.
        pose proof (Hb (5 * row + 3) ltac:(lia)) as B3.
        pose proof (Hb (5 * row + 4) ltac:(lia)) as B4.
        assert (Hlt : Z.of_nat (List.length t) = 5 ^ k) by (rewrite Hl; exact Hlen).
        rewrite !aget_aset by (rewrite ?length_aset; lia).
        repeat match goal with
               | |- context [(?x =? ?y)] =>
                   destruct (Z.eqb_spec x y); try lia
               end.
        rewrite !Hrest by lia.
        rewrite (u64_small (aget 0 orig (5 * row + 1) + aget 0 orig (5 * row)))
          by lia.
        rewrite (u64_small (aget 0 orig (5 * row + 2)
                            + (aget 0 orig (5 * row + 1) + aget 0 orig (5 * row))))
          by lia.
        rewrite (u64_small (aget 0 orig (5 * row + 3)
                            + (aget 0 orig (5 * row + 2)
                               + (aget 0 orig (5 * row + 1)
                                  + aget 0 orig (5 * row)))))
          by lia.
        rewrite (u64_small (aget 0 orig (5 * row + 4)
                            + (aget 0 orig (5 * row + 3)
                               + (aget 0 orig (5 * row + 2)
                                  + (aget 0 orig (5 * row + 1)
                                     + aget 0 orig (5 * row))))))
          by lia.
        split; [by rewrite !length_aset |]. split.
        + intros p Hp. rewrite !aget_aset by (rewrite ?length_aset; lia).
          repeat match goal with
                 | |- context [(?x =? ?y)] =>
                     destruct (Z.eqb_spec x y); try lia
                 end.
          apply Hrest. lia.
        + intros r Hr. rewrite !aget_aset by (rewrite ?length_aset; lia).
          destruct (Z.eq_dec r row) as [-> | Hne].
          * repeat match goal with
                   | |- context [(?x =? ?y)] =>
                       destruct (Z.eqb_spec x y); try lia
                   end.
            rewrite !Hrest by lia. repeat split; lia.
          * repeat match goal with
                   | |- context [(?x =? ?y)] =>
                       destruct (Z.eqb_spec x y); try lia
                   end.
            apply Hdone. lia. }
    destruct HP as (_ & _ & HP). exact HP. }
  clearbody tab.
  (* the canonical first letters *)
  match goal with
  | |- context [fold_left ?f (upto 0 (k - 1)) seq] =>
      set (seq1 := fold_left f (upto 0 (k - 1)) seq)
  end.
  assert (Hseq1 : List.length seq1 = List.length seq /\
            forall p, 0 <= p < k - 1 ->
              aget 0 seq1 p = aget 0 index2xna (char2index (aget 0 seq p))).
  { pose (P := fun (j : Z) (s : list Z) =>
      List.length s = List.length seq /\
      (forall p, j <= p -> aget 0 s p = aget 0 seq p) /\
      forall p, 0 <= p < j ->
        aget 0 s p = aget 0 index2xna (char2index (aget 0 seq p))).
    assert (HP : P (k - 1) seq1).
    { subst seq1. apply (fold_left_upto_ind P); subst P; cbv beta; [lia | |].
      - split; [reflexivity |]. split; [reflexivity | intros p Hp; lia].
      - intros j s Hj (Hl & Hrest & Hdone).
        split; [by rewrite length_aset |]. split.
        + intros p Hp. rewrite aget_aset_ne by lia. apply Hrest. lia.
        + intros p Hp. destruct (Z.eq_dec p j) as [-> | Hne].
          * rewrite aget_aset_eq by (rewrite Hl; subst size; lia).
            rewrite Hrest by lia. reflexivity.
          * rewrite aget_aset_ne by lia. apply Hdone. lia. }
    destruct HP as (Hl & _ & HP). split; assumption. }
  clearbody seq1. destruct Hseq1 as (Hl1 & Hpre).
  (* the letters drawn *)
  pose (Good := fun (s : list Z) (p : Z) =>
    let km := chars2kmer s k (p - k + 1) in
    0 < aget 0 orig km
    \/ (km mod 5 <= 3
        /\ forall c, 0 <= c < 5 -> aget 0 orig (km - km mod 5 + c) = 0)).
  pose (P := fun (i : Z) (st : list Z * krng_t) =>
    List.length (fst st) = List.length seq /\
    (forall p, 0 <= p < k - 1 ->
       aget 0 (fst st) p
       = aget 0 index2xna (char2index (aget 0 seq p))) /\
    forall p, k - 1 <= p < i -> Good (fst st) p).
  match goal with
  | |- context [fold_left ?f (upto (k - 1) size) (seq1, g)] =>
      set (stepf := f)
  end.
  assert (HP : P size (fold_left stepf (upto (k - 1) size) (seq1, g))).
  { apply (fold_left_upto_ind P); subst P; cbv beta; [lia | |].
    - cbn [fst]. split; [exact Hl1 |]. split; [exact Hpre |]. intros p Hp. lia.
    - intros i [s g0] Hi (Hl & Hpref & Hgood). cbn [fst] in Hl, Hpref, Hgood.
      subst stepf. cbv beta iota.
      rewrite (markov_previous s k i) by lia.
      set (H := horner (window_digits s (k - 1) (i - k + 1))).
      assert (HH : 0 <= H < 5 ^ (k - 1)).
      { pose proof (horner_range _
          (window_digits_range s (k - 1) (i - k + 1))) as HR.
        rewrite length_window_digits in HR.
        rewrite Z2Nat.id in HR by lia. exact HR. }
      destruct (Htab H HH) as (T0 & T1 & T2 & T3 & T4).
      pose proof (Hb (5 * H) ltac:(lia)) as B0.
      pose proof (Hb (5 * H + 1) ltac:(lia)) as B1.
      pose proof (Hb (5 * H + 2) ltac:(lia)) as B2.
      pose proof (Hb (5 * H + 3) ltac:(lia)) as B3.
      pose proof (Hb (5 * H + 4) ltac:(lia)) as B4.
      destruct (pick_next_letter_spec tab (5 * H) g0
                  (aget 0 orig (5 * H)) (aget 0 orig (5 * H + 1))
                  (aget 0 orig (5 * H + 2)) (aget 0 orig (5 * H + 3))
                  (aget 0 orig (5 * H + 4)))
        as (Hc & Hpick); try lia; try assumption.
      destruct (pick_next_letter tab (5 * H) g0) as [c g1]. cbn [fst] in *.
      assert (Ekm : chars2kmer (aset s i (aget 0 index2xna c)) k (i - k + 1)
                    = 5 * H + c).
      { rewrite chars2kmer_horner by lia.
        replace k with (k - 1 + 1) at 1 by lia.
        rewrite window_digits_snoc, horner_snoc by lia.
        replace (i - k + 1 + (k - 1)) with i by lia.
        rewrite aget_aset_eq by (rewrite Hl; subst size; lia).
        subst index2xna. rewrite index_of_letter by lia.
        f_equal. f_equal. subst H. f_equal.
        apply window_digits_ext. intros j Hj.
        apply aget_aset_ne. lia. }
      split; [by rewrite length_aset |]. split.
      + intros p Hp. rewrite aget_aset_ne by lia. apply Hpref. exact Hp.
      + intros p Hp. destruct (Z.eq_dec p i) as [-> | Hne].
        * unfold Good. cbv zeta. rewrite Ekm.
          replace ((5 * H + c) mod 5) with c
            by (apply Z.mod_unique with H; lia).
          destruct Hpick as [Hpos | (Hc3 & Z0 & Z1 & Z2 & Z3 & Z4)].
          -- left.
             assert (c = 0 \/ c = 1 \/ c = 2 \/ c = 3 \/ c = 4)
               as [-> | [-> | [-> | [-> | ->]]]] by lia;
               [rewrite Z.add_0_r | | | |]; exact Hpos.
          -- right. split; [exact Hc3 |]. intros c' Hc'.
             replace (5 * H + c - c + c') with (5 * H + c') by lia.
             assert (c' = 0 \/ c' = 1 \/ c' = 2 \/ c' = 3 \/ c' = 4)
               as [-> | [-> | [-> | [-> | ->]]]] by lia;
               [rewrite Z.add_0_r | | | |]; assumption.
        * assert (Hold : Good s p) by (apply Hgood; lia).
          unfold Good in *. cbv zeta in *.
          rewrite (chars2kmer_ext (aset s i (aget 0 index2xna c)) s k
                     (p - k + 1)); [exact Hold | lia |].
          intros j Hj. apply aget_aset_ne. lia. }
  destruct HP as (HPl & HPp & HPg).
  split; [exact HPl |]. split; [exact HPp |].
  intros p Hp. exact (HPg p Hp).
Qed.

(** X4: the Markov mode as [main] runs it ([count_kmers] on a zeroed table,
    then [shuffle_markov]) keeps the length and the first [k - 1] letters
    (in upper case), and every k-mer of the output occurs in the input,
    unless the [k - 1] letters before a position never occur in the input
    with a letter after them: then one of the four bases is written. *)
Theorem markov_round_uses_input_kmers (seq : list Z) (k : Z) (is_dna : bool)
  (g : krng_t) :
  let size := Z.of_nat (List.length seq) in
  1 <= k <= 22 -> k - 1 <= size -> size < 2 ^ 60 ->
  let out := fst (markov_round seq size k is_dna g) in
  let index2xna := if is_dna then index2dna else index2rna in
  let occurs km := windows_with seq k km (size - k + 1) in
  List.length out = List.length seq /\
  (forall p, 0 <= p < k - 1 ->
     aget 0 out p = aget 0 index2xna (char2index (aget 0 seq p))) /\
  forall p, k - 1 <= p < size ->
    let km := chars2kmer out k (p - k + 1) in
    0 < occurs km
    \/ (km mod 5 <= 3
        /\ forall c, 0 <= c < 5 -> occurs (km - km mod 5 + c) = 0).
Proof.
  intros size Hk Hks Hsz out index2xna occurs. subst out.
  unfold markov_round, count_kmers.
  rewrite (u64_small (size - k + 1)) by lia.
  destruct (count_kmers_loop seq k (size - k + 1)) as (Hlen & _ & Hcells);
    [lia | lia |]. cbv zeta in Hlen, Hcells.
  match type of Hlen with
  | Z.of_nat (List.length ?t) = _ => set (orig := t) in *
  end.
  destruct (shuffle_markov_spec seq orig k is_dna g) as (Hl & Hpre & Hgood);
    [lia | fold size; lia | fold size; lia | exact Hlen | |].
  { intros c Hc. rewrite (Hcells c Hc).
    pose proof (windows_with_le seq k c (size - k + 1) ltac:(lia)). lia. }
  fold size in Hl, Hpre, Hgood. fold index2xna in Hpre.
  split; [exact Hl |]. split; [exact Hpre |].
  intros p Hp. specialize (Hgood p Hp). cbv zeta in Hgood |- *.
  set (out := fst (shuffle_markov seq size k orig is_dna g)) in *.
  pose proof (chars2kmer_range out k (p - k + 1) ltac:(lia)) as Hr.
  set (km := chars2kmer out k (p - k + 1)) in *.
  assert (E5 : 5 ^ k = 5 * 5 ^ (k - 1)).
  { rewrite <- Z.pow_succ_r by lia. f_equal. lia. }
  subst occurs. cbv beta.
  destruct Hgood as [Hpos | (H3 & Hz)].
  - left. rewrite <- (Hcells km Hr). exact Hpos.
  - right. split; [exact H3 |]. intros c Hc.
    rewrite <- Hcells; [apply Hz; exact Hc |].
    pose proof (Z.mod_pos_bound km 5 ltac:(lia)).
    pose proof (Z.div_mod km 5 ltac:(lia)). nia.
Qed.

(** ACGACGT with k = 2: every 2-mer of the output is one of AC, CG, GA,
    GT, or follows a T. *)
Lemma markov_round_uses_input_kmers_witness :
  let seq := bytes_of "ACGACGT" in
  let g := mk_krng (fun n => Z.of_nat n * 7919 + 5) 0 in
  let out := fst (markov_round seq 7 2 true g) in
  List.length out = 7%nat /\
  forall p, 1 <= p < 7 ->
    let km := chars2kmer out 2 (p - 2 + 1) in
    0 < windows_with seq 2 km (7 - 2 + 1)
    \/ (km mod 5 <= 3
        /\ forall c, 0 <= c < 5 ->
             windows_with seq 2 (km - km mod 5 + c) (7 - 2 + 1) = 0).
Proof.
  intros seq g out.
  destruct (markov_round_uses_input_kmers seq 2 true g) as (Hl & _ & Hk);
    [lia | vm_compute; discriminate | vm_compute; reflexivity |].
  split; [exact Hl | exact Hk].
Defined.

End Kmers.

(** ** The linear shuffle (yamshuf.c) *)
Section LinearShuffle.
Import Yamshuf.

Lemma aget_swap (s : list Z) (x y p : Z) :
  0 <= x < Z.of_nat (List.length s) -> 0 <= y < Z.of_nat (List.length s) ->
  aget 0 (swap s x y) p
  = if y =? p then aget 0 s x else if x =? p then aget 0 s y else aget 0 s p.
Proof.
  intros Hx Hy. unfold swap.
  rewrite !aget_aset by (rewrite ?length_aset; lia). reflexivity.
Qed.

(** [swap_k] exchanges two blocks of [k] characters that do not overlap. *)
Lemma swap_k_spec (s : list Z) (i j k : Z) :
  0 <= i -> 0 <= k -> i + k <= j -> j + k <= Z.of_nat (List.length s) ->
  j + k < 2 ^ 64 ->
  List.length (swap_k s i j k) = List.length s /\
  swap_k s i j k ≡ₚ s /\
  forall p,
    aget 0 (swap_k s i j k) p
    = if (i <=? p) && (p <? i + k) then aget 0 s (p - i + j)
      else if (j <=? p) && (p <? j + k) then aget 0 s (p - j + i)
      else aget 0 s p.
Proof.
  intros Hi Hk Hij Hj H64. unfold swap_k.
  pose (P := fun (a : Z) (s' : list Z) =>
    List.length s' = List.length s /\ s' ≡ₚ s /\
    forall p,
      aget 0 s' p
      = if (i <=? p) && (p <? i + a) then aget 0 s (p - i + j)
        else if (j <=? p) && (p <? j + a) then aget 0 s (p - j + i)
        else aget 0 s p).
  assert (HP : P k
    (fold_left (fun s0 a => swap s0 (u64 (i + a)) (u64 (j + a))) (upto 0 k) s)).
  { apply (fold_left_upto_ind P); subst P; cbv beta; [lia | |].
    - split; [reflexivity |]. split; [reflexivity |]. intros p.
      destruct (Z.leb_spec i p), (Z.ltb_spec p (i + 0)),
        (Z.leb_spec j p), (Z.ltb_spec p (j + 0)); cbn [andb]; try lia;
        reflexivity.
    - intros a s' Ha (Hl & Hperm & Hp).
      rewrite !u64_small by lia.
      split; [rewrite length_swap; exact Hl |]. split.
      + rewrite swap_Permutation by lia. exact Hperm.
      + intros p. rewrite aget_swap by lia. rewrite !Hp.
        repeat match goal with
               | |- context [(?x =? ?y)] => destruct (Z.eqb_spec x y)
               | |- context [(?x <=? ?y)] => destruct (Z.leb_spec x y)
               | |- context [(?x <? ?y)] => destruct (Z.ltb_spec x y)
               end; cbn [andb]; try lia; try (f_equal; lia). }
  exact HP.
Qed.

Section Loop.
Variables (seq : list Z) (k : Z).
Let size := Z.of_nat (List.length seq).
Hypothesis Hk : 1 <= k.
Hypothesis Hsize : 2 * k <= size < 2 ^ 63.

(** What the loop keeps: the characters, the blocks of [k] characters as
    units, and the characters after the last whole block. *)
Definition linear_inv (s : list Z) : Prop :=
  List.length s = List.length seq /\
  s ≡ₚ seq /\
  (forall p, k * (size / k) <= p -> aget 0 s p = aget 0 seq p) /\
  forall t, 0 <= t < size / k ->
    exists t', 0 <= t' < size / k /\
      forall a, 0 <= a < k -> aget 0 s (k * t + a) = aget 0 seq (k * t' + a).

Lemma linear_inv_init : linear_inv seq.
Proof.
  split; [reflexivity |]. split; [reflexivity |]. split; [reflexivity |].
  intros t Ht. exists t. split; [exact Ht | reflexivity].
Qed.

Lemma block_apart (t u : Z) : t < u -> k * t + k <= k * u.
Proof. clear Hsize. intros H. nia. Qed.

Lemma linear_inv_swap (s : list Z) (ti tj : Z) :
  linear_inv s -> 0 <= ti -> ti < tj -> k * tj + k <= size ->
  linear_inv (swap_k s (k * ti) (k * tj) k).
Proof.
  intros (Hl & Hperm & Htail & Hblocks) Hti Htij Htj.
  assert (Hdiv : tj < size / k).
  { assert (tj + 1 <= size / k) by (apply Z.div_le_lower_bound; lia). lia. }
  assert (HT : k * (size / k) <= size) by (apply Z.mul_div_le; lia).
  assert (H0 : 0 <= k * ti) by nia.
  assert (H1 : k * ti + k <= k * tj) by (apply block_apart; exact Htij).
  assert (H2 : k * tj + k <= k * (size / k)) by nia.
  destruct (swap_k_spec s (k * ti) (k * tj) k) as (Hl' & Hperm' & Hp);
    [lia | lia | lia | rewrite Hl; fold size; lia | lia |].
  split; [rewrite Hl'; exact Hl |].
  split; [rewrite Hperm'; exact Hperm |]. split.
  - intros p Hp'. rewrite Hp.
    destruct (Z.leb_spec (k * ti) p), (Z.ltb_spec p (k * ti + k)),
      (Z.leb_spec (k * tj) p), (Z.ltb_spec p (k * tj + k)); cbn [andb];
      first [apply Htail; exact Hp' | exfalso; lia].
  - intros t Ht.
    destruct (Z.eq_dec t ti) as [-> | Hne1].
    + destruct (Hblocks tj ltac:(lia)) as (t' & Ht' & Hb).
      exists t'. split; [exact Ht' |]. intros a Ha. rewrite Hp.
      destruct (Z.leb_spec (k * ti) (k * ti + a)),
        (Z.ltb_spec (k * ti + a) (k * ti + k)); cbn [andb]; try lia.
      rewrite <- Hb by lia. f_equal. lia.
    + destruct (Z.eq_dec t tj) as [-> | Hne2].
      * destruct (Hblocks ti ltac:(lia)) as (t' & Ht' & Hb).
        exists t'. split; [exact Ht' |]. intros a Ha. rewrite Hp.
        destruct (Z.leb_spec (k * ti) (k * tj + a)),
          (Z.ltb_spec (k * tj + a) (k * ti + k)),
          (Z.leb_spec (k * tj) (k * tj + a)),
          (Z.ltb_spec (k * tj + a) (k * tj + k)); cbn [andb]; try lia.
        rewrite <- Hb by lia. f_equal. lia.
      * destruct (Hblocks t Ht) as (t' & Ht' & Hb).
        assert (H3 : k * t + k <= k * ti \/ k * ti + k <= k * t)
          by (destruct (Z.lt_total t ti) as [H | [H | H]];
              [left | contradiction | right]; apply block_apart; exact H).
        assert (H4 : k * t + k <= k * tj \/ k * tj + k <= k * t)
          by (destruct (Z.lt_total t tj) as [H | [H | H]];
              [left | contradiction | right]; apply block_apart; exact H).
        exists t'. split; [exact Ht' |]. intros a Ha. rewrite Hp.
        destruct (Z.leb_spec (k * ti) (k * t + a)),
          (Z.ltb_spec (k * t + a) (k * ti + k)),
          (Z.leb_spec (k * tj) (k * t + a)),
          (Z.ltb_spec (k * t + a) (k * tj + k)); cbn [andb];
          first [apply Hb; exact Ha | exfalso; lia].
Qed.

Lemma shuffle_linear_loop_inv (fuel : nat) (ti : Z) (s : list Z) (g : krng_t) :
  0 <= ti -> k * ti <= size -> linear_inv s ->
  linear_inv (fst (shuffle_linear_loop fuel (k * ti) size k s g)).
Proof.
  revert ti s g. induction fuel as [| fuel IH]; intros ti s g Hti Hle Hinv.
  - exact Hinv.
  - cbn [shuffle_linear_loop]. unfold kr_rand_r.
    rewrite (u64_small (size - 2 * k + 1)) by lia.
    destruct (Z.ltb_spec (k * ti) (size - 2 * k + 1)) as [Hlt | Hge];
      [| exact Hinv].
    rewrite (u64_small (size - 2 * k + 1 - k * ti)) by lia.
    set (x := u64 (kr_draws g (kr_pos g))).
    assert (Hr : 0 <= x mod (size - 2 * k + 1 - k * ti)
                 < size - 2 * k + 1 - k * ti)
      by (apply Z.mod_pos_bound; lia).
    set (r := x mod (size - 2 * k + 1 - k * ti)) in *.
    assert (Hq : 0 <= r / k) by (apply Z.div_pos; lia).
    assert (Er : r - r mod k = k * (r / k))
      by (rewrite Z.mod_eq by lia; lia).
    assert (Hrk : k * (r / k) <= r) by (apply Z.mul_div_le; lia).
    replace (k * ti + k + r - r mod k) with (k * (ti + 1 + r / k)) by lia.
    rewrite (u64_small (k * (ti + 1 + r / k))) by nia.
    replace (u64 (k * ti + k)) with (k * (ti + 1))
      by (rewrite u64_small by lia; lia).
    apply IH; [lia | lia |].
    apply linear_inv_swap; [exact Hinv | lia | lia | nia].
Qed.

(** The guard ends the loop before [size] rounds are used up. *)
Lemma shuffle_linear_loop_fuel (fuel fuel' : nat) (i : Z) (s : list Z)
  (g : krng_t) :
  0 <= i -> size - 2 * k + 1 <= i + Z.of_nat fuel -> (fuel <= fuel')%nat ->
  shuffle_linear_loop fuel' i size k s g = shuffle_linear_loop fuel i size k s g.
Proof.
  revert fuel' i s g. induction fuel as [| fuel IH]; intros fuel' i s g Hi Hf Hle.
  - destruct fuel' as [| fuel']; [reflexivity |].
    cbn [shuffle_linear_loop].
    rewrite (u64_small (size - 2 * k + 1)) by lia.
    destruct (Z.ltb_spec i (size - 2 * k + 1)); [lia | reflexivity].
  - destruct fuel' as [| fuel']; [lia |].
    cbn [shuffle_linear_loop].
    rewrite (u64_small (size - 2 * k + 1)) by lia.
    destruct (Z.ltb_spec i (size - 2 * k + 1)) as [Hlt | Hge]; [| reflexivity].
    destruct (kr_rand_r g) as [x g'].
    rewrite (u64_small (i + k)) by lia.
    apply IH; lia.
Qed.

End Loop.

(** X5: the linear shuffle returns a permutation of the input in which
    the blocks of [k] characters of the input (from the start of the
    sequence) are kept as units and the characters after the last whole
    block stay where they are; the [size] rounds the loop is given are never
    used up. *)
Theorem shuffle_linear_permutes_blocks (seq : list Z) (k : Z) (g : krng_t) :
  let size := Z.of_nat (List.length seq) in
  1 <= k -> 2 * k <= size < 2 ^ 63 ->
  let out := fst (shuffle_linear seq size k g) in
  out ≡ₚ seq /\
  (forall t, 0 <= t < size / k ->
     exists t', 0 <= t' < size / k /\
       forall a, 0 <= a < k ->
         aget 0 out (k * t + a) = aget 0 seq (k * t' + a)) /\
  (forall p, k * (size / k) <= p -> aget 0 out p = aget 0 seq p) /\
  forall fuel, (List.length seq <= fuel)%nat ->
    shuffle_linear_loop fuel 0 size k seq g = shuffle_linear seq size k g.
Proof.
  intros size Hk Hsize out. subst out. unfold shuffle_linear.
  destruct (shuffle_linear_loop_inv seq k Hk Hsize (Z.to_nat size) 0 seq g)
    as (_ & Hperm & Htail & Hblocks);
    [lia | fold size; lia | apply linear_inv_init |].
  rewrite Z.mul_0_r in Hperm, Htail, Hblocks. fold size in Hperm, Htail, Hblocks.
  split; [exact Hperm |]. split; [exact Hblocks |]. split; [exact Htail |].
  intros fuel Hfuel.
  apply (shuffle_linear_loop_fuel seq k Hk Hsize); subst size; lia.
Qed.

(** ACGTACGTAC in blocks of three: the tenth character stays. *)
Lemma shuffle_linear_permutes_blocks_witness :
  let seq := bytes_of "ACGTACGTAC" in
  let g := mk_krng (fun n => Z.of_nat n * 7919 + 5) 0 in
  fst (shuffle_linear seq 10 3 g) ≡ₚ seq /\
  aget 0 (fst (shuffle_linear seq 10 3 g)) 9 = aget 0 seq 9.
Proof.
  intros seq g.
  destruct (shuffle_linear_permutes_blocks seq 3 g) as (Hp & _ & Ht & _);
    [lia | vm_compute; split; [discriminate | reflexivity] |].
  split; [exact Hp |]. apply Ht. vm_compute. discriminate.
Defined.

End LinearShuffle.

(** ** Writing the records (yamshuf.c) *)
Section Output.
Import Yamshuf.

Lemma c_string_no_nul (s : list Z) :
  List.Forall (fun c => c <> 0) s -> c_string s = s.
Proof.
  induction 1 as [| c s Hc _ IH]; [reflexivity |].
  cbn [c_string]. destruct (Z.eqb_spec c 0); [lia |]. by rewrite IH.
Qed.

Lemma write_seq_lines_spec (seq : list Z) (fuel : nat) (t : Z) :
  let size := Z.of_nat (List.length seq) in
  List.Forall (fun c => c <> 0) seq -> size < 2 ^ 63 ->
  0 <= t -> size - 60 * t <= 60 * Z.of_nat fuel ->
  let lines := write_seq_lines fuel (60 * t) size seq in
  List.concat lines = drop (Z.to_nat (60 * t)) seq /\
  Z.of_nat (List.length lines) = Z.max 0 ((size - 60 * t + 59) / 60) /\
  forall j : nat,
    60 * (t + Z.of_nat j) < size ->
    lines !! j
    = Some (take 60 (drop (Z.to_nat (60 * (t + Z.of_nat j))) seq)).
Proof.
  intros size Hnul Hsz. revert t.
  induction fuel as [| fuel IH]; intros t Ht Hf; cbv zeta.
  - cbn [write_seq_lines List.concat List.length].
    split; [rewrite drop_ge by (subst size; lia); reflexivity |].
    split; [| intros j Hj; lia].
    assert ((size - 60 * t + 59) / 60 <= 0); [| lia].
    apply Z.lt_succ_r. apply Z.div_lt_upper_bound; lia.
  - cbn [write_seq_lines].
    destruct (Z.ltb_spec (60 * t) size) as [Hlt | Hge].
    + unfold FASTA_LINE_LEN.
      replace (u64 (60 * t + 60)) with (60 * (t + 1))
        by (rewrite u64_small by lia; lia).
      destruct (IH (t + 1)) as (Hc & Hl & Hj); [lia | lia |].
      cbv zeta in Hc, Hl, Hj.
      set (rest := write_seq_lines fuel (60 * (t + 1)) size seq) in *.
      unfold printf_prec.
      rewrite c_string_no_nul.
      2:{ apply Forall_drop. exact Hnul. }
      change (Z.to_nat 60) with 60%nat.
      split; [| split].
      * cbn [List.concat]. rewrite Hc.
        replace (Z.to_nat (60 * (t + 1))) with (Z.to_nat (60 * t) + 60)%nat
          by lia.
        rewrite <- drop_drop. apply take_drop.
      * cbn [List.length]. rewrite Nat2Z.inj_succ, Hl.
        replace (size - 60 * t + 59) with (size - 60 * (t + 1) + 59 + 1 * 60)
          by lia.
        rewrite Z.div_add by lia.
        assert (0 <= (size - 60 * (t + 1) + 59) / 60)
          by (apply Z.div_pos; lia).
        lia.
      * intros [| j] Hlt'.
        -- cbn [lookup list_lookup]. rewrite Z.add_0_r. reflexivity.
        -- cbn [lookup list_lookup].
           change (rest !! j
                   = Some (take 60
                             (drop (Z.to_nat (60 * (t + Z.of_nat (S j)))) seq))).
           replace (t + Z.of_nat (S j)) with (t + 1 + Z.of_nat j) by lia.
           apply Hj. lia.
    + cbn [List.concat List.length].
      split; [rewrite drop_ge by (subst size; lia); reflexivity |].
      split; [| intros j Hj; lia].
      assert ((size - 60 * t + 59) / 60 <= 0); [| lia].
      apply Z.lt_succ_r. apply Z.div_lt_upper_bound; lia.
Qed.

(** X6: [write_seq] prints the sequence in lines of 60 characters: the
    lines joined give the sequence back, there are [ceil(size / 60)] of them
    (none for an empty sequence), and line [j] holds the characters from
    offset [60 j] on, 60 of them except on the last line. *)
Theorem write_seq_round_trip (seq : list Z) (name comment : string)
  (comment_l n : Z) :
  let size := Z.of_nat (List.length seq) in
  List.Forall (fun c => c <> 0) seq -> size < 2 ^ 63 ->
  let lines := snd (write_seq seq size name comment comment_l n) in
  List.concat lines = seq /\
  Z.of_nat (List.length lines) = (size + 59) / 60 /\
  forall j : nat,
    60 * Z.of_nat j < size ->
    lines !! j = Some (take 60 (drop (60 * j)%nat seq)).
Proof.
  intros size Hnul Hsz lines. subst lines. unfold write_seq. cbn [snd].
  destruct (write_seq_lines_spec seq (Z.to_nat size) 0 Hnul Hsz)
    as (Hc & Hl & Hj); [lia | fold size; lia |].
  cbv zeta in Hc, Hl, Hj. fold size in Hc, Hl, Hj.
  change (60 * 0) with 0 in Hc, Hl, Hj.
  split; [exact Hc |]. split.
  - rewrite Hl, Z.sub_0_r.
    assert (0 <= (size + 59) / 60) by (apply Z.div_pos; lia). lia.
  - intros j Hlt. rewrite Hj by lia.
    do 3 f_equal. lia.
Qed.

(** A sequence of 61 characters is printed in two lines, of 60 and 1. *)
Lemma write_seq_round_trip_witness :
  let seq := replicate 60 65 ++ [67] in
  List.concat (snd (write_seq seq 61 "s" "" 0 0)) = seq
  /\ Z.of_nat (List.length (snd (write_seq seq 61 "s" "" 0 0))) = 2.
Proof.
  intros seq.
  destruct (write_seq_round_trip seq "s" "" 0 0) as (Hc & Hl & _).
  - apply Forall_app. split; [apply Forall_replicate; discriminate |].
    repeat constructor. discriminate.
  - vm_compute. reflexivity.
  - split; [exact Hc | exact Hl].
Defined.

End Output.

(** ** Repeated shuffles with k = 1 (yamshuf.c) *)
Section Repeats.
Import Yamshuf.

Lemma shuffle_fisher_yates_perm (s : list Z) (g : krng_t) :
  1 <= Z.of_nat (List.length s) < 2 ^ 63 ->
  fst (shuffle_fisher_yates s (Z.of_nat (List.length s)) g) ≡ₚ s.
Proof.
  intros Hl. unfold shuffle_fisher_yates.
  rewrite (u64_small (Z.of_nat (List.length s) - 1)) by lia.
  apply fisher_yates_loop_spec; lia.
Qed.

Lemma rep_loop_fisher_yates (seq : list Z) (r : kseq_t) (reps : nat) :
  1 <= Z.of_nat (List.length seq) < 2 ^ 63 ->
  forall (n0 : Z) (s : list Z) (g : krng_t),
    s ≡ₚ seq ->
    exists ws g',
      rep_loop
        (fun s g =>
           Some (shuffle_fisher_yates s (Z.of_nat (List.length seq)) g))
        reps n0 r s g = Some (ws, g') /\
      List.length ws = reps /\
      forall (i : nat) (w : written_t),
        ws !! i = Some w ->
        w_name w = ks_name r /\ w_comment w = ks_comment r /\
        w_n w = n0 + Z.of_nat i /\ w_seq w ≡ₚ seq.
Proof.
  intros Hlen. induction reps as [| reps IH]; intros n0 s g Hs.
  - exists [], g. split; [reflexivity |]. split; [reflexivity |].
    intros i w Hi. discriminate.
  - cbn [rep_loop].
    assert (El : List.length s = List.length seq)
      by (apply Permutation_length; exact Hs).
    pose proof (shuffle_fisher_yates_perm s g ltac:(rewrite El; lia)) as Hp.
    rewrite El in Hp.
    destruct (shuffle_fisher_yates s (Z.of_nat (List.length seq)) g)
      as [s' g1]. cbn [fst] in Hp.
    destruct (IH (n0 + 1) s' g1) as (ws & g' & Hr & Hl & Hw).
    { rewrite Hp. exact Hs. }
    rewrite Hr. eexists _, g'. split; [reflexivity |].
    split; [cbn [List.length]; by rewrite Hl |].
    intros [| i] w Hi.
    + cbn in Hi. inversion Hi; subst. cbn.
      repeat split; [lia | rewrite Hp; exact Hs].
    + cbn in Hi. destruct (Hw i w Hi) as (H1 & H2 & H3 & H4).
      repeat split; [exact H1 | exact H2 | lia | exact H4].
Qed.

(** X7: with [-k 1], whatever [-l] and [-m] say, a record of at least two
    characters is written [shuf_repeats + 1] times; the copies carry the
    name and the comment of the record and the numbers 0, 1, 2, ... (the
    number [write_seq] appends to the header when it is not 0), and each is
    a permutation of the input sequence.  Nothing is printed to stderr. *)
Theorem main_record_k1_repeats (fuel : nat) (a : args_t) (r : kseq_t)
  (o : out_t) :
  arg_k a = 1 ->
  2 <= Z.of_nat (List.length (ks_seq r)) < 2 ^ 63 ->
  0 <= shuf_repeats a < 2 ^ 31 - 1 ->
  exists ws g',
    main_record fuel a r o
    = Some (mk_out (o_written o ++ ws) (o_warnings o) (o_markov_warned o) g')
    /\ Z.of_nat (List.length ws) = shuf_repeats a + 1
    /\ forall (i : nat) (w : written_t),
         ws !! i = Some w ->
         w_name w = ks_name r /\ w_comment w = ks_comment r /\
         w_n w = Z.of_nat i /\ w_seq w ≡ₚ ks_seq r.
Proof.
  intros Hk Hlen Hreps. unfold main_record. cbv zeta. rewrite Hk.
  change (u64 (u64 1 * 2)) with 2.
  destruct (Z.ltb_spec (Z.of_nat (List.length (ks_seq r))) 2); [lia |].
  change (1 =? 1) with true. cbv iota.
  rewrite (s32_small (shuf_repeats a + 1)) by lia.
  destruct (rep_loop_fisher_yates (ks_seq r) r
              (Z.to_nat (shuf_repeats a + 1)) ltac:(lia) 0 (ks_seq r)
              (if reset_seed a then kr_srand_r (o_krng o) else o_krng o))
    as (ws & g' & Hr & Hl & Hw); [reflexivity |].
  rewrite Hr. exists ws, g'. split.
  - by rewrite app_nil_r.
  - split; [lia |]. intros i w Hi.
    destruct (Hw i w Hi) as (H1 & H2 & H3 & H4).
    repeat split; [exact H1 | exact H2 | lia | exact H4].
Qed.

(** ACGT with [-k 1 -n 2 -l]: three copies, numbered 0, 1, 2. *)
Lemma main_record_k1_repeats_witness :
  let a := mk_args 1 false false true false false 2 in
  let r := mk_kseq "s1" "" (bytes_of "ACGT") in
  let o := mk_out [] [] false (mk_krng (fun n => Z.of_nat n * 7919 + 5) 0) in
  exists ws g',
    main_record 0 a r o = Some (mk_out ws [] false g')
    /\ Z.of_nat (List.length ws) = 3.
Proof.
  intros a r o.
  destruct (main_record_k1_repeats 0%nat a r o) as (ws & g' & Hm & Hl & _);
    [reflexivity | vm_compute; split; [discriminate | reflexivity]
    | vm_compute; split; [discriminate | reflexivity] |].
  exists ws, g'. split; [exact Hm | exact Hl].
Defined.

End Repeats.

(** ** Scores, p-values and rows of the scan (yamscan.c) *)
Section ScanRows.
Import Yamscan.

Lemma scan_index_range (mask_on : bool) (c : Z) :
  0 <= (if mask_on then char2maskindex else char2index) c <= 4.
Proof.
  destruct mask_on; [unfold char2maskindex | unfold char2index];
    (apply (aget_Forall (fun x => 0 <= x <= 4)); [| lia]);
    apply List.Forall_forall; intros x Hx.
  - assert (H : forallb (fun x => (0 <=? x) && (x <=? 4)) char2maskindex_tab
                = true) by (vm_compute; reflexivity).
    rewrite forallb_forall in H. specialize (H x Hx). lia.
  - assert (H : forallb (fun x => (0 <=? x) && (x <=? 4)) char2index_tab
                = true) by (vm_compute; reflexivity).
    rewrite forallb_forall in H. specialize (H x Hx). lia.
Qed.

(** A sum of [n] integers between [lo] and [hi], taken in [int]s. *)
Lemma bounded_sum (f : Z -> Z) (n lo hi : Z) :
  0 <= n <= 50 -> - 20000 <= lo -> hi <= 20000 ->
  (forall i, 0 <= i < n -> lo <= f i <= hi) ->
  n * lo <= fold_left (fun score i => s32 (score + f i)) (upto 0 n) 0
    <= n * hi.
Proof.
  intros Hn Hlo Hhi Hf.
  apply (fold_left_upto_ind (fun i s => i * lo <= s <= i * hi)); [lia | lia |].
  intros i s Hi Hs. specialize (Hf i Hi).
  rewrite s32_small by nia. nia.
Qed.

(** X8: on a motif as [complete_motifs] leaves it, the score of a window
    without ambiguous letters lies between [cdf_offset] and
    [cdf_offset + cdf_size - 1] on both strands, so [score2pval] reads an
    entry of the array of [cdf_size] p-values. *)
Theorem window_score_in_cdf_range
  (a : args_t) (m : motif_t) (seq : list Z) (offset : Z) :
  0 < size m <= 50 ->
  List.length (pwm_rc m) = 250%nat ->
  (forall i j, 0 <= i < size m -> 0 <= j < 4 ->
     - 20000 <= get_score_i m j i <= 20000) ->
  0 <= offset < 2 ^ 63 ->
  let m' := complete_motif a m in
  let tab := if mask a then char2maskindex else char2index in
  (forall i, 0 <= i < size m -> tab (aget 0 seq (offset + i)) < 4) ->
  (0 <= score_subseq m' seq offset tab - cdf_offset m' < cdf_size m') /\
  (0 <= score_subseq_rev m' seq offset tab - cdf_offset m' < cdf_size m').
Proof.
  intros Hsz Hlen Hsc Hoff m' tab Hstd.
  destruct (complete_motif_ready a m ltac:(lia) Hlen Hsc)
    as (Hr & Esz & Epwm & Emin & Emax & Eoff & _).
  fold m' in Hr, Esz, Epwm, Emin, Emax, Eoff.
  destruct Hr as (_ & Ecm & Ecs & _ & Hmm & Hin).
  destruct (get_pwm_max_spec m 20000) as (Hmx & _);
    [lia | lia | intros i j Hi Hj; apply Hsc; assumption |].
  destruct (get_pwm_min_spec m (-20000)) as (Hmn & _);
    [lia | lia | intros i j Hi Hj; apply Hsc; assumption |].
  rewrite <- Emax in Hmx. rewrite <- Emin in Hmn.
  assert (Hl : forall i, 0 <= i < size m ->
            0 <= tab (aget 0 seq (u64 (i + offset))) < 4).
  { intros i Hi. rewrite u64_small by lia.
    replace (i + offset) with (offset + i) by lia.
    pose proof (scan_index_range (mask a) (aget 0 seq (offset + i))) as Hr.
    specialize (Hstd i Hi). subst tab. lia. }
  assert (Hidx : forall l i, 0 <= l < 4 -> 0 <= i < size m ->
            u64 (l + i * 5) = l + i * 5)
    by (intros l i Hl' Hi; apply u64_small; lia).
  destruct (fill_pwm_rc_spec m ltac:(lia) Hlen) as (_ & _ & Hrc).
  split.
  - pose proof (bounded_sum
      (fun i => get_score m' (aget 0 seq (u64 (i + offset))) i tab)
      (size m') (min m') (max m')) as Hb.
    unfold score_subseq. rewrite Esz in Hb |- *.
    destruct Hb as (Hb1 & Hb2); [lia | lia | lia | | rewrite Ecs, Ecm, Eoff, Esz; nia].
    intros i Hi. unfold get_score. specialize (Hl i Hi).
    apply (Hin i (tab (aget 0 seq (u64 (i + offset))))); [rewrite Esz |]; lia.
  - pose proof (bounded_sum
      (fun i => get_score_rc m' (aget 0 seq (u64 (i + offset))) i tab)
      (size m') (min m') (max m')) as Hb.
    unfold score_subseq_rev. rewrite Esz in Hb |- *.
    destruct Hb as (Hb1 & Hb2); [lia | lia | lia | | rewrite Ecs, Ecm, Eoff, Esz; nia].
    intros i Hi. unfold get_score_rc. specialize (Hl i Hi).
    rewrite Hidx by lia.
    change (pwm_rc m') with (pwm_rc (fill_pwm_rc m)).
    rewrite Hrc by lia.
    destruct (Z.ltb_spec (tab (aget 0 seq (u64 (i + offset)))) 4); [| lia].
    destruct (Z.ltb_spec i (size m)); [| lia]. cbn [andb].
    pose proof (Hin (size m - 1 - i)
                  (3 - tab (aget 0 seq (u64 (i + offset))))
                  ltac:(rewrite Esz; lia) ltac:(lia)) as Hc.
    unfold get_score_i in Hc. rewrite Epwm, Hidx in Hc by lia. exact Hc.
Qed.

(** The four-column example motif on the sequence AACGTA, window 1. *)
Lemma window_score_in_cdf_range_witness :
  let m' := complete_motif args Examples.uneven_scores in
  0 <= score_subseq m' (bytes_of "AACGTA") 1 char2index - cdf_offset m'
    < cdf_size m'.
Proof.
  refine (proj1 (window_score_in_cdf_range args Examples.uneven_scores
                   (bytes_of "AACGTA") 1 _ _ _ _ _)).
  - vm_compute. split; [reflexivity | discriminate].
  - reflexivity.
  - intros i j Hi Hj. change (size Examples.uneven_scores) with 4 in Hi.
    index_cases Hi; index_cases Hj; vm_compute; split; discriminate.
  - lia.
  - intros i Hi. change (size Examples.uneven_scores) with 4 in Hi.
    index_cases Hi; vm_compute; reflexivity.
Defined.

Lemma antitone_steps (c : list Q) (n : Z) :
  (forall k, 0 <= k < n - 1 -> (aget 0 c (k + 1) <= aget 0 c k)%Q) ->
  forall k1 k2, 0 <= k1 -> k1 <= k2 -> k2 < n ->
    (aget 0 c k2 <= aget 0 c k1)%Q.
Proof.
  intros Hstep k1 k2 Hk1 Hle Hlt.
  replace k2 with (k1 + Z.of_nat (Z.to_nat (k2 - k1))) in * by lia.
  induction (Z.to_nat (k2 - k1)) as [| d IH].
  - rewrite Z.add_0_r. apply Qle_refl.
  - replace (k1 + Z.of_nat (S d)) with (k1 + Z.of_nat d + 1) in * by lia.
    apply Qle_trans with (aget 0 c (k1 + Z.of_nat d))%Q.
    + apply Hstep. lia.
    + apply IH; lia.
Qed.

(** X9: after [fill_cdf], on a completed motif and a normalised
    background, a higher score never has a larger p-value, and no p-value
    is negative, for the scores from [cdf_offset] to
    [cdf_offset + cdf_size - 1].  The doubles of the source are read as
    exact rationals; the array is a running sum of non-negative terms from
    its upper end. *)
Theorem score2pval_antitone (a : args_t) (m : motif_t) :
  cdf_ready m -> bkg_ready a ->
  exists m',
    fill_cdf a m = Some m' /\
    forall s1 s2,
      cdf_offset m <= s1 -> s1 <= s2 -> s2 < cdf_offset m + cdf_size m ->
      (0 <= score2pval m' s2)%Q /\
      (score2pval m' s2 <= score2pval m' s1)%Q.
Proof.
  intros Hm Ha.
  destruct (fill_cdf_shape a m Hm Ha)
    as (m' & Hf & Em & Hlen & Hmono & H0 & Hlast).
  destruct (with_cdf_fields m m' Em) as (_ & _ & Eoff & _).
  pose proof Hm as (Hsz & _ & _ & Hmax & _).
  destruct (Qprodf_pos (top_prob a m) (size m) Hsz) as (Hge & _).
  { intros i _. apply top_prob_pos. exact (proj1 Ha). }
  exists m'. split; [exact Hf |]. intros s1 s2 H1 H12 H2.
  unfold score2pval. rewrite Eoff.
  unfold MAX_CDF_SIZE in Hmax.
  rewrite !s32_small by lia.
  pose proof (antitone_steps (cdf m') (cdf_size m) Hmono) as Hanti.
  split.
  - apply Qle_trans with (aget 0 (cdf m') (cdf_size m - 1))%Q.
    + rewrite Hlast. exact Hge.
    + apply Hanti; lia.
  - apply Hanti; lia.
Qed.

(** The four-position motif with scores 2 and -1: the scores run from -4
    to 8. *)
Lemma score2pval_antitone_witness :
  exists m',
    fill_cdf Examples.args_t01
      (complete_motif Examples.args_t01 Examples.acgt_scores) = Some m' /\
    (0 <= score2pval m' 8)%Q /\
    (score2pval m' 8 <= score2pval m' 5)%Q.
Proof.
  destruct (score2pval_antitone Examples.args_t01
              (complete_motif Examples.args_t01 Examples.acgt_scores)
              acgt_scores_ready (bkg_ready_uniform Examples.args_t01 eq_refl))
    as (m' & Hf & H).
  exists m'. split; [exact Hf |].
  apply (H 5 8); vm_compute; (reflexivity || discriminate).
Defined.

(** X10: a row that [score_seq] prints names a window that lies inside the
    sequence: its start is at least 1 (the coordinates are 1-based), its end
    is [start + size - 1] and at most the length of the sequence, the match
    is that window of the sequence, the score is at least the threshold and
    the p-value is the one [score2pval] gives for it; a row of the reverse
    strand appears only when both strands are scanned.  A sequence shorter
    than the motif gives no row. *)
Theorem score_seq_rows_in_sequence
  (a : args_t) (m : motif_t) (nm : string) (seq : list Z) :
  0 < size m <= 50 ->
  Z.of_nat (List.length seq) < 2 ^ 63 ->
  INT_MIN < threshold m < INT_MAX ->
  (Z.of_nat (List.length seq) < size m -> score_seq a m nm seq = []) /\
  forall h, In h (score_seq a m nm seq) ->
    h_seq_name h = nm /\ h_motif h = name m /\
    1 <= h_start h /\ h_end h = h_start h + size m - 1 /\
    h_end h <= Z.of_nat (List.length seq) /\
    h_match h
    = take (Z.to_nat (size m)) (drop (Z.to_nat (h_start h - 1)) seq) /\
    Z.of_nat (List.length (h_match h)) = size m /\
    threshold m <= h_score h /\
    h_pvalue h = score2pval m (h_score h) /\
    (h_strand h = chr "+" \/ (scan_rc a = true /\ h_strand h = chr "-")).
Proof.
  intros Hsz Hlen Hthr. split.
  - intros Hshort. unfold score_seq.
    rewrite (s32_small (size m)), (u64_small (size m)) by lia.
    destruct (Z.ltb_spec (Z.of_nat (List.length seq)) (size m)); [| lia].
    reflexivity.
  - intros h Hh.
    apply (score_seq_hits a m nm seq h Hsz Hlen Hthr) in Hh.
    destruct Hh as (i & Hi0 & Hi1 & Hrow).
    assert (Hgeo : forall strand score,
              h = print_res m nm seq i (size m) strand score ->
              h_seq_name h = nm /\ h_motif h = name m /\
              1 <= h_start h /\ h_end h = h_start h + size m - 1 /\
              h_end h <= Z.of_nat (List.length seq) /\
              h_match h
              = take (Z.to_nat (size m))
                  (drop (Z.to_nat (h_start h - 1)) seq) /\
              Z.of_nat (List.length (h_match h)) = size m /\
              h_score h = score /\
              h_pvalue h = score2pval m (h_score h) /\
              h_strand h = strand).
    { intros strand score ->. unfold print_res.
      cbn [h_seq_name h_motif h_start h_end h_match h_score h_pvalue
           h_strand].
      rewrite !u64_small by lia.
      replace (i + 1 - 1) with i by lia.
      repeat split; try lia.
      rewrite length_take, length_drop. lia. }
    destruct Hrow as [(E & Ht) | (Hrc & E & Ht)];
      destruct (Hgeo _ _ E) as (G1 & G2 & G3 & G4 & G5 & G6 & G7 & G8 & G9 & G10);
      rewrite <- G8 in Ht;
      (split; [exact G1 |]); (split; [exact G2 |]); (split; [exact G3 |]);
      (split; [exact G4 |]); (split; [exact G5 |]); (split; [exact G6 |]);
      (split; [exact G7 |]); (split; [exact Ht |]); (split; [exact G9 |]).
    + left. exact G10.
    + right. split; [exact Hrc | exact G10].
Qed.

(** The four-position example motif, with threshold 0, on a sequence that
    is too short and on AAACGTAA. *)
Lemma score_seq_rows_in_sequence_witness :
  score_seq args Examples.acgt_scores "s" (bytes_of "ACG") = [] /\
  List.Forall (fun h => 1 <= h_start h /\ h_end h <= 8)
    (score_seq args Examples.acgt_scores "s" (bytes_of "AAACGTAA")).
Proof.
  split.
  - apply (score_seq_rows_in_sequence args Examples.acgt_scores "s"
             (bytes_of "ACG"));
      vm_compute; (reflexivity || (split; (reflexivity || discriminate))).
  - apply List.Forall_forall. intros h Hh.
    destruct (proj2 (score_seq_rows_in_sequence args Examples.acgt_scores "s"
                       (bytes_of "AAACGTAA")
                       ltac:(vm_compute; split; (reflexivity || discriminate))
                       ltac:(vm_compute; reflexivity)
                       ltac:(vm_compute; split; reflexivity))
                h Hh)
      as (_ & _ & H1 & _ & H2 & _).
    split; [exact H1 | exact H2].
Defined.


End ScanRows.

(** ** Sequence names and BED ranges (yamscan.c) *)
Section SeqNames.
Import Yamscan.

Lemma aget_lookup {A} (d : A) (l : list A) (i : nat) (x : A) :
  l !! i = Some x -> aget d l (Z.of_nat i) = x.
Proof. intros H. rewrite aget_nth. by apply nth_lookup_Some. Qed.

Lemma lookup_aget_Z {A} (d : A) (l : list A) (i : Z) :
  0 <= i < Z.of_nat (List.length l) ->
  l !! Z.to_nat i = Some (aget d l i).
Proof.
  intros Hi.
  destruct (lookup_lt_is_Some_2 l (Z.to_nat i) ltac:(lia)) as [x Hx].
  rewrite <- (Z2Nat.id i) at 2 by lia. by rewrite (aget_lookup d l _ x Hx).
Qed.

(** An element of a list has a first occurrence. *)
Lemma first_occurrence `{EqDecision A} (l : list A) (x : A) :
  x ∈ l -> exists j, l !! j = Some x /\ x ∉ take j l.
Proof.
  induction l as [| y l IH]; intros Hin; [by apply elem_of_nil in Hin |].
  destruct (decide (x = y)) as [-> | Hne].
  - exists 0%nat. split; [done | apply not_elem_of_nil].
  - apply elem_of_cons in Hin as [-> | Hin]; [done |].
    destruct (IH Hin) as (j & Hj & Hnot). exists (S j). split; [done |].
    cbn. intros [-> | H]%elem_of_cons; [done | by apply Hnot].
Qed.

Lemma NoDup_no_repeat {A} (l : list A) :
  NoDup l <-> forall j x, l !! j = Some x -> x ∉ take j l.
Proof.
  split.
  - intros Hnd j x Hj Hin.
    apply list_elem_of_lookup in Hin as [j' Hj'].
    apply lookup_take_Some in Hj' as [Hj' Hlt].
    pose proof (NoDup_lookup _ _ _ _ Hnd Hj Hj'). lia.
  - intros H. apply NoDup_alt. intros i j x Hi Hj.
    destruct (Nat.lt_trichotomy i j) as [Hlt | [-> | Hlt]]; [| done |].
    + exfalso. apply (H j x Hj). apply list_elem_of_lookup. exists i.
      by rewrite lookup_take_lt.
    + exfalso. apply (H i x Hi). apply list_elem_of_lookup. exists j.
      by rewrite lookup_take_lt.
Qed.

(** The flag of position [j]: the name occurred before. *)
Definition repeated (names : list string) (j : Z) : bool :=
  bool_decide (aget EmptyString names j ∈ take (Z.to_nat j) names).

Lemma seq_hash_scan_spec (names : list string) :
  let n := Z.of_nat (List.length names) in
  let h := fst (seq_hash_scan names) in
  let is_dup := snd (seq_hash_scan names) in
  List.length is_dup = List.length names /\
  (forall j, 0 <= j < n ->
     aget 0 is_dup j = if repeated names j then 1 else 0) /\
  (forall nm j,
     h !! nm = Some j <->
     0 <= j < n /\ names !! Z.to_nat j = Some nm /\
     nm ∉ take (Z.to_nat j) names).
Proof.
  cbv zeta. unfold seq_hash_scan.
  set (n := Z.of_nat (List.length names)).
  pose (P := fun (i : Z) (st : gmap string Z * list Z) =>
    List.length (snd st) = List.length names /\
    (forall j, 0 <= j < n ->
       aget 0 (snd st) j = if (j <? i) && repeated names j then 1 else 0) /\
    (forall nm j,
       fst st !! nm = Some j <->
       0 <= j < i /\ names !! Z.to_nat j = Some nm /\
       nm ∉ take (Z.to_nat j) names)).
  match goal with
  | |- context [fold_left ?f ?l ?s] => assert (HP : P n (fold_left f l s))
  end.
  { apply (fold_left_upto_ind P); subst P; cbv beta; [lia | |].
    - cbn [fst snd]. split; [apply length_replicate |]. split.
      + intros j Hj.
        destruct (Z.ltb_spec j 0); [lia |]. cbn [andb].
        unfold aget. destruct (Z.ltb_spec j 0); [lia |].
        rewrite nth_lookup, lookup_replicate_2 by lia. reflexivity.
      + intros nm j. rewrite lookup_empty. split; [discriminate | lia].
    - intros i [h d] Hi (Hlen & Hflag & Hmap). cbn [fst snd] in *.
      pose proof (lookup_aget_Z EmptyString names i ltac:(lia)) as Hx.
      set (x := aget EmptyString names i) in *.
      assert (Hrep : repeated names i = true <-> exists j, h !! x = Some j).
      { unfold repeated. fold x. rewrite bool_decide_eq_true. split.
        - intros Hin. apply first_occurrence in Hin as (j & Hj & Hnot).
          apply lookup_take_Some in Hj as [Hj Hlt].
          rewrite take_take in Hnot.
          replace (j `min` Z.to_nat i)%nat with j in Hnot by lia.
          exists (Z.of_nat j). apply Hmap. rewrite Nat2Z.id.
          split; [lia | by split].
        - intros (j & Hj). apply Hmap in Hj as (Hj & Hl & _).
          apply list_elem_of_lookup. exists (Z.to_nat j).
          rewrite lookup_take_lt by lia. exact Hl. }
      destruct (h !! x) as [j0 |] eqn:Eh; cbn [fst snd].
      + assert (Er : repeated names i = true) by (apply Hrep; eauto).
        split; [by rewrite length_aset |]. split.
        * intros j Hj. rewrite aget_aset by lia.
          destruct (Z.eqb_spec i j) as [<- | Hne].
          -- destruct (Z.ltb_spec i (i + 1)); [| lia]. by rewrite Er.
          -- rewrite (Hflag j Hj).
             destruct (Z.ltb_spec j i), (Z.ltb_spec j (i + 1)); try lia;
               reflexivity.
        * intros nm j. rewrite Hmap. split.
          -- intros (H1 & H2 & H3). split; [lia | by split].
          -- intros (H1 & H2 & H3). split; [| by split].
             destruct (Z.eq_dec j i) as [-> | Hne]; [| lia].
             exfalso. rewrite Hx in H2. inversion H2; subst nm.
             apply H3. unfold repeated in Er. fold x in Er.
             by apply bool_decide_eq_true in Er.
      + assert (Er : repeated names i = false).
        { apply not_true_is_false. intros E.
          apply Hrep in E as (j & Hj). discriminate. }
        split; [exact Hlen |]. split.
        * intros j Hj. rewrite (Hflag j Hj).
          destruct (Z.eq_dec j i) as [-> | Hne].
          -- rewrite Er. by rewrite !andb_false_r.
          -- destruct (Z.ltb_spec j i), (Z.ltb_spec j (i + 1)); try lia;
               reflexivity.
        * intros nm j. destruct (decide (nm = x)) as [-> | Hne].
          -- rewrite lookup_insert_eq. split.
             ++ intros [= <-]. split; [lia |]. split; [exact Hx |].
                unfold repeated in Er. fold x in Er.
                by apply bool_decide_eq_false in Er.
             ++ intros (H1 & H2 & H3).
                destruct (Z.eq_dec j i) as [-> | Hne]; [done |].
                assert (Hj : h !! x = Some j)
                  by (apply Hmap; split; [lia | by split]).
                rewrite Eh in Hj. discriminate.
          -- rewrite lookup_insert_ne by done. rewrite Hmap. split.
             ++ intros (H1 & H2 & H3). split; [lia | by split].
             ++ intros (H1 & H2 & H3). split; [| by split].
                destruct (Z.eq_dec j i) as [-> | Hne']; [| lia].
                rewrite Hx in H2. by inversion H2. }
  subst P. cbv beta in HP. destruct HP as (H1 & H2 & H3).
  split; [exact H1 |]. split; [| exact H3].
  intros j Hj. rewrite (H2 j Hj).
  destruct (Z.ltb_spec j n); [reflexivity | lia].
Qed.

(** The count of the flags does not wrap, and is 0 only when no flag is
    set. *)
Lemma dup_count_spec (d : list Z) (c : Z) :
  List.Forall (fun x => x = 0 \/ x = 1) d ->
  0 <= c -> c + Z.of_nat (List.length d) < 2 ^ 64 ->
  c <= fold_left (fun c x => u64 (c + x)) d c
  /\ (fold_left (fun c x => u64 (c + x)) d c = c
      <-> List.Forall (fun x => x = 0) d).
Proof.
  revert c. induction d as [| x d IH]; intros c Hd Hc Hlen.
  - cbn. split; [lia |]. split; [constructor | done].
  - apply List.Forall_cons_iff in Hd as [Hx Hd]. cbn [fold_left List.length] in *.
    rewrite (u64_small (c + x)) by lia.
    destruct (IH (c + x) Hd ltac:(lia) ltac:(lia)) as (Hge & Hiff).
    split; [lia |]. split.
    + intros E. assert (x = 0) as -> by lia.
      constructor; [done |]. apply Hiff. rewrite E. lia.
    + intros H. apply List.Forall_cons_iff in H as [-> H].
      rewrite Z.add_0_r in *. by apply Hiff.
Qed.

Lemma flags_clear_iff (names : list string) :
  List.Forall (fun x => x = 0) (snd (seq_hash_scan names)) <-> NoDup names.
Proof.
  destruct (seq_hash_scan_spec names) as (Hlen & Hflag & _).
  set (d := snd (seq_hash_scan names)) in *.
  rewrite NoDup_no_repeat. split.
  - intros Hall j x Hj Hin.
    assert (Hjn : (j < List.length names)%nat) by (by eapply lookup_lt_Some).
    pose proof (Hflag (Z.of_nat j) ltac:(lia)) as Hf.
    assert (Er : repeated names (Z.of_nat j) = true).
    { unfold repeated. rewrite (aget_lookup _ _ _ _ Hj), Nat2Z.id.
      by apply bool_decide_eq_true. }
    rewrite Er in Hf.
    assert (H0 : aget 0 d (Z.of_nat j) = 0).
    { apply (aget_Forall (fun x => x = 0)); [exact Hall | done]. }
    lia.
  - intros Hnd. apply List.Forall_forall. intros x Hx.
    apply (In_nth _ _ 0) in Hx as (j & Hj & <-).
    rewrite <- aget_nth. rewrite Hflag by lia.
    destruct (repeated names (Z.of_nat j)) eqn:Er; [| done].
    exfalso. unfold repeated in Er. apply bool_decide_eq_true in Er.
    rewrite Nat2Z.id in Er.
    apply (Hnd j (aget EmptyString names (Z.of_nat j))); [| exact Er].
    rewrite <- (Nat2Z.id j) at 1. apply lookup_aget_Z. lia.
Qed.

Lemma flags_binary (names : list string) :
  List.Forall (fun x => x = 0 \/ x = 1) (snd (seq_hash_scan names)).
Proof.
  destruct (seq_hash_scan_spec names) as (Hlen & Hflag & _).
  apply List.Forall_forall. intros x Hx.
  apply (In_nth _ _ 0) in Hx as (j & Hj & <-).
  rewrite <- aget_nth. rewrite Hflag by lia.
  destruct (repeated names (Z.of_nat j)); auto.
Qed.

Lemma dup_count_zero (names : list string) :
  Z.of_nat (List.length names) < 2 ^ 64 ->
  fold_left (fun c x => u64 (c + x)) (snd (seq_hash_scan names)) 0 = 0
  <-> NoDup names.
Proof.
  intros Hlen. rewrite <- flags_clear_iff.
  destruct (seq_hash_scan_spec names) as (Hl & _).
  apply (dup_count_spec _ 0 (flags_binary names)); lia.
Qed.

(** With distinct names the run goes on, whatever [-d] says. *)
Lemma find_seq_dupes_distinct
  (a : args_t) (name_alloc : list Z) (names : list string) :
  Z.of_nat (List.length names) < 2 ^ 64 ->
  NoDup names ->
  exists h,
    find_seq_dupes a name_alloc names = Returns (names, h) /\
    forall nm j,
      h !! nm = Some j <-> 0 <= j /\ names !! Z.to_nat j = Some nm.
Proof.
  intros Hlen Hnd. pose proof (dup_count_zero names Hlen) as Hz.
  destruct (seq_hash_scan_spec names) as (_ & _ & Hmap).
  unfold find_seq_dupes. destruct (seq_hash_scan names) as [h d].
  cbn [fst snd] in *.
  rewrite (proj2 Hz Hnd). cbn. exists h. split; [done |].
  intros nm j. rewrite Hmap. split.
  - intros (H1 & H2 & _). split; [lia | done].
  - intros (H1 & H2). split; [| split; [done |]].
    + apply lookup_lt_Some in H2. lia.
    + by apply (proj1 (NoDup_no_repeat names) Hnd (Z.to_nat j)).
Qed.

(** X11: without [-d] (and always with [-x]), [find_seq_dupes] lets the run
    go on exactly when the sequence names are pairwise distinct, also when
    the repeated name is the last one; the names are unchanged and the
    table it leaves maps every name to the index of its sequence, and
    nothing else. *)
Theorem find_seq_dupes_unique
  (a : args_t) (name_alloc : list Z) (names : list string) :
  Z.of_nat (List.length names) < 2 ^ 64 ->
  dedup a = false ->
  (NoDup names ->
   exists h,
     find_seq_dupes a name_alloc names = Returns (names, h) /\
     forall nm j,
       h !! nm = Some j <-> 0 <= j /\ names !! Z.to_nat j = Some nm) /\
  (~ NoDup names -> find_seq_dupes a name_alloc names = Exits).
Proof.
  intros Hlen Hd. split; [apply find_seq_dupes_distinct; exact Hlen |].
  intros Hnd. pose proof (dup_count_zero names Hlen) as Hz.
  unfold find_seq_dupes. destruct (seq_hash_scan names) as [h d].
  cbn [fst snd] in *. rewrite Hd.
  destruct (Z.eqb_spec (fold_left (fun c x => u64 (c + x)) d 0) 0) as [E | _];
    [| done].
  exfalso. apply Hnd. by apply Hz.
Qed.

Lemma find_seq_dupes_unique_witness :
  (exists h,
     find_seq_dupes args [6; 6] ["chr1"; "chr2"]%string
     = Returns (["chr1"; "chr2"]%string, h) /\
     h !! "chr2"%string = Some 1) /\
  find_seq_dupes args [6; 6; 6] ["chr1"; "chr2"; "chr2"]%string = Exits.
Proof.
  split.
  - destruct (proj1 (find_seq_dupes_unique args [6; 6]
                       ["chr1"; "chr2"]%string
                       ltac:(cbn; lia) eq_refl)) as (h & Hf & Hh).
    { repeat constructor; set_solver. }
    exists h. split; [exact Hf |]. apply Hh. split; [lia | reflexivity].
  - apply (proj2 (find_seq_dupes_unique args [6; 6; 6]
                    ["chr1"; "chr2"; "chr2"]%string
                    ltac:(cbn; lia) eq_refl)).
    intros Hnd. apply NoDup_cons in Hnd as [_ Hnd].
    apply NoDup_cons in Hnd as [Hnot _]. apply Hnot. set_solver.
Defined.


(** X12: with [-d], [find_seq_dupes] appends [__N] and the 1-based number
    of the sequence to every name that occurred earlier in the input, also
    to the last one, and to no other name; a first occurrence keeps its
    name.  This is so when every renamed name, with its NUL, fits the bytes
    allocated for that name; when one does not, the rename writes past the
    allocation.  The renamed names are taken shorter than
    [SEQ_NAME_MAX_CHAR]. *)
Theorem find_seq_dupes_renames
  (a : args_t) (name_alloc : list Z) (names : list string) :
  Z.of_nat (List.length names) < 2 ^ 64 ->
  dedup a = true ->
  (forall (i : nat) nm,
     names !! i = Some nm -> nm ∈ take i names ->
     Z.of_nat (String.length nm)
     + Z.of_nat (String.length (int_to_char_array (Z.of_nat i + 1)))
     < SEQ_NAME_MAX_CHAR) ->
  let fits (i : nat) (nm : string) :=
    Z.of_nat (String.length nm)
    + Z.of_nat (String.length (int_to_char_array (Z.of_nat i + 1))) + 1
    <= aget 0 name_alloc (Z.of_nat i) in
  ((forall (i : nat) nm,
      names !! i = Some nm -> nm ∈ take i names -> fits i nm) ->
   exists ns h,
     find_seq_dupes a name_alloc names = Returns (ns, h) /\
     List.length ns = List.length names /\
     forall (i : nat) nm,
       names !! i = Some nm ->
       ns !! i
       = Some (if bool_decide (nm ∈ take i names)
               then (nm ++ int_to_char_array (Z.of_nat i + 1))%string
               else nm)) /\
  ((exists (i : nat) nm,
      names !! i = Some nm /\ nm ∈ take i names /\ ~ fits i nm) ->
   find_seq_dupes a name_alloc names = Undefined).
Proof.
  intros Hlen Hd Hshort fits. pose proof (dup_count_zero names Hlen) as Hz.
  destruct (seq_hash_scan_spec names) as (Hdl & Hflag & _).
  set (n := Z.of_nat (List.length names)) in *.
  pose (fitsZ := fun j =>
    Z.of_nat (String.length (aget EmptyString names j))
    + Z.of_nat (String.length (int_to_char_array (j + 1))) + 1
    <= aget 0 name_alloc j).
  pose (new := fun j =>
    if repeated names j
    then (aget EmptyString names j ++ int_to_char_array (j + 1))%string
    else aget EmptyString names j).
  pose (P := fun (i : Z) (st : outcome (list string)) =>
    match st with
    | Returns ns =>
        (forall j, 0 <= j < i -> repeated names j = true -> fitsZ j) /\
        List.length ns = List.length names /\
        forall j, 0 <= j < n ->
          aget EmptyString ns j
          = if j <? i then new j else aget EmptyString names j
    | Exits => False
    | Undefined =>
        exists j, 0 <= j < i /\ repeated names j = true /\ ~ fitsZ j
    end).
  assert (HP : forall is_dup,
    (forall j, 0 <= j < n ->
       aget 0 is_dup j = if repeated names j then 1 else 0) ->
    P n (fold_left
      (fun (st : outcome (list string)) i =>
         match st with
         | Returns ns =>
             if negb (aget 0 is_dup i =? 0) then
               if dedup_char_array_end (aget EmptyString ns i)
                    SEQ_NAME_MAX_CHAR (i + 1)
                  <=? aget 0 name_alloc i
               then
                 let (nm, success) :=
                   dedup_char_array (aget EmptyString ns i)
                     SEQ_NAME_MAX_CHAR (i + 1) in
                 if success then Returns (aset ns i nm) else Exits
               else Undefined
             else Returns ns
         | Exits => Exits
         | Undefined => Undefined
         end)
      (upto 0 n) (Returns names))).
  { intros d Hfl.
    apply (fold_left_upto_ind P); subst P; cbv beta; [lia | |].
    - split; [intros j Hj; lia |]. split; [done |]. intros j Hj.
      destruct (Z.ltb_spec j 0); [lia | done].
    - intros i [ns | |] Hi HP; [| destruct HP |].
      2:{ destruct HP as (j & Hj & Hr & Hn). exists j.
          split; [lia | by split]. }
      destruct HP as (Hfit & Hnl & Hns).
      rewrite (Hfl i Hi).
      assert (Hcur : aget EmptyString ns i = aget EmptyString names i).
      { rewrite (Hns i Hi). destruct (Z.ltb_spec i i); [lia | done]. }
      destruct (repeated names i) eqn:Er; cbn [Z.eqb negb].
      + rewrite Hcur.
        pose proof (lookup_aget_Z EmptyString names i ltac:(lia)) as Hx.
        set (x := aget EmptyString names i) in *.
        assert (Hf : Z.of_nat (String.length x)
                     + Z.of_nat (String.length (int_to_char_array (i + 1)))
                     < SEQ_NAME_MAX_CHAR).
        { pose proof (Hshort (Z.to_nat i) x Hx) as H.
          rewrite Z2Nat.id in H by lia. apply H.
          unfold repeated in Er. by apply bool_decide_eq_true in Er. }
        unfold dedup_char_array_end, dedup_char_array.
        unfold SEQ_NAME_MAX_CHAR in *.
        destruct (Z.ltb_spec (Z.of_nat (String.length x)) 512); [| lia].
        rewrite u64_small by lia.
        destruct (Z.leb_spec
                    (Z.of_nat (String.length (int_to_char_array (i + 1))) + 1)
                    (512 - Z.of_nat (String.length x))); [| lia].
        destruct (Z.leb_spec
                    (Z.of_nat (String.length x)
                     + (Z.of_nat (String.length (int_to_char_array (i + 1)))
                        + 1))
                    (aget 0 name_alloc i)) as [Hin | Hout].
        * split; [| split; [by rewrite length_aset |]].
          { intros j Hj Hr. destruct (Z.eq_dec j i) as [-> | Hne].
            - subst fitsZ. cbv beta. fold x. lia.
            - apply Hfit; [lia | exact Hr]. }
          intros j Hj. rewrite aget_aset by lia.
          destruct (Z.eqb_spec i j) as [<- | Hne].
          -- destruct (Z.ltb_spec i (i + 1)); [| lia].
             subst new. cbv beta. by rewrite Er.
          -- rewrite (Hns j Hj).
             destruct (Z.ltb_spec j i), (Z.ltb_spec j (i + 1)); try lia;
               reflexivity.
        * exists i. split; [lia |]. split; [exact Er |].
          subst fitsZ. cbv beta. fold x. lia.
      + split; [| split; [done |]].
        { intros j Hj Hr. destruct (Z.eq_dec j i) as [-> | Hne].
          - rewrite Er in Hr. discriminate.
          - apply Hfit; [lia | exact Hr]. }
        intros j Hj. rewrite (Hns j Hj).
        destruct (Z.eq_dec j i) as [-> | Hne].
        * destruct (Z.ltb_spec i i), (Z.ltb_spec i (i + 1)); try lia.
          subst new. cbv beta. by rewrite Er.
        * destruct (Z.ltb_spec j i), (Z.ltb_spec j (i + 1)); try lia;
            reflexivity. }
  unfold find_seq_dupes. destruct (seq_hash_scan names) as [h d].
  cbn [fst snd] in *. rewrite Hd. fold n.
  specialize (HP d Hflag).
  destruct (Z.eqb_spec (fold_left (fun c x => u64 (c + x)) d 0) 0) as [E | _];
    cbn [negb].
  - apply Hz in E. pose proof (proj1 (NoDup_no_repeat names) E) as Hnr. split.
    + intros _. exists names, h. split; [done |]. split; [done |].
      intros i nm Hi. rewrite Hi. f_equal.
      rewrite bool_decide_eq_false_2; [done |]. by apply Hnr.
    + intros (i & nm & Hi & Hin & _). exfalso. by apply (Hnr i nm).
  - match type of HP with P n ?t => destruct t as [ns | |] end;
      subst P; cbv beta iota in HP; [| destruct HP |].
    + destruct HP as (Hfit & Hnl & Hns). split.
      * intros _. exists ns, h. split; [done |]. split; [done |].
        intros i nm Hi.
        assert (Hin : (i < List.length names)%nat)
          by (by eapply lookup_lt_Some).
        rewrite <- (Nat2Z.id i) at 1.
        rewrite (lookup_aget_Z EmptyString ns (Z.of_nat i)) by lia.
        rewrite (Hns (Z.of_nat i)) by lia.
        destruct (Z.ltb_spec (Z.of_nat i) n); [| lia].
        subst new. cbv beta. unfold repeated.
        by rewrite (aget_lookup _ _ _ _ Hi), Nat2Z.id.
      * intros (i & nm & Hi & Hin & Hno). exfalso. apply Hno.
        assert (Hil : (i < List.length names)%nat)
          by (by eapply lookup_lt_Some).
        pose proof (Hfit (Z.of_nat i) ltac:(lia)) as H.
        unfold repeated, fitsZ in H.
        rewrite (aget_lookup _ _ _ _ Hi), Nat2Z.id in H.
        subst fits. cbv beta. apply H. by apply bool_decide_eq_true.
    + destruct HP as (j & Hj & Hr & Hno). split; [| done].
      intros Hall. exfalso. apply Hno.
      pose proof (lookup_aget_Z EmptyString names j ltac:(lia)) as Hx.
      pose proof (Hall (Z.to_nat j) _ Hx) as H.
      unfold repeated in Hr. apply bool_decide_eq_true in Hr.
      specialize (H Hr). subst fits fitsZ. cbv beta in H |- *.
      rewrite Z2Nat.id in H by lia. exact H.
Qed.

(** Three records, the third with a comment of ten characters, which
    leaves room for the suffix; without the comment the rename of [chr2]
    ends three bytes past its six. *)
Lemma find_seq_dupes_renames_witness :
  (exists ns h,
     find_seq_dupes (mk_args [] 0 0 0 true true true false false false)
       [6; 6; 16] ["chr1"; "chr2"; "chr2"]%string = Returns (ns, h) /\
     ns !! 1%nat = Some "chr2"%string /\
     ns !! 2%nat = Some "chr2__N3"%string) /\
  find_seq_dupes (mk_args [] 0 0 0 true true true false false false)
    [6; 6; 6] ["chr1"; "chr2"; "chr2"]%string = Undefined.
Proof.
  split.
  - destruct (find_seq_dupes_renames
                (mk_args [] 0 0 0 true true true false false false)
                [6; 6; 16] ["chr1"; "chr2"; "chr2"]%string
                ltac:(cbn; lia) eq_refl)
      as ((ns & h & Hf & _ & Hns) & _).
    { intros [| [| [| i]]] nm Hi _; inversion Hi; subst nm;
        vm_compute; reflexivity. }
    { intros [| [| [| i]]] nm Hi Hin; inversion Hi; subst nm;
        try (vm_compute; discriminate); exfalso; set_solver. }
    exists ns, h. split; [exact Hf |]. split.
    + rewrite (Hns 1%nat "chr2"%string eq_refl).
      rewrite bool_decide_eq_false_2; [done | set_solver].
    + rewrite (Hns 2%nat "chr2"%string eq_refl).
      rewrite bool_decide_eq_true_2; [done | set_solver].
  - apply (find_seq_dupes_renames
             (mk_args [] 0 0 0 true true true false false false)
             [6; 6; 6] ["chr1"; "chr2"; "chr2"]%string
             ltac:(cbn; lia) eq_refl).
    { intros [| [| [| i]]] nm Hi _; inversion Hi; subst nm;
        vm_compute; reflexivity. }
    exists 2%nat, "chr2"%string. split; [reflexivity |].
    split; [set_solver |]. vm_compute. intros H. apply H. reflexivity.
Defined.

(** The loop of [fill_bed_seq_indices]. *)
Lemma fill_bed_seq_indices_spec (h : gmap string Z) (bs : list bed_region) :
  match fill_bed_seq_indices h bs with
  | None => exists (j : nat) b, bs !! j = Some b /\ h !! b_seq_name b = None
  | Some idx =>
      List.length idx = List.length bs /\
      forall (j : nat) b, bs !! j = Some b ->
        exists k, h !! b_seq_name b = Some k /\ idx !! j = Some k
  end.
Proof.
  unfold fill_bed_seq_indices.
  set (n := Z.of_nat (List.length bs)).
  pose (P := fun (i : Z) (st : option (list Z)) =>
    match st with
    | None => exists (j : nat) b, bs !! j = Some b /\ h !! b_seq_name b = None
    | Some idx =>
        List.length idx = List.length bs /\
        forall (j : nat) b, Z.of_nat j < i -> bs !! j = Some b ->
          exists k, h !! b_seq_name b = Some k /\ idx !! j = Some k
    end).
  match goal with
  | |- match fold_left ?f ?l ?s with _ => _ end =>
      assert (HP : P n (fold_left f l s))
  end.
  { apply (fold_left_upto_ind P); subst P; cbv beta; [lia | |].
    - split; [apply length_replicate |]. intros j b Hj. lia.
    - intros i [idx |] Hi HP; [| exact HP]. destruct HP as (Hl & Hidx).
      pose proof (lookup_aget_Z bed0 bs i ltac:(lia)) as Hb.
      destruct (h !! b_seq_name (aget bed0 bs i)) as [k |] eqn:Ek.
      + split; [by rewrite length_aset |]. intros j b Hj Hbj.
        destruct (Z.eq_dec (Z.of_nat j) i) as [<- | Hne].
        * rewrite Nat2Z.id in Hb. rewrite Hbj in Hb. inversion Hb; subst b.
          exists k. split; [exact Ek |].
          unfold aset. destruct (Z.ltb_spec (Z.of_nat j) 0); [lia |].
          rewrite Nat2Z.id. apply list_lookup_insert_eq. lia.
        * destruct (Hidx j b ltac:(lia) Hbj) as (k' & H1 & H2).
          exists k'. split; [exact H1 |].
          unfold aset. destruct (Z.ltb_spec i 0); [lia |].
          rewrite list_lookup_insert_ne by lia. exact H2.
      + exists (Z.to_nat i), (aget bed0 bs i). by split. }
  subst P. cbv beta in HP.
  destruct (fold_left _ _ _) as [idx |]; [| exact HP].
  destruct HP as (Hl & Hidx). split; [exact Hl |].
  intros j b Hj. apply Hidx; [| exact Hj].
  apply lookup_lt_Some in Hj. lia.
Qed.

(** X13: when the sequence names are distinct, the table that
    [find_seq_dupes] builds lets [fill_bed_seq_indices] resolve every BED
    range to the index of the sequence that carries its name; the run stops
    exactly when a range names a sequence that is not in the input. *)
Theorem fill_bed_seq_indices_resolves
  (a : args_t) (name_alloc : list Z) (names : list string)
  (bs : list bed_region) :
  Z.of_nat (List.length names) < 2 ^ 64 ->
  NoDup names ->
  exists h,
    find_seq_dupes a name_alloc names = Returns (names, h) /\
    match fill_bed_seq_indices h bs with
    | None => exists (j : nat) b, bs !! j = Some b /\ b_seq_name b ∉ names
    | Some idx =>
        List.length idx = List.length bs /\
        forall (j : nat) b, bs !! j = Some b ->
          exists k : nat,
            idx !! j = Some (Z.of_nat k) /\ names !! k = Some (b_seq_name b)
    end.
Proof.
  intros Hlen Hnd.
  destruct (find_seq_dupes_distinct a name_alloc names Hlen Hnd)
    as (h & Hf & Hh).
  exists h. split; [exact Hf |].
  pose proof (fill_bed_seq_indices_spec h bs) as Hs.
  destruct (fill_bed_seq_indices h bs) as [idx |].
  - destruct Hs as (Hl & Hidx). split; [exact Hl |]. intros j b Hj.
    destruct (Hidx j b Hj) as (k & Hk & Hik).
    apply Hh in Hk as (Hk0 & Hk). exists (Z.to_nat k).
    rewrite Z2Nat.id by lia. by split.
  - destruct Hs as (j & b & Hj & Hnone). exists j, b. split; [exact Hj |].
    intros Hin. apply list_elem_of_lookup in Hin as [k Hk].
    assert (Hs : h !! b_seq_name b = Some (Z.of_nat k)).
    { apply Hh. rewrite Nat2Z.id. split; [lia | exact Hk]. }
    rewrite Hnone in Hs. discriminate.
Qed.

Lemma fill_bed_seq_indices_resolves_witness :
  exists h,
    find_seq_dupes args [6; 6] ["chr1"; "chr2"]%string
    = Returns (["chr1"; "chr2"]%string, h) /\
    fill_bed_seq_indices h [mk_bed "chr2" 10 20 (chr "+") "r1"] = Some [1].
Proof.
  destruct (fill_bed_seq_indices_resolves args [6; 6]
              ["chr1"; "chr2"]%string
              [mk_bed "chr2" 10 20 (chr "+") "r1"] ltac:(cbn; lia))
    as (h & Hf & Hm).
  { repeat constructor; set_solver. }
  exists h. split; [exact Hf |].
  destruct (fill_bed_seq_indices h [mk_bed "chr2" 10 20 (chr "+") "r1"])
    as [idx |].
  - destruct Hm as (Hl & Hidx).
    destruct (Hidx 0%nat _ eq_refl) as (k & Hk & Hn).
    destruct idx as [| x [| y idx]]; try discriminate Hl.
    destruct k as [| [| k]]; try discriminate Hn.
    cbn in Hk. by inversion Hk.
  - destruct Hm as (j & b & Hj & Hnot). exfalso.
    destruct j as [| j]; [| discriminate Hj].
    inversion Hj; subst b. apply Hnot. cbn. set_solver.
Defined.

(** The range of position [i] after the check: its end is cut to the size
    of its sequence. *)
Definition trimmed (b : bed_region) (sz : Z) : bed_region :=
  mk_bed (b_seq_name b) (b_start b) (Z.min (b_end b) sz) (b_strand b)
    (b_range_name b).

(** X14: [check_bed_ranges] stops the run only when some range starts at or
    past the end of its sequence.  Otherwise it changes nothing but the ends
    of the ranges, which it cuts to the size of the sequence: afterwards
    every range is non-empty and lies inside its sequence,
    [start < end <= size]. *)
Theorem check_bed_ranges_spec (seq_sizes idx : list Z) (bs : list bed_region) :
  (forall b, b ∈ bs -> 0 <= b_start b < b_end b /\ b_end b < 2 ^ 64) ->
  let size_of (i : nat) := aget 0 seq_sizes (aget 0 idx (Z.of_nat i)) in
  match check_bed_ranges seq_sizes idx bs with
  | None => exists (i : nat) b, bs !! i = Some b /\ size_of i <= b_start b
  | Some bs' =>
      List.length bs' = List.length bs /\
      forall (i : nat) b, bs !! i = Some b ->
        bs' !! i = Some (trimmed b (size_of i)) /\
        b_start b < Z.min (b_end b) (size_of i) <= size_of i
  end.
Proof.
  intros Hbs size_of. unfold check_bed_ranges.
  set (n := Z.of_nat (List.length bs)).
  pose (P := fun (i : Z) (st : option (list bed_region)) =>
    match st with
    | None => exists (j : nat) b, bs !! j = Some b /\ size_of j <= b_start b
    | Some bs' =>
        List.length bs' = List.length bs /\
        forall (j : nat) b, bs !! j = Some b ->
          if Z.of_nat j <? i
          then bs' !! j = Some (trimmed b (size_of j)) /\
               b_start b < Z.min (b_end b) (size_of j) <= size_of j
          else bs' !! j = Some b
    end).
  match goal with
  | |- match fold_left ?f ?l ?s with _ => _ end =>
      assert (HP : P n (fold_left f l s))
  end.
  { apply (fold_left_upto_ind P); subst P; cbv beta; [lia | |].
    - split; [done |]. intros j b Hj.
      destruct (Z.ltb_spec (Z.of_nat j) 0); [lia | exact Hj].
    - intros i [bs' |] Hi HP; [| exact HP]. destruct HP as (Hl & Hst).
      pose proof (lookup_aget_Z bed0 bs i ltac:(lia)) as Hb.
      set (b := aget bed0 bs i) in *.
      assert (Hcur : aget bed0 bs' i = b).
      { pose proof (Hst (Z.to_nat i) b Hb) as H.
        rewrite Z2Nat.id in H by lia.
        destruct (Z.ltb_spec i i); [lia |].
        rewrite <- (Z2Nat.id i) by lia. by apply aget_lookup. }
      rewrite Hcur.
      assert (Hrange : 0 <= b_start b < b_end b /\ b_end b < 2 ^ 64).
      { apply Hbs. by eapply list_elem_of_lookup_2. }
      rewrite (u64_small (b_start b + 1)) by lia.
      assert (Esz : aget 0 seq_sizes (aget 0 idx i) = size_of (Z.to_nat i)).
      { subst size_of. cbv beta. by rewrite Z2Nat.id by lia. }
      rewrite Esz.
      destruct (Z.ltb_spec (size_of (Z.to_nat i)) (b_start b + 1)).
      { exists (Z.to_nat i), b. split; [exact Hb | lia]. }
      destruct (Z.ltb_spec (size_of (Z.to_nat i)) (b_end b)).
      + split; [by rewrite length_aset |]. intros j b' Hj.
        specialize (Hst j b' Hj).
        destruct (Z.eq_dec (Z.of_nat j) i) as [E | Hne].
        * assert (j = Z.to_nat i) as -> by lia.
          rewrite Hb in Hj. inversion Hj; subst b'.
          destruct (Z.ltb_spec (Z.of_nat (Z.to_nat i)) (i + 1)); [| lia].
          split; [| lia].
          unfold aset. destruct (Z.ltb_spec i 0); [lia |].
          rewrite list_lookup_insert_eq by lia.
          unfold trimmed. by rewrite Z.min_r by lia.
        * unfold aset. destruct (Z.ltb_spec i 0); [lia |].
          rewrite list_lookup_insert_ne by lia.
          destruct (Z.ltb_spec (Z.of_nat j) i),
                   (Z.ltb_spec (Z.of_nat j) (i + 1)); try lia; exact Hst.
      + split; [exact Hl |]. intros j b' Hj.
        specialize (Hst j b' Hj).
        destruct (Z.eq_dec (Z.of_nat j) i) as [E | Hne].
        * assert (j = Z.to_nat i) as -> by lia.
          rewrite Hb in Hj. inversion Hj; subst b'.
          destruct (Z.ltb_spec (Z.of_nat (Z.to_nat i)) (i + 1)); [| lia].
          destruct (Z.ltb_spec (Z.of_nat (Z.to_nat i)) i); [lia |].
          split; [| lia]. rewrite Hst. f_equal.
          unfold trimmed. rewrite Z.min_l by lia. by destruct b.
        * destruct (Z.ltb_spec (Z.of_nat j) i),
                   (Z.ltb_spec (Z.of_nat j) (i + 1)); try lia; exact Hst. }
  subst P. cbv beta in HP.
  destruct (fold_left _ _ _) as [bs' |]; [| exact HP].
  destruct HP as (Hl & Hst). split; [exact Hl |]. intros i b Hi.
  specialize (Hst i b Hi).
  destruct (Z.ltb_spec (Z.of_nat i) n); [exact Hst |].
  apply lookup_lt_Some in Hi. lia.
Qed.

(** A range that runs past the end of a sequence of 15 bases is cut. *)
Lemma check_bed_ranges_spec_witness :
  check_bed_ranges [100; 15] [1] [mk_bed "chr2" 10 20 (chr "+") "r1"]
  = Some [mk_bed "chr2" 10 15 (chr "+") "r1"].
Proof.
  pose proof (check_bed_ranges_spec [100; 15] [1]
                [mk_bed "chr2" 10 20 (chr "+") "r1"]) as H.
  cbv zeta in H.
  destruct (check_bed_ranges [100; 15] [1]
              [mk_bed "chr2" 10 20 (chr "+") "r1"]) as [bs' |].
  - destruct H as (Hl & Hst).
    { intros b Hb. apply list_elem_of_singleton in Hb as ->. cbn. lia. }
    destruct (Hst 0%nat _ eq_refl) as (H0 & _).
    destruct bs' as [| x [| y bs']]; try discriminate Hl.
    cbn in H0. by inversion H0.
  - destruct H as (i & b & Hi & Hle).
    { intros b Hb. apply list_elem_of_singleton in Hb as ->. cbn. lia. }
    destruct i as [| i]; [| discriminate Hi].
    inversion Hi; subst b. change (15 <= 10) in Hle. lia.
Defined.

End SeqNames.

(** ** Lines and tab-separated fields (yamscan.c) *)
Section Lines.
Import Yamscan.

(** X15: despite its name, [check_line_contains] tests a prefix: it
    answers 1 exactly when the line starts with the text. *)
Theorem check_line_contains_is_prefix (line substring : list Z) :
  check_line_contains line substring = true
  <-> exists rest, line = substring ++ rest.
Proof.
  unfold check_line_contains. split.
  - destruct (Z.ltb_spec (Z.of_nat (List.length line))
                (Z.of_nat (List.length substring))); [discriminate |].
    intros Hall. rewrite forallb_forall in Hall.
    exists (drop (List.length substring) line).
    rewrite <- (take_drop (List.length substring) line) at 1. f_equal.
    apply list_eq. intros i.
    destruct (decide (i < List.length substring)%nat) as [Hi | Hi].
    + rewrite lookup_take_lt by lia.
      specialize (Hall (Z.of_nat i) ltac:(apply In_upto; lia)).
      apply Z.eqb_eq in Hall.
      pose proof (lookup_aget_Z 0 line (Z.of_nat i) ltac:(lia)) as H1.
      pose proof (lookup_aget_Z 0 substring (Z.of_nat i) ltac:(lia)) as H2.
      rewrite Nat2Z.id in H1, H2. by rewrite H1, H2, Hall.
    + rewrite lookup_take_ge by lia.
      symmetry. apply lookup_ge_None. lia.
  - intros (rest & ->). rewrite length_app.
    destruct (Z.ltb_spec
                (Z.of_nat (List.length substring + List.length rest))
                (Z.of_nat (List.length substring))); [lia |].
    apply forallb_forall. intros i Hi. apply In_upto in Hi.
    apply Z.eqb_eq. apply aget_app_l. lia.
Qed.

(** The characters that [count_nonempty_chars] does not count. *)
Definition is_blank (c : Z) : bool :=
  (c =? 32) || (c =? 9) || (c =? 13) || (c =? 11) || (c =? 12) || (c =? 10).

Lemma count_nonempty_chars_loop_spec (line : list Z) :
  List.Forall (fun c => c <> 0) line ->
  Z.of_nat (List.length line) < 2 ^ 64 ->
  forall (rest pre : list Z) (total : Z),
    line = pre ++ rest ->
    0 <= total <= Z.of_nat (List.length pre) ->
    count_nonempty_chars_loop (S (List.length rest)) line total
      (Z.of_nat (List.length pre))
    = total
      + Z.of_nat (List.length (List.filter (fun c => negb (is_blank c)) rest)).
Proof.
  intros Hnz Hlen. induction rest as [| c rest IH]; intros pre total E Ht.
  - cbn [count_nonempty_chars_loop List.length List.filter].
    rewrite aget_oob by (subst line; rewrite length_app; cbn; lia).
    cbn. lia.
  - assert (Hc : aget 0 line (Z.of_nat (List.length pre)) = c).
    { apply aget_lookup. subst line.
      by rewrite lookup_app_r, Nat.sub_diag by lia. }
    assert (Hc0 : c <> 0).
    { rewrite List.Forall_forall in Hnz. apply Hnz. subst line.
      apply in_or_app. right. by left. }
    assert (Hl : Z.of_nat (List.length pre) + 1 + Z.of_nat (List.length rest)
                 = Z.of_nat (List.length line)).
    { subst line. rewrite length_app. cbn [List.length]. lia. }
    change (count_nonempty_chars_loop (S (List.length (c :: rest))) line total
              (Z.of_nat (List.length pre)))
      with (let c := aget 0 line (Z.of_nat (List.length pre)) in
            if (c =? 32) || (c =? 9) || (c =? 13) || (c =? 11) || (c =? 12)
               || (c =? 10)
            then count_nonempty_chars_loop (S (List.length rest)) line total
                   (u64 (Z.of_nat (List.length pre) + 1))
            else if c =? 0 then total
            else count_nonempty_chars_loop (S (List.length rest)) line
                   (u64 (total + 1)) (u64 (Z.of_nat (List.length pre) + 1))).
    cbv zeta. rewrite Hc. fold (is_blank c).
    rewrite !u64_small by lia.
    replace (Z.of_nat (List.length pre) + 1)
      with (Z.of_nat (List.length (pre ++ [c])))
      by (rewrite length_app; cbn; lia).
    cbn [List.filter]. destruct (is_blank c); cbn [negb].
    + rewrite IH; [reflexivity | by rewrite <- app_assoc
                   | rewrite length_app; cbn; lia].
    + destruct (Z.eqb_spec c 0); [lia |].
      rewrite IH; [cbn [List.length]; lia | by rewrite <- app_assoc
                   | rewrite length_app; cbn; lia].
Qed.

(** X16: on a line, [count_nonempty_chars] is the number of characters
    that are not a blank, a tab, a carriage return, a vertical tab, a form
    feed or a line feed; it is 0, and the line is skipped by the readers,
    exactly when the line has only such characters. *)
Theorem count_nonempty_chars_spec (line : list Z) :
  List.Forall (fun c => c <> 0) line ->
  Z.of_nat (List.length line) < 2 ^ 64 ->
  count_nonempty_chars line
  = Z.of_nat (List.length (List.filter (fun c => negb (is_blank c)) line))
  /\ (count_nonempty_chars line = 0
      <-> List.Forall (fun c => is_blank c = true) line).
Proof.
  intros Hnz Hlen.
  assert (E : count_nonempty_chars line
              = Z.of_nat (List.length
                            (List.filter (fun c => negb (is_blank c)) line))).
  { unfold count_nonempty_chars.
    pose proof (count_nonempty_chars_loop_spec line Hnz Hlen line [] 0
                  eq_refl ltac:(cbn; lia)) as H.
    change (Z.of_nat (List.length (@nil Z))) with 0 in H. rewrite H. lia. }
  split; [exact E |]. rewrite E. clear. induction line as [| c line IH].
  - cbn. split; [constructor | reflexivity].
  - cbn [List.filter]. rewrite List.Forall_cons_iff.
    destruct (is_blank c); cbn [negb List.length].
    + rewrite IH. tauto.
    + split; [lia | intros [H _]; discriminate].
Qed.

Lemma count_nonempty_chars_spec_witness :
  count_nonempty_chars (bytes_of " chr1 10 ") = 6.
Proof.
  refine (proj1 (count_nonempty_chars_spec (bytes_of " chr1 10 ") _ _)).
  - repeat constructor; discriminate.
  - cbn. lia.
Defined.


(** Fields joined by tabs, as a line of a BED file has them. *)
Fixpoint join_tabs (fs : list (list Z)) : list Z :=
  match fs with
  | [] => []
  | f :: fs' =>
      match fs' with
      | [] => f
      | _ :: _ => f ++ 9 :: join_tabs fs'
      end
  end.

(** The position of the first character of field [t] in [join_tabs fs]. *)
Fixpoint field_pos (fs : list (list Z)) (t : nat) {struct t} : nat :=
  match t, fs with
  | S t', g :: fs' => (S (List.length g) + field_pos fs' t')%nat
  | _, _ => 0%nat
  end.

Lemma field_pos_S (g : list Z) (fs : list (list Z)) (t : nat) :
  field_pos (g :: fs) (S t) = (S (List.length g) + field_pos fs t)%nat.
Proof. reflexivity. Qed.

Lemma field_pos_next (fs : list (list Z)) :
  forall (t : nat) (f : list Z),
    fs !! t = Some f ->
    field_pos fs (S t) = (field_pos fs t + List.length f + 1)%nat.
Proof.
  induction fs as [| g fs IH]; intros t f Hf; [discriminate |].
  destruct t as [| t].
  - inversion Hf; subst g. rewrite field_pos_S.
    change (field_pos (f :: fs) 0) with 0%nat.
    destruct fs; cbn; lia.
  - cbn in Hf. rewrite (field_pos_S g fs (S t)), (IH t f Hf), field_pos_S.
    lia.
Qed.

Lemma field_pos_ge (fs : list (list Z)) :
  forall t : nat, (t <= List.length fs)%nat -> (t <= field_pos fs t)%nat.
Proof.
  induction fs as [| g fs IH]; intros [| t] Ht; cbn in Ht |- *; try lia.
  specialize (IH t ltac:(lia)). lia.
Qed.

Lemma join_lookup_field (fs : list (list Z)) :
  forall (t : nat) (f : list Z) (j : nat) (c : Z),
    fs !! t = Some f -> f !! j = Some c ->
    join_tabs fs !! (field_pos fs t + j)%nat = Some c.
Proof.
  induction fs as [| g fs IH]; intros t f j c Ht Hj; [discriminate |].
  destruct t as [| t].
  - inversion Ht; subst g. change (field_pos (f :: fs) 0) with 0%nat.
    cbn [join_tabs Nat.add]. destruct fs; [exact Hj |].
    by apply lookup_app_l_Some.
  - cbn in Ht. rewrite field_pos_S.
    destruct fs as [| g' fs]; [discriminate |].
    cbn [join_tabs]. rewrite lookup_app_r by lia.
    replace (S (List.length g) + field_pos (g' :: fs) t + j - List.length g)%nat
      with (S (field_pos (g' :: fs) t + j)) by lia.
    cbn [lookup list_lookup]. by apply (IH t f).
Qed.

Lemma join_lookup_tab (fs : list (list Z)) :
  forall (t : nat) (f : list Z),
    fs !! t = Some f -> (S t < List.length fs)%nat ->
    join_tabs fs !! (field_pos fs t + List.length f)%nat = Some 9.
Proof.
  induction fs as [| g fs IH]; intros t f Ht Hlt; [discriminate |].
  destruct t as [| t].
  - inversion Ht; subst g. change (field_pos (f :: fs) 0) with 0%nat.
    cbn [join_tabs Nat.add]. destruct fs; [cbn in Hlt; lia |].
    by rewrite lookup_app_r, Nat.sub_diag by lia.
  - cbn in Ht. rewrite field_pos_S.
    destruct fs as [| g' fs]; [discriminate |].
    cbn [join_tabs]. rewrite lookup_app_r by lia.
    replace (S (List.length g) + field_pos (g' :: fs) t + List.length f
             - List.length g)%nat
      with (S (field_pos (g' :: fs) t + List.length f)) by lia.
    cbn [lookup list_lookup]. apply (IH t f Ht). cbn in Hlt |- *. lia.
Qed.

Lemma join_length (fs : list (list Z)) :
  fs <> [] ->
  (List.length (join_tabs fs) + 1)%nat = field_pos fs (List.length fs).
Proof.
  induction fs as [| g fs IH]; intros Hne; [done |].
  cbn [List.length]. rewrite field_pos_S.
  destruct fs as [| g' fs].
  - cbn. lia.
  - change (join_tabs (g :: g' :: fs))
      with (g ++ 9 :: join_tabs (g' :: fs)).
    rewrite length_app.
    change (List.length (9 :: join_tabs (g' :: fs)))
      with (S (List.length (join_tabs (g' :: fs)))).
    specialize (IH ltac:(done)).
    change (List.length (g' :: fs)) with (S (List.length fs)) in IH |- *.
    lia.
Qed.

Lemma join_length_field (fs : list (list Z)) (t : nat) (f : list Z) :
  fs !! t = Some f ->
  if decide (S t = List.length fs)
  then List.length (join_tabs fs) = (field_pos fs t + List.length f)%nat
  else (field_pos fs t + List.length f < List.length (join_tabs fs))%nat.
Proof.
  intros Ht. destruct (decide (S t = List.length fs)) as [E | Hne].
  - assert (Hne : fs <> []) by (intros ->; discriminate).
    pose proof (join_length fs Hne) as H. rewrite <- E in H.
    rewrite (field_pos_next fs t f Ht) in H. lia.
  - apply lookup_lt_is_Some. rewrite join_lookup_tab; [done | exact Ht |].
    apply lookup_lt_Some in Ht. lia.
Qed.

Lemma c_string_app_nul (g rest : list Z) :
  List.Forall (fun c => c <> 0) g -> Yamshuf.c_string (g ++ 0 :: rest) = g.
Proof.
  induction 1 as [| c g Hc _ IH]; [reflexivity |].
  cbn. destruct (Z.eqb_spec c 0); [lia |]. by rewrite IH.
Qed.

Section Fields.
Variable fs : list (list Z).
Let line := join_tabs fs.
Hypothesis Hclean : List.Forall (List.Forall (fun c => c <> 0 /\ c <> 9)) fs.
Hypothesis Hlen : Z.of_nat (List.length line) < 2 ^ 31 - 1.

Lemma field_char (t : nat) (f : list Z) (j : nat) :
  fs !! t = Some f -> (j < List.length f)%nat ->
  exists c, line !! (field_pos fs t + j)%nat = Some c /\ c <> 0 /\ c <> 9.
Proof.
  intros Ht Hj. destruct (lookup_lt_is_Some_2 f j Hj) as [c Hc].
  exists c. split; [by apply (join_lookup_field fs t f) |].
  rewrite List.Forall_forall in Hclean.
  specialize (Hclean f ltac:(apply list_elem_of_In; by eapply list_elem_of_lookup_2)).
  rewrite List.Forall_forall in Hclean. apply Hclean.
  apply list_elem_of_In. by eapply list_elem_of_lookup_2.
Qed.

Lemma line_pos_bound (i : nat) (c : Z) :
  line !! i = Some c -> Z.of_nat i + 1 < 2 ^ 31 - 1.
Proof. intros H. apply lookup_lt_Some in H. lia. Qed.

(** *** [field_start] *)

Lemma field_start_run (k n : Z) (m : nat) :
  0 <= n < 2 ^ 31 - 1 -> n + 1 <> k ->
  forall (i fuel : nat),
    (forall j, (j < m)%nat ->
       exists c, line !! (i + j)%nat = Some c /\ c <> 0 /\ c <> 9) ->
    (m <= fuel)%nat ->
    field_start_loop fuel line k (Z.of_nat i) n
    = field_start_loop (fuel - m) line k (Z.of_nat (i + m)) n.
Proof.
  intros Hn Hk. induction m as [| m IH]; intros i fuel Hrun Hfuel.
  - by rewrite Nat.sub_0_r, Nat.add_0_r.
  - destruct fuel as [| fuel]; [lia |].
    destruct (Hrun 0%nat ltac:(lia)) as (c & Hc & Hc0 & Hc9).
    rewrite Nat.add_0_r in Hc. pose proof (line_pos_bound i c Hc) as Hb.
    cbn [field_start_loop]. rewrite (aget_lookup 0 line i c Hc).
    destruct (Z.eqb_spec c 0); [lia |]. destruct (Z.eqb_spec c 9); [lia |].
    rewrite (s32_small (n + 1)), (u64_small (n + 1)) by lia.
    destruct (Z.eqb_spec (n + 1) k); [lia |].
    rewrite (s32_small (Z.of_nat i + 1)) by lia.
    replace (Z.of_nat i + 1) with (Z.of_nat (S i)) by lia.
    rewrite (IH (S i) fuel); [| | lia].
    + f_equal; lia.
    + intros j Hj. specialize (Hrun (S j) ltac:(lia)).
      by replace (S i + j)%nat with (i + S j)%nat by lia.
Qed.

Lemma field_start_skip (k : Z) (t : nat) :
  (t < List.length fs)%nat -> Z.of_nat t < k ->
  forall fuel, (field_pos fs t <= fuel)%nat ->
    field_start_loop fuel line k 0 0
    = field_start_loop (fuel - field_pos fs t) line k
        (Z.of_nat (field_pos fs t)) (Z.of_nat t).
Proof.
  induction t as [| t IH]; intros Ht Hk fuel Hfuel.
  - change (field_pos fs 0) with 0%nat. by rewrite Nat.sub_0_r.
  - destruct (lookup_lt_is_Some_2 fs t ltac:(lia)) as [g Hg].
    pose proof (join_lookup_tab fs t g Hg Ht) as Htab. fold line in Htab.
    pose proof (line_pos_bound _ _ Htab) as Hb.
    pose proof (field_pos_ge fs t ltac:(lia)) as Hge.
    rewrite (field_pos_next fs t g Hg) in Hfuel |- *.
    rewrite (IH ltac:(lia) ltac:(lia) fuel ltac:(lia)).
    rewrite (field_start_run k (Z.of_nat t) (List.length g));
      [| lia | lia | intros j Hj; by apply (field_char t g) | lia].
    destruct (fuel - field_pos fs t - List.length g)%nat as [| fuel'] eqn:Ef;
      [lia |].
    cbn [field_start_loop]. rewrite (aget_lookup 0 line _ 9 Htab).
    cbn [Z.eqb]. rewrite !s32_small by lia.
    f_equal; lia.
Qed.

Lemma field_start_spec (t : nat) (f : list Z) :
  fs !! t = Some f -> f <> [] ->
  field_start line (Z.of_nat t + 1) = Z.of_nat (field_pos fs t).
Proof.
  intros Ht Hf. unfold field_start.
  assert (Htl : (t < List.length fs)%nat) by (by eapply lookup_lt_Some).
  destruct (field_char t f 0%nat Ht) as (c & Hc & Hc0 & Hc9);
    [destruct f; [done | cbn; lia] |].
  rewrite Nat.add_0_r in Hc. pose proof (line_pos_bound _ _ Hc) as Hb.
  pose proof (field_pos_ge fs t ltac:(lia)) as Hge.
  assert (Hp : (field_pos fs t < List.length line)%nat)
    by (by eapply lookup_lt_Some).
  rewrite (field_start_skip (Z.of_nat t + 1) t Htl ltac:(lia)) by lia.
  destruct (S (List.length line) - field_pos fs t)%nat as [| fuel] eqn:Ef;
    [lia |].
  cbn [field_start_loop]. rewrite (aget_lookup 0 line _ c Hc).
  destruct (Z.eqb_spec c 0); [lia |]. destruct (Z.eqb_spec c 9); [lia |].
  rewrite (s32_small (Z.of_nat t + 1)), (u64_small (Z.of_nat t + 1)) by lia.
  rewrite Z.eqb_refl. apply u64_small. lia.
Qed.

(** *** [field_end] *)

Lemma field_end_run (k n : Z) (m : nat) :
  0 <= n < 2 ^ 31 - 1 -> n <> k ->
  forall (i fuel : nat),
    (forall j, (j < m)%nat ->
       exists c, line !! (i + j)%nat = Some c /\ c <> 0 /\ c <> 9) ->
    (m <= fuel)%nat ->
    field_end_loop fuel line k (Z.of_nat i) n
    = field_end_loop (fuel - m) line k (Z.of_nat (i + m)) n.
Proof.
  intros Hn Hk. induction m as [| m IH]; intros i fuel Hrun Hfuel.
  - by rewrite Nat.sub_0_r, Nat.add_0_r.
  - destruct fuel as [| fuel]; [lia |].
    destruct (Hrun 0%nat ltac:(lia)) as (c & Hc & Hc0 & Hc9).
    rewrite Nat.add_0_r in Hc. pose proof (line_pos_bound i c Hc) as Hb.
    cbn [field_end_loop]. rewrite (aget_lookup 0 line i c Hc).
    destruct (Z.eqb_spec c 0); [lia |]. destruct (Z.eqb_spec c 9); [lia |].
    cbv zeta. rewrite (u64_small n) by lia.
    destruct (Z.eqb_spec n k); [lia |].
    rewrite (s32_small (Z.of_nat i + 1)) by lia.
    replace (Z.of_nat i + 1) with (Z.of_nat (S i)) by lia.
    rewrite (IH (S i) fuel); [| | lia].
    + f_equal; lia.
    + intros j Hj. specialize (Hrun (S j) ltac:(lia)).
      by replace (S i + j)%nat with (i + S j)%nat by lia.
Qed.

Lemma field_end_skip (k : Z) (t : nat) :
  (t < List.length fs)%nat -> Z.of_nat t < k ->
  forall fuel, (field_pos fs t <= fuel)%nat ->
    field_end_loop fuel line k 0 0
    = field_end_loop (fuel - field_pos fs t) line k
        (Z.of_nat (field_pos fs t)) (Z.of_nat t).
Proof.
  induction t as [| t IH]; intros Ht Hk fuel Hfuel.
  - change (field_pos fs 0) with 0%nat. by rewrite Nat.sub_0_r.
  - destruct (lookup_lt_is_Some_2 fs t ltac:(lia)) as [g Hg].
    pose proof (join_lookup_tab fs t g Hg Ht) as Htab. fold line in Htab.
    pose proof (line_pos_bound _ _ Htab) as Hb.
    pose proof (field_pos_ge fs t ltac:(lia)) as Hge.
    rewrite (field_pos_next fs t g Hg) in Hfuel |- *.
    rewrite (IH ltac:(lia) ltac:(lia) fuel ltac:(lia)).
    rewrite (field_end_run k (Z.of_nat t) (List.length g));
      [| lia | lia | intros j Hj; by apply (field_char t g) | lia].
    destruct (fuel - field_pos fs t - List.length g)%nat as [| fuel'] eqn:Ef;
      [lia |].
    cbn [field_end_loop]. rewrite (aget_lookup 0 line _ 9 Htab).
    change (9 =? 0) with false. change (9 =? 9) with true. cbv iota. cbv zeta. rewrite !s32_small by lia.
    rewrite (u64_small (Z.of_nat t + 1)) by lia.
    destruct (Z.eqb_spec (Z.of_nat t + 1) k); [lia |].
    f_equal; lia.
Qed.

Lemma field_end_spec (t : nat) (f : list Z) :
  fs !! t = Some f -> f <> [] ->
  field_end line (Z.of_nat t + 1)
  = Z.of_nat (field_pos fs t) + Z.of_nat (List.length f)
    - (if decide (S t = List.length fs) then 0 else 1).
Proof.
  intros Ht Hf. unfold field_end.
  assert (Htl : (t < List.length fs)%nat) by (by eapply lookup_lt_Some).
  pose proof (field_pos_ge fs t ltac:(lia)) as Hge.
  pose proof (join_length_field fs t f Ht) as Hjl. fold line in Hjl.
  assert (Hfl : (0 < List.length f)%nat) by (destruct f; [done | cbn; lia]).
  rewrite (field_end_skip (Z.of_nat t + 1) t Htl ltac:(lia))
    by (destruct (decide (S t = List.length fs)); lia).
  rewrite (field_end_run (Z.of_nat t + 1) (Z.of_nat t) (List.length f));
    [| destruct (decide (S t = List.length fs)); lia | lia
     | intros j Hj; by apply (field_char t f)
     | destruct (decide (S t = List.length fs)); lia].
  destruct (decide (S t = List.length fs)) as [E | Hne].
  - destruct (S (List.length line) - field_pos fs t - List.length f)%nat
      as [| fuel] eqn:Ef; [lia |].
    cbn [field_end_loop]. rewrite aget_oob by lia. cbn [Z.eqb].
    rewrite u64_small by lia. lia.
  - pose proof (join_lookup_tab fs t f Ht ltac:(lia)) as Htab.
    fold line in Htab.
    destruct (S (List.length line) - field_pos fs t - List.length f)%nat
      as [| fuel] eqn:Ef; [lia |].
    cbn [field_end_loop]. rewrite (aget_lookup 0 line _ 9 Htab).
    change (9 =? 0) with false. change (9 =? 9) with true. cbv iota. cbv zeta. rewrite !s32_small by lia.
    rewrite (u64_small (Z.of_nat t + 1)) by lia. rewrite Z.eqb_refl.
    rewrite u64_small by lia. lia.
Qed.

(** *** [count_field_size] *)

Lemma count_field_size_after (k : Z) :
  0 <= k ->
  forall (fuel : nat) (res i n : Z),
    0 <= n <= i -> k < n + 1 ->
    count_field_size_loop fuel line k res i n = res.
Proof.
  intros Hk. induction fuel as [| fuel IH]; intros res i n Hn Hkn;
    [reflexivity |].
  cbn [count_field_size_loop].
  destruct (Z.eqb_spec (aget 0 line i) 0) as [| Hc0]; [reflexivity |].
  assert (Hi : i < Z.of_nat (List.length line)).
  { destruct (Z.lt_ge_cases i (Z.of_nat (List.length line))); [done |].
    rewrite aget_oob in Hc0 by lia. done. }
  rewrite (s32_small (n + 1)), (s32_small (i + 1)) by lia.
  destruct (Z.eqb_spec (aget 0 line i) 9).
  - apply IH; lia.
  - rewrite (u64_small (n + 1)) by lia.
    destruct (Z.eqb_spec (n + 1) k); [lia |].
    destruct (Z.ltb_spec k (n + 1)); [reflexivity | lia].
Qed.

Lemma count_field_size_run (k n res : Z) (m : nat) (inside : bool) :
  0 <= n < 2 ^ 31 - 1 ->
  (if inside then n + 1 = k else n + 1 < k) ->
  forall (i fuel : nat) (res : Z),
    0 <= res <= Z.of_nat i ->
    (forall j, (j < m)%nat ->
       exists c, line !! (i + j)%nat = Some c /\ c <> 0 /\ c <> 9) ->
    (m <= fuel)%nat ->
    count_field_size_loop fuel line k res (Z.of_nat i) n
    = count_field_size_loop (fuel - m) line k
        (if inside then res + Z.of_nat m else res) (Z.of_nat (i + m)) n.
Proof.
  intros Hn Hk. induction m as [| m IH]; intros i fuel res' Hres Hrun Hfuel.
  - rewrite Nat.sub_0_r, Nat.add_0_r, Z.add_0_r. by destruct inside.
  - destruct fuel as [| fuel]; [lia |].
    destruct (Hrun 0%nat ltac:(lia)) as (c & Hc & Hc0 & Hc9).
    rewrite Nat.add_0_r in Hc. pose proof (line_pos_bound i c Hc) as Hb.
    cbn [count_field_size_loop]. rewrite (aget_lookup 0 line i c Hc).
    destruct (Z.eqb_spec c 0); [lia |]. destruct (Z.eqb_spec c 9); [lia |].
    rewrite (s32_small (n + 1)), (u64_small (n + 1)) by lia.
    rewrite (s32_small (Z.of_nat i + 1)) by lia.
    replace (Z.of_nat i + 1) with (Z.of_nat (S i)) by lia.
    assert (Hrun' : forall j, (j < m)%nat ->
              exists c, line !! (S i + j)%nat = Some c /\ c <> 0 /\ c <> 9).
    { intros j Hj. specialize (Hrun (S j) ltac:(lia)).
      by replace (S i + j)%nat with (i + S j)%nat by lia. }
    destruct inside.
    + destruct (Z.eqb_spec (n + 1) k); [| lia].
      rewrite (s32_small (res' + 1)) by lia.
      rewrite (IH (S i) fuel (res' + 1) ltac:(lia) Hrun' ltac:(lia)).
      f_equal; lia.
    + destruct (Z.eqb_spec (n + 1) k); [lia |].
      destruct (Z.ltb_spec k (n + 1)); [lia |].
      rewrite (IH (S i) fuel res' ltac:(lia) Hrun' ltac:(lia)).
      f_equal; lia.
Qed.

Lemma count_field_size_skip (k : Z) (t : nat) :
  (t < List.length fs)%nat -> Z.of_nat t < k ->
  forall fuel, (field_pos fs t <= fuel)%nat ->
    count_field_size_loop fuel line k 0 0 0
    = count_field_size_loop (fuel - field_pos fs t) line k 0
        (Z.of_nat (field_pos fs t)) (Z.of_nat t).
Proof.
  induction t as [| t IH]; intros Ht Hk fuel Hfuel.
  - change (field_pos fs 0) with 0%nat. by rewrite Nat.sub_0_r.
  - destruct (lookup_lt_is_Some_2 fs t ltac:(lia)) as [g Hg].
    pose proof (join_lookup_tab fs t g Hg Ht) as Htab. fold line in Htab.
    pose proof (line_pos_bound _ _ Htab) as Hb.
    pose proof (field_pos_ge fs t ltac:(lia)) as Hge.
    rewrite (field_pos_next fs t g Hg) in Hfuel |- *.
    rewrite (IH ltac:(lia) ltac:(lia) fuel ltac:(lia)).
    rewrite (count_field_size_run k (Z.of_nat t) 0 (List.length g) false);
      [| lia | lia | lia | intros j Hj; by apply (field_char t g) | lia].
    destruct (fuel - field_pos fs t - List.length g)%nat as [| fuel'] eqn:Ef;
      [lia |].
    cbn [count_field_size_loop]. rewrite (aget_lookup 0 line _ 9 Htab).
    change (9 =? 0) with false. change (9 =? 9) with true. cbv iota. rewrite !s32_small by lia.
    f_equal; lia.
Qed.

Lemma count_field_size_spec (t : nat) (f : list Z) :
  fs !! t = Some f ->
  count_field_size line (Z.of_nat t + 1) = Z.of_nat (List.length f).
Proof.
  intros Ht. unfold count_field_size.
  assert (Htl : (t < List.length fs)%nat) by (by eapply lookup_lt_Some).
  pose proof (field_pos_ge fs t ltac:(lia)) as Hge.
  pose proof (join_length_field fs t f Ht) as Hjl. fold line in Hjl.
  rewrite (count_field_size_skip (Z.of_nat t + 1) t Htl ltac:(lia))
    by (destruct (decide (S t = List.length fs)); lia).
  rewrite (count_field_size_run (Z.of_nat t + 1) (Z.of_nat t) 0
             (List.length f) true);
    [| destruct (decide (S t = List.length fs)); lia | lia | lia
     | intros j Hj; by apply (field_char t f)
     | destruct (decide (S t = List.length fs)); lia].
  rewrite Z.add_0_l.
  destruct (decide (S t = List.length fs)) as [E | Hne].
  - destruct (S (List.length line) - field_pos fs t - List.length f)%nat
      as [| fuel] eqn:Ef; [lia |].
    cbn [count_field_size_loop]. rewrite aget_oob by lia. cbn [Z.eqb].
    apply u64_small. lia.
  - pose proof (join_lookup_tab fs t f Ht ltac:(lia)) as Htab.
    fold line in Htab.
    destruct (S (List.length line) - field_pos fs t - List.length f)%nat
      as [| fuel] eqn:Ef; [lia |].
    cbn [count_field_size_loop]. rewrite (aget_lookup 0 line _ 9 Htab).
    change (9 =? 0) with false. change (9 =? 9) with true. cbv iota. rewrite !s32_small by lia.
    rewrite count_field_size_after by lia.
    apply u64_small. lia.
Qed.

(** *** [count_fields] *)

Lemma count_fields_run (m : nat) :
  forall (i fuel : nat) (res : Z),
    (forall j, (j < m)%nat ->
       exists c, line !! (i + j)%nat = Some c /\ c <> 0 /\ c <> 9) ->
    (m <= fuel)%nat ->
    count_fields_loop fuel line res (Z.of_nat i)
    = count_fields_loop (fuel - m) line res (Z.of_nat (i + m)).
Proof.
  induction m as [| m IH]; intros i fuel res Hrun Hfuel.
  - by rewrite Nat.sub_0_r, Nat.add_0_r.
  - destruct fuel as [| fuel]; [lia |].
    destruct (Hrun 0%nat ltac:(lia)) as (c & Hc & Hc0 & Hc9).
    rewrite Nat.add_0_r in Hc. pose proof (line_pos_bound i c Hc) as Hb.
    cbn [count_fields_loop]. rewrite (aget_lookup 0 line i c Hc).
    destruct (Z.eqb_spec c 0); [lia |]. destruct (Z.eqb_spec c 9); [lia |].
    rewrite (s32_small (Z.of_nat i + 1)) by lia.
    replace (Z.of_nat i + 1) with (Z.of_nat (S i)) by lia.
    rewrite (IH (S i) fuel); [| | lia].
    + f_equal; lia.
    + intros j Hj. specialize (Hrun (S j) ltac:(lia)).
      by replace (S i + j)%nat with (i + S j)%nat by lia.
Qed.

Lemma count_fields_skip (t : nat) :
  (t < List.length fs)%nat ->
  forall fuel, (field_pos fs t <= fuel)%nat ->
    count_fields_loop fuel line 1 0
    = count_fields_loop (fuel - field_pos fs t) line (1 + Z.of_nat t)
        (Z.of_nat (field_pos fs t)).
Proof.
  induction t as [| t IH]; intros Ht fuel Hfuel.
  - change (field_pos fs 0) with 0%nat. by rewrite Nat.sub_0_r.
  - destruct (lookup_lt_is_Some_2 fs t ltac:(lia)) as [g Hg].
    pose proof (join_lookup_tab fs t g Hg Ht) as Htab. fold line in Htab.
    pose proof (line_pos_bound _ _ Htab) as Hb.
    pose proof (field_pos_ge fs t ltac:(lia)) as Hge.
    rewrite (field_pos_next fs t g Hg) in Hfuel |- *.
    rewrite (IH ltac:(lia) fuel ltac:(lia)).
    rewrite (count_fields_run (List.length g));
      [| intros j Hj; by apply (field_char t g) | lia].
    destruct (fuel - field_pos fs t - List.length g)%nat as [| fuel'] eqn:Ef;
      [lia |].
    cbn [count_fields_loop]. rewrite (aget_lookup 0 line _ 9 Htab).
    change (9 =? 0) with false. change (9 =? 9) with true. cbv iota. rewrite !s32_small by lia.
    f_equal; lia.
Qed.

Lemma count_fields_spec :
  fs <> [] -> count_fields line = Z.of_nat (List.length fs).
Proof.
  intros Hne. unfold count_fields.
  assert (Hl : (0 < List.length fs)%nat) by (destruct fs; [done | cbn; lia]).
  destruct (lookup_lt_is_Some_2 fs (List.length fs - 1) ltac:(lia))
    as [f Hf].
  pose proof (join_length_field fs _ f Hf) as Hjl. fold line in Hjl.
  destruct (decide (S (List.length fs - 1) = List.length fs)); [| lia].
  pose proof (field_pos_ge fs (List.length fs - 1) ltac:(lia)) as Hge.
  rewrite (count_fields_skip (List.length fs - 1)) by lia.
  rewrite (count_fields_run (List.length f));
    [| intros j Hj; by apply (field_char _ f) | lia].
  destruct (S (List.length line) - field_pos fs (List.length fs - 1)
            - List.length f)%nat as [| fuel] eqn:Ef; [lia |].
  cbn [count_fields_loop]. rewrite aget_oob by lia. cbn [Z.eqb].
  rewrite u64_small by lia. lia.
Qed.

(** *** [parse_bed_field] *)

(** The characters that [parse_bed_field] copies. *)
Definition kept (no_spaces : bool) (c : Z) : bool :=
  negb (no_spaces && isspace c).

(** The buffer [field] with the text [g] at its start. *)
Definition field_buf (g : list Z) : list Z :=
  g ++ replicate (Z.to_nat MOTIF_VALUE_MAX_CHAR - List.length g) 0.

Lemma aset_field_buf (g : list Z) (c : Z) :
  Z.of_nat (List.length g) < MOTIF_VALUE_MAX_CHAR ->
  aset (field_buf g) (Z.of_nat (List.length g)) c = field_buf (g ++ [c]).
Proof.
  unfold MOTIF_VALUE_MAX_CHAR. intros Hg. unfold aset, field_buf.
  destruct (Z.ltb_spec (Z.of_nat (List.length g)) 0); [lia |].
  rewrite Nat2Z.id, insert_app_r_alt, Nat.sub_diag by lia.
  rewrite length_app. cbn [List.length].
  replace (Z.to_nat MOTIF_VALUE_MAX_CHAR - List.length g)%nat
    with (S (Z.to_nat MOTIF_VALUE_MAX_CHAR - (List.length g + 1)))
    by (unfold MOTIF_VALUE_MAX_CHAR; lia).
  cbn [replicate]. by rewrite <- app_assoc.
Qed.

Lemma c_string_field_buf (g : list Z) :
  Z.of_nat (List.length g) < MOTIF_VALUE_MAX_CHAR ->
  List.Forall (fun c => c <> 0) g ->
  Yamshuf.c_string (field_buf g) = g.
Proof.
  intros Hg Hnz. unfold field_buf.
  replace (Z.to_nat MOTIF_VALUE_MAX_CHAR - List.length g)%nat
    with (S (Z.to_nat MOTIF_VALUE_MAX_CHAR - (List.length g + 1)))
    by (unfold MOTIF_VALUE_MAX_CHAR in *; lia).
  cbn [replicate]. by apply c_string_app_nul.
Qed.

Lemma kept_length (no_spaces : bool) (l : list Z) :
  (List.length (List.filter (kept no_spaces) l) <= List.length l)%nat.
Proof. apply List.filter_length_le. Qed.

Lemma copy_run (no_spaces : bool) (t : nat) (f : list Z) :
  fs !! t = Some f ->
  Z.of_nat (List.length f) < MOTIF_VALUE_MAX_CHAR ->
  forall m : nat, (m <= List.length f)%nat ->
    let g := List.filter (kept no_spaces) (take m f) in
    fold_left
      (fun (st : list Z * Z * Z) i =>
         let '(field, field_it, size_i) := st in
         if no_spaces && isspace (aget 0 line i)
         then (field, field_it, u64 (size_i - 1))
         else (aset field field_it (aget 0 line i), u64 (field_it + 1),
               size_i))
      (upto (Z.of_nat (field_pos fs t)) (Z.of_nat (field_pos fs t + m)))
      (replicate (Z.to_nat MOTIF_VALUE_MAX_CHAR) 0, 0,
       Z.of_nat (List.length f))
    = (field_buf g, Z.of_nat (List.length g),
       Z.of_nat (List.length f) - (Z.of_nat m - Z.of_nat (List.length g))).
Proof.
  intros Ht Hf. induction m as [| m IH]; intros Hm; cbv zeta.
  - rewrite Nat.add_0_r, upto_nil, take_0 by lia.
    cbn [List.filter fold_left].
    unfold field_buf. cbn [List.length app]. rewrite Nat.sub_0_r.
    replace (Z.of_nat (List.length f) - (Z.of_nat 0 - Z.of_nat 0))
      with (Z.of_nat (List.length f)) by lia.
    reflexivity.
  - replace (Z.of_nat (field_pos fs t + S m))
      with (Z.of_nat (field_pos fs t + m) + 1) by lia.
    rewrite upto_snoc, fold_left_app by lia.
    rewrite (IH ltac:(lia)). cbn [fold_left].
    destruct (lookup_lt_is_Some_2 f m ltac:(lia)) as [c Hc].
    pose proof (join_lookup_field fs t f m c Ht Hc) as Hl. fold line in Hl.
    rewrite (aget_lookup 0 line _ c Hl).
    rewrite (take_S_r f m c Hc), List.filter_app.
    pose proof (kept_length no_spaces (take m f)) as Hk.
    rewrite length_take in Hk.
    set (g := List.filter (kept no_spaces) (take m f)) in *.
    cbn [List.filter].
    replace (kept no_spaces c) with (negb (no_spaces && isspace c))
      by reflexivity.
    destruct (no_spaces && isspace c); cbn [negb].
    + rewrite app_nil_r, u64_small
        by (unfold MOTIF_VALUE_MAX_CHAR in *; lia).
      f_equal; lia.
    + rewrite aset_field_buf by (unfold MOTIF_VALUE_MAX_CHAR in *; lia).
      rewrite length_app. cbn [List.length].
      rewrite u64_small by (unfold MOTIF_VALUE_MAX_CHAR in *; lia).
      f_equal; [f_equal; lia | lia].
Qed.

Lemma parse_bed_field_spec (no_spaces : bool) (t : nat) (f : list Z) :
  fs !! t = Some f ->
  Z.of_nat (List.length f) < MOTIF_VALUE_MAX_CHAR ->
  let g := List.filter (kept no_spaces) f in
  parse_bed_field line (Z.of_nat t + 1) no_spaces
  = (g, Z.of_nat (List.length g)).
Proof.
  intros Ht Hf g. unfold parse_bed_field.
  rewrite (count_field_size_spec t f Ht).
  destruct (Z.ltb_spec 0 (Z.of_nat (List.length f))) as [Hpos | Hz].
  - assert (Hne : f <> []) by (intros ->; cbn in Hpos; lia).
    rewrite (field_start_spec t f Ht Hne), (field_end_spec t f Ht Hne).
    assert (Hg : Z.of_nat (List.length g) < MOTIF_VALUE_MAX_CHAR).
    { pose proof (kept_length no_spaces f). subst g. lia. }
    assert (Hgz : List.Forall (fun c => c <> 0) g).
    { rewrite List.Forall_forall in Hclean |- *. intros c Hc.
      subst g. apply List.filter_In in Hc as [Hc _].
      specialize (Hclean f ltac:(apply list_elem_of_In;
                                  by eapply list_elem_of_lookup_2)).
      rewrite List.Forall_forall in Hclean. by apply Hclean. }
    pose proof (copy_run no_spaces t f Ht Hf (List.length f) ltac:(lia))
      as Hrun.
    cbv zeta in Hrun. rewrite firstn_all in Hrun. fold g in Hrun.
    pose proof (join_length_field fs t f Ht) as Hjl. fold line in Hjl.
    destruct (decide (S t = List.length fs)) as [E | Hn].
    + replace (Z.of_nat (field_pos fs t) + Z.of_nat (List.length f) - 0 + 1)
        with (Z.of_nat (field_pos fs t + List.length f) + 1) by lia.
      rewrite upto_snoc, fold_left_app by lia.
      rewrite Hrun. cbn [fold_left].
      rewrite aget_oob by lia.
      replace (no_spaces && isspace 0) with false by (by destruct no_spaces).
      rewrite aset_field_buf by lia.
      f_equal; [| lia].
      unfold field_buf. rewrite <- app_assoc. cbn [app].
      by apply c_string_app_nul.
    + replace (Z.of_nat (field_pos fs t) + Z.of_nat (List.length f) - 1 + 1)
        with (Z.of_nat (field_pos fs t + List.length f)) by lia.
      rewrite Hrun. f_equal; [| lia].
      by apply c_string_field_buf.
  - assert (f = []) as -> by (destruct f; [done | cbn in Hz; lia]).
    reflexivity.
Qed.

End Fields.

(** X17: a line of fields joined by tabs reads back as written.
    [count_fields] is the number of fields, and [parse_bed_field] leaves in
    its buffer the field with the given 1-based number, and returns its
    length; with [no_spaces] the white space inside the field is dropped
    first.  An empty field, or with [no_spaces] a field of white space only,
    comes back with the length 0 that [read_bed] takes for an error. *)
Theorem parse_bed_field_round_trip
  (fs : list (list Z)) (t : nat) (f : list Z) (no_spaces : bool) :
  List.Forall (List.Forall (fun c => c <> 0 /\ c <> 9)) fs ->
  Z.of_nat (List.length (join_tabs fs)) < 2 ^ 31 - 1 ->
  fs !! t = Some f ->
  Z.of_nat (List.length f) < MOTIF_VALUE_MAX_CHAR ->
  let g :=
    if no_spaces then List.filter (fun c => negb (isspace c)) f else f in
  count_fields (join_tabs fs) = Z.of_nat (List.length fs) /\
  parse_bed_field (join_tabs fs) (Z.of_nat t + 1) no_spaces
  = (g, Z.of_nat (List.length g)).
Proof.
  intros Hclean Hlen Ht Hf g. split.
  - apply count_fields_spec; [exact Hclean | exact Hlen |].
    intros ->. discriminate.
  - rewrite (parse_bed_field_spec fs Hclean Hlen no_spaces t f Ht Hf).
    cbv zeta.
    assert (E : List.filter (kept no_spaces) f = g).
    { subst g. destruct no_spaces; [reflexivity |].
      unfold kept. cbn [andb negb]. clear. induction f as [| c f IH];
        [reflexivity | cbn; by rewrite IH]. }
    by rewrite E.
Qed.

(** The line [chr1<TAB>10<TAB>2 0] has three fields; the third one is read
    as 20 when spaces are dropped. *)
Lemma parse_bed_field_round_trip_witness :
  let fs := [bytes_of "chr1"; bytes_of "10"; bytes_of "2 0"] in
  count_fields (join_tabs fs) = 3 /\
  parse_bed_field (join_tabs fs) 3 true = (bytes_of "20", 2).
Proof.
  intros fs.
  refine (parse_bed_field_round_trip fs 2 (bytes_of "2 0") true _ _ _ _).
  - repeat constructor; discriminate.
  - vm_compute. reflexivity.
  - reflexivity.
  - vm_compute. reflexivity.
Defined.

End Lines.

(** ** Probabilities and counts of a motif column (yamscan.c) *)
Section Columns.
Import Yamscan.

(** The score that [pcm_to_pwm] stores for the count [c] of base [i], with
    [nsites] the sum of the counts of the first column. *)
Definition count_score (a : args_t) (nsites c i : Z) : Z :=
  calc_score a
    ((inject_Z (pseudocount a) / 4 + inject_Z c)
     / (inject_Z (pseudocount a) + inject_Z nsites))%Q
    (aget 0%Q (bkg a) i).

Definition counts_total (m : motif_t) (j : Z) : Z :=
  get_score_i m 0 j + get_score_i m 1 j + get_score_i m 2 j
  + get_score_i m 3 j.

Lemma column_sum_total (m : motif_t) (j : Z) :
  (forall i, 0 <= i < 4 -> 0 <= get_score_i m i j <= 2 ^ 28) ->
  column_sum m j = counts_total m j.
Proof.
  intros H. unfold column_sum, counts_total.
  pose proof (H 0 ltac:(lia)). pose proof (H 1 ltac:(lia)).
  pose proof (H 2 ltac:(lia)). pose proof (H 3 ltac:(lia)).
  change (upto 0 4) with [0; 1; 2; 3]. cbn [fold_left].
  rewrite (s32_small (0 + get_score_i m 0 j)) by lia.
  rewrite (s32_small (0 + get_score_i m 0 j + get_score_i m 1 j)) by lia.
  rewrite (s32_small (0 + get_score_i m 0 j + get_score_i m 1 j
                      + get_score_i m 2 j)) by lia.
  rewrite s32_small by lia. lia.
Qed.

Lemma cell_index (i j : Z) :
  0 <= i < 5 -> 0 <= j < 50 -> u64 (i + j * 5) = i + j * 5.
Proof. intros Hi Hj. apply u64_small. lia. Qed.

(** X19: [pcm_to_pwm] stops the run exactly when the counts of some column
    sum to a number that differs by more than 1 from the sum of the first
    column.  Otherwise every count is replaced by the score of its own
    value (no count is read after it was overwritten), with the sum of the
    first column as the number of sites for every column; the size, the
    row of the ambiguous letters and the columns past the size are left as
    they were. *)
Theorem pcm_to_pwm_spec (a : args_t) (m : motif_t) :
  0 <= size m <= 50 ->
  List.length (pwm m) = 250%nat ->
  (forall i j, 0 <= i < 4 -> 0 <= j < 50 ->
     0 <= get_score_i m i j <= 2 ^ 28) ->
  match pcm_to_pwm a m with
  | None =>
      exists j, 0 <= j < size m /\
        1 < Z.abs (counts_total m j - counts_total m 0)
  | Some m' =>
      (forall j, 0 <= j < size m ->
         Z.abs (counts_total m j - counts_total m 0) <= 1) /\
      size m' = size m /\
      forall i j, 0 <= i < 5 -> 0 <= j < 50 ->
        get_score_i m' i j
        = if (i <? 4) && (j <? size m)
          then count_score a (counts_total m 0) (get_score_i m i j) i
          else get_score_i m i j
  end.
Proof.
  intros Hsz Hlen Hc. unfold pcm_to_pwm.
  assert (Hcs : forall j, 0 <= j < 50 -> column_sum m j = counts_total m j).
  { intros j Hj. apply column_sum_total. intros i Hi. by apply Hc. }
  assert (Hct : forall j, 0 <= j < 50 -> 0 <= counts_total m j <= 2 ^ 30).
  { intros j Hj. unfold counts_total.
    pose proof (Hc 0 j ltac:(lia) Hj). pose proof (Hc 1 j ltac:(lia) Hj).
    pose proof (Hc 2 j ltac:(lia) Hj). pose proof (Hc 3 j ltac:(lia) Hj).
    lia. }
  rewrite (Hcs 0) by lia. pose proof (Hct 0 ltac:(lia)) as H0.
  set (n0 := counts_total m 0) in *.
  destruct (existsb _ (upto 0 (size m))) eqn:Ex.
  - apply existsb_exists in Ex as (j & Hj & Hbad). apply In_upto in Hj.
    exists j. split; [exact Hj |]. pose proof (Hct j ltac:(lia)).
    rewrite (Hcs j), s32_small in Hbad by lia. lia.
  - split.
    { intros j Hj. pose proof (Hct j ltac:(lia)).
      destruct (Z_le_gt_dec (Z.abs (counts_total m j - n0)) 1) as [| Hgt];
        [done |].
      exfalso. apply not_true_iff_false in Ex. apply Ex.
      apply existsb_exists. exists j. split; [apply In_upto; lia |].
      rewrite (Hcs j), s32_small by lia. lia. }
    pose (new := fun i j => count_score a n0 (get_score_i m i j) i).
    pose (P := fun (j : Z) (m' : motif_t) =>
      size m' = size m /\ List.length (pwm m') = 250%nat /\
      forall i' j', 0 <= i' < 5 -> 0 <= j' < 50 ->
        get_score_i m' i' j'
        = if (i' <? 4) && (j' <? j) then new i' j' else get_score_i m i' j').
    match goal with
    | |- context [fold_left ?f (upto 0 (size m)) m] =>
        assert (HP : P (size m) (fold_left f (upto 0 (size m)) m))
    end.
    { apply (fold_left_upto_ind P); subst P; cbv beta; [lia | |].
      - split; [done |]. split; [done |]. intros i' j' Hi' Hj'.
        destruct (Z.ltb_spec j' 0); [lia |]. by rewrite andb_false_r.
      - intros j m1 Hj (Hs1 & Hl1 & Hv1).
        pose (Q := fun (i : Z) (m' : motif_t) =>
          size m' = size m /\ List.length (pwm m') = 250%nat /\
          forall i' j', 0 <= i' < 5 -> 0 <= j' < 50 ->
            get_score_i m' i' j'
            = if (i' <? 4) && ((j' <? j) || ((j' =? j) && (i' <? i)))
              then new i' j' else get_score_i m i' j').
        match goal with
        | |- context [fold_left ?f (upto 0 4) m1] =>
            assert (HQ : Q 4 (fold_left f (upto 0 4) m1))
        end.
        { apply (fold_left_upto_ind Q); subst Q; cbv beta; [lia | |].
          - split; [done |]. split; [done |]. intros i' j' Hi' Hj'.
            rewrite (Hv1 i' j' Hi' Hj').
            destruct (Z.ltb_spec i' 0); [lia |].
            by rewrite andb_false_r, orb_false_r.
          - intros i m2 Hi (Hs2 & Hl2 & Hv2).
            assert (El : char2index (aget 0 [chr "A"; chr "C"; chr "G"; chr "T"] i)
                         = i) by (index_cases Hi; reflexivity).
            unfold set_score. rewrite El.
            split; [done |]. split; [cbn [pwm with_pwm]; by rewrite length_aset |].
            intros i' j' Hi' Hj'. unfold get_score_i at 1.
            cbn [pwm with_pwm].
            rewrite (cell_index i j), (cell_index i' j') by lia.
            rewrite aget_aset by lia.
            pose proof (Hv2 i' j' Hi' Hj') as Hold.
            unfold get_score_i at 1 in Hold.
            rewrite (cell_index i' j') in Hold by lia.
            destruct (Z.eqb_spec (i + j * 5) (i' + j' * 5)) as [E | Hne].
            + assert (i' = i /\ j' = j) as [-> ->] by lia.
              destruct (Z.ltb_spec i 4); [| lia].
              destruct (Z.ltb_spec j j); [lia |].
              rewrite Z.eqb_refl.
              destruct (Z.ltb_spec i (i + 1)); [| lia].
              cbn [andb orb]. subst new. cbv beta. unfold count_score.
              rewrite (Hv2 i j ltac:(lia) ltac:(lia)).
              destruct (Z.ltb_spec i 4); [| lia].
              destruct (Z.ltb_spec j j); [lia |].
              rewrite Z.eqb_refl. destruct (Z.ltb_spec i i); [lia |].
              reflexivity.
            + rewrite Hold.
              destruct (Z.ltb_spec i' 4), (Z.ltb_spec j' j),
                       (Z.eqb_spec j' j), (Z.ltb_spec i' i),
                       (Z.ltb_spec i' (i + 1));
                cbn [andb orb]; try reflexivity; lia. }
        subst Q. cbv beta in HQ. destruct HQ as (Hs2 & Hl2 & Hv2).
        split; [exact Hs2 |]. split; [exact Hl2 |].
        intros i' j' Hi' Hj'. rewrite (Hv2 i' j' Hi' Hj').
        destruct (Z.ltb_spec i' 4), (Z.ltb_spec j' j),
                 (Z.eqb_spec j' j), (Z.ltb_spec j' (j + 1));
          cbn [andb orb]; try reflexivity; lia. }
    subst P. cbv beta in HP. destruct HP as (Hs' & _ & Hv').
    split; [exact Hs' | exact Hv'].
Qed.

(** Two columns of counts, 10 sites each. *)
Lemma pcm_to_pwm_spec_witness :
  let m :=
    mk_motif
      (aset (aset (aset init_pwm 0 10) 5 4) 6 6)
      init_pwm [] 0 2 0 0 0 0 0 0 0 "M" in
  exists m',
    pcm_to_pwm args m = Some m' /\
    get_score_i m' 1 1 = count_score args 10 6 1 /\
    get_score_i m' 4 1 = AMBIGUITY_SCORE.
Proof.
  intros m.
  assert (Hc : forall i j, 0 <= i < 4 -> 0 <= j < 50 ->
            0 <= get_score_i m i j <= 2 ^ 28).
  { intros i j Hi Hj.
    assert (H : forallb
                  (fun j =>
                     forallb
                       (fun i => (0 <=? get_score_i m i j)
                                 && (get_score_i m i j <=? 2 ^ 28))
                       (upto 0 4))
                  (upto 0 50) = true) by (vm_compute; reflexivity).
    rewrite forallb_forall in H.
    specialize (H j ltac:(apply In_upto; lia)).
    rewrite forallb_forall in H.
    specialize (H i ltac:(apply In_upto; lia)). lia. }
  pose proof (pcm_to_pwm_spec args m ltac:(cbn; lia) eq_refl Hc) as H.
  destruct (pcm_to_pwm args m) as [m' |].
  - destruct H as (_ & _ & Hv). exists m'. split; [reflexivity |].
    split.
    + rewrite (Hv 1 1 ltac:(lia) ltac:(lia)). reflexivity.
    + rewrite (Hv 4 1 ltac:(lia) ltac:(lia)). reflexivity.
  - exfalso. destruct H as (j & Hj & Hbad).
    change (size m) with 2 in Hj.
    assert (j = 0 \/ j = 1) as [-> | ->] by lia;
      vm_compute in Hbad; discriminate.
Defined.

End Columns.

(** ** The best score of a motif (yamscan.c) *)
Section BestScore.
Import Yamscan.

Lemma Zsum_map_le {A} (f g : A -> Z) (l : list A) :
  (forall x, In x l -> f x <= g x) ->
  Zsum (List.map f l) <= Zsum (List.map g l).
Proof.
  induction l as [| x l IH]; intros H; [reflexivity |].
  cbn [List.map]. change (Zsum (?y :: ?t)) with (y + Zsum t).
  pose proof (H x ltac:(by left)).
  specialize (IH ltac:(intros y Hy; apply H; by right)).
  unfold Zsum in *. cbn [fold_right]. lia.
Qed.

Lemma Zsum_map_bounds (f : Z -> Z) (n lo hi : Z) :
  0 <= n ->
  (forall i, 0 <= i < n -> lo <= f i <= hi) ->
  n * lo <= Zsum (List.map f (upto 0 n)) <= n * hi.
Proof.
  intros Hn. pattern n. apply natlike_ind; [| | exact Hn]; clear n Hn.
  - intros _. rewrite upto_nil by lia. cbn. lia.
  - intros n Hn IH Hf. rewrite <- Z.add_1_r.
    rewrite upto_snoc, map_app, Zsum_app by lia.
    cbn [List.map]. change (Zsum [f n]) with (f n + 0).
    specialize (IH ltac:(intros i Hi; apply Hf; lia)).
    pose proof (Hf n ltac:(lia)). lia.
Qed.

Lemma fold_left_ext_eq {A B} (f g : A -> B -> A) (l : list B) (s : A) :
  (forall acc i, f acc i = g acc i) -> fold_left f l s = fold_left g l s.
Proof.
  intros H. revert s. induction l as [| x l IH]; intros s; [reflexivity |].
  cbn [fold_left]. by rewrite H, IH.
Qed.

Lemma max_if (x y : Z) : (if x <? y then y else x) = Z.max x y.
Proof. destruct (Z.ltb_spec x y); lia. Qed.

Lemma max_pos_spec (m : motif_t) (i : Z) (lo hi : Z) :
  (forall j, 0 <= j < 4 -> lo <= get_score_i m j i <= hi) ->
  lo <= max_pos m i <= hi /\
  forall j, 0 <= j < 4 -> get_score_i m j i <= max_pos m i.
Proof.
  intros H. unfold max_pos. change (upto 1 4) with [1; 2; 3].
  cbn [fold_left]. cbv zeta. rewrite !max_if.
  pose proof (H 0 ltac:(lia)). pose proof (H 1 ltac:(lia)).
  pose proof (H 2 ltac:(lia)). pose proof (H 3 ltac:(lia)).
  split; [lia |]. intros j Hj. index_cases Hj; lia.
Qed.

(** The scores of a motif after [complete_motifs], [fill_cdf] (which
    stores an array [c]) and [set_threshold]. *)
Definition scored (a : args_t) (m0 : motif_t) (c : list Q) : motif_t :=
  set_threshold a (with_cdf (complete_motif a m0) c).

Section Scored.
Variables (a : args_t) (m0 : motif_t) (c : list Q).
Hypothesis Hsz : 0 < size m0 <= 50.
Hypothesis Hlen : List.length (pwm_rc m0) = 250%nat.
Hypothesis Hsc : forall i j, 0 <= i < size m0 -> 0 <= j < 4 ->
  - 20000 <= get_score_i m0 j i <= 20000.
Hypothesis Hamb : ambiguity_rows m0.
Hypothesis Hms : max_score m0 = 0.

Let m := scored a m0 c.

Lemma scored_fields :
  size m = size m0 /\ pwm m = pwm m0 /\
  pwm_rc m = pwm_rc (fill_pwm_rc m0) /\
  max_score m = Zsum (List.map (max_pos m0) (upto 0 (size m0))) /\
  - 1000000 <= max_score m <= 1000000 /\
  (thresh0 a = false -> is_consensus a = true -> threshold m = max_score m).
Proof.
  destruct (complete_motif_ready a m0 ltac:(lia) Hlen Hsc)
    as (_ & Esz & Epwm & _ & _ & _ & _ & _ & Emx & _).
  assert (Emax : max_score m
                 = fold_left (fun acc i => s32 (acc + max_pos m0 i))
                     (upto 0 (size m0)) 0).
  { subst m. unfold scored, set_threshold. cbn [max_score size with_cdf].
    rewrite Esz, Emx, Hms. apply fold_left_ext_eq. intros acc i.
    unfold max_pos, get_score_i. cbn [pwm with_cdf]. by rewrite Epwm. }
  assert (Hb : size m0 * (- 20000)
               <= Zsum (List.map (max_pos m0) (upto 0 (size m0)))
               <= size m0 * 20000).
  { apply Zsum_map_bounds; [lia |]. intros i Hi.
    apply (max_pos_spec m0 i). intros j Hj. by apply Hsc. }
  change 0 with (s32 0) in Emax at 2.
  rewrite fold_left_s32, s32_small in Emax by lia.
  rewrite Z.add_0_l in Emax.
  split; [exact Esz |]. split; [exact Epwm |]. split; [reflexivity |].
  split; [exact Emax |]. split; [lia |].
  intros Ht Hc. subst m. unfold scored, set_threshold.
  cbn [threshold max_score]. by rewrite Ht, Hc.
Qed.

Lemma scores_le_max_score (seq : list Z) (offset : Z) :
  let tab := if mask a then char2maskindex else char2index in
  (- 2 ^ 30 <= score_subseq m seq offset tab <= max_score m) /\
  (- 2 ^ 30 <= score_subseq_rev m seq offset tab <= max_score m).
Proof.
  intros tab.
  destruct scored_fields as (Esz & Epwm & Erc & Emax & Hmb & _).
  destruct (fill_pwm_rc_spec m0 ltac:(lia) Hlen) as (_ & _ & Hrc).
  assert (Hmp : forall i, 0 <= i < size m0 ->
            - 20000 <= max_pos m0 i <= 20000 /\
            forall j, 0 <= j < 4 -> get_score_i m0 j i <= max_pos m0 i).
  { intros i Hi. apply max_pos_spec. intros j Hj. by apply Hsc. }
  assert (Hl : forall ch, 0 <= tab ch <= 4)
    by (intros ch; apply (scan_index_range (mask a))).
  pose proof Hamb as Hamb'. unfold ambiguity_rows, AMBIGUITY_SCORE in Hamb'.
  assert (Hf : forall i, 0 <= i < size m0 ->
            - 10000000 <= get_score m (aget 0 seq (u64 (i + offset))) i tab
            <= max_pos m0 i).
  { intros i Hi. unfold get_score. rewrite Epwm.
    set (l := tab (aget 0 seq (u64 (i + offset)))).
    pose proof (Hl (aget 0 seq (u64 (i + offset)))) as Hl'. fold l in Hl'.
    rewrite u64_small by lia.
    destruct (Hmp i Hi) as (Hm1 & Hm2).
    destruct (Z.eq_dec l 4) as [-> | Hne].
    - rewrite (proj1 (Hamb' i Hi)). lia.
    - pose proof (Hm2 l ltac:(lia)) as H1.
      pose proof (Hsc i l Hi ltac:(lia)) as H2.
      unfold get_score_i in H1, H2. rewrite u64_small in H1, H2 by lia.
      lia. }
  assert (Hr : forall i, 0 <= i < size m0 ->
            - 10000000
            <= get_score_rc m (aget 0 seq (u64 (i + offset))) i tab
            <= max_pos m0 (size m0 - 1 - i)).
  { intros i Hi. unfold get_score_rc. rewrite Erc.
    set (l := tab (aget 0 seq (u64 (i + offset)))).
    pose proof (Hl (aget 0 seq (u64 (i + offset)))) as Hl'. fold l in Hl'.
    rewrite u64_small by lia. rewrite Hrc by lia.
    destruct (Hmp (size m0 - 1 - i) ltac:(lia)) as (Hm1 & Hm2).
    destruct (Z.ltb_spec i (size m0)); [| lia].
    destruct (Z.ltb_spec l 4); cbn [andb].
    - pose proof (Hm2 (3 - l) ltac:(lia)) as H1.
      pose proof (Hsc (size m0 - 1 - i) (3 - l) ltac:(lia) ltac:(lia)) as H2.
      unfold get_score_i in H1, H2. rewrite u64_small in H1, H2 by lia.
      lia.
    - assert (l = 4) as -> by lia. rewrite (proj2 (Hamb' i Hi)). lia. }
  rewrite score_subseq_sum, score_subseq_rev_sum, Esz.
  pose proof (Zsum_map_bounds _ (size m0) (- 10000000) 20000 ltac:(lia)
                (fun i Hi => conj (proj1 (Hf i Hi))
                   (Z.le_trans _ _ _ (proj2 (Hf i Hi))
                      (proj2 (proj1 (Hmp i Hi)))))) as Hb1.
  pose proof (Zsum_map_bounds _ (size m0) (- 10000000) 20000 ltac:(lia)
                (fun i Hi => conj (proj1 (Hr i Hi))
                   (Z.le_trans _ _ _ (proj2 (Hr i Hi))
                      (proj2 (proj1 (Hmp (size m0 - 1 - i)
                                       ltac:(lia))))))) as Hb2.
  rewrite !s32_small by lia. rewrite Emax. split; (split; [lia |]).
  - apply Zsum_map_le. intros i Hi. apply In_upto in Hi. by apply Hf.
  - rewrite <- (Zsum_mirror (max_pos m0) (size m0)) by lia.
    apply Zsum_map_le. intros i Hi. apply In_upto in Hi. by apply Hr.
Qed.

End Scored.

(** X20: [max_score], which [set_threshold] adds up from the best base of
    every position, is an upper bound of the score of every window on
    either strand, whatever the letters of the window are: the score in
    percent of a row is never above 100. *)
Theorem window_score_at_most_max_score
  (a : args_t) (m0 : motif_t) (c : list Q) (seq : list Z) (offset : Z) :
  0 < size m0 <= 50 ->
  List.length (pwm_rc m0) = 250%nat ->
  (forall i j, 0 <= i < size m0 -> 0 <= j < 4 ->
     - 20000 <= get_score_i m0 j i <= 20000) ->
  ambiguity_rows m0 ->
  max_score m0 = 0 ->
  let m := scored a m0 c in
  let tab := if mask a then char2maskindex else char2index in
  score_subseq m seq offset tab <= max_score m /\
  score_subseq_rev m seq offset tab <= max_score m.
Proof.
  intros Hsz Hlen Hsc Hamb Hms m tab.
  destruct (scores_le_max_score a m0 c Hsz Hlen Hsc Hamb Hms seq offset)
    as ((_ & H1) & (_ & H2)).
  split; [exact H1 | exact H2].
Qed.

Lemma window_score_at_most_max_score_witness :
  let m := scored args Examples.acgt_scores [] in
  score_subseq m (bytes_of "AAACGTAA") 2 char2index <= max_score m.
Proof.
  intros m.
  refine (proj1 (window_score_at_most_max_score args Examples.acgt_scores []
                   (bytes_of "AAACGTAA") 2 _ _ _ _ _)).
  - vm_compute. split; [reflexivity | discriminate].
  - reflexivity.
  - intros i j Hi Hj. change (size Examples.acgt_scores) with 4 in Hi.
    index_cases Hi; index_cases Hj; vm_compute; split; discriminate.
  - exact acgt_scores_ambiguity_rows.
  - reflexivity.
Defined.

(** X21: in consensus mode ([-1], without [-0]) the threshold is
    [max_score] itself, so every row that [score_seq] prints, on either
    strand, has exactly the best score the motif can reach. *)
Theorem consensus_hits_are_perfect
  (a : args_t) (m0 : motif_t) (c : list Q) (nm : string) (seq : list Z) :
  0 < size m0 <= 50 ->
  List.length (pwm_rc m0) = 250%nat ->
  (forall i j, 0 <= i < size m0 -> 0 <= j < 4 ->
     - 20000 <= get_score_i m0 j i <= 20000) ->
  ambiguity_rows m0 ->
  max_score m0 = 0 ->
  is_consensus a = true -> thresh0 a = false ->
  Z.of_nat (List.length seq) < 2 ^ 63 ->
  let m := scored a m0 c in
  threshold m = max_score m /\
  forall h, In h (score_seq a m nm seq) -> h_score h = max_score m.
Proof.
  intros Hsz Hlen Hsc Hamb Hms Hcons Ht0 Hseq m.
  destruct (scored_fields a m0 c Hsz Hlen Hsc Hms)
    as (Esz & _ & _ & _ & Hmb & Hthr).
  specialize (Hthr Ht0 Hcons). fold m in Esz, Hmb, Hthr.
  split; [exact Hthr |]. intros h Hh.
  apply (score_seq_hits a m nm seq h) in Hh;
    [| rewrite Esz; exact Hsz | exact Hseq
     | rewrite Hthr; unfold INT_MIN, INT_MAX; lia].
  destruct Hh as (i & _ & _ & Hrow).
  destruct (scores_le_max_score a m0 c Hsz Hlen Hsc Hamb Hms seq i)
    as ((_ & H1) & (_ & H2)).
  fold m in H1, H2.
  destruct Hrow as [(-> & Hge) | (_ & -> & Hge)];
    unfold print_res; cbn [h_score]; lia.
Qed.

Lemma consensus_hits_are_perfect_witness :
  let m := scored (consensus_args args) Examples.acgt_scores [] in
  threshold m = max_score m.
Proof.
  intros m.
  refine (proj1 (consensus_hits_are_perfect (consensus_args args)
                   Examples.acgt_scores [] "s" (bytes_of "AAACGTAA")
                   _ _ _ _ _ _ _ _)).
  - vm_compute. split; [reflexivity | discriminate].
  - reflexivity.
  - intros i j Hi Hj. change (size Examples.acgt_scores) with 4 in Hi.
    index_cases Hi; index_cases Hj; vm_compute; split; discriminate.
  - exact acgt_scores_ambiguity_rows.
  - reflexivity.
  - reflexivity.
  - reflexivity.
  - vm_compute. reflexivity.
Defined.

(** X22: with [-0] the threshold is 0 whatever the p-values are, and
    [score_seq] prints a window for a strand exactly when its score on that
    strand is at least 0. *)
Theorem thresh0_reports_nonnegative
  (a : args_t) (m : motif_t) (nm : string) (seq : list Z) (h : hit_t) :
  thresh0 a = true ->
  0 < size m <= 50 ->
  Z.of_nat (List.length seq) < 2 ^ 63 ->
  let m' := set_threshold a m in
  let tab := if mask a then char2maskindex else char2index in
  threshold m' = 0 /\
  (In h (score_seq a m' nm seq) <->
   exists i, 0 <= i /\ i + size m <= Z.of_nat (List.length seq)
     /\ ((h = print_res m' nm seq i (size m) (chr "+")
                (score_subseq m' seq i tab)
          /\ 0 <= score_subseq m' seq i tab)
         \/ (scan_rc a = true
             /\ h = print_res m' nm seq i (size m) (chr "-")
                      (score_subseq_rev m' seq i tab)
             /\ 0 <= score_subseq_rev m' seq i tab))).
Proof.
  intros Ht Hsz Hlen m' tab.
  assert (Hthr : threshold m' = 0).
  { subst m'. unfold set_threshold. cbn [threshold]. by rewrite Ht. }
  split; [exact Hthr |].
  assert (Esz : size m' = size m) by reflexivity.
  pose proof (score_seq_hits a m' nm seq h ltac:(rewrite Esz; exact Hsz) Hlen
                ltac:(rewrite Hthr; unfold INT_MIN, INT_MAX; lia)) as H.
  cbv zeta in H. rewrite Hthr, Esz in H. exact H.
Qed.

Lemma thresh0_reports_nonnegative_witness :
  threshold
    (set_threshold (mk_args [1#4; 1#4; 1#4; 1#4]%Q (1 # 10000) 1000 1 true
                      false true true false false)
       Examples.acgt_scores) = 0.
Proof.
  refine (proj1 (thresh0_reports_nonnegative
                   (mk_args [1#4; 1#4; 1#4; 1#4]%Q (1 # 10000) 1000 1 true
                      false true true false false)
                   Examples.acgt_scores "s" (bytes_of "AAACGTAA")
                   (mk_hit "s" 0 0 0 "M" 0 0 0 []) _ _ _)).
  - reflexivity.
  - change (size Examples.acgt_scores) with 4. lia.
  - vm_compute. reflexivity.
Defined.

End BestScore.

(** ** Scores from probabilities (yamscan.c) *)
Section Scores.
Import Yamscan.
Local Open Scope Q_scope.

Lemma Qinv_le_swap (x y : Q) : 0 < x -> x <= y -> / y <= / x.
Proof.
  intros Hx Hxy. assert (Hy : 0 < y) by lra.
  apply (Qmult_le_r _ _ (x * y)); [apply Qmult_lt_0_compat; assumption |].
  assert (E1 : / y * (x * y) == x) by (field; lra).
  assert (E2 : / x * (x * y) == y) by (field; lra).
  rewrite E1, E2. exact Hxy.
Qed.

(** The model of [(int) (log2(y) * 1000.0)] keeps the order and the sign
    of the logarithm. *)
Lemma log2_milli_mono (y1 y2 : Q) :
  0 < y1 -> y1 <= y2 -> (log2_milli y1 <= log2_milli y2)%Z.
Proof.
  intros H1 H12. unfold log2_milli.
  destruct (Qle_bool 1 y1) eqn:E1, (Qle_bool 1 y2) eqn:E2.
  - apply Z.log2_le_mono, Qfloor_resp_le, Qpower_base_le; [lia | lra | lra].
  - apply Qle_bool_iff in E1.
    assert (H : ~ 1 <= y2)
      by (intros H; apply Qle_bool_iff in H; rewrite H in E2; discriminate).
    exfalso. apply H. lra.
  - pose proof (Z.log2_nonneg (Qfloor ((/ y1) ^ 1000))).
    pose proof (Z.log2_nonneg (Qfloor (y2 ^ 1000))). lia.
  - assert (Hle : (Z.log2 (Qfloor ((/ y2) ^ 1000))
                   <= Z.log2 (Qfloor ((/ y1) ^ 1000)))%Z).
    { apply Z.log2_le_mono, Qfloor_resp_le, Qpower_base_le; [lia | |].
      - apply Qlt_le_weak, Qinv_lt_0_compat. lra.
      - apply Qinv_le_swap; assumption. }
    lia.
Qed.

Lemma log2_milli_sign (y : Q) :
  (1 <= y -> (0 <= log2_milli y)%Z) /\ (y < 1 -> (log2_milli y <= 0)%Z).
Proof.
  unfold log2_milli. split; intros H.
  - apply Qle_bool_iff in H. rewrite H. apply Z.log2_nonneg.
  - destruct (Qle_bool 1 y) eqn:E.
    + apply Qle_bool_iff in E. lra.
    + pose proof (Z.log2_nonneg (Qfloor ((/ y) ^ 1000))). lia.
Qed.

(** The probability that [calc_score] compares with the background: the
    value corrected by the pseudocount. *)
Definition corrected (a : args_t) (p : Q) : Q :=
  (p * inject_Z (nsites a) + inject_Z (pseudocount a) / 4)
  / inject_Z (nsites a + pseudocount a).

(** X23: with the logarithm idealised, [calc_score] never gives a larger
    probability a smaller score, and its sign tells whether the base is
    enriched: the score is at least 0 when the probability, corrected by
    the pseudocount, is at least the background probability, and at most 0
    when it is below. *)
Theorem calc_score_monotone (a : args_t) (p1 p2 b : Q) :
  (0 <= nsites a)%Z -> (0 < pseudocount a)%Z ->
  (nsites a + pseudocount a < 2 ^ 31)%Z ->
  0 < b -> 0 <= p1 -> p1 <= p2 ->
  (calc_score a p1 b <= calc_score a p2 b)%Z /\
  (b <= corrected a p1 -> (0 <= calc_score a p1 b)%Z) /\
  (corrected a p1 < b -> (calc_score a p1 b <= 0)%Z).
Proof.
  intros Hn Hpc Hsum Hb Hp1 Hp12.
  assert (E : forall p, calc_score a p b = log2_milli (corrected a p / b)).
  { intros p. unfold calc_score, corrected. by rewrite s32_small by lia. }
  rewrite !E.
  assert (HN : 0 <= inject_Z (nsites a))
    by (change 0 with (inject_Z 0); rewrite <- Zle_Qle; exact Hn).
  assert (HC : 0 < inject_Z (pseudocount a) / 4).
  { apply Qlt_shift_div_l; [reflexivity |]. rewrite Qmult_0_l.
    change 0 with (inject_Z 0). rewrite <- Zlt_Qlt. exact Hpc. }
  assert (HS : 0 < inject_Z (nsites a + pseudocount a))
    by (change 0 with (inject_Z 0); rewrite <- Zlt_Qlt; lia).
  assert (Hpos : forall p, 0 <= p -> 0 < corrected a p).
  { intros p Hp. unfold corrected. apply Qlt_shift_div_l; [exact HS |].
    rewrite Qmult_0_l.
    pose proof (Qmult_le_0_compat _ _ Hp HN). lra. }
  assert (Hmono : corrected a p1 <= corrected a p2).
  { unfold corrected, Qdiv. apply Qmult_le_compat_r.
    - pose proof (Qmult_le_compat_r _ _ _ Hp12 HN). lra.
    - apply Qlt_le_weak, Qinv_lt_0_compat, HS. }
  assert (Hbi : 0 < / b) by (apply Qinv_lt_0_compat; exact Hb).
  split; [| split].
  - apply log2_milli_mono.
    + unfold Qdiv. apply Qmult_lt_0_compat; [apply Hpos; exact Hp1 | exact Hbi].
    + unfold Qdiv. apply Qmult_le_compat_r; [exact Hmono | lra].
  - intros H. apply log2_milli_sign. apply Qle_shift_div_l; [exact Hb |].
    lra.
  - intros H. apply log2_milli_sign. apply Qlt_shift_div_r; [exact Hb |].
    lra.
Qed.

Lemma calc_score_monotone_witness :
  (calc_score args 0 (1 # 4) <= calc_score args 1 (1 # 4))%Z.
Proof.
  refine (proj1 (calc_score_monotone args 0 1 (1 # 4) _ _ _ _ _ _)).
  - vm_compute. discriminate.
  - reflexivity.
  - reflexivity.
  - reflexivity.
  - vm_compute. discriminate.
  - vm_compute. discriminate.
Defined.

End Scores.

(** ** The letters of a consensus (yamscan.c) *)
Section ConsensusLetters.
Import Yamscan.

(** The letters that [consensus2index] knows: the IUPAC codes of DNA and U,
    in either case. *)
Definition iupac : list Z := bytes_of "ACGTUYRWSKMDVHBNacgtuyrwskmdvhbn".

Lemma consensus2index_iupac (c : Z) :
  (consensus2index c <> -1 <-> In c iupac) /\ -1 <= consensus2index c <= 14.
Proof.
  destruct (Z.lt_ge_cases c 0) as [Hneg | Hnn].
  { unfold consensus2index, aget. destruct (Z.ltb_spec c 0) as [_ | ?]; [| lia].
    split; [| lia]. split; [done |]. intros Hin. exfalso.
    assert (Hpos : forallb (fun x => 0 <=? x) iupac = true)
      by (vm_compute; reflexivity).
    rewrite forallb_forall in Hpos. specialize (Hpos c Hin). lia. }
  destruct (Z.lt_ge_cases c 256) as [Hlt | Hge].
  - assert (H : forallb
                  (fun c =>
                     Bool.eqb (negb (consensus2index c =? -1))
                       (existsb (Z.eqb c) iupac)
                     && (-1 <=? consensus2index c)
                     && (consensus2index c <=? 14))
                  (upto 0 256) = true) by (vm_compute; reflexivity).
    rewrite forallb_forall in H.
    specialize (H c ltac:(apply In_upto; lia)).
    apply andb_prop in H as [H H3]. apply andb_prop in H as [H1 H2].
    split; [| lia]. apply Bool.eqb_prop in H1. split.
    + intros Hne. destruct (Z.eqb_spec (consensus2index c) (-1)); [done |].
      change (negb false) with true in H1.
      symmetry in H1. apply existsb_exists in H1 as (x & Hx & E).
      apply Z.eqb_eq in E. by subst x.
    + intros Hin Heq. rewrite Heq in H1.
      change (negb (-1 =? -1)) with false in H1. symmetry in H1.
      apply not_true_iff_false in H1. apply H1.
      apply existsb_exists. exists c. split; [exact Hin | apply Z.eqb_refl].
  - unfold consensus2index. rewrite aget_oob by (cbn; lia).
    split; [| lia]. split; [done |]. intros Hin. exfalso.
    assert (H : forallb (fun x => x <? 256) iupac = true)
      by (vm_compute; reflexivity).
    rewrite forallb_forall in H. specialize (H c Hin). lia.
Qed.

Lemma init_pwm_ambiguity (pos : Z) :
  0 <= pos < 50 -> aget 0 init_pwm (4 + pos * 5) = AMBIGUITY_SCORE.
Proof.
  intros Hpos.
  assert (H : forallb (fun p => aget 0 init_pwm (4 + p * 5) =? AMBIGUITY_SCORE)
                (upto 0 50) = true) by (vm_compute; reflexivity).
  rewrite forallb_forall in H.
  specialize (H pos ltac:(apply In_upto; lia)). lia.
Qed.

(** The score the loop stores for base [j] at a position with the letter
    [c]. *)
Definition letter_score (a : args_t) (c j : Z) : Z :=
  calc_score a (aget 0%Q consensus2probs (consensus2index c * 4 + j))
    (aget 0%Q (bkg a) j).

(** X24: [add_consensus_motif] accepts a consensus exactly when every
    letter is an IUPAC code of DNA or U, in upper or lower case (ACGTU,
    YRWSKM, DVHB, N); the motif then has one position for each letter, whose
    four scores are those of the probabilities the table gives for the
    letter, and the row of the ambiguous letters keeps its sentinel. *)
Theorem add_consensus_scores_spec (a : args_t) (consensus : string) :
  let cs := bytes_of consensus in
  Z.of_nat (List.length cs) <= 50 ->
  match add_consensus_scores a consensus with
  | None => exists c, In c cs /\ ~ In c iupac
  | Some m =>
      (forall c, In c cs -> In c iupac) /\
      size m = Z.of_nat (List.length cs) /\ name m = consensus /\
      forall pos, 0 <= pos < size m ->
        (forall j, 0 <= j < 4 ->
           get_score_i m j pos = letter_score a (aget 0 cs pos) j) /\
        get_score_i m 4 pos = AMBIGUITY_SCORE
  end.
Proof.
  intros cs Hlen. unfold add_consensus_scores. fold cs.
  set (n := Z.of_nat (List.length cs)) in *.
  set (m0 := mk_motif init_pwm init_pwm [] 0 n 0 0 0 0 0 0 0 consensus).
  change (size m0) with n.
  assert (Hin : forall p, 0 <= p < n -> In (aget 0 cs p) cs).
  { intros p Hp. unfold aget. destruct (Z.ltb_spec p 0); [lia |].
    apply nth_In. lia. }
  pose (P := fun (pos : Z) (st : option motif_t) =>
    match st with
    | None => exists c, In c cs /\ ~ In c iupac
    | Some m =>
        size m = n /\ name m = consensus /\
        List.length (pwm m) = 250%nat /\
        (forall p, 0 <= p < pos -> In (aget 0 cs p) iupac) /\
        forall i j, 0 <= i < 5 -> 0 <= j < 50 ->
          get_score_i m i j
          = if (i <? 4) && (j <? pos) then letter_score a (aget 0 cs j) i
            else aget 0 init_pwm (i + j * 5)
    end).
  match goal with
  | |- match fold_left ?f ?l ?s with _ => _ end =>
      assert (HP : P n (fold_left f l s))
  end.
  { apply (fold_left_upto_ind P); subst P; cbv beta; [lia | |].
    - split; [reflexivity |]. split; [reflexivity |].
      split; [reflexivity |]. split; [intros p Hp; lia |].
      intros i j Hi Hj. destruct (Z.ltb_spec j 0); [lia |].
      rewrite andb_false_r. unfold get_score_i.
      by rewrite cell_index by lia.
    - intros pos [m |] Hpos HP; [| exact HP].
      destruct HP as (Hs & Hn & Hl & Hok & Hv).
      destruct (consensus2index_iupac (aget 0 cs pos)) as (Hiff & Hrange).
      destruct (Z.eqb_spec (consensus2index (aget 0 cs pos)) (-1)) as [E | Hne].
      + exists (aget 0 cs pos). split; [by apply Hin |].
        intros H. by apply Hiff in H.
      + unfold set_score.
        change (char2index (chr "A")) with 0.
        change (char2index (chr "C")) with 1.
        change (char2index (chr "G")) with 2.
        change (char2index (chr "T")) with 3.
        cbn [pwm with_pwm size name].
        rewrite !(cell_index _ pos) by lia.
        split; [exact Hs |]. split; [exact Hn |].
        split; [by rewrite !length_aset |]. split.
        * intros p Hp. destruct (Z.eq_dec p pos) as [-> | Hpp];
            [by apply Hiff | apply Hok; lia].
        * intros i j Hi Hj. unfold get_score_i at 1. cbn [pwm with_pwm].
          rewrite (cell_index i j) by lia.
          rewrite !aget_aset by (rewrite ?length_aset; lia).
          pose proof (Hv i j Hi Hj) as Hold. unfold get_score_i in Hold.
          rewrite (cell_index i j) in Hold by lia. rewrite Hold.
          unfold letter_score.
          destruct (Z.eqb_spec (3 + pos * 5) (i + j * 5)) as [E3 | N3].
          { assert (i = 3 /\ j = pos) as [-> ->] by lia.
            destruct (Z.ltb_spec pos (pos + 1)); [reflexivity | lia]. }
          destruct (Z.eqb_spec (2 + pos * 5) (i + j * 5)) as [E2 | N2].
          { assert (i = 2 /\ j = pos) as [-> ->] by lia.
            destruct (Z.ltb_spec pos (pos + 1)); [reflexivity | lia]. }
          destruct (Z.eqb_spec (1 + pos * 5) (i + j * 5)) as [E1 | N1].
          { assert (i = 1 /\ j = pos) as [-> ->] by lia.
            destruct (Z.ltb_spec pos (pos + 1)); [reflexivity | lia]. }
          destruct (Z.eqb_spec (0 + pos * 5) (i + j * 5)) as [E0 | N0].
          { assert (i = 0 /\ j = pos) as [-> ->] by lia.
            destruct (Z.ltb_spec pos (pos + 1)); [reflexivity | lia]. }
          destruct (Z.ltb_spec i 4), (Z.ltb_spec j pos),
                   (Z.ltb_spec j (pos + 1));
            cbn [andb]; try reflexivity; lia. }
  subst P. cbv beta in HP.
  destruct (fold_left _ _ _) as [m |]; [| exact HP].
  destruct HP as (Hs & Hn & _ & Hok & Hv).
  split.
  { intros c Hc. apply (In_nth _ _ 0) in Hc as (p & Hp & <-).
    rewrite <- aget_nth. apply Hok. lia. }
  split; [exact Hs |]. split; [exact Hn |].
  intros pos Hpos. rewrite Hs in Hpos. split.
  - intros j Hj. rewrite (Hv j pos ltac:(lia) ltac:(lia)).
    destruct (Z.ltb_spec j 4), (Z.ltb_spec pos n); cbn [andb];
      try reflexivity; lia.
  - rewrite (Hv 4 pos ltac:(lia) ltac:(lia)). cbn [Z.ltb andb].
    apply init_pwm_ambiguity. lia.
Qed.

(** ACGU is accepted and ACGX is not. *)
Lemma add_consensus_scores_spec_witness :
  (exists m, add_consensus_scores args "ACGU" = Some m /\ size m = 4) /\
  add_consensus_scores args "ACGX" = None.
Proof.
  split.
  - pose proof (add_consensus_scores_spec args "ACGU" ltac:(cbn; lia)) as H.
    destruct (add_consensus_scores args "ACGU") as [m |].
    + exists m. split; [reflexivity |]. exact (proj1 (proj2 H)).
    + exfalso. destruct H as (c & Hc & Hn). apply Hn.
      cbn in Hc. destruct Hc as [<- | [<- | [<- | [<- | []]]]];
        vm_compute; tauto.
  - pose proof (add_consensus_scores_spec args "ACGX" ltac:(cbn; lia)) as H.
    destruct (add_consensus_scores args "ACGX") as [m |]; [| reflexivity].
    exfalso. destruct H as (Hall & _).
    specialize (Hall 88 ltac:(cbn; tauto)).
    assert (Hx : existsb (Z.eqb 88) iupac = false) by (vm_compute; reflexivity).
    apply not_true_iff_false in Hx. apply Hx.
    apply existsb_exists. exists 88. split; [exact Hall | reflexivity].
Defined.

End ConsensusLetters.

(** ** The strand of a BED range (yamscan.c) *)
Section BedStrand.
Import Yamscan.

(** X25: the rows that [score_seq_in_bed] prints carry the range and the
    name of its sequence, and their strand follows the strand field of the
    range: forward rows only for [+], reverse rows only for [-], both for
    [.], and no row for any other character.  The option [-f]
    ([scan_rc]) plays no part. *)
Theorem bed_rows_follow_range_strand
  (a : args_t) (m : motif_t) (seq : list Z) (b : bed_region) :
  score_seq_in_bed
    (mk_args (bkg a) (pvalue a) (nsites a) (pseudocount a)
       (negb (scan_rc a)) (dedup a) (trim_names a) (thresh0 a) (mask a)
       (is_consensus a)) m seq b
  = score_seq_in_bed a m seq b /\
  forall row, In row (score_seq_in_bed a m seq b) ->
    fst row = b /\ h_seq_name (snd row) = b_seq_name b /\
    h_motif (snd row) = name m /\
    ((b_strand b = chr "." /\
      (h_strand (snd row) = chr "+" \/ h_strand (snd row) = chr "-"))
     \/ (b_strand b = chr "+" /\ h_strand (snd row) = chr "+")
     \/ (b_strand b = chr "-" /\ h_strand (snd row) = chr "-")).
Proof.
  split; [reflexivity |]. intros row Hin.
  unfold score_seq_in_bed in Hin.
  destruct (_ || _)%bool; [destruct Hin |].
  assert (Hrow : forall i strand score,
            row = (b, print_res m (b_seq_name b) seq i (s32 (size m)) strand
                        score) ->
            fst row = b /\ h_seq_name (snd row) = b_seq_name b /\
            h_motif (snd row) = name m /\ h_strand (snd row) = strand).
  { intros i strand score ->. repeat split. }
  destruct (Z.eqb_spec (b_strand b) (chr ".")) as [Ed | _].
  { apply in_flat_map in Hin as (i & _ & Hr).
    destruct (score_subseq_rc m seq i _) as [sc rc].
    apply in_app_or in Hr as [Hr | Hr];
      (destruct (_ <? _); [| destruct Hr]);
      destruct Hr as [Hr | []]; symmetry in Hr;
      destruct (Hrow _ _ _ Hr) as (R1 & R2 & R3 & R4);
      (split; [exact R1 |]); (split; [exact R2 |]); (split; [exact R3 |]);
      left; (split; [exact Ed |]); [left | right]; exact R4. }
  destruct (Z.eqb_spec (b_strand b) (chr "+")) as [Ep | _].
  { apply in_flat_map in Hin as (i & _ & Hr).
    destruct (_ <? _); [| destruct Hr].
    destruct Hr as [Hr | []]. symmetry in Hr.
    destruct (Hrow _ _ _ Hr) as (R1 & R2 & R3 & R4).
    split; [exact R1 |]. split; [exact R2 |]. split; [exact R3 |].
    right. left. split; [exact Ep | exact R4]. }
  destruct (Z.eqb_spec (b_strand b) (chr "-")) as [Em | _]; [| destruct Hin].
  apply in_flat_map in Hin as (i & _ & Hr).
  destruct (_ <? _); [| destruct Hr].
  destruct Hr as [Hr | []]. symmetry in Hr.
  destruct (Hrow _ _ _ Hr) as (R1 & R2 & R3 & R4).
  split; [exact R1 |]. split; [exact R2 |]. split; [exact R3 |].
  right. right. split; [exact Em | exact R4].
Qed.

End BedStrand.

(** ** The warning of the Markov mode (yamshuf.c) *)
Section MarkovWarning.
Import Yamshuf.

(** How often the Markov warning was printed. *)
Definition markov_warnings (o : out_t) : nat :=
  count_occ string_dec (o_warnings o) warn_markov.

(** The flag [markov_warning_has_been_emitted] tells whether the warning
    is among those printed. *)
Definition warned_once (a : args_t) (o : out_t) : Prop :=
  (markov_warnings o <= 1)%nat /\
  (o_markov_warned o = false -> markov_warnings o = 0%nat) /\
  ((0 < markov_warnings o)%nat -> use_markov a = true /\ arg_v a = true).

Lemma main_record_warned_once (fuel : nat) (a : args_t) (r : kseq_t)
  (o o' : out_t) :
  warned_once a o -> main_record fuel a r o = Some o' -> warned_once a o'.
Proof.
  intros (H1 & H2 & H3) Hm. unfold main_record in Hm. cbv zeta in Hm.
  assert (Hkeep : forall ws g w,
            warned_once a
              (mk_out (o_written o ++ ws) (o_warnings o ++ []) w g)
            <-> warned_once a (mk_out ws (o_warnings o) w g)).
  { intros ws g w. unfold warned_once, markov_warnings. cbn [o_warnings
      o_markov_warned]. by rewrite app_nil_r. }
  assert (Hsame : forall ws g,
            warned_once a (mk_out ws (o_warnings o) (o_markov_warned o) g)).
  { intros ws g. unfold warned_once, markov_warnings.
    cbn [o_warnings o_markov_warned]. done. }
  destruct (_ <? _) in Hm.
  { inversion Hm; subst o'. unfold warned_once, markov_warnings.
    cbn [o_warnings o_markov_warned]. rewrite count_occ_app.
    assert (E : count_occ string_dec (if arg_v a then [warn_short] else [])
                  warn_markov = 0%nat) by (destruct (arg_v a); reflexivity).
    rewrite E, Nat.add_0_r. done. }
  destruct (arg_k a =? 1) in Hm.
  { destruct (rep_loop _ _ _ _ _ _) as [[ws g'] |] in Hm; [| discriminate].
    inversion Hm; subst o'. apply Hkeep, Hsame. }
  destruct (negb (use_linear a) && negb (use_markov a)) in Hm.
  { destruct (rep_loop _ _ _ _ _ _) as [[ws g'] |] in Hm; [| discriminate].
    inversion Hm; subst o'. apply Hkeep, Hsame. }
  destruct (use_linear a) in Hm.
  { destruct (rep_loop _ _ _ _ _ _) as [[ws g'] |] in Hm; [| discriminate].
    inversion Hm; subst o'. apply Hkeep, Hsame. }
  destruct (use_markov a) eqn:Emk in Hm.
  - destruct (rep_loop _ _ _ _ _ _) as [[ws g'] |] in Hm; [| discriminate].
    inversion Hm; subst o'. clear Hm.
    unfold warned_once, markov_warnings.
    cbn [o_warnings o_markov_warned]. rewrite count_occ_app.
    destruct (_ <? 100); cbn [andb];
      [| rewrite Nat.add_0_r; cbn [orb count_occ]; auto].
    destruct (arg_v a) eqn:Ev; cbn [andb];
      [| rewrite Nat.add_0_r; cbn [orb count_occ]; auto].
    destruct (o_markov_warned o) eqn:Ew; cbn [negb orb].
    + cbn [count_occ]. rewrite Nat.add_0_r. auto.
    + specialize (H2 eq_refl). unfold markov_warnings in H2. rewrite H2.
      assert (E : count_occ string_dec [warn_markov] warn_markov = 1%nat)
        by reflexivity.
      rewrite E. split; [lia |]. split; [discriminate | auto].
  - inversion Hm; subst o'. apply Hsame.
Qed.

(** X26: the warning about Markov shuffling of small sequences is printed
    at most once per run, however many records are read, and only in Markov
    mode with [-v]. *)
Theorem main_loop_warns_markov_once (fuel : nat) (a : args_t)
  (rs : list kseq_t) (g : krng_t) (o : out_t) :
  main_loop fuel a rs g = Some o ->
  (markov_warnings o <= 1)%nat /\
  ((0 < markov_warnings o)%nat -> use_markov a = true /\ arg_v a = true).
Proof.
  unfold main_loop.
  assert (H0 : warned_once a (mk_out [] [] false g)).
  { unfold warned_once, markov_warnings. cbn. split; [lia |].
    split; [done | lia]. }
  revert H0. generalize (mk_out [] [] false g).
  induction rs as [| r rs IH]; intros o0 H0 Hm; cbn [fold_left] in Hm.
  - inversion Hm; subst o. destruct H0 as (H1 & _ & H3). by split.
  - destruct (main_record fuel a r o0) as [o1 |] eqn:E.
    + apply (IH o1); [| exact Hm].
      by apply (main_record_warned_once fuel a r o0 o1).
    + exfalso. clear -Hm. induction rs as [| r' rs IH]; [discriminate |].
      by apply IH.
Qed.

(** Two small records in Markov mode with [-v]. *)
Lemma main_loop_warns_markov_once_witness :
  let a := mk_args 2 false true false false true 0 in
  let rs := [mk_kseq "s1" "" (bytes_of "ACGTACGT");
             mk_kseq "s2" "" (bytes_of "AACCGGTT")] in
  exists o,
    main_loop 0 a rs (mk_krng (fun n => Z.of_nat n * 7919 + 5) 0) = Some o /\
    (markov_warnings o <= 1)%nat.
Proof.
  intros a rs.
  destruct (main_loop 0 a rs (mk_krng (fun n => Z.of_nat n * 7919 + 5) 0))
    as [o |] eqn:E.
  - exists o. split; [reflexivity |].
    exact (proj1 (main_loop_warns_markov_once _ _ _ _ _ E)).
  - exfalso. vm_compute in E. discriminate.
Defined.

End MarkovWarning.

(** ** Motifs and threads (yamscan.c) *)
Section Threads.
Import Yamscan.

Lemma thread_quotient (i n nthreads : Z) :
  0 <= i < n -> 0 < nthreads ->
  (0 <= inject_Z i / inject_Z n * inject_Z nthreads)%Q /\
  (inject_Z i / inject_Z n * inject_Z nthreads < inject_Z nthreads)%Q.
Proof.
  intros Hi Ht.
  assert (Hn : (0 < inject_Z n)%Q)
    by (change 0%Q with (inject_Z 0); rewrite <- Zlt_Qlt; lia).
  assert (Hi0 : (0 <= inject_Z i)%Q)
    by (change 0%Q with (inject_Z 0); rewrite <- Zle_Qle; lia).
  assert (Hin : (inject_Z i < inject_Z n)%Q) by (rewrite <- Zlt_Qlt; lia).
  assert (Ht0 : (0 < inject_Z nthreads)%Q)
    by (change 0%Q with (inject_Z 0); rewrite <- Zlt_Qlt; lia).
  assert (Hq0 : (0 <= inject_Z i / inject_Z n)%Q).
  { apply Qle_shift_div_l; [exact Hn |]. by rewrite Qmult_0_l. }
  assert (Hq1 : (inject_Z i / inject_Z n < 1)%Q).
  { apply Qlt_shift_div_r; [exact Hn |]. by rewrite Qmult_1_l. }
  split.
  - apply Qmult_le_0_compat; [exact Hq0 | by apply Qlt_le_weak].
  - rewrite <- (Qmult_1_l (inject_Z nthreads)) at 2.
    by apply Qmult_lt_compat_r.
Qed.

(** X27: with doubles idealised as rationals, every motif is given a thread
    number below [nthreads], so it is scanned by exactly one of the
    threads and [cdf[motif->thread]] is one of the [nthreads] buffers; a
    later motif never gets a smaller thread number. *)
Theorem motif_thread_in_range (i n nthreads : Z) :
  0 <= i < n -> 0 < nthreads < 2 ^ 31 ->
  0 <= motif_thread i n nthreads < nthreads /\
  (forall j, i <= j < n ->
     motif_thread i n nthreads <= motif_thread j n nthreads) /\
  (forall t, In i (thread_motifs n nthreads t)
             <-> t = motif_thread i n nthreads).
Proof.
  intros Hi Ht.
  assert (Hr : forall j, 0 <= j < n ->
            0 <= Qfloor (inject_Z j / inject_Z n * inject_Z nthreads)
              < nthreads).
  { intros j Hj. destruct (thread_quotient j n nthreads Hj ltac:(lia))
      as (H0 & H1).
    split.
    - change 0 with (Qfloor 0). by apply Qfloor_resp_le.
    - rewrite Zlt_Qlt. eapply Qle_lt_trans; [apply Qfloor_le | exact H1]. }
  assert (E : forall j, 0 <= j < n ->
            motif_thread j n nthreads
            = Qfloor (inject_Z j / inject_Z n * inject_Z nthreads)).
  { intros j Hj. unfold motif_thread. apply u64_small.
    specialize (Hr j Hj). lia. }
  split; [rewrite (E i Hi); apply Hr; exact Hi |]. split.
  - intros j Hj. rewrite (E i Hi), (E j ltac:(lia)).
    apply Qfloor_resp_le.
    assert (Hn : (0 < inject_Z n)%Q)
      by (change 0%Q with (inject_Z 0); rewrite <- Zlt_Qlt; lia).
    apply Qmult_le_compat_r.
    + unfold Qdiv. apply Qmult_le_compat_r.
      * rewrite <- Zle_Qle. lia.
      * apply Qlt_le_weak, Qinv_lt_0_compat, Hn.
    + change 0%Q with (inject_Z 0). rewrite <- Zle_Qle. lia.
  - intros t. unfold thread_motifs. rewrite List.filter_In, In_upto.
    rewrite Z.eqb_eq. tauto.
Qed.

Lemma motif_thread_in_range_witness :
  0 <= motif_thread 5 7 4 < 4.
Proof.
  refine (proj1 (motif_thread_in_range 5 7 4 _ _)); lia.
Defined.

End Threads.
